(* ===== verification/_CoqProject ===== *)
-Q . S2P
Prelude.v
AsyncIo.v
Conn.v
Cursor.v
Relay.v
Select.v
Pumps.v
Common.v
Trojan.v
Socks5.v
Stream.v
GrpcStream.v
Packet.v
SocketAddrText.v
Config.v
TcpAcceptor.v
Bounds.v
TcpHandler.v
GrpcProxy.v
UdpRelays.v
QuicRelays.v
Server.v
Interleaving.v
Chain.v
Startup.v
