(* ===== verification/Prelude.v ===== *)
(** * A verification development for trojan-rust

    trojan-rust is a proxy.  A server accepts connections (or gRPC calls, or QUIC
    streams), reads a request from each in the Trojan or SOCKS5 protocol, and
    relays the rest of the connection to the destination of the request, directly
    or through a remote Trojan proxy reached over TCP, TLS, gRPC or QUIC.  This
    library models the compiled code under src/ as executable functions and
    proves what makes it correct, or states what the code does where that is
    not what one would want.

    ** How the program is modelled

    - An [async fn] is a function [io S A], from the state of the resources it
      uses to their state afterwards and an [outcome]: [Ok], [Err], a panic, or
      [Pending] for a wait that never ends.  [let?] is [.await?].  A [loop] is
      [Prelude.loop] with a fuel: [Running] is the loop still going after that
      many iterations, and every theorem about a loop holds for every fuel or
      says how many iterations the claimed result takes.
    - What is not in the repository is a parameter: the tokio traits for readers
      and writers with the contracts [ByteSource], [ByteSink], [ByteDuplex] and
      [ReliableSink] (AsyncIo.v), [tokio::io::copy] ([TokioCopy], Select.v), UDP
      sockets and channels (Packet.v), the hunk stream (GrpcStream.v), name
      resolution (Common.v), files, JSON, rustls and SHA-224 (Config.v), TLS
      sessions (TcpAcceptor.v, TcpHandler.v), dialling, tonic's and quinn's
      clients (TcpHandler.v), listening sockets (Server.v), tonic's server and
      quinn's endpoint (Startup.v).  Every contract has a
      concrete instance, on which the witnesses of the theorems run: [Conn] and
      [Cursor], [Joined], [buffered_copy], the [..Script]s and the [demo_..]s.
    - [tokio::select!] runs two loops cut at their awaits into steps, taking an
      item and putting it, under a schedule, a list that says which loop is
      polled next.  A theorem for all schedules is a theorem for all
      interleavings of the two loops; no fuel is involved.
    - The servers are transition systems: accepting a connection, failing to,
      and running the task of a connection, whose steps are those of the
      [select!] under any schedule.  Tasks share only the network and the two
      write-once cells of the acceptor and the handler.  For the TCP server the
      task is also taken apart, down to the single poll of one direction, with
      the steps of all tasks interleaved, and the two systems are proved
      equivalent (Interleaving.v).
    - Integers keep their width: a [u8] is a [byte], wider ones are [Z] with
      their casts ([as_u8], [as_u16]) and ranges ([u16_ok], ..) explicit.

    ** The files

    - Prelude: bytes and integers, [outcome], the monad, loops, slices, tactics.
    - AsyncIo, Conn, Cursor: the I/O interface and its contracts; the lemmas that
      lift the contracts to [read_exact], [write_all] and whole computations
      ([refines], [follows], [reads], [consumes], [emits], [flushes], [quiet],
      [still]); an in-memory connection; [Cursor<Vec<u8>>].
    - Relay, Select, Pumps: a relay loop ([pump]), what any number of its
      iterations does and when it ends; two relays at once under a schedule; the
      relays whose directions are loops of the sources ([pumps_relay]).
    - Common: src/protocol/common (without stream.rs) and src/proxy/base.rs.
    - Trojan: src/protocol/trojan/{base,parser,mod}.rs.
    - Socks5: src/protocol/socks5.
    - Stream: src/protocol/common/stream.rs.
    - GrpcStream: src/transport/grpc_stream.rs.
    - Packet: src/protocol/trojan/packet.rs.
    - SocketAddrText: the standard library's parser of socket addresses.
    - Config: src/config and the secret derived from the password.
    - TcpAcceptor, TcpHandler: src/proxy/tcp/{acceptor,handler}.rs.
    - Bounds: how much the parsers and the acceptors read, on which bytes their
      verdict depends, what they return; termination of the packet loops.
    - GrpcProxy: src/proxy/grpc/{acceptor,handler,server}.rs, one call.
    - UdpRelays, QuicRelays: the UDP paths and the QUIC path of the handlers.
    - Server: src/proxy/tcp/server.rs and a stream of src/proxy/quic/server.rs.
    - Interleaving: the TCP server step by step.
    - Chain: a SOCKS5 client, a local and a remote instance, end to end.
    - Startup: src/main.rs, [start] of the gRPC and QUIC servers with their calls
      and connections, and the theorems from the configuration file on.

    A Rust method [T::m] is the definition [m], or [T_m] where several types have
    an [m]; a record has the fields of the struct, prefixed where names clash;
    an enum has the source's constructors.  A loop is [<fn>_body] and the [loop]
    over it, under the name of the function.

    ** What is proved

    - Authentication.  The Trojan acceptor of the TCP server hands a connection
      on only if it began with the hexadecimal SHA-224 of the configured password
      ([tcp_accept_requires_password], [password_decides],
      [missing_password_rejects_all]), hence in every reachable state of the
      server only such connections reach the outbound handler
      ([server_authenticates]), and so when the tasks interleave step by step,
      from the configuration file on ([main_tcp_requires_password]); likewise for gRPC calls, whatever hunks the
      caller sends ([grpc_call_requires_password], [tun_authenticates],
      [grpc_server_authenticates], [main_grpc_requires_password]).
      The QUIC server checks nothing ([quic_serves_anyone],
      [main_quic_ignores_secret]).
    - TLS material that cannot be read: the gRPC server fails
      ([grpc_start_fails_closed]), the QUIC server panics
      ([quic_start_requires_tls]), the TCP server goes on in clear
      ([tls_downgrade], [missing_certificate_policy]).
    - Bounds and termination.  A verdict on a peer is reached within 320 bytes
      (54 for SOCKS5) and depends on them alone ([accept_decides_early],
      [tcp_accept_bounded]), requests are well typed ([tcp_accept_well_typed]);
      the packet loops end within [n / 8 + 1] iterations on [n] bytes and do not
      amplify ([udp_forwarding_terminates], [udp_delivery_terminates]).
    - The header protocol.  [parse] is sound and complete for the header grammar
      [wire_header], on every reader and under every fragmentation, and never
      panics ([parse_sound], [parse_complete], [parse_truncated],
      [parse_outcomes]); handshake and accept are inverse for IP destinations
      ([handshake_accept_roundtrip]) and cannot be for domain names
      ([handshake_domain_no_roundtrip]).  The SOCKS5 dialogue, its two replies
      and what a refused reply does: [socks_accept_request],
      [socks_accept_dialogue]; the misread domain names,
      [socks_parse_domain_misread].
    - Transports.  [GrpcDataReaderStream::poll_read] is equivalent to a one-line
      reference, conserves bytes while its stream is open, and makes any lawful
      component work over gRPC ([grpc_poll_*], [grpc_parse_refines]); bytes lost
      at the end of the stream, [grpc_tail_lost].
    - Relays.  Both directions deliver prefixes of what was sent, in order,
      under every interleaving, on every path: [direct_tcp_relays], [proxy_chain]
      and [proxy_udp_tunnel] (composed with the accept, and the forwarding loop,
      of the remote server), [grpc_proxy_forwards], [grpc_proxy_udp],
      [quic_proxy_chain], [hunk_connect_relays], [hunk_udp_relays],
      [direct_udp_relays]; the replies of the UDP paths are the datagrams that
      arrived, none missing ([delivered]).  The proxied paths are stated for
      requests to IP addresses, because domain names do not survive the header.
      For all connections of a server at once, at every moment of every
      interleaving, with the password and the request each began with:
      [server_relays_prefixes] (Interleaving.v, which also proves that the coarse
      server of Server.v shows the same states, [interleaving_refines]).  All the
      way from a SOCKS5 client through two instances to the destination,
      [socks_chain]; completion, termination and the cut after a half-close,
      [quic_relay_completes], [direct_tcp_ends], [direct_tcp_half_close].  UDP packets survive the tunnel end to end:
      [udp_tunnel_end_to_end], [udp_tunnel_back], [grpc_udp_tunnel],
      [client_packets_forwarded], [udp_replies_framed].
    - Errors: what bad packets, ended streams and failing sockets do
      ([client_bad_packet_panics], [client_eof_spins],
      [server_stops_only_on_accept], [quic_server_outlives_tasks]).

    ** What is not modelled

    - The parsing of the command line and the logger set up by src/main.rs, the
      module declarations; src/protocol/direct/outbound.rs, which no module
      declaration includes; build.rs and the code it generates.
    - Logging, the values interpolated into messages of errors, buffering policy
      of [BufReader] and [BufWriter] (their streams are parameters of the same
      contracts), capacities (a channel's capacity only delays its sender), and
      closing of resources on drop.
    - The calls on the network a handler makes before its relay are one step, as
      is accepting a socket; the tasks of the gRPC and QUIC servers run in one
      step each, their two directions interleaved.  The polls of a relay act on
      its own two ends only, by the type of its directions.
    - A put is one step, although it may await several times ([write_reply]): the
      branch that loses a [select!] is dropped between its takes and puts, never
      inside one.  What the theorems say of the last item put (it may be cut off)
      is what such a drop could leave.
    - A wait that returns [Pending] for good stops its direction; one that is
      woken again is, for its caller, a call that took longer and is not seen.
    - Name resolution is a fixed function: a name does not change its addresses
      while the program runs.
    - After [start] of the TCP server has returned the model lets its tasks go on;
      the program ends them then.  The states of the model include those of the
      program.

    ** Planned extensions, in this order

    - the tasks of the gRPC and QUIC servers step by step, as Interleaving.v has
      those of the TCP server;
    - the requests the SOCKS5 dialogue refuses;
    - IPv6 destinations in [SocketAddrText], and the text of addresses. *)

From Stdlib Require Import ZArith Lia.
From Stdlib Require Import Strings.Byte.
From stdpp Require Import base list strings numbers relations.

#[local] Open Scope Z_scope.

(** ** Machine integers and bytes

    A [u8] is a [byte]; wider unsigned integers are kept in [Z] with their
    range written out where it matters.  [as u8] and [as u16] wrap. *)

(** The value of a byte, [0..255]. *)
Definition u8_to_Z (b : byte) : Z := Z.of_N (Byte.to_N b).

(** The cast [z as u8]. *)
Definition as_u8 (z : Z) : byte :=
  default x00 (Byte.of_N (Z.to_N (z mod 256))).

(** The cast [z as u16]. *)
Definition as_u16 (z : Z) : Z := z mod 65536.

(** The range predicates of the fixed-width integers. *)
Definition u16_ok (z : Z) : Prop := 0 <= z < 65536.
Definition u32_ok (z : Z) : Prop := 0 <= z < 4294967296.
Definition u128_ok (z : Z) : Prop :=
  0 <= z < 340282366920938463463374607431768211456.

#[export] Instance byte_eq_dec : EqDecision byte := Byte.byte_eq_dec.

Lemma u8_to_Z_range b : 0 <= u8_to_Z b < 256.
Proof.
  unfold u8_to_Z. pose proof (Byte.to_N_bounded b). lia.
Qed.

Lemma u8_to_as_u8 z : u8_to_Z (as_u8 z) = z mod 256.
Proof.
  unfold u8_to_Z, as_u8.
  assert (0 <= z mod 256 < 256) by (apply Z.mod_pos_bound; lia).
  destruct (Byte.of_N (Z.to_N (z mod 256))) as [b|] eqn:E; simpl.
  - apply Byte.to_of_N in E. rewrite E. lia.
  - apply Byte.of_N_None_iff in E. lia.
Qed.

Lemma as_u8_to_Z b : as_u8 (u8_to_Z b) = b.
Proof. by destruct b. Qed.

#[export] Instance u8_to_Z_inj : Inj (=) (=) u8_to_Z.
Proof. intros a b H. by rewrite <- (as_u8_to_Z a), H, as_u8_to_Z. Qed.

(** ** Big-endian encoding

    [be_bytes n z] is the [n]-byte big-endian representation of [z] (what
    [to_be_bytes] and the [write_uN] methods produce), [be_val] the value of a
    big-endian byte sequence (what the [read_uN] methods compute). *)

Fixpoint be_bytes (n : nat) (z : Z) : list byte :=
  match n with
  | O => []
  | S m => as_u8 (z / 256 ^ Z.of_nat m) :: be_bytes m z
  end.

Fixpoint be_val (bs : list byte) : Z :=
  match bs with
  | [] => 0
  | b :: bs' => u8_to_Z b * 256 ^ Z.of_nat (length bs') + be_val bs'
  end.

Lemma length_be_bytes n z : length (be_bytes n z) = n.
Proof. induction n; simpl; congruence. Qed.

Lemma pow256_succ n : 256 ^ Z.of_nat (S n) = 256 * 256 ^ Z.of_nat n.
Proof. rewrite Nat2Z.inj_succ, Z.pow_succ_r; lia. Qed.

Lemma pow256_pos n : 0 < 256 ^ Z.of_nat n.
Proof. apply Z.pow_pos_nonneg; lia. Qed.

Lemma be_val_range bs : 0 <= be_val bs < 256 ^ Z.of_nat (length bs).
Proof.
  induction bs as [|b bs IH]; [simpl; lia|].
  cbn [be_val length]. rewrite pow256_succ.
  pose proof (u8_to_Z_range b). nia.
Qed.

Lemma be_val_be_bytes n z : be_val (be_bytes n z) = z mod 256 ^ Z.of_nat n.
Proof.
  induction n as [|n IH]; [by rewrite Z.mod_1_r|].
  cbn [be_bytes be_val]. rewrite length_be_bytes, u8_to_as_u8, IH, pow256_succ.
  pose proof (pow256_pos n) as Hp.
  rewrite (Z.mul_comm 256), Z.rem_mul_r by lia. lia.
Qed.

Lemma be_val_be_bytes_small n z :
  0 <= z < 256 ^ Z.of_nat n -> be_val (be_bytes n z) = z.
Proof. intros H. by rewrite be_val_be_bytes, Z.mod_small. Qed.

(** A leading term that is a multiple of [256^n] is not seen by [be_bytes n]. *)
Lemma be_bytes_add_mul n k z :
  be_bytes n (k * 256 ^ Z.of_nat n + z) = be_bytes n z.
Proof.
  revert k; induction n as [|n IH]; intros k; [done|].
  cbn [be_bytes]. pose proof (pow256_pos n) as Hp.
  rewrite pow256_succ. f_equal.
  - apply (inj u8_to_Z). rewrite !u8_to_as_u8.
    replace (k * (256 * 256 ^ Z.of_nat n) + z)
      with (z + (k * 256) * 256 ^ Z.of_nat n) by lia.
    rewrite Z.div_add by lia. by rewrite Z.mod_add by lia.
  - replace (k * (256 * 256 ^ Z.of_nat n)) with (k * 256 * 256 ^ Z.of_nat n) by lia.
    apply IH.
Qed.

Lemma be_bytes_be_val bs : be_bytes (length bs) (be_val bs) = bs.
Proof.
  induction bs as [|b bs IH]; [done|].
  cbn [be_bytes be_val length]. f_equal.
  - pose proof (be_val_range bs).
    rewrite Z.div_add_l, Z.div_small, Z.add_0_r by lia. apply as_u8_to_Z.
  - by rewrite be_bytes_add_mul.
Qed.

Lemma be_bytes_val_n n bs : length bs = n -> be_bytes n (be_val bs) = bs.
Proof. intros <-. apply be_bytes_be_val. Qed.

Lemma be_val_singleton b : be_val [b] = u8_to_Z b.
Proof. simpl. lia. Qed.

(** ** Errors and outcomes *)

(** The kinds of [std::io::ErrorKind] the sources build or the I/O library
    documents; [OtherKind] stands for every other kind an external call may
    report. *)
Inductive ErrorKind :=
| Unsupported | InvalidInput | InvalidData | ConnectionReset
| ConnectionRefused | BrokenPipe | UnexpectedEof | WriteZero | NotConnected
| AddrNotAvailable | Interrupted | OtherKind.

#[export] Instance ErrorKind_eq_dec : EqDecision ErrorKind.
Proof. solve_decision. Defined.

(** [std::io::Error::new(kind, message)].  Where the source interpolates
    arguments into the message, the model keeps the literal text. *)
Record Error := mkError { kind : ErrorKind; message : string }.

#[export] Instance Error_eq_dec : EqDecision Error.
Proof. solve_decision. Defined.

(** What awaiting a future yields: it resolves to [Ok] or [Err], it panics
    ([panic!], [unwrap], [assert!], a slice out of range), or it stays pending
    for ever because its environment never makes progress.  A synchronous
    function uses the first three only. *)
Inductive outcome (A : Type) :=
| Ok (a : A)
| Err (e : Error)
| Panic (msg : string)
| Pending.
Arguments Ok {A} a.
Arguments Err {A} e.
Arguments Panic {A} msg.
Arguments Pending {A}.

#[export] Instance outcome_eq_dec `{EqDecision A} : EqDecision (outcome A).
Proof. solve_decision. Defined.

Definition outcome_map {A B} (f : A -> B) (o : outcome A) : outcome B :=
  match o with
  | Ok a => Ok (f a)
  | Err e => Err e
  | Panic p => Panic p
  | Pending => Pending
  end.

Definition is_ok {A} (o : outcome A) : bool :=
  match o with Ok _ => true | _ => false end.

Definition is_panic {A} (o : outcome A) : bool :=
  match o with Panic _ => true | _ => false end.

(** ** The effect monad

    An [async fn] working on resources of type [S] is a function that returns
    the resources after it and its outcome.  Binding is the [.await?] of the
    source: the continuation runs on [Ok], everything else is propagated with
    the state reached so far. *)

Definition io (S A : Type) : Type := S -> S * outcome A.

Definition io_ret {S A} (a : A) : io S A := fun s => (s, Ok a).

Definition io_bind {S A B} (m : io S A) (k : A -> io S B) : io S B := fun s =>
  match m s with
  | (s', Ok a) => k a s'
  | (s', Err e) => (s', Err e)
  | (s', Panic p) => (s', Panic p)
  | (s', Pending) => (s', Pending)
  end.

(** [return Err(e)], [panic!(..)] and the use of a synchronous result. *)
Definition io_err {S A} (e : Error) : io S A := fun s => (s, Err e).
Definition io_panic {S A} (p : string) : io S A := fun s => (s, Panic p).
Definition io_lift {S A} (o : outcome A) : io S A := fun s => (s, o).

(** [match m.await { Err(e) => return Err(f(e)), .. }] *)
Definition io_map_err {S A} (f : Error -> Error) (m : io S A) : io S A := fun s =>
  match m s with
  | (s', Err e) => (s', Err (f e))
  | r => r
  end.

(** Running an operation on one half of a pair of resources. *)
Definition on_fst {S T A} (m : io S A) : io (S * T) A := fun st =>
  let '(s', o) := m st.1 in ((s', st.2), o).
Definition on_snd {S T A} (m : io T A) : io (S * T) A := fun st =>
  let '(t', o) := m st.2 in ((st.1, t'), o).

Declare Scope io_scope.
Delimit Scope io_scope with io.
Notation "'let?' x := c 'in' k" := (io_bind c (fun x => k))
  (at level 10, x binder, c at level 100, k at level 200,
   format "'[v' 'let?'  x  :=  c  'in' '/' k ']'") : io_scope.
Notation "c ;;? k" := (io_bind c (fun _ => k))
  (at level 100, k at level 200, right associativity,
   format "'[v' c  ;;? '/' k ']'") : io_scope.
#[global] Open Scope io_scope.

(** Pointwise equality of computations: the equivalence the monad laws hold
    for without an appeal to functional extensionality. *)
Definition io_eq {S A} (m1 m2 : io S A) : Prop := forall s, m1 s = m2 s.

#[export] Instance io_eq_equiv {S A} : Equivalence (@io_eq S A).
Proof.
  split; [by intros m s | by intros m1 m2 H s |].
  intros m1 m2 m3 H1 H2 s. by rewrite H1.
Qed.

#[export] Instance io_bind_proper {S A B} :
  Proper (io_eq ==> pointwise_relation A io_eq ==> io_eq) (@io_bind S A B).
Proof.
  intros m1 m2 Hm k1 k2 Hk s. unfold io_bind. rewrite Hm.
  destruct (m2 s) as [s' []]; simpl; auto. apply Hk.
Qed.

Lemma io_bind_ret_l {S A B} (a : A) (k : A -> io S B) :
  io_eq (io_bind (io_ret a) k) (k a).
Proof. by intros s. Qed.

Lemma io_bind_ret_r {S A} (m : io S A) : io_eq (io_bind m io_ret) m.
Proof. intros s. unfold io_bind. by destruct (m s) as [s' []]. Qed.

Lemma io_bind_assoc {S A B C} (m : io S A) (f : A -> io S B) (g : B -> io S C) :
  io_eq (io_bind (io_bind m f) g) (io_bind m (fun a => io_bind (f a) g)).
Proof. intros s. unfold io_bind. by destruct (m s) as [s' []]. Qed.

(** Operations on one half of a pair: running them, and joining neighbours. *)
Lemma io_bind_on_fst {S T A B} (m : io S A) (k : A -> io (S * T) B) s t s' a :
  m s = (s', Ok a) -> io_bind (on_fst m) k (s, t) = k a (s', t).
Proof. intros E. unfold io_bind, on_fst; simpl. by rewrite E. Qed.

Lemma io_bind_on_snd {S T A B} (m : io T A) (k : A -> io (S * T) B) s t t' a :
  m t = (t', Ok a) -> io_bind (on_snd m) k (s, t) = k a (s, t').
Proof. intros E. unfold io_bind, on_snd; simpl. by rewrite E. Qed.

Lemma on_snd_bind {S T A B} (m : io T A) (k : A -> io T B) :
  io_eq (io_bind (on_snd (S:=S) m) (fun a => on_snd (k a))) (on_snd (io_bind m k)).
Proof.
  intros [s t]. unfold io_bind, on_snd; simpl. destruct (m t) as [t' []]; simpl; done.
Qed.

(** Inversion of a successful bind: both halves succeeded. *)
Lemma io_bind_ok_inv {S A B} (m : io S A) (k : A -> io S B) s s2 b :
  io_bind m k s = (s2, Ok b) ->
  exists s1 a, m s = (s1, Ok a) /\ k a s1 = (s2, Ok b).
Proof.
  unfold io_bind. destruct (m s) as [s1 []]; intros; simplify_eq; eauto.
Qed.

(** ** Loops

    [loop { body }].  A body either falls through to the next iteration or
    returns from the enclosing function; errors, panics and suspension leave
    the loop as well.  [fuel] bounds the number of iterations looked at:
    [Running] says the loop has not left after that many. *)

Inductive flow (A : Type) := Continue | Return (a : A).
Arguments Continue {A}.
Arguments Return {A} a.

Inductive exit (A : Type) := Running | Exited (o : outcome A).
Arguments Running {A}.
Arguments Exited {A} o.

Fixpoint loop {S A} (fuel : nat) (body : io S (flow A)) (s : S) : S * exit A :=
  match fuel with
  | O => (s, Running)
  | S fuel' =>
      match body s with
      | (s', Ok Continue) => loop fuel' body s'
      | (s', Ok (Return a)) => (s', Exited (Ok a))
      | (s', Err e) => (s', Exited (Err e))
      | (s', Panic p) => (s', Exited (Panic p))
      | (s', Pending) => (s', Exited Pending)
      end
  end.

(** Once a loop has left, more fuel changes nothing. *)
Lemma loop_mono {S A} (body : io S (flow A)) n m s s' o :
  (n <= m)%nat -> loop n body s = (s', Exited o) -> loop m body s = (s', Exited o).
Proof.
  revert m s; induction n as [|n IH]; intros m s Hle Hl; [done|].
  destruct m as [|m]; [lia|]. simpl in *.
  destruct (body s) as [s1 [[|a]|e|p|]]; try done. apply IH; [lia|done].
Qed.

Lemma loop_step {S A} (body : io S (flow A)) n s s1 :
  body s = (s1, Ok Continue) -> loop (Datatypes.S n) body s = loop n body s1.
Proof. intros H. simpl. by rewrite H. Qed.

(** ** List lemmas *)

Lemma take_drop_app {A} (n : nat) (l1 l2 : list A) :
  length l1 = n -> take n (l1 ++ l2) = l1 /\ drop n (l1 ++ l2) = l2.
Proof. intros <-. by rewrite take_app_length, drop_app_length. Qed.

Lemma prefix_of_app_split {A} (l a b : list A) :
  l `prefix_of` a ++ b ->
  l `prefix_of` a \/ exists k, l = a ++ k /\ k `prefix_of` b.
Proof.
  revert l; induction a as [|x a IH]; intros l; simpl.
  - intros H. right. by exists l.
  - intros H. destruct l as [|y l]; [left; apply prefix_nil|].
    apply prefix_cons_inv_1 in H as Hx. apply prefix_cons_inv_2 in H. subst y.
    destruct (IH _ H) as [?|(k & -> & ?)].
    + left. by apply prefix_cons.
    + right. eauto.
Qed.

(** ** Slices

    Rust slicing panics out of range. *)

Definition slice_to {A} (l : list A) (n : nat) : outcome (list A) :=
  if (n <=? length l)%nat then Ok (take n l)
  else Panic "range end index out of range for slice".

Definition slice_from {A} (l : list A) (n : nat) : outcome (list A) :=
  if (n <=? length l)%nat then Ok (drop n l)
  else Panic "range start index out of range for slice".

Lemma slice_to_ok {A} (l : list A) n : (n <= length l)%nat -> slice_to l n = Ok (take n l).
Proof. intros H. unfold slice_to. by destruct (Nat.leb_spec n (length l)); [|lia]. Qed.

Lemma slice_from_ok {A} (l : list A) n : (n <= length l)%nat -> slice_from l n = Ok (drop n l).
Proof. intros H. unfold slice_from. by destruct (Nat.leb_spec n (length l)); [|lia]. Qed.

(** ** Automation *)

(** Rewriting database of the length and encoding equations. *)
Create Rewrite HintDb bytes.
#[export] Hint Rewrite length_be_bytes @length_app @length_take @length_drop
  @length_replicate be_val_singleton as_u8_to_Z u8_to_as_u8 : bytes.

(** Resolution database of the invariants the components preserve. *)
Create HintDb inv.

Ltac case_outcome :=
  match goal with
  | |- context [match ?o with Ok _ => _ | Err _ => _ | Panic _ => _ | Pending => _ end] =>
      destruct o eqn:?
  | H : context [match ?o with Ok _ => _ | Err _ => _ | Panic _ => _ | Pending => _ end] |- _ =>
      destruct o eqn:?
  end.

(** Split a hypothesis [io_bind .. = (_, Ok _)] all the way down. *)
Ltac io_inv :=
  repeat match goal with
  | H : io_bind _ _ _ = (_, Ok _) |- _ =>
      apply io_bind_ok_inv in H as (? & ? & ? & H)
  | H : io_ret _ _ = (_, _) |- _ => unfold io_ret in H; simplify_eq
  | H : io_lift _ _ = (_, _) |- _ => unfold io_lift in H; simplify_eq
  | H : io_err _ _ = (_, _) |- _ => unfold io_err in H; simplify_eq
  | H : io_panic _ _ = (_, _) |- _ => unfold io_panic in H; simplify_eq
  end.
