(* ===== verification/AsyncIo.v ===== *)
(** * The asynchronous I/O interface the sources are written against

    The sources use the traits [AsyncRead], [AsyncReadExt], [AsyncWrite] and
    [AsyncWriteExt] of the tokio crate, which is not part of the repository.
    They are parameters here: type classes whose fields are the trait methods
    and whose laws are the documented behaviour of the provided methods in
    terms of the required ones.  [ByteSource] and [ByteSink] are the contracts
    an implementor may promise: it is a byte stream, however the bytes happen
    to be cut into chunks.  Components are proved against the contracts;
    [source] is the canonical byte stream every lawful reader refines. *)

From Stdlib Require Import ZArith Lia.
From Stdlib Require Import Strings.Byte.
From stdpp Require Import base list strings numbers relations.
From S2P Require Import Prelude.

#[local] Open Scope nat_scope.

(** ** Read buffers *)

(** [tokio::io::ReadBuf]: a buffer of fixed capacity, filled from the front. *)
Record ReadBuf := mkReadBuf { capacity : nat; filled : list byte }.

Definition remaining (b : ReadBuf) : nat := capacity b - length (filled b).

(** [ReadBuf::put_slice] panics when the slice does not fit. *)
Definition put_slice (b : ReadBuf) (bs : list byte) : outcome ReadBuf :=
  if length bs <=? remaining b
  then Ok (mkReadBuf (capacity b) (filled b ++ bs))
  else Panic "buf.len() must fit in remaining()".

(** ** Readers *)

(** [will_wake r] describes the environment, not the reader: whether a task
    that found [r] pending is ever woken to poll it again. *)
Class AsyncRead (R : Type) := {
  poll_read : io (R * ReadBuf) unit;
  will_wake : R -> bool;
}.

Definition eof_error : Error := mkError UnexpectedEof "early eof".

Definition io_map {S A B} (f : A -> B) (m : io S A) : io S B := fun s =>
  let '(s', o) := m s in (s', outcome_map f o).

(** The provided methods.  [read n] awaits one successful [poll_read] on a
    buffer of [n] bytes; [read_exact n] polls until [n] bytes have arrived and
    reports [UnexpectedEof] when a poll adds nothing; the integer readers read
    a big-endian integer with [read_exact]. *)
Class AsyncReadExt (R : Type) `{AsyncRead R} := {
  read : nat -> io R (list byte);
  read_exact : nat -> io R (list byte);
  read_u8 : io R byte;
  read_u16 : io R Z;
  read_u32 : io R Z;
  read_u128 : io R Z;

  read_eq n r :
    read n r =
      match poll_read (r, mkReadBuf n []) with
      | ((r', b'), Ok _) => (r', Ok (filled b'))
      | ((r', _), Err e) => (r', Err e)
      | ((r', _), Panic p) => (r', Panic p)
      | ((r', _), Pending) => if will_wake r' then read n r' else (r', Pending)
      end;
  read_exact_eq n r :
    read_exact n r =
      if n =? 0 then (r, Ok [])
      else match poll_read (r, mkReadBuf n []) with
      | ((r', b'), Ok _) =>
          match filled b' with
          | [] => (r', Err eof_error)
          | bs => let '(r'', o) := read_exact (n - length bs) r' in
                  (r'', outcome_map (app bs) o)
          end
      | ((r', _), Err e) => (r', Err e)
      | ((r', _), Panic p) => (r', Panic p)
      | ((r', _), Pending) => if will_wake r' then read_exact n r' else (r', Pending)
      end;
  read_u8_eq r : read_u8 r = io_map (fun bs => as_u8 (be_val bs)) (read_exact 1) r;
  read_u16_eq r : read_u16 r = io_map be_val (read_exact 2) r;
  read_u32_eq r : read_u32 r = io_map be_val (read_exact 4) r;
  read_u128_eq r : read_u128 r = io_map be_val (read_exact 16) r;
}.

(** ** The byte-stream contract of a reader *)

(** How a stream goes on once its bytes are consumed. *)
Inductive ending := Eof | Broken (e : Error) | Stalled.

Record source := mkSource { data : list byte; fin : ending }.

(** [ByteSource R]: [view r] is what remains to be delivered.  A poll moves a
    prefix of it into the buffer; it delivers nothing only at the end of the
    stream or when the task is to be woken again ([wakes] bounds how often). *)
Class ByteSource (R : Type) `{AsyncRead R} := {
  src_inv : R -> Prop;
  view : R -> source;
  wakes : R -> nat;

  poll_read_view r b r' b' o :
    src_inv r -> 0 < remaining b -> poll_read (r, b) = ((r', b'), o) ->
    src_inv r' /\ fin (view r') = fin (view r) /\ wakes r' <= wakes r /\
    exists bs,
      b' = mkReadBuf (capacity b) (filled b ++ bs) /\ length bs <= remaining b /\
      data (view r) = bs ++ data (view r') /\
      match o with
      | Ok _ => bs = [] -> data (view r) = [] /\ fin (view r) = Eof
      | Err e => data (view r) = [] /\ fin (view r) = Broken e
      | Panic _ => False
      | Pending =>
          bs = [] /\
          if will_wake r' then wakes r' < wakes r
          else data (view r) = [] /\ fin (view r) = Stalled
      end
}.

(** ** The canonical byte stream *)

(** What an exact read of more bytes than there are ends in. *)
Definition short_read {A} (e : ending) : outcome A :=
  match e with
  | Eof => Err eof_error
  | Broken e => Err e
  | Stalled => Pending
  end.

Definition source_read_exact (n : nat) : io source (list byte) := fun s =>
  if n <=? length (data s)
  then (mkSource (drop n (data s)) (fin s), Ok (take n (data s)))
  else (mkSource [] (fin s), short_read (fin s)).

Definition source_read (n : nat) : io source (list byte) := fun s =>
  match data s, fin s with
  | [], Broken e => if n =? 0 then (s, Ok []) else (s, Err e)
  | [], Stalled => if n =? 0 then (s, Ok []) else (s, Pending)
  | _, _ => (mkSource (drop n (data s)) (fin s), Ok (take n (data s)))
  end.

#[export] Instance source_AsyncRead : AsyncRead source := {
  poll_read := fun sb =>
    let '(s, b) := sb in
    let '(s', o) := source_read (remaining b) s in
    match o with
    | Ok bs => ((s', mkReadBuf (capacity b) (filled b ++ bs)), Ok tt)
    | Err e => ((s', b), Err e)
    | Panic p => ((s', b), Panic p)
    | Pending => ((s', b), Pending)
    end;
  will_wake := fun _ => false
}.

#[export] Program Instance source_AsyncReadExt : AsyncReadExt source := {
  read := source_read;
  read_exact := source_read_exact;
  read_u8 := io_map (fun bs => as_u8 (be_val bs)) (source_read_exact 1);
  read_u16 := io_map be_val (source_read_exact 2);
  read_u32 := io_map be_val (source_read_exact 4);
  read_u128 := io_map be_val (source_read_exact 16)
}.
Next Obligation.
  intros n [d e]. unfold poll_read, source_AsyncRead, source_read, remaining; simpl.
  rewrite Nat.sub_0_r. destruct d, e; simpl; repeat case_match; simplify_eq; done.
Qed.
Next Obligation.
  intros n [d e]. unfold poll_read, source_AsyncRead, remaining; simpl.
  rewrite Nat.sub_0_r. destruct n as [|n]; [done|].
  unfold source_read, source_read_exact. destruct d as [|x d]; [by destruct e|].
  cbn [data fin length take drop Nat.eqb filled app].
  destruct (Nat.leb_spec (S n) (S (length d))) as [Hle|Hgt].
  - rewrite length_take, Nat.min_l by lia.
    replace (S n - S n) with 0 by lia. simpl. by rewrite drop_0, app_nil_r.
  - rewrite take_ge, drop_ge by lia. simpl.
    destruct (Nat.leb_spec (n - length d) 0) as [?|?]; [lia|]. by destruct e.
Qed.
Next Obligation. done. Qed.
Next Obligation. done. Qed.
Next Obligation. done. Qed.
Next Obligation. done. Qed.

#[export] Program Instance source_ByteSource : ByteSource source := {
  src_inv := fun _ => True;
  view := fun s => s;
  wakes := fun _ => 0
}.
Next Obligation.
  intros [d e] b r' b' o _ Hrem. unfold poll_read, source_AsyncRead, source_read.
  assert (Hn : (remaining b =? 0) = false) by (apply Nat.eqb_neq; lia).
  destruct b as [c f]. destruct d as [|x d]; [destruct e|]; simpl;
    rewrite ?Hn; intros ?; simplify_eq; simpl;
    (split_and!; [done|done|lia|]).
  - exists []. rewrite take_nil, drop_nil, app_nil_r. split_and!; simpl; auto; lia.
  - exists []. rewrite app_nil_r. split_and!; simpl; auto; lia.
  - exists []. rewrite app_nil_r. split_and!; simpl; auto; lia.
  - exists (take (remaining (mkReadBuf c f)) (x :: d)).
    split_and!; [done|rewrite length_take; lia|by rewrite take_drop|].
    destruct (remaining _); [lia|done].
Qed.

(** ** Readers refine the canonical stream *)

(** [refines m p]: on a lawful reader, [m] returns what [p] returns on the
    bytes the reader has left, and leaves the same bytes behind.  This is a
    functional simulation with [view] as abstraction function. *)
Definition refines {R} `{ByteSource R} {A} (m : io R A) (p : io source A) : Prop :=
  forall r, src_inv r ->
  exists r', m r = (r', (p (view r)).2) /\ view r' = (p (view r)).1 /\ src_inv r'.

(** Two equations that follow the exact read through the stream. *)
Lemma source_read_exact_end n e :
  n <> 0 -> source_read_exact n (mkSource [] e) = (mkSource [] e, short_read e).
Proof. intros Hn. unfold source_read_exact; simpl. by destruct n. Qed.

Lemma source_read_exact_app n ys d e :
  length ys <= n ->
  source_read_exact n (mkSource (ys ++ d) e) =
    let '(s', o) := source_read_exact (n - length ys) (mkSource d e) in
    (s', outcome_map (app ys) o).
Proof.
  intros Hle. unfold source_read_exact; cbn [data fin]. rewrite length_app.
  destruct (Nat.leb_spec (n - length ys) (length d));
    destruct (Nat.leb_spec n (length ys + length d)); try lia.
  - by rewrite drop_app_ge, take_app_ge by lia.
  - by destruct e.
Qed.

Section Refinement.
Context {R : Type} `{AsyncReadExt R} `{!ByteSource R}.

Lemma refines_ret {A} (a : A) : refines (io_ret a : io R A) (io_ret a).
Proof. intros r Hr. by exists r. Qed.

Lemma refines_lift {A} (o : outcome A) : refines (io_lift o : io R A) (io_lift o).
Proof. intros r Hr. by exists r. Qed.

Lemma refines_bind {A B} (m : io R A) (p : io source A)
    (k : A -> io R B) (q : A -> io source B) :
  refines m p -> (forall a, refines (k a) (q a)) ->
  refines (io_bind m k) (io_bind p q).
Proof.
  intros Hm Hk r Hr. destruct (Hm r Hr) as (r1 & E & Hv & Hi).
  unfold io_bind. rewrite E. destruct (p (view r)) as [s1 o]; simpl in *.
  destruct o as [a|e|msg|]; [|by exists r1..].
  destruct (Hk a r1 Hi) as (r2 & E2 & Hv2 & Hi2). rewrite Hv in *. by exists r2.
Qed.

Lemma refines_map {A B} (f : A -> B) (m : io R A) (p : io source A) :
  refines m p -> refines (io_map f m) (io_map f p).
Proof.
  intros Hm r Hr. destruct (Hm r Hr) as (r1 & E & Hv & Hi).
  unfold io_map. rewrite E. destruct (p (view r)) as [s1 o]; simpl in *.
  by exists r1.
Qed.

Lemma refines_ext {A} (m m' : io R A) (p p' : io source A) :
  io_eq m m' -> io_eq p p' -> refines m' p' -> refines m p.
Proof.
  intros E1 E2 Hm r Hr. destruct (Hm r Hr) as (r1 & E & ? & ?).
  exists r1. by rewrite E1, E2.
Qed.

(** The exact read of any lawful reader is the exact read of its bytes,
    whatever the fragmentation and however often the task is woken. *)
Lemma refines_read_exact n : refines (read_exact n : io R _) (read_exact n).
Proof.
  intros r. remember (n + wakes r) as k eqn:Hk. revert n r Hk.
  induction k as [k IH] using lt_wf_ind. intros n r Hk Hr.
  rewrite read_exact_eq. cbn [read_exact source_AsyncReadExt] in *.
  destruct (Nat.eqb_spec n 0) as [->|Hn].
  { exists r. unfold source_read_exact; simpl. destruct (view r). by rewrite drop_0. }
  destruct (poll_read (r, mkReadBuf n [])) as [[r' b'] o] eqn:Ep.
  assert (Hrem : 0 < remaining (mkReadBuf n [])) by (unfold remaining; simpl; lia).
  pose proof (poll_read_view _ _ _ _ _ Hr Hrem Ep)
    as (Hi & Hfin & Hw & bs & -> & Hlen & Hdata & Ho).
  unfold remaining in Hlen; cbn [filled app capacity] in *; simpl in Hlen.
  destruct (view r) as [d e] eqn:Ev, (view r') as [d' e'] eqn:Ev'; cbn [data fin] in *. subst d e'.
  destruct o as [[]|err|msg|]; [destruct bs as [|x bs]| | |].
  - destruct (Ho eq_refl) as [Hd He]. simpl in Hd. subst.
    exists r'. by rewrite source_read_exact_end.
  - destruct (IH (n - length (x :: bs) + wakes r') ltac:(simpl in *; lia)
                _ r' eq_refl Hi) as (r'' & E & Hv & Hi').
    cbv iota beta. rewrite E. exists r''. rewrite source_read_exact_app by (simpl in *; lia).
    rewrite Ev' in *. by destruct (source_read_exact _ _).
  - destruct Ho as [[-> ->]%app_nil ->]. exists r'. by rewrite source_read_exact_end.
  - done.
  - destruct Ho as [-> Ho]. destruct (will_wake r') eqn:Hww.
    + destruct (IH (n + wakes r') ltac:(lia) n r' eq_refl Hi) as (r'' & E & Hv & Hi').
      rewrite E. exists r''. by rewrite Ev' in *.
    + destruct Ho as [Hd ->]. simpl in *. subst d'. exists r'.
      by rewrite source_read_exact_end.
Qed.

Lemma refines_read_u8 : refines (read_u8 : io R _) read_u8.
Proof.
  eapply refines_ext; [exact read_u8_eq|exact read_u8_eq|].
  apply refines_map, refines_read_exact.
Qed.
Lemma refines_read_u16 : refines (read_u16 : io R _) read_u16.
Proof.
  eapply refines_ext; [exact read_u16_eq|exact read_u16_eq|].
  apply refines_map, refines_read_exact.
Qed.
Lemma refines_read_u32 : refines (read_u32 : io R _) read_u32.
Proof.
  eapply refines_ext; [exact read_u32_eq|exact read_u32_eq|].
  apply refines_map, refines_read_exact.
Qed.
Lemma refines_read_u128 : refines (read_u128 : io R _) read_u128.
Proof.
  eapply refines_ext; [exact read_u128_eq|exact read_u128_eq|].
  apply refines_map, refines_read_exact.
Qed.
(** A single [read] returns some prefix of what is left, and an empty one
    only at the end of the stream. *)
Lemma read_view n r r' o :
  src_inv r -> 0 < n -> read n r = (r', o) ->
  src_inv r' /\ fin (view r') = fin (view r) /\
  match o with
  | Ok bs => data (view r) = bs ++ data (view r') /\ length bs <= n /\
             (bs = [] -> data (view r) = [] /\ fin (view r) = Eof)
  | Err e => data (view r) = [] /\ fin (view r) = Broken e /\ data (view r') = []
  | Panic _ => False
  | Pending => data (view r) = [] /\ fin (view r) = Stalled /\ data (view r') = []
  end.
Proof.
  remember (wakes r) as k eqn:Hk. revert r Hk.
  induction k as [k IH] using lt_wf_ind. intros r Hk Hr Hn. rewrite read_eq.
  destruct (poll_read (r, mkReadBuf n [])) as [[r1 b1] o1] eqn:Ep.
  assert (Hrem : 0 < remaining (mkReadBuf n [])) by (unfold remaining; simpl; lia).
  pose proof (poll_read_view _ _ _ _ _ Hr Hrem Ep)
    as (Hi & Hfin & Hw & bs & -> & Hlen & Hdata & Ho).
  unfold remaining in Hlen; simpl in *.
  destruct o1 as [[]|e|p|]; intros E; simplify_eq; try done.
  - split_and!; auto; lia.
  - destruct Ho as [Hd He]. rewrite Hd in Hdata. symmetry in Hdata. apply app_nil in Hdata as [_ ?].
    by split_and!.
  - destruct Ho as [-> Ho], (will_wake r1); simpl in *; simplify_eq;
      [|destruct Ho; split_and!; congruence].
    destruct (IH (wakes r1) ltac:(lia) r1 eq_refl Hi Hn E) as (? & ? & Ho1).
    rewrite Hdata, <- Hfin. split_and!; [done|congruence|].
    destruct o; intuition congruence.
Qed.
End Refinement.

Create HintDb refines.
#[export] Hint Resolve refines_ret refines_lift refines_bind refines_map
  refines_read_exact refines_read_u8 refines_read_u16 refines_read_u32
  refines_read_u128 : refines.

(** ** Readers that only promise not to make bytes up

    A reader may fail to be a lawful byte stream, for instance because its peer
    can make it report an early end, and still deliver nothing but the bytes of
    its [feed], in order, in every poll that succeeds.  That is enough for what
    a parser says when it succeeds. *)
Class ByteFeed (R : Type) `{AsyncRead R} := {
  feed_inv : R -> Prop;
  feed : R -> list byte;
  feed_wakes : R -> nat;

  poll_read_feed r b r' b' o :
    feed_inv r -> 0 < remaining b -> poll_read (r, b) = ((r', b'), o) ->
    feed_inv r' /\ feed_wakes r' <= feed_wakes r /\
    match o with
    | Ok _ => exists bs, b' = mkReadBuf (capacity b) (filled b ++ bs) /\
                         length bs <= remaining b /\ feed r = bs ++ feed r'
    | Pending => feed r' = feed r /\ (will_wake r' = true -> feed_wakes r' < feed_wakes r)
    | _ => True
    end
}.

(** [follows m p]: when [m] succeeds, [p] succeeds with the same result on the
    bytes of the feed, and both leave the same bytes. *)
Definition follows {R} `{ByteFeed R} {A} (m : io R A) (p : io source A) : Prop :=
  forall r r' a, feed_inv r -> m r = (r', Ok a) ->
  feed_inv r' /\ p (mkSource (feed r) Eof) = (mkSource (feed r') Eof, Ok a).

Section Following.
Context {R : Type} `{AsyncReadExt R} `{!ByteFeed R}.

Lemma follows_ret {A} (a : A) : follows (io_ret a : io R A) (io_ret a).
Proof. intros r r' b Hr E. unfold io_ret in *. by simplify_eq. Qed.

Lemma follows_lift {A} (o : outcome A) : follows (io_lift o : io R A) (io_lift o).
Proof. intros r r' b Hr E. unfold io_lift in *. by simplify_eq. Qed.

Lemma follows_bind {A B} (m : io R A) (p : io source A)
    (k : A -> io R B) (q : A -> io source B) :
  follows m p -> (forall a, follows (k a) (q a)) -> follows (io_bind m k) (io_bind p q).
Proof.
  intros Hm Hk r r' b Hr (r1 & a & E1 & E2)%io_bind_ok_inv.
  destruct (Hm _ _ _ Hr E1) as [Hr1 Ep]. destruct (Hk _ _ _ _ Hr1 E2) as [Hr2 Eq].
  split; [done|]. unfold io_bind. by rewrite Ep.
Qed.

Lemma follows_map {A B} (f : A -> B) (m : io R A) (p : io source A) :
  follows m p -> follows (io_map f m) (io_map f p).
Proof.
  intros Hm r r' b Hr. unfold io_map. destruct (m r) as [r1 []] eqn:E1; intros E; simplify_eq/=.
  destruct (Hm _ _ _ Hr E1) as [? Ep]. by rewrite Ep.
Qed.

Lemma follows_ext {A} (m m' : io R A) (p p' : io source A) :
  io_eq m m' -> io_eq p p' -> follows m' p' -> follows m p.
Proof. intros E1 E2 Hm r r' a Hr. rewrite E1, E2. by apply Hm. Qed.

Lemma read_exact_feed n (r r' : R) bs :
  feed_inv r -> read_exact n r = (r', Ok bs) ->
  feed_inv r' /\ feed r = bs ++ feed r' /\ length bs = n.
Proof.
  remember (n + feed_wakes r) as k eqn:Hk. revert n r bs Hk.
  induction k as [k IH] using lt_wf_ind. intros n r bs Hk Hr. rewrite read_exact_eq.
  destruct (Nat.eqb_spec n 0) as [->|Hn]; [by intros [= -> <-]|].
  destruct (poll_read (r, mkReadBuf n [])) as [[r1 b1] o] eqn:E.
  assert (Hrem : 0 < remaining (mkReadBuf n [])) by (unfold remaining; simpl; lia).
  destruct (poll_read_feed _ _ _ _ _ Hr Hrem E) as (Hr1 & Hw & Ho).
  destruct o as [[]|e|p|]; try done.
  - destruct Ho as (xs & -> & Hlen & Hd). unfold remaining in Hlen; simpl in *.
    destruct xs as [|x xs]; [done|].
    destruct (read_exact (n - S (length xs)) r1) as [r2 o2] eqn:E2. destruct o2; intros Eo; simplify_eq/=.
    destruct (IH (n - S (length xs) + feed_wakes r1) ltac:(lia) _ _ _ eq_refl Hr1 E2)
      as (? & Hd' & Hl).
    rewrite Hd, Hd', length_app. split_and!; [done|by rewrite app_assoc|lia].
  - destruct Ho as [Hd Hlt]. destruct (will_wake r1); [|done]. intros E2. rewrite <- Hd.
    by apply (IH (n + feed_wakes r1) ltac:(specialize (Hlt eq_refl); lia) _ _ _ eq_refl).
Qed.

Lemma follows_read_exact n : follows (read_exact n : io R _) (read_exact n).
Proof.
  intros r r' bs Hr E. destruct (read_exact_feed _ _ _ _ Hr E) as (Hi & -> & <-). split; [done|].
  cbn [read_exact source_AsyncReadExt]. unfold source_read_exact; simpl.
  destruct (Nat.leb_spec (length bs) (length (bs ++ feed r'))) as [_|Hl];
    [|rewrite length_app in Hl; lia].
  by rewrite take_app_length, drop_app_length.
Qed.

Lemma follows_read_u8 : follows (read_u8 : io R _) read_u8.
Proof.
  eapply follows_ext; [exact read_u8_eq|exact read_u8_eq|]. apply follows_map, follows_read_exact.
Qed.
Lemma follows_read_u16 : follows (read_u16 : io R _) read_u16.
Proof.
  eapply follows_ext; [exact read_u16_eq|exact read_u16_eq|]. apply follows_map, follows_read_exact.
Qed.
Lemma follows_read_u32 : follows (read_u32 : io R _) read_u32.
Proof.
  eapply follows_ext; [exact read_u32_eq|exact read_u32_eq|]. apply follows_map, follows_read_exact.
Qed.
Lemma follows_read_u128 : follows (read_u128 : io R _) read_u128.
Proof.
  eapply follows_ext; [exact read_u128_eq|exact read_u128_eq|]. apply follows_map, follows_read_exact.
Qed.
End Following.

Create HintDb follows.
#[export] Hint Resolve follows_ret follows_lift follows_bind follows_map follows_read_exact
  follows_read_u8 follows_read_u16 follows_read_u32 follows_read_u128 : follows.

(** ** Reading a given byte sequence

    [reads p bs a]: given [bs] in front of the stream, [p] consumes exactly
    [bs] and returns [a]; given only a proper prefix of [bs], it consumes all
    of it and ends the way the stream ends. *)
Definition reads {A} (p : io source A) (bs : list byte) (a : A) : Prop :=
  forall e,
    (forall rest, p (mkSource (bs ++ rest) e) = (mkSource rest e, Ok a)) /\
    (forall l, l `prefix_of` bs -> length l < length bs ->
       p (mkSource l e) = (mkSource [] e, short_read e)).

Lemma reads_ret {A} (a : A) : reads (io_ret a) [] a.
Proof. intros e. split; [done|]. intros l _ Hl. simpl in Hl. lia. Qed.

Lemma reads_bind {A B} (p : io source A) (q : A -> io source B) bs1 bs2 a b :
  reads p bs1 a -> reads (q a) bs2 b -> reads (io_bind p q) (bs1 ++ bs2) b.
Proof.
  intros Hp Hq e. destruct (Hp e) as [Hp1 Hp2], (Hq e) as [Hq1 Hq2].
  unfold io_bind. split.
  - intros rest. by rewrite <- app_assoc, Hp1, Hq1.
  - intros l Hpre Hlen. rewrite length_app in Hlen.
    destruct (decide (length l < length bs1)) as [Hlt|Hge].
    + rewrite Hp2; [by destruct e| |done].
      destruct (prefix_of_app_split _ _ _ Hpre) as [?|(k & -> & ?)]; [done|].
      rewrite length_app in Hlt. lia.
    + destruct (prefix_of_app_split _ _ _ Hpre) as [[k ->]|(k & -> & Hk)].
      * rewrite length_app in *. assert (k = []) as -> by (destruct k; simpl in *; [done|lia]).
        rewrite app_nil_r in *. rewrite <- (app_nil_r l), Hp1.
        apply Hq2; [apply prefix_nil|simpl; lia].
      * rewrite Hp1. rewrite length_app in Hlen. apply Hq2; [done|lia].
Qed.

Lemma reads_lift {A B} (o : outcome A) (q : A -> io source B) a bs b :
  o = Ok a -> reads (q a) bs b -> reads (io_bind (io_lift o) q) bs b.
Proof. intros -> Hq. by apply (reads_bind (io_ret a) q [] bs a b (reads_ret a)). Qed.

Lemma reads_map {A B} (f : A -> B) (p : io source A) bs a :
  reads p bs a -> reads (io_map f p) bs (f a).
Proof.
  intros Hp e. destruct (Hp e) as [Hp1 Hp2]. unfold io_map. split.
  - intros rest. by rewrite Hp1.
  - intros l ? ?. rewrite Hp2 by done. by destruct e.
Qed.

Lemma reads_exact n bs : length bs = n -> reads (read_exact n) bs bs.
Proof.
  intros <- e. cbn [read_exact source_AsyncReadExt]. unfold source_read_exact; cbn [data fin].
  split.
  - intros rest. rewrite length_app.
    destruct (Nat.leb_spec (length bs) (length bs + length rest)); [|lia].
    by destruct (take_drop_app (length bs) bs rest eq_refl) as [-> ->].
  - intros l _ Hl. by destruct (Nat.leb_spec (length bs) (length l)); [lia|].
Qed.

Lemma reads_u8 b : reads read_u8 [b] b.
Proof.
  pose proof (reads_map (fun bs => as_u8 (be_val bs)) _ _ _ (reads_exact 1 [b] eq_refl)) as H.
  cbv beta in H. rewrite be_val_singleton, as_u8_to_Z in H. exact H.
Qed.

Lemma reads_u16 bs : length bs = 2 -> reads read_u16 bs (be_val bs).
Proof. intros H. by apply reads_map, reads_exact. Qed.
Lemma reads_u32 bs : length bs = 4 -> reads read_u32 bs (be_val bs).
Proof. intros H. by apply reads_map, reads_exact. Qed.
Lemma reads_u128 bs : length bs = 16 -> reads read_u128 bs (be_val bs).
Proof. intros H. by apply reads_map, reads_exact. Qed.

(** [reads] transfers to every lawful reader along [refines]. *)
Lemma reads_lawful {R} `{ByteSource R} {A} (m : io R A) p bs a r rest :
  refines m p -> reads p bs a -> src_inv r -> data (view r) = bs ++ rest ->
  exists r', m r = (r', Ok a) /\ view r' = mkSource rest (fin (view r)) /\ src_inv r'.
Proof.
  intros Href Hp Hr Hd. destruct (Href r Hr) as (r' & E & Hv & Hi).
  destruct (view r) as [d e]; simpl in *. subst d.
  rewrite (proj1 (Hp e) rest) in *. simpl in *. eauto.
Qed.

(** [consumes p bs o]: given [bs] in front of the stream, [p] consumes exactly
    [bs] and ends with [o], whatever [o] is. *)
Definition consumes {A} (p : io source A) (bs : list byte) (o : outcome A) : Prop :=
  forall rest e, p (mkSource (bs ++ rest) e) = (mkSource rest e, o).

Lemma consumes_bind {A B} (p : io source A) (q : A -> io source B) bs1 bs2 a o :
  reads p bs1 a -> consumes (q a) bs2 o -> consumes (io_bind p q) (bs1 ++ bs2) o.
Proof.
  intros Hp Hq rest e. unfold io_bind. rewrite <- app_assoc.
  rewrite (proj1 (Hp e)). apply Hq.
Qed.

Lemma consumes_lift {A B} (r : outcome A) (q : A -> io source B) bs a o :
  r = Ok a -> consumes (q a) bs o -> consumes (io_bind (io_lift r) q) bs o.
Proof. intros -> Hq. by apply (consumes_bind (io_ret a) q [] bs a o (reads_ret a)). Qed.

(** The last step computes: its outcome is the outcome. *)
Lemma consumes_finish {A B} (r : outcome A) (f : A -> B) :
  consumes (io_bind (io_lift r) (fun a => io_ret (f a))) [] (outcome_map f r).
Proof. intros rest e. by destruct r. Qed.

Lemma consumes_lawful {R} `{ByteSource R} {A} (m : io R A) p bs o r rest :
  refines m p -> consumes p bs o -> src_inv r -> data (view r) = bs ++ rest ->
  exists r', m r = (r', o) /\ view r' = mkSource rest (fin (view r)) /\ src_inv r'.
Proof.
  intros Href Hp Hr Hd. destruct (Href r Hr) as (r' & E & Hv & Hi).
  destruct (view r) as [d e]; simpl in *. subst d. rewrite Hp in *. simpl in *. eauto.
Qed.

(** What a successful read of the canonical stream consumed. *)
Definition took {A} (p : io source A) (P : list byte -> A -> Prop) : Prop :=
  forall s s' a, p s = (s', Ok a) ->
  fin s' = fin s /\ exists bs, data s = bs ++ data s' /\ P bs a.

Lemma took_exact n : took (read_exact n) (fun bs a => a = bs /\ length bs = n).
Proof.
  intros s s' a. cbn [read_exact source_AsyncReadExt]. unfold source_read_exact.
  destruct (Nat.leb_spec n (length (data s))) as [Hle|?]; [|by destruct (fin s)].
  intros ?; simplify_eq; simpl. split; [done|]. exists (take n (data s)).
  rewrite take_drop, length_take. split_and!; [done|done|lia].
Qed.

Lemma took_map {A B} (f : A -> B) p (P : list byte -> A -> Prop) :
  took p P -> took (io_map f p) (fun bs b => exists a, b = f a /\ P bs a).
Proof.
  intros Hp s s' b. unfold io_map. destruct (p s) as [s1 []] eqn:E; intros ?; simplify_eq/=.
  destruct (Hp _ _ _ E) as (? & bs & ? & ?). eauto 10.
Qed.

Lemma took_weaken {A} (p : io source A) (P Q : list byte -> A -> Prop) :
  took p P -> (forall bs a, P bs a -> Q bs a) -> took p Q.
Proof. intros Hp Hq s s' a E. destruct (Hp _ _ _ E) as (? & bs & ? & ?). eauto. Qed.

Lemma took_u8 : took read_u8 (fun bs a => bs = [a]).
Proof.
  eapply took_weaken; [apply (took_map _ _ _ (took_exact 1))|].
  intros bs a (x & -> & -> & Hl). destruct bs as [|b [|]]; simplify_eq/=.
  f_equal. rewrite Z.mul_1_r, Z.add_0_r. symmetry. apply as_u8_to_Z.
Qed.

Lemma took_uint n (p : io source Z) :
  io_eq p (io_map be_val (read_exact n)) ->
  took p (fun bs z => length bs = n /\ z = be_val bs).
Proof.
  intros Hp s s' a E. rewrite Hp in E.
  destruct (took_map be_val _ _ (took_exact n) _ _ _ E)
    as (? & bs & ? & x & -> & -> & ?). eauto.
Qed.

Lemma took_bind {A B} (p : io source A) (q : A -> io source B) P Q :
  took p P -> (forall a, took (q a) (Q a)) ->
  took (io_bind p q) (fun bs b => exists bs1 bs2 a, bs = bs1 ++ bs2 /\ P bs1 a /\ Q a bs2 b).
Proof.
  intros Hp Hq s s' b (s1 & a & E1 & E2)%io_bind_ok_inv.
  destruct (Hp _ _ _ E1) as (Hf1 & bs1 & Hd1 & HP).
  destruct (Hq _ _ _ _ E2) as (Hf2 & bs2 & Hd2 & HQ).
  split; [congruence|]. exists (bs1 ++ bs2). rewrite Hd1, Hd2, app_assoc. eauto 10.
Qed.

Lemma took_ret {A} (a : A) : took (io_ret a) (fun bs b => bs = [] /\ b = a).
Proof. intros s s' b E. unfold io_ret in E. simplify_eq. split; [done|]. by exists []. Qed.

Lemma took_lift {A} (o : outcome A) : took (io_lift o) (fun bs b => bs = [] /\ o = Ok b).
Proof. intros s s' b E. unfold io_lift in E. simplify_eq. split; [done|]. by exists []. Qed.

(** [stops p P]: [p] never panics, and fails only the way the stream ends or
    with an error in [P]. *)
Definition stops {A} (p : io source A) (P : Error -> Prop) : Prop :=
  forall s s' o, p s = (s', o) ->
  fin s' = fin s /\
  match o with
  | Ok _ => True
  | Err e => P e \/ @short_read A (fin s) = Err e
  | Panic _ => False
  | Pending => fin s = Stalled
  end.

Lemma stops_ret {A} (a : A) P : stops (io_ret a) P.
Proof. intros s s' o E. unfold io_ret in E. by simplify_eq. Qed.

Lemma stops_lift {A} (o : outcome A) (P : Error -> Prop) :
  match o with Ok _ => True | Err e => P e | _ => False end -> stops (io_lift o) P.
Proof.
  intros Ho s s' o' E. unfold io_lift in E. simplify_eq. split; [done|].
  destruct o'; auto. done.
Qed.

Lemma stops_bind {A B} (p : io source A) (q : A -> io source B) P :
  stops p P -> (forall a, stops (q a) P) -> stops (io_bind p q) P.
Proof.
  intros Hp Hq s s' o E. unfold io_bind in E. destruct (p s) as [s1 o1] eqn:E1.
  destruct (Hp _ _ _ E1) as [Hf Ho]. destruct o1; simplify_eq.
  - destruct (Hq _ _ _ _ E) as [Hf2 Ho2]. rewrite Hf in *. by split.
  - split; [done|]. destruct Ho as [?|Ho]; [by left|right].
    destruct (fin s); simpl in *; congruence.
  - done.
  - done.
Qed.

Lemma stops_exact n P : stops (read_exact n) P.
Proof.
  intros s s' o. cbn [read_exact source_AsyncReadExt]. unfold source_read_exact.
  destruct (_ <=? _); intros E; simplify_eq; split; auto.
  destruct (fin s); simpl; auto.
Qed.

Lemma stops_map {A B} (f : A -> B) p P : stops p P -> stops (io_map f p) P.
Proof.
  intros Hp s s' o. unfold io_map. destruct (p s) as [s1 o1] eqn:E1. intros; simplify_eq.
  destruct (Hp _ _ _ E1) as [Hf Ho]. split; [done|].
  destruct o1; simpl; auto. destruct Ho as [?|Ho]; [by left|right].
  destruct (fin s); simpl in *; congruence.
Qed.

Create HintDb stops.
#[export] Hint Resolve stops_ret stops_bind stops_exact : stops.
#[export] Hint Extern 1 (stops _ _) => (apply stops_map, stops_exact) : stops.

(** ** Writers *)

Class AsyncWrite (W : Type) := {
  poll_write : list byte -> io W nat;
  poll_flush : io W unit;
  poll_shutdown : io W unit;
}.

Definition write_zero_error : Error :=
  mkError WriteZero "write zero byte into writer".

(** The provided methods: [write_all] writes until the buffer is empty, the
    integer writers write the big-endian representation, [flush] awaits
    [poll_flush]. *)
Class AsyncWriteExt (W : Type) `{AsyncWrite W} := {
  write_all : list byte -> io W unit;
  write_u8 : byte -> io W unit;
  write_u16 : Z -> io W unit;
  flush : io W unit;

  write_all_eq bs w :
    write_all bs w =
      match bs with
      | [] => (w, Ok tt)
      | _ => match poll_write bs w with
             | (w', Ok O) => (w', Err write_zero_error)
             | (w', Ok n) => write_all (drop n bs) w'
             | (w', Err e) => (w', Err e)
             | (w', Panic p) => (w', Panic p)
             | (w', Pending) => (w', Pending)
             end
      end;
  write_u8_eq b w : write_u8 b w = write_all [b] w;
  write_u16_eq z w : write_u16 z w = write_all (be_bytes 2 z) w;
  flush_eq w : flush w = poll_flush w;
}.

(** The byte-stream contract of a writer: [written] is everything accepted so
    far in order, [flushed] the part of it that has left the process.  A write
    accepts a non-empty prefix of the slice or nothing at all. *)
Class ByteSink (W : Type) `{AsyncWrite W} := {
  sink_inv : W -> Prop;
  written : W -> list byte;
  flushed : W -> list byte;

  flushed_written w : sink_inv w -> flushed w `prefix_of` written w;
  poll_write_written bs w w' o :
    sink_inv w -> bs <> [] -> poll_write bs w = (w', o) ->
    sink_inv w' /\ flushed w `prefix_of` flushed w' /\
    match o with
    | Ok n => 0 < n <= length bs /\ written w' = written w ++ take n bs
    | Panic _ => False
    | _ => written w' = written w
    end;
  poll_flush_written w w' o :
    sink_inv w -> poll_flush w = (w', o) ->
    sink_inv w' /\ flushed w `prefix_of` flushed w' /\ written w' = written w /\
    match o with
    | Ok _ => flushed w' = written w'
    | Panic _ => False
    | _ => True
    end
}.

(** [emits m bs]: [m] writes [bs].  When it does not succeed, what it wrote is
    a prefix of [bs]; it never panics. *)
Definition emits {W} `{ByteSink W} {A} (m : io W A) (bs : list byte) : Prop :=
  forall w w' o, sink_inv w -> m w = (w', o) ->
  sink_inv w' /\ is_panic o = false /\ flushed w `prefix_of` flushed w' /\
  exists out, out `prefix_of` bs /\ written w' = written w ++ out /\
              (is_ok o = true -> out = bs).

Section Emission.
Context {W : Type} `{AsyncWriteExt W} `{!ByteSink W}.

Lemma emits_ret {A} (a : A) : emits (io_ret a : io W A) [].
Proof.
  intros w w' o Hw E. unfold io_ret in E. simplify_eq.
  split_and!; [done..|]. exists []. by rewrite app_nil_r.
Qed.

Lemma emits_bind {A B} (m : io W A) (k : A -> io W B) bs1 bs2 :
  emits m bs1 -> (forall a, emits (k a) bs2) -> emits (io_bind m k) (bs1 ++ bs2).
Proof.
  intros Hm Hk w w' o Hw E. unfold io_bind in E.
  destruct (m w) as [w1 o1] eqn:E1.
  destruct (Hm _ _ _ Hw E1) as (Hi & Hp & Hf & out1 & Hpre & Hout & Hok).
  destruct o1 as [a|e|p|]; simpl in *; simplify_eq; simpl.
  - destruct (Hk a _ _ _ Hi E) as (Hi2 & Hp2 & Hf2 & out2 & Hpre2 & Hout2 & Hok2).
    rewrite (Hok eq_refl) in *. split_and!; [done|done|by etrans|].
    exists (bs1 ++ out2). split_and!; [by apply prefix_app|by rewrite Hout2, Hout, app_assoc|].
    intros Ho. by rewrite Hok2.
  - split_and!; [done..|]. exists out1. split_and!; [by apply prefix_app_r|done|done].
  - split_and!; [done..|]. exists out1. split_and!; [by apply prefix_app_r|done|done].
Qed.

Lemma emits_write_all bs : emits (write_all bs : io W unit) bs.
Proof.
  intros w w' o. remember (length bs) as k eqn:Hk. revert bs w Hk.
  induction k as [k IH] using lt_wf_ind. intros bs w -> Hw. rewrite write_all_eq.
  destruct bs as [|x bs].
  { intros E. simplify_eq. split_and!; [done..|]. exists []. by rewrite app_nil_r. }
  remember (x :: bs) as ys eqn:Hys.
  destruct (poll_write ys w) as [w1 o1] eqn:E1.
  assert (Hne : ys <> []) by (rewrite Hys; discriminate).
  destruct (poll_write_written _ _ _ _ Hw Hne E1) as (Hi & Hf & Ho).
  rewrite Hys; cbv iota beta; rewrite <- Hys; clear Hys x bs.
  destruct o1 as [[|n]|e|p|]; intros E; simplify_eq; simpl in *; try done.
  - lia.
  - destruct Ho as [Hn Hwr].
    destruct (IH (length (drop (S n) ys)) ltac:(rewrite length_drop; lia) _ w1 eq_refl Hi E)
      as (Hi2 & Hp2 & Hf2 & out & Hpre & Hout & Hok).
    split_and!; [done|done|by etrans|]. exists (take (S n) ys ++ out). split_and!.
    + rewrite <- (take_drop (S n) ys) at 2. by apply prefix_app.
    + by rewrite Hout, Hwr, app_assoc.
    + intros Hok'. by rewrite Hok, take_drop.
  - split_and!; [done..|]. exists []. rewrite app_nil_r. split_and!; [apply prefix_nil|done|done].
  - split_and!; [done..|]. exists []. rewrite app_nil_r. split_and!; [apply prefix_nil|done|done].
Qed.

Lemma emits_write_u8 b : emits (write_u8 b : io W unit) [b].
Proof. intros w w' o Hw. rewrite write_u8_eq. by apply emits_write_all. Qed.

Lemma emits_write_u16 z : emits (write_u16 z : io W unit) (be_bytes 2 z).
Proof. intros w w' o Hw. rewrite write_u16_eq. by apply emits_write_all. Qed.

Lemma emits_flush : emits (flush : io W unit) [].
Proof.
  intros w w' o Hw E. rewrite flush_eq in E.
  destruct (poll_flush_written _ _ _ Hw E) as (Hi & Hf & Hwr & Ho).
  split_and!; [done|by destruct o|done|]. exists []. by rewrite app_nil_r.
Qed.

(** [flushes m]: when [m] succeeds nothing is left in a local buffer. *)
Definition flushes {A} (m : io W A) : Prop :=
  forall w w' a, sink_inv w -> m w = (w', Ok a) -> flushed w' = written w'.

Lemma flushes_flush : flushes (flush : io W unit).
Proof.
  intros w w' a Hw E. rewrite flush_eq in E.
  by destruct (poll_flush_written _ _ _ Hw E) as (? & ? & ? & ?).
Qed.

Lemma flushes_bind {A B} (m : io W A) (k : A -> io W B) bs :
  emits m bs -> (forall a, flushes (k a)) -> flushes (io_bind m k).
Proof.
  intros Hm Hk w w' b Hw (w1 & a & E1 & E2)%io_bind_ok_inv.
  destruct (Hm _ _ _ Hw E1) as [Hi _]. by eapply Hk.
Qed.

Lemma flushes_then_ret {A B} (m : io W A) (b : B) :
  flushes m -> flushes (io_bind m (fun _ => io_ret b)).
Proof.
  intros Hm w w' b' Hw (w1 & a & E1 & E2)%io_bind_ok_inv.
  unfold io_ret in E2. simplify_eq. by eapply Hm.
Qed.

(** The consequence clients use: a successful emission followed by a flush
    puts exactly [bs] behind what was written before, all of it flushed. *)
Lemma emits_ok {A} (m : io W A) bs w w' a :
  emits m bs -> sink_inv w -> m w = (w', Ok a) -> written w' = written w ++ bs.
Proof.
  intros Hm Hw E. destruct (Hm _ _ _ Hw E) as (_ & _ & _ & out & _ & -> & Hok).
  by rewrite Hok.
Qed.
End Emission.

Create HintDb emits.
#[export] Hint Resolve emits_ret emits_write_all emits_write_u8 emits_write_u16
  emits_flush : emits.
#[export] Hint Resolve flushes_flush flushes_then_ret : emits.

(** A writer that always accepts: the writes of a program on it succeed. *)
Class ReliableSink (W : Type) `{ByteSink W} := {
  poll_write_succeeds bs w :
    sink_inv w -> bs <> [] -> exists w' n, poll_write bs w = (w', Ok n);
  poll_flush_succeeds w : sink_inv w -> exists w', poll_flush w = (w', Ok tt)
}.

Definition succeeds {W} `{ByteSink W} {A} (m : io W A) : Prop :=
  forall w, sink_inv w -> exists w' a, m w = (w', Ok a).

Section Success.
Context {W : Type} `{AsyncWriteExt W} `{!ByteSink W} `{!ReliableSink W}.

Lemma succeeds_ret {A} (a : A) : succeeds (io_ret a : io W A).
Proof. intros w _. by exists w, a. Qed.

Lemma succeeds_bind {A B} (m : io W A) (k : A -> io W B) bs :
  emits m bs -> succeeds m -> (forall a, succeeds (k a)) -> succeeds (io_bind m k).
Proof.
  intros He Hm Hk w Hw. destruct (Hm w Hw) as (w1 & a & E).
  destruct (He _ _ _ Hw E) as [Hi _]. unfold io_bind. rewrite E. by apply Hk.
Qed.

Lemma succeeds_write_all bs : succeeds (write_all bs : io W unit).
Proof.
  remember (length bs) as k eqn:Hk. revert bs Hk.
  induction k as [k IH] using lt_wf_ind. intros bs -> w Hw. rewrite write_all_eq.
  destruct bs as [|x bs]; [by exists w, tt|].
  assert (Hne : x :: bs <> []) by discriminate.
  destruct (poll_write_succeeds (x :: bs) w Hw Hne) as (w1 & n & E). rewrite E.
  destruct (poll_write_written _ _ _ _ Hw Hne E) as (Hi & _ & Hn & _).
  destruct n as [|n]; [lia|].
  apply (IH (length (drop (S n) (x :: bs)))); [rewrite length_drop; simpl; lia|done|done].
Qed.

Lemma succeeds_write_u8 b : succeeds (write_u8 b : io W unit).
Proof. intros w Hw. rewrite write_u8_eq. by apply succeeds_write_all. Qed.
Lemma succeeds_write_u16 z : succeeds (write_u16 z : io W unit).
Proof. intros w Hw. rewrite write_u16_eq. by apply succeeds_write_all. Qed.
Lemma succeeds_flush : succeeds (flush : io W unit).
Proof.
  intros w Hw. rewrite flush_eq. destruct (poll_flush_succeeds w Hw) as [w' E]. eauto.
Qed.
End Success.

#[export] Hint Resolve succeeds_ret succeeds_write_all succeeds_write_u8
  succeeds_write_u16 succeeds_flush : emits.

(** ** Readers from their polls

    For a reader whose polls carry a decreasing measure the provided methods
    can be computed; this discharges [AsyncReadExt] for the concrete readers. *)
Class MeasuredRead (R : Type) `{AsyncRead R} := {
  poll_measure : R -> nat;
  poll_measure_le r b r' b' o :
    poll_read (r, b) = ((r', b'), o) -> poll_measure r' <= poll_measure r;
  poll_measure_lt r b r' b' :
    poll_read (r, b) = ((r', b'), Pending) -> will_wake r' = true ->
    poll_measure r' < poll_measure r
}.

Section Measured.
Context {R : Type} `{MeasuredRead R}.

Fixpoint fill_read (fuel n : nat) (r : R) : R * outcome (list byte) :=
  match poll_read (r, mkReadBuf n []) with
  | ((r', b'), Ok _) => (r', Ok (filled b'))
  | ((r', _), Err e) => (r', Err e)
  | ((r', _), Panic p) => (r', Panic p)
  | ((r', _), Pending) =>
      match fuel with
      | S fuel' => if will_wake r' then fill_read fuel' n r' else (r', Pending)
      | O => (r', Pending)
      end
  end.

Fixpoint fill_exact (fuel n : nat) (r : R) : R * outcome (list byte) :=
  if n =? 0 then (r, Ok [])
  else match poll_read (r, mkReadBuf n []) with
  | ((r', b'), Ok _) =>
      match filled b' with
      | [] => (r', Err eof_error)
      | bs =>
          match fuel with
          | S fuel' => let '(r'', o) := fill_exact fuel' (n - length bs) r' in
                       (r'', outcome_map (app bs) o)
          | O => (r', Pending)
          end
      end
  | ((r', _), Err e) => (r', Err e)
  | ((r', _), Panic p) => (r', Panic p)
  | ((r', _), Pending) =>
      match fuel with
      | S fuel' => if will_wake r' then fill_exact fuel' n r' else (r', Pending)
      | O => (r', Pending)
      end
  end.

Lemma fill_read_fuel f1 f2 n r :
  poll_measure r <= f1 -> poll_measure r <= f2 -> fill_read f1 n r = fill_read f2 n r.
Proof.
  revert f2 r; induction f1 as [|f1 IH]; intros f2 r H1 H2; destruct f2 as [|f2];
    simpl; try done; destruct (poll_read _) as [[r' b'] [[]|?|?|]] eqn:E; try done;
    destruct (will_wake r') eqn:Hw; try done;
    pose proof (poll_measure_lt _ _ _ _ E Hw); try lia. apply IH; lia.
Qed.

Lemma fill_exact_fuel f1 f2 n r :
  n + poll_measure r <= f1 -> n + poll_measure r <= f2 ->
  fill_exact f1 n r = fill_exact f2 n r.
Proof.
  revert f2 n r; induction f1 as [|f1 IH]; intros f2 n r H1 H2; destruct f2 as [|f2];
    simpl; try done; destruct (Nat.eqb_spec n 0) as [?|Hn]; try done; try lia.
  destruct (poll_read _) as [[r' b'] [[]|?|?|]] eqn:E; try done.
  - destruct (filled b') as [|x bs]; [done|].
    pose proof (poll_measure_le _ _ _ _ _ E). simpl.
    by rewrite (IH f2) by (simpl; lia).
  - destruct (will_wake r') eqn:Hw; [|done].
    pose proof (poll_measure_lt _ _ _ _ E Hw). apply IH; lia.
Qed.

Definition measured_read (n : nat) : io R (list byte) := fun r =>
  fill_read (poll_measure r) n r.
Definition measured_read_exact (n : nat) : io R (list byte) := fun r =>
  fill_exact (n + poll_measure r) n r.

Program Definition measured_AsyncReadExt : AsyncReadExt R := {|
  read := measured_read;
  read_exact := measured_read_exact;
  read_u8 := io_map (fun bs => as_u8 (be_val bs)) (measured_read_exact 1);
  read_u16 := io_map be_val (measured_read_exact 2);
  read_u32 := io_map be_val (measured_read_exact 4);
  read_u128 := io_map be_val (measured_read_exact 16)
|}.
Next Obligation.
  intros n r. unfold measured_read.
  destruct (poll_read (r, mkReadBuf n [])) as [[r' b'] o] eqn:E.
  assert (Hf : forall f, fill_read f n r = match o with
    | Ok _ => (r', Ok (filled b')) | Err e => (r', Err e) | Panic p => (r', Panic p)
    | Pending => match f with
                 | S f' => if will_wake r' then fill_read f' n r' else (r', Pending)
                 | O => (r', Pending) end end).
  { intros f. by destruct f; simpl; rewrite E; destruct o. }
  rewrite Hf. destruct o; try done. destruct (will_wake r') eqn:Hw.
  - pose proof (poll_measure_lt _ _ _ _ E Hw).
    destruct (poll_measure r) eqn:?; [lia|]. apply fill_read_fuel; lia.
  - by destruct (poll_measure r).
Qed.
Next Obligation.
  intros n r. unfold measured_read_exact. destruct (Nat.eqb_spec n 0) as [->|Hn].
  { by destruct (0 + poll_measure r). }
  destruct (n + poll_measure r) as [|f] eqn:Ef; [lia|]. cbn [fill_exact].
  destruct (Nat.eqb_spec n 0) as [?|_]; [lia|].
  destruct (poll_read (r, mkReadBuf n [])) as [[r' b'] o] eqn:E.
  destruct o as [[]|?|?|]; try done.
  - destruct (filled b') as [|x bs]; [done|].
    pose proof (poll_measure_le _ _ _ _ _ E).
    by rewrite (fill_exact_fuel f (n - length (x :: bs) + poll_measure r')) by (simpl; lia).
  - destruct (will_wake r') eqn:Hw; [|done].
    pose proof (poll_measure_lt _ _ _ _ E Hw). apply fill_exact_fuel; lia.
Qed.
Next Obligation. done. Qed.
Next Obligation. done. Qed.
Next Obligation. done. Qed.
Next Obligation. done. Qed.
End Measured.

(** ** Duplex streams

    A stream that is read and written: the two directions do not disturb one
    another. *)
Class ByteDuplex (T : Type) `{ByteSource T} `{!AsyncWrite T} `{!ByteSink T} := {
  poll_read_frame t b t' b' o :
    src_inv t -> sink_inv t -> poll_read (t, b) = ((t', b'), o) ->
    sink_inv t' /\ written t' = written t /\ flushed t' = flushed t;
  poll_write_frame bs t t' o :
    src_inv t -> sink_inv t -> poll_write bs t = (t', o) ->
    src_inv t' /\ view t' = view t;
  poll_flush_frame t t' o :
    src_inv t -> sink_inv t -> poll_flush t = (t', o) ->
    src_inv t' /\ view t' = view t
}.

Definition both_inv {T} `{ByteDuplex T} (t : T) : Prop := src_inv t /\ sink_inv t.

(** [quiet m]: [m] writes nothing.  [still m]: [m] reads nothing. *)
Definition quiet {T} `{ByteDuplex T} {A} (m : io T A) : Prop :=
  forall t t' o, both_inv t -> m t = (t', o) ->
  both_inv t' /\ written t' = written t /\ flushed t' = flushed t.

Definition still {T} `{ByteDuplex T} {A} (m : io T A) : Prop :=
  forall t t' o, both_inv t -> m t = (t', o) -> src_inv t' /\ view t' = view t.

(** [says m bs]: [m] may read, and what it writes is [bs], or a prefix of [bs]
    when it does not succeed. *)
Definition says {T} `{ByteDuplex T} {A} (m : io T A) (bs : list byte) : Prop :=
  forall t t' o, both_inv t -> m t = (t', o) ->
  both_inv t' /\ exists out, out `prefix_of` bs /\ written t' = written t ++ out /\
                            (is_ok o = true -> out = bs).

Section DuplexLemmas.
Context {T : Type} `{AsyncReadExt T} `{!ByteSource T}.
Context `{!AsyncWrite T} `{!AsyncWriteExt T} `{!ByteSink T} `{!ByteDuplex T}.

Lemma quiet_ret {A} (a : A) : quiet (io_ret a : io T A).
Proof. intros t t' o Ht E. unfold io_ret in E. by simplify_eq. Qed.

Lemma quiet_lift {A} (a : outcome A) : quiet (io_lift a : io T A).
Proof. intros t t' o Ht E. unfold io_lift in E. by simplify_eq. Qed.

Lemma quiet_bind {A B} (m : io T A) (k : A -> io T B) :
  quiet m -> (forall a, quiet (k a)) -> quiet (io_bind m k).
Proof.
  intros Hm Hk t t' o Ht E. unfold io_bind in E.
  destruct (m t) as [t1 o1] eqn:E1. destruct (Hm _ _ _ Ht E1) as (Hi & Hw & Hf).
  destruct o1; simplify_eq; try by split_and!.
  destruct (Hk _ _ _ _ Hi E) as (Hi2 & Hw2 & Hf2). split_and!; congruence || done.
Qed.

Lemma quiet_map {A B} (f : A -> B) (m : io T A) : quiet m -> quiet (io_map f m).
Proof.
  intros Hm t t' o Ht E. unfold io_map in E. destruct (m t) as [t1 o1] eqn:E1.
  simplify_eq. by eapply Hm.
Qed.

Lemma quiet_read_exact n : quiet (read_exact n : io T _).
Proof.
  intros t t' o. remember (n + wakes t) as k eqn:Hk. revert n t o Hk.
  induction k as [k IH] using lt_wf_ind. intros n t o Hk [Hr Hs].
  rewrite read_exact_eq. destruct (Nat.eqb_spec n 0) as [->|Hn]; [by intros; simplify_eq|].
  destruct (poll_read (t, mkReadBuf n [])) as [[t1 b1] o1] eqn:Ep.
  assert (Hrem : 0 < remaining (mkReadBuf n [])) by (unfold remaining; simpl; lia).
  pose proof (poll_read_view _ _ _ _ _ Hr Hrem Ep) as (Hi & _ & Hw & bs & -> & _ & _ & Ho).
  destruct (poll_read_frame _ _ _ _ _ Hr Hs Ep) as (Hs1 & Hwr & Hfl). simpl.
  assert (Hrec : forall n' o', n' + wakes t1 < k -> read_exact n' t1 = (t', o') ->
            both_inv t' /\ written t' = written t /\ flushed t' = flushed t).
  { intros n' o' Hlt E.
    destruct (IH _ Hlt n' t1 o' eq_refl (conj Hi Hs1) E) as (? & ? & ?).
    split_and!; congruence || done. }
  destruct o1 as [[]|e|p|].
  - destruct bs as [|x bs]; [by intros; simplify_eq|].
    destruct (read_exact _ t1) as [t2 o2] eqn:E2. intros E. simplify_eq.
    eapply Hrec; [|exact E2]. simpl; lia.
  - by intros; simplify_eq.
  - by intros; simplify_eq.
  - destruct Ho as [_ Ho]. destruct (will_wake t1); [|by intros; simplify_eq].
    apply Hrec. lia.
Qed.

Lemma quiet_read n : 0 < n -> quiet (read n : io T _).
Proof.
  intros Hn t t' o. remember (wakes t) as k eqn:Hk. revert t o Hk.
  induction k as [k IH] using lt_wf_ind. intros t o Hk [Hr Hs]. rewrite read_eq.
  destruct (poll_read (t, mkReadBuf n [])) as [[t1 b1] o1] eqn:Ep.
  assert (Hrem : 0 < remaining (mkReadBuf n [])) by (unfold remaining; simpl; lia).
  pose proof (poll_read_view _ _ _ _ _ Hr Hrem Ep) as (Hi & _ & Hw & bs & -> & _ & _ & Ho).
  destruct (poll_read_frame _ _ _ _ _ Hr Hs Ep) as (Hs1 & Hwr & Hfl).
  destruct o1 as [[]|e|p|]; try by intros; simplify_eq.
  destruct Ho as [_ Ho]. destruct (will_wake t1); [|by intros; simplify_eq].
  intros E. destruct (IH (wakes t1) ltac:(lia) t1 o eq_refl (conj Hi Hs1) E) as (? & ? & ?).
  split_and!; congruence || done.
Qed.

Lemma quiet_read_u8 : quiet (read_u8 : io T _).
Proof.
  intros t t' o Ht. rewrite read_u8_eq. by apply quiet_map, Ht; apply quiet_read_exact.
Qed.
Lemma quiet_read_u16 : quiet (read_u16 : io T _).
Proof.
  intros t t' o Ht. rewrite read_u16_eq. by apply quiet_map, Ht; apply quiet_read_exact.
Qed.
Lemma quiet_read_u32 : quiet (read_u32 : io T _).
Proof.
  intros t t' o Ht. rewrite read_u32_eq. by apply quiet_map, Ht; apply quiet_read_exact.
Qed.
Lemma quiet_read_u128 : quiet (read_u128 : io T _).
Proof.
  intros t t' o Ht. rewrite read_u128_eq. by apply quiet_map, Ht; apply quiet_read_exact.
Qed.

Lemma still_bind {A B} (m : io T A) (k : A -> io T B) bs :
  emits m bs -> still m -> (forall a, still (k a)) -> still (io_bind m k).
Proof.
  intros He Hm Hk t t' o Ht E. unfold io_bind in E.
  destruct (m t) as [t1 o1] eqn:E1. destruct (Hm _ _ _ Ht E1) as (Hi & Hv).
  destruct (He _ _ _ (proj2 Ht) E1) as [Hs _].
  destruct o1; simplify_eq; try done.
  destruct (Hk _ _ _ _ (conj Hi Hs) E) as (? & ?). split; congruence || done.
Qed.

Lemma still_ret {A} (a : A) : still (io_ret a : io T A).
Proof. intros t t' o [Ht _] E. unfold io_ret in E. by simplify_eq. Qed.

Lemma still_write_all bs : still (write_all bs : io T unit).
Proof.
  intros t t' o. remember (length bs) as k eqn:Hk. revert bs t Hk.
  induction k as [k IH] using lt_wf_ind. intros bs t -> [Hr Hs]. rewrite write_all_eq.
  destruct bs as [|x bs]; [by intros; simplify_eq|].
  destruct (poll_write (x :: bs) t) as [t1 o1] eqn:Ep.
  assert (Hne : x :: bs <> []) by discriminate.
  destruct (poll_write_written _ _ _ _ Hs Hne Ep) as (Hs1 & _ & Ho).
  destruct (poll_write_frame _ _ _ _ Hr Hs Ep) as (Hi & Hv).
  destruct o1 as [[|n]|e|p|]; intros E; simplify_eq; try done.
  destruct (IH (length (drop (S n) (x :: bs))) ltac:(rewrite length_drop; simpl; lia)
              _ t1 eq_refl (conj Hi Hs1) E) as (? & ?).
  split; congruence || done.
Qed.

Lemma still_write_u8 b : still (write_u8 b : io T unit).
Proof. intros t t' o Ht. rewrite write_u8_eq. by apply still_write_all. Qed.

Lemma still_write_u16 z : still (write_u16 z : io T unit).
Proof. intros t t' o Ht. rewrite write_u16_eq. by apply still_write_all. Qed.

Lemma still_flush : still (flush : io T unit).
Proof.
  intros t t' o [Hr Hs] E. rewrite flush_eq in E. by eapply poll_flush_frame.
Qed.

Lemma says_quiet {A} (m : io T A) : quiet m -> says m [].
Proof.
  intros Hm t t' o Ht E. destruct (Hm _ _ _ Ht E) as (Hi & Hw & _).
  split; [done|]. exists []. by rewrite app_nil_r.
Qed.

Lemma says_emits {A} (m : io T A) bs : emits m bs -> still m -> says m bs.
Proof.
  intros He Hs t t' o Ht E. destruct (Hs _ _ _ Ht E) as [Hi _].
  destruct (He _ _ _ (proj2 Ht) E) as (Hi2 & _ & _ & out & ? & ? & ?). split; [done|]. eauto.
Qed.

Lemma says_bind {A B} (m : io T A) (k : A -> io T B) bs1 bs2 :
  says m bs1 -> (forall a, says (k a) bs2) -> says (io_bind m k) (bs1 ++ bs2).
Proof.
  intros Hm Hk t t' o Ht E. unfold io_bind in E. destruct (m t) as [t1 o1] eqn:E1.
  destruct (Hm _ _ _ Ht E1) as (Hi & out1 & Hpre & Hout & Hok).
  destruct o1 as [a|e|p|]; simplify_eq; simpl;
    try (split; [done|]; exists out1; split_and!; [by apply prefix_app_r|done|done]).
  destruct (Hk _ _ _ _ Hi E) as (Hi2 & out2 & Hpre2 & Hout2 & Hok2).
  rewrite (Hok eq_refl) in *. split; [done|]. exists (bs1 ++ out2).
  split_and!; [by apply prefix_app|by rewrite Hout2, Hout, app_assoc|].
  intros Ho. by rewrite Hok2.
Qed.
End DuplexLemmas.

#[export] Hint Resolve quiet_ret quiet_lift quiet_bind quiet_map quiet_read_exact
  quiet_read_u8 quiet_read_u16 quiet_read_u32 quiet_read_u128 : refines.
#[export] Hint Resolve still_ret still_write_all still_write_u8 still_write_u16 still_flush : emits.
