(* ===== verification/Conn.v ===== *)
(** * A concrete connection

    An in-memory duplex byte stream: the bytes to be received arrive in chunks
    (with moments at which nothing is ready in between), the bytes sent pass
    through a local buffer until they are flushed, and the peer may stop
    accepting after a number of bytes.  It implements every interface of
    [AsyncIo] and so shows that the contracts the components are proved against
    can be met; the witnesses run the components on it. *)

From Stdlib Require Import ZArith Lia.
From Stdlib Require Import Strings.Byte.
From stdpp Require Import base list strings numbers relations.
From S2P Require Import Prelude AsyncIo.

#[local] Open Scope nat_scope.

Inductive rx_event := Chunk (bs : list byte) | NotReady.

Record Conn := mkConn {
  rx : list rx_event;        (* what is still to arrive *)
  rx_end : ending;           (* how the receiving side ends *)
  tx : list byte;            (* everything accepted for sending *)
  tx_out : list byte;        (* what has been flushed of it *)
  tx_room : option nat;      (* how many more bytes the peer takes *)
}.

(** A connection about to receive [evs], nothing sent yet. *)
Definition conn (evs : list rx_event) (e : ending) : Conn := mkConn evs e [] [] None.

Definition conn_rx (c : Conn) (evs : list rx_event) : Conn :=
  mkConn evs (rx_end c) (tx c) (tx_out c) (tx_room c).

Definition conn_poll_read : io (Conn * ReadBuf) unit := fun cb =>
  let '(c, b) := cb in
  match rx c with
  | [] =>
      match rx_end c with
      | Eof => ((c, b), Ok tt)
      | Broken e => ((c, b), Err e)
      | Stalled => ((c, b), Pending)
      end
  | NotReady :: evs => ((conn_rx c evs, b), Pending)
  | Chunk bs :: evs =>
      let n := remaining b in
      let evs' := if length bs <=? n then evs else Chunk (drop n bs) :: evs in
      ((conn_rx c evs', mkReadBuf (capacity b) (filled b ++ take n bs)), Ok tt)
  end.

Definition conn_will_wake (c : Conn) : bool :=
  match rx c, rx_end c with [], Stalled => false | _, _ => true end.

#[export] Instance Conn_AsyncRead : AsyncRead Conn := {
  poll_read := conn_poll_read;
  will_wake := conn_will_wake
}.

#[export] Program Instance Conn_MeasuredRead : MeasuredRead Conn := {
  poll_measure := fun c => length (rx c)
}.
Next Obligation.
  intros c b c' b' o. simpl. unfold conn_poll_read.
  destruct (rx c) as [|[bs|] evs] eqn:E; [destruct (rx_end c)| |]; intros ?; simplify_eq;
    simpl; rewrite ?E; simpl; try lia. case_match; simpl; lia.
Qed.
Next Obligation.
  intros c b c' b'. simpl. unfold conn_poll_read, conn_will_wake.
  destruct (rx c) as [|[bs|] evs] eqn:E; [destruct (rx_end c) eqn:E'| |]; intros ? Hw;
    simplify_eq; simpl in *; try lia. by rewrite E, E' in Hw.
Qed.

#[export] Instance Conn_AsyncReadExt : AsyncReadExt Conn := measured_AsyncReadExt.

Fixpoint rx_bytes (evs : list rx_event) : list byte :=
  match evs with
  | [] => []
  | Chunk bs :: evs' => bs ++ rx_bytes evs'
  | NotReady :: evs' => rx_bytes evs'
  end.

(** No chunk is empty: a read of zero bytes means the end of the stream. *)
Definition rx_ok (evs : list rx_event) : Prop := Forall (fun ev => ev <> Chunk []) evs.

#[export] Program Instance Conn_ByteSource : ByteSource Conn := {
  src_inv := fun c => rx_ok (rx c);
  view := fun c => mkSource (rx_bytes (rx c)) (rx_end c);
  wakes := fun c => length (rx c)
}.
Next Obligation.
  intros c b c' b' o Hok Hrem E.
  pose proof (poll_measure_le _ _ _ _ _ E) as Hle. simpl in Hle.
  pose proof (poll_measure_lt c b c' b') as Hlt. rewrite E in Hlt. simpl in Hlt.
  simpl in E. unfold conn_poll_read, rx_ok in *. destruct b as [cap f]. simpl.
  destruct (rx c) as [|[bs|] evs] eqn:Erx.
  - destruct (rx_end c) eqn:Ee; simplify_eq; simpl; rewrite ?Erx;
      (split_and!; [constructor|done|done|]); exists []; rewrite app_nil_r;
      split_and!; simpl; auto; try lia.
    unfold conn_will_wake. by rewrite Erx, Ee.
  - simplify_eq; simpl. apply Forall_cons in Hok as [Hne Hok].
    set (n := remaining (mkReadBuf cap f)) in *. split_and!; [|done|done|].
    + case_match; [done|]. constructor; [|done].
      destruct (Nat.leb_spec (length bs) n); [done|].
      intros [=Hd]. apply (f_equal length) in Hd. rewrite length_drop in Hd. simpl in Hd. lia.
    + exists (take n bs). split_and!; [done|rewrite length_take; lia| |].
      * destruct (Nat.leb_spec (length bs) n).
        -- by rewrite take_ge by lia.
        -- simpl. by rewrite app_assoc, take_drop.
      * intros Ht. destruct n; [lia|]. destruct bs; [|done]. done.
  - simplify_eq; simpl. apply Forall_cons in Hok as [_ Hok].
    split_and!; [done|done|lia|]. exists []. rewrite app_nil_r.
    split_and!; [done|simpl; lia|done|done|]. simpl in Hlt.
    destruct (conn_will_wake _) eqn:Hww; [by apply Hlt|].
    unfold conn_will_wake in Hww. simpl in Hww. by destruct evs, (rx_end c).
Qed.

(** *** Sending *)

Definition room_for (c : Conn) (n : nat) : nat :=
  match tx_room c with None => n | Some k => min k n end.

Definition conn_poll_write (bs : list byte) : io Conn nat := fun c =>
  let n := room_for c (length bs) in
  if n =? 0 then (c, Err (mkError BrokenPipe "peer closed"))
  else (mkConn (rx c) (rx_end c) (tx c ++ take n bs) (tx_out c)
          ((fun k => k - n) <$> tx_room c), Ok n).

Definition conn_poll_flush : io Conn unit := fun c =>
  (mkConn (rx c) (rx_end c) (tx c) (tx c) (tx_room c), Ok tt).

#[export] Instance Conn_AsyncWrite : AsyncWrite Conn := {
  poll_write := conn_poll_write;
  poll_flush := conn_poll_flush;
  poll_shutdown := conn_poll_flush
}.

Definition conn_write_all (bs : list byte) : io Conn unit := fun c =>
  let n := room_for c (length bs) in
  if n =? length bs then
    match bs with
    | [] => (c, Ok tt)
    | _ => (mkConn (rx c) (rx_end c) (tx c ++ bs) (tx_out c)
              ((fun k => k - n) <$> tx_room c), Ok tt)
    end
  else (mkConn (rx c) (rx_end c) (tx c ++ take n bs) (tx_out c)
          ((fun k => k - n) <$> tx_room c), Err (mkError BrokenPipe "peer closed")).

#[export] Program Instance Conn_AsyncWriteExt : AsyncWriteExt Conn := {
  write_all := conn_write_all;
  write_u8 := fun b => conn_write_all [b];
  write_u16 := fun z => conn_write_all (be_bytes 2 z);
  flush := conn_poll_flush
}.
Next Obligation.
  intros [|x bs] [r re t o room]; [by destruct room as [[]|]|].
  unfold conn_write_all, poll_write, Conn_AsyncWrite, conn_poll_write, room_for.
  destruct room as [k|]; cbn [rx rx_end tx tx_out tx_room fmap option_fmap option_map length].
  - destruct k as [|k].
    { simpl. by rewrite app_nil_r. }
    set (ys := x :: bs). change (S (length bs)) with (length ys).
    destruct (Nat.min_spec (S k) (length ys)) as [[Hl ->]|[Hl ->]].
    + replace (S k =? length ys) with false by (symmetry; apply Nat.eqb_neq; lia).
      cbn [Nat.eqb]. rewrite length_drop, Nat.sub_diag. simpl min.
      destruct (drop (S k) ys) as [|y zs] eqn:Ed.
      { apply (f_equal length) in Ed. rewrite length_drop in Ed. cbn [length] in Ed. lia. }
      simpl. rewrite app_nil_r. subst ys. simpl in Hl.
      by destruct (length bs - k) eqn:?; [lia|].
    + rewrite Nat.eqb_refl. unfold ys. cbn [Nat.eqb length].
      rewrite drop_ge, take_ge by (simpl; lia). simpl.
      by destruct (k - length bs).
  - rewrite Nat.eqb_refl. simpl. by rewrite firstn_all, skipn_all.
Qed.
Next Obligation. done. Qed.
Next Obligation. done. Qed.
Next Obligation. done. Qed.

#[export] Program Instance Conn_ByteSink : ByteSink Conn := {
  sink_inv := fun c => tx_out c `prefix_of` tx c;
  written := tx;
  flushed := tx_out
}.
Next Obligation. done. Qed.
Next Obligation.
  intros bs c c' o Hi Hne. simpl. unfold conn_poll_write.
  assert (Hr : room_for c (length bs) <= length bs) by (unfold room_for; case_match; lia).
  destruct (Nat.eqb_spec (room_for c (length bs)) 0); intros ?; simplify_eq; simpl;
    split_and!; try done; try lia. by apply prefix_app_r.
Qed.
Next Obligation. intros c c' o Hi ?. simpl in *. unfold conn_poll_flush in *. by simplify_eq. Qed.

#[export] Program Instance Conn_ByteDuplex : ByteDuplex Conn := {}.
Next Obligation.
  intros c b c' b' o Hr Hs. simpl in *. unfold conn_poll_read.
  destruct (rx c) as [|[bs|] evs]; [destruct (rx_end c)| |]; intros ?; by simplify_eq.
Qed.
Next Obligation.
  intros bs c c' o Hr Hs. simpl in *. unfold conn_poll_write.
  case_match; intros ?; by simplify_eq.
Qed.
Next Obligation.
  intros c c' o Hr Hs ?. simpl in *. unfold conn_poll_flush in *. by simplify_eq.
Qed.

(** The connection cut into single bytes with a pause before each. *)
Definition dribble (bs : list byte) : list rx_event :=
  mjoin ((fun b => [NotReady; Chunk [b]]) <$> bs).

(** A connection on which nothing has been sent is a lawful writer. *)
Lemma fresh_sink_inv evs e room : sink_inv (mkConn evs e [] [] room).
Proof. simpl. apply prefix_nil. Qed.
