(* ===== verification/Cursor.v ===== *)
(** * [std::io::Cursor<Vec<u8>>] as a writer

    A vector with a write position: a write overwrites from the position on and
    extends the vector where needed.  The sources serialise headers into one and
    then cut the vector at the position. *)

From Stdlib Require Import ZArith Lia.
From Stdlib Require Import Strings.Byte.
From stdpp Require Import base list strings numbers relations.
From S2P Require Import Prelude AsyncIo.

#[local] Open Scope nat_scope.

Record Cursor := mkCursor { inner : list byte; position : nat }.

(** [Cursor::new(vec![0u8; n])] *)
Definition Cursor_new (n : nat) : Cursor := mkCursor (replicate n x00) 0.

Definition cursor_write (bs : list byte) (c : Cursor) : Cursor :=
  let front := take (position c) (inner c) ++
               replicate (position c - length (inner c)) x00 in
  mkCursor (front ++ bs ++ drop (position c + length bs) (inner c))
    (position c + length bs).

(** [vec.truncate(n)] *)
Definition truncate (n : nat) (v : list byte) : list byte := take n v.

#[export] Instance Cursor_AsyncWrite : AsyncWrite Cursor := {
  poll_write := fun bs c => (cursor_write bs c, Ok (length bs));
  poll_flush := fun c => (c, Ok tt);
  poll_shutdown := fun c => (c, Ok tt)
}.

Definition cursor_write_all (bs : list byte) : io Cursor unit := fun c =>
  (match bs with [] => c | _ => cursor_write bs c end, Ok tt).

#[export] Program Instance Cursor_AsyncWriteExt : AsyncWriteExt Cursor := {
  write_all := cursor_write_all;
  write_u8 := fun b => cursor_write_all [b];
  write_u16 := fun z => cursor_write_all (be_bytes 2 z);
  flush := fun c => (c, Ok tt)
}.
Next Obligation.
  intros [|x bs] c; [done|]. unfold cursor_write_all, poll_write, Cursor_AsyncWrite.
  cbn [length]. by rewrite drop_ge by (simpl; lia).
Qed.
Next Obligation. done. Qed.
Next Obligation. done. Qed.
Next Obligation. done. Qed.

#[export] Program Instance Cursor_ByteSink : ByteSink Cursor := {
  sink_inv := fun c => position c <= length (inner c);
  written := fun c => truncate (position c) (inner c);
  flushed := fun c => truncate (position c) (inner c)
}.
Next Obligation. done. Qed.
Next Obligation.
  intros bs c c' o Hi Hne E. simpl in Hi, E. simplify_eq. unfold cursor_write, truncate; simpl.
  replace (position c - length (inner c)) with 0 by lia. simpl. rewrite app_nil_r.
  assert (Ht : take (position c + length bs)
            (take (position c) (inner c) ++ bs ++ drop (position c + length bs) (inner c))
          = take (position c) (inner c) ++ bs).
  { rewrite app_assoc. rewrite take_app_le by (rewrite length_app, length_take; lia).
    apply take_ge. rewrite length_app, length_take. lia. }
  rewrite Ht, firstn_all. split_and!; [|by apply prefix_app_r| |lia|done].
  - rewrite !length_app, length_take, length_drop. lia.
  - destruct bs; [done|simpl; lia].
Qed.
Next Obligation. intros c c' o Hi E. simpl in E. by simplify_eq. Qed.

#[export] Program Instance Cursor_ReliableSink : ReliableSink Cursor := {}.
Next Obligation. intros bs c _ _. simpl. eauto. Qed.
Next Obligation. intros c _. simpl. eauto. Qed.

Lemma Cursor_new_inv n : sink_inv (Cursor_new n).
Proof. simpl. lia. Qed.

(** Serialising into a fresh cursor and cutting at the position yields exactly
    what a program emits, whatever the initial size of the vector. *)
Lemma cursor_serialises {A} (m : io Cursor A) bs n c' a :
  emits m bs -> m (Cursor_new n) = (c', Ok a) -> truncate (position c') (inner c') = bs.
Proof.
  intros He E. exact (emits_ok _ _ _ _ _ He (Cursor_new_inv n) E).
Qed.

(** ** A duplex stream from two halves

    [tokio::io::join]: reads go to one half, writes to the other. *)

Record Joined (R W : Type) := mkJoined { read_half : R; write_half : W }.
Arguments mkJoined {R W} _ _.
Arguments read_half {R W} _.
Arguments write_half {R W} _.

Section Join.
Context {R W : Type}.
#[local] Abbreviation J := (Joined R W).

Definition on_read {A} (m : io R A) : io J A := fun j =>
  let '(r, o) := m (read_half j) in (mkJoined r (write_half j), o).
Definition on_write {A} (m : io W A) : io J A := fun j =>
  let '(w, o) := m (write_half j) in (mkJoined (read_half j) w, o).

#[export] Instance Joined_AsyncRead `{AsyncRead R} : AsyncRead J := {
  poll_read := fun jb =>
    let '((r, b), o) := poll_read (read_half jb.1, jb.2) in
    ((mkJoined r (write_half jb.1), b), o);
  will_wake := fun j => will_wake (read_half j)
}.

#[export] Program Instance Joined_AsyncReadExt `{AsyncReadExt R} : AsyncReadExt J := {
  read := fun n => on_read (read n);
  read_exact := fun n => on_read (read_exact n);
  read_u8 := on_read read_u8;
  read_u16 := on_read read_u16;
  read_u32 := on_read read_u32;
  read_u128 := on_read read_u128
}.
Next Obligation.
  intros ? ? n [r w]. unfold on_read; simpl. rewrite read_eq.
  destruct (poll_read (r, mkReadBuf n [])) as [[r' b'] []]; simpl; try done.
  by destruct (will_wake r').
Qed.
Next Obligation.
  intros ? ? n [r w]. unfold on_read; simpl. rewrite read_exact_eq. destruct (n =? 0); [done|].
  destruct (poll_read (r, mkReadBuf n [])) as [[r' b'] []]; simpl; try done.
  - destruct (filled b') as [|x bs]; [done|]. by destruct (read_exact _ r').
  - by destruct (will_wake r').
Qed.
Next Obligation. intros ? ? [r w]. unfold on_read, io_map; simpl. rewrite read_u8_eq. unfold io_map. by destruct (read_exact 1 r). Qed.
Next Obligation. intros ? ? [r w]. unfold on_read, io_map; simpl. rewrite read_u16_eq. unfold io_map. by destruct (read_exact 2 r). Qed.
Next Obligation. intros ? ? [r w]. unfold on_read, io_map; simpl. rewrite read_u32_eq. unfold io_map. by destruct (read_exact 4 r). Qed.
Next Obligation. intros ? ? [r w]. unfold on_read, io_map; simpl. rewrite read_u128_eq. unfold io_map. by destruct (read_exact 16 r). Qed.

#[export] Program Instance Joined_ByteSource `{ByteSource R} : ByteSource J := {
  src_inv := fun j => src_inv (read_half j);
  view := fun j => view (read_half j);
  wakes := fun j => wakes (read_half j)
}.
Next Obligation.
  intros ? ? [r w] b [r' w'] b' o Hi Hrem E. simpl in *.
  destruct (poll_read (r, b)) as [[r1 b1] o1] eqn:Ep. simplify_eq.
  exact (poll_read_view _ _ _ _ _ Hi Hrem Ep).
Qed.

#[export] Instance Joined_AsyncWrite `{AsyncWrite W} : AsyncWrite J := {
  poll_write := fun bs => on_write (poll_write bs);
  poll_flush := on_write poll_flush;
  poll_shutdown := on_write poll_shutdown
}.

#[export] Program Instance Joined_AsyncWriteExt `{AsyncWriteExt W} : AsyncWriteExt J := {
  write_all := fun bs => on_write (write_all bs);
  write_u8 := fun b => on_write (write_u8 b);
  write_u16 := fun z => on_write (write_u16 z);
  flush := on_write flush
}.
Next Obligation.
  intros ? ? [|x bs] [r w]; unfold on_write; simpl; rewrite write_all_eq; [done|].
  unfold on_write; simpl. by destruct (poll_write (x :: bs) w) as [w' [[]|e|p|]].
Qed.
Next Obligation. intros ? ? b [r w]. unfold on_write; simpl. by rewrite write_u8_eq. Qed.
Next Obligation. intros ? ? z [r w]. unfold on_write; simpl. by rewrite write_u16_eq. Qed.
Next Obligation. intros ? ? [r w]. unfold on_write; simpl. by rewrite flush_eq. Qed.

#[export] Program Instance Joined_ByteSink `{ByteSink W} : ByteSink J := {
  sink_inv := fun j => sink_inv (write_half j);
  written := fun j => written (write_half j);
  flushed := fun j => flushed (write_half j)
}.
Next Obligation. intros ? ? [r w] Hi. exact (flushed_written _ Hi). Qed.
Next Obligation.
  intros ? ? bs [r w] [r' w'] o Hi Hne E. simpl in *. unfold on_write in E; simpl in E.
  destruct (poll_write bs w) as [w1 o1] eqn:Ep. simplify_eq.
  exact (poll_write_written _ _ _ _ Hi Hne Ep).
Qed.
Next Obligation.
  intros ? ? [r w] [r' w'] o Hi E. simpl in *. unfold on_write in E; simpl in E.
  destruct (poll_flush w) as [w1 o1] eqn:Ep. simplify_eq. exact (poll_flush_written _ _ _ Hi Ep).
Qed.

#[export] Program Instance Joined_ReliableSink `{ReliableSink W} : ReliableSink J := {}.
Next Obligation.
  intros ? ? ? bs [r w] Hi Hne. simpl in *. unfold on_write; simpl.
  destruct (poll_write_succeeds bs w Hi Hne) as (w' & n & ->). eauto.
Qed.
Next Obligation.
  intros ? ? ? [r w] Hi. simpl in *. unfold on_write; simpl.
  destruct (poll_flush_succeeds w Hi) as (w' & ->). eauto.
Qed.

#[export] Program Instance Joined_ByteDuplex `{ByteSource R} `{ByteSink W} : ByteDuplex J := {}.
Next Obligation.
  intros ? ? ? ? [r w] b [r' w'] b' o Hr Hs E. simpl in *.
  destruct (poll_read (r, b)) as [[r1 b1] o1] eqn:Ep. by simplify_eq.
Qed.
Next Obligation.
  intros ? ? ? ? bs [r w] [r' w'] o Hr Hs E. simpl in *. unfold on_write in E; simpl in E.
  destruct (poll_write bs w) as [w1 o1] eqn:Ep. by simplify_eq.
Qed.
Next Obligation.
  intros ? ? ? ? [r w] [r' w'] o Hr Hs E. simpl in *. unfold on_write in E; simpl in E.
  destruct (poll_flush w) as [w1 o1] eqn:Ep. by simplify_eq.
Qed.
End Join.
