(* ===== verification/Relay.v ===== *)
(** * Relay loops

    Every relay loop of the sources has the same shape: take an item from one
    resource, put it to another, for ever.  [pump] is that shape, [pumped] says
    all that can have happened after a number of iterations, and [pump_spec]
    proves it once; the components show that their loops are pumps and say what
    an item is. *)

From Stdlib Require Import Lia.
From Stdlib Require Import Strings.Byte.
From stdpp Require Import base list strings numbers relations.
From S2P Require Import Prelude AsyncIo.

#[local] Open Scope nat_scope.

(** ** Failures carried through *)

(** The failure [o] of one computation is the failure [o'] of another. *)
Definition same_failure {A B} (o : outcome A) (o' : outcome B) : Prop :=
  match o, o' with
  | Err e, Err e' => e = e'
  | Panic p, Panic p' => p = p'
  | Pending, Pending => True
  | _, _ => False
  end.

Lemma io_bind_fail {S A B} (m : io S A) (k : A -> io S B) s s' o :
  m s = (s', o) -> is_ok o = false ->
  exists o', io_bind m k s = (s', o') /\ same_failure o o'.
Proof.
  intros E Ho. unfold io_bind. rewrite E. destruct o; try done; eexists; split; reflexivity.
Qed.

Lemma loop_fail {S A} (body : io S (flow A)) s s' o n :
  body s = (s', o) -> is_ok o = false ->
  exists o', loop (Datatypes.S n) body s = (s', Exited o') /\ same_failure o o'.
Proof.
  intros E Ho. simpl. rewrite E. destruct o; try done; eexists; split; reflexivity.
Qed.

Lemma same_failure_not_ok {A B} (o : outcome A) (o' : outcome B) :
  same_failure o o' -> is_ok o = false /\ is_ok o' = false.
Proof. by destruct o, o'. Qed.

Lemma same_failure_trans {A B C} (o1 : outcome A) (o2 : outcome B) (o3 : outcome C) :
  same_failure o1 o2 -> same_failure o2 o3 -> same_failure o1 o3.
Proof. destruct o1, o2, o3; simpl; intros; subst; done. Qed.

Lemma same_failure_short_read {A B} e (o : outcome B) :
  same_failure (@short_read A e) o -> o = short_read e.
Proof. destruct e, o; simpl; intros; subst; done. Qed.

(** ** Taking items *)

(** [pulls src s xs s']: from [s], the source yields the items [xs] one after
    the other and is then in [s']. *)
Inductive pulls {S X} (src : io S X) : S -> list X -> S -> Prop :=
| pulls_nil s : pulls src s [] s
| pulls_cons s x s1 xs s2 :
    src s = (s1, Ok x) -> pulls src s1 xs s2 -> pulls src s (x :: xs) s2.

Lemma pulls_app {S X} (src : io S X) s xs s1 ys s2 :
  pulls src s xs s1 -> pulls src s1 ys s2 -> pulls src s (xs ++ ys) s2.
Proof. induction 1; simpl; [done|]. intros. econstructor; eauto. Qed.

Lemma pulls_app_inv {S X} (src : io S X) s xs ys s2 :
  pulls src s (xs ++ ys) s2 -> exists s1, pulls src s xs s1 /\ pulls src s1 ys s2.
Proof.
  revert s; induction xs as [|x xs IH]; intros s H; [by exists s; split; [constructor|]|].
  inversion H as [|? ? s1 ? ? E H']; subst. destruct (IH _ H') as (s3 & ? & ?).
  exists s3. split; [by econstructor|done].
Qed.

(** Two runs of a source agree on what they share. *)
Lemma pulls_det {S X} (src : io S X) s xs s1 ys s2 :
  pulls src s xs s1 -> pulls src s ys s2 -> length xs <= length ys ->
  exists zs, ys = xs ++ zs /\ pulls src s1 zs s2.
Proof.
  intros H. revert ys. induction H as [s|s x s1 xs s3 E H IH]; intros ys Hy Hl; [by exists ys|].
  inversion Hy as [|? y ? ys' ? E' H']; subst; simpl in Hl; [lia|].
  rewrite E in E'. simplify_eq. destruct (IH _ H' ltac:(lia)) as (zs & -> & ?). by exists zs.
Qed.

(** A source that fails after [xs] yields nothing but [xs]. *)
Lemma pulls_stuck {S X} (src : io S X) s xs s1 s' o ys s2 :
  pulls src s xs s1 -> src s1 = (s', o) -> is_ok o = false -> pulls src s ys s2 ->
  exists zs, xs = ys ++ zs /\ pulls src s2 zs s1.
Proof.
  intros Hx E Ho Hy. destruct (Nat.le_gt_cases (length ys) (length xs)) as [Hl|Hl].
  - by eapply pulls_det.
  - destruct (pulls_det _ _ _ _ _ _ Hx Hy ltac:(lia)) as (zs & -> & Hz).
    rewrite length_app in Hl. inversion Hz as [|? ? ? ? ? E']; subst; simpl in Hl; [lia|].
    rewrite E in E'. by simplify_eq.
Qed.

(** A source whose items cost at least [cost x] of a measure of its state cannot
    yield more than the measure pays for. *)
Lemma pulls_measure {S X} (src : io S X) (inv : S -> Prop) (mu : S -> nat) (cost : X -> nat) s xs s' :
  (forall s x s', inv s -> src s = (s', Ok x) -> inv s' /\ cost x + mu s' <= mu s) ->
  inv s -> pulls src s xs s' -> inv s' /\ sum_list_with cost xs + mu s' <= mu s.
Proof.
  intros Hstep Hi Hp. induction Hp as [s|s x s1 xs s2 E _ IH]; [by split|].
  destruct (Hstep _ _ _ Hi E) as [Hi1 Hle]. destruct (IH Hi1) as [? ?]. simpl. split; [done|lia].
Qed.

(** ** Putting items *)

(** [appends inv log m bs]: [m] appends [bs] to the log of its resource; when it
    does not succeed, a prefix of [bs].  It does not panic. *)
Definition appends {W B A} (inv : W -> Prop) (log : W -> list B) (m : io W A) (bs : list B) : Prop :=
  forall w w' o, inv w -> m w = (w', o) ->
  inv w' /\ is_panic o = false /\
  exists out, out `prefix_of` bs /\ log w' = log w ++ out /\ (is_ok o = true -> out = bs).

Lemma emits_appends {W A} `{ByteSink W} (m : io W A) bs :
  emits m bs -> appends sink_inv written m bs.
Proof. intros Hm w w' o Hw E. destruct (Hm _ _ _ Hw E) as (? & ? & _ & ?). done. Qed.

(** Forgetting the result of a computation. *)
Lemma appends_discard {W B A} inv (log : W -> list B) (m : io W A) bs :
  appends inv log m bs -> appends inv log (m ;;? io_ret tt) bs.
Proof.
  intros Hm w w' o Hw. unfold io_bind. destruct (m w) as [w1 o1] eqn:E.
  destruct (Hm _ _ _ Hw E) as (? & ? & ?). destruct o1; intros [=<- <-]; done.
Qed.

Lemma appends_bind {W B A C} inv (log : W -> list B) (m : io W A) (k : A -> io W C) bs1 bs2 :
  appends inv log m bs1 -> (forall a, appends inv log (k a) bs2) ->
  appends inv log (io_bind m k) (bs1 ++ bs2).
Proof.
  intros Hm Hk w w' o Hw. unfold io_bind. destruct (m w) as [w1 o1] eqn:E.
  destruct (Hm _ _ _ Hw E) as (Hi & Hp & out & Hpre & Hlog & Hok).
  destruct o1 as [a|e|p|]; simpl in *; [|intros [=<- <-]..]; try done.
  - intros E2. destruct (Hk _ _ _ _ Hi E2) as (Hi2 & Hp2 & out2 & Hpre2 & Hlog2 & Hok2).
    rewrite (Hok eq_refl) in *. split_and!; [done..|]. exists (bs1 ++ out2).
    split_and!; [by apply prefix_app|by rewrite Hlog2, Hlog, app_assoc|intros; by rewrite Hok2].
  - split_and!; [done..|]. exists out. split_and!; [by apply prefix_app_r|done|done].
  - split_and!; [done..|]. exists out. split_and!; [by apply prefix_app_r|done|done].
Qed.

Lemma appends_lift {W B A C} inv (log : W -> list B) (o : outcome A) a (k : A -> io W C) bs :
  o = Ok a -> appends inv log (k a) bs -> appends inv log (io_bind (io_lift o) k) bs.
Proof. by intros ->. Qed.

Lemma appends_map_err {W B A} inv (log : W -> list B) (m : io W A) f bs :
  appends inv log m bs -> appends inv log (io_map_err f m) bs.
Proof.
  intros Hm w w' o Hw. unfold io_map_err. destruct (m w) as [w1 o1] eqn:E.
  destruct (Hm _ _ _ Hw E) as (? & ? & out & ? & ? & ?).
  destruct o1; intros [=<- <-]; split_and!; eauto.
Qed.

(** ** The pump *)

Definition pump {S W X} (src : io S X) (snk : X -> io W unit) : io (S * W) (flow unit) :=
  let? x := on_fst src in
  on_snd (snk x) ;;?
  io_ret Continue.

Lemma loop_ext {S A} (b1 b2 : io S (flow A)) n s : io_eq b1 b2 -> loop n b1 s = loop n b2 s.
Proof.
  intros Hb. revert s; induction n as [|n IH]; intros s; [done|]. simpl. rewrite Hb.
  destruct (b2 s) as [s1 [[]| | |]]; done.
Qed.

(** A sequence of writes is one write. *)
Lemma on_snd_seq {S T A B C} (m : io T A) (k : A -> io (S * T) C) (k' : A -> io T B) (c : C) :
  (forall a, io_eq (k a) (on_snd (k' a) ;;? io_ret c)) ->
  io_eq (io_bind (on_snd m) k) (on_snd (io_bind m k') ;;? io_ret c).
Proof.
  intros Hk [s t]. unfold io_bind, on_snd; simpl. destruct (m t) as [t1 [a|e|p|]]; try done.
  rewrite Hk. unfold io_bind, on_snd; simpl. by destruct (k' a t1) as [t2 []].
Qed.

Lemma on_snd_last {S T A C} (m : io T A) (c : C) :
  io_eq (on_snd (S:=S) m ;;? io_ret c) (on_snd (m ;;? io_ret tt) ;;? io_ret c).
Proof. intros [s t]. unfold io_bind, on_snd; simpl. by destruct (m t) as [t1 []]. Qed.

Section Pump.
Context {S W X B : Type} (src : io S X) (snk : X -> io W unit).
Context (inv : W -> Prop) (log : W -> list B) (enc : X -> list B).

(** What [n] iterations from [(s, w)] can have led to: all items taken were put
    and the pump is still running; the source failed and everything taken before
    was put; or the sink refused an item, of which a prefix was put. *)
Inductive pumped (n : nat) (s : S) (w : W) : S -> W -> exit unit -> Prop :=
| pumped_running xs s' w' :
    pulls src s xs s' -> length xs = n -> log w' = log w ++ mjoin (enc <$> xs) ->
    pumped n s w s' w' Running
| pumped_drained xs s1 s' w' o o' :
    pulls src s xs s1 -> length xs < n -> src s1 = (s', o) -> same_failure o o' ->
    log w' = log w ++ mjoin (enc <$> xs) ->
    pumped n s w s' w' (Exited o')
| pumped_refused xs x s' w0 w' out o o' :
    pulls src s (xs ++ [x]) s' -> length xs < n ->
    log w0 = log w ++ mjoin (enc <$> xs) -> snk x w0 = (w', o) -> same_failure o o' ->
    out `prefix_of` enc x -> log w' = log w ++ mjoin (enc <$> xs) ++ out ->
    pumped n s w s' w' (Exited o').

Lemma pump_source_fails s w s' o n :
  src s = (s', o) -> is_ok o = false ->
  exists o', loop (Datatypes.S n) (pump src snk) (s, w) = ((s', w), Exited o') /\ same_failure o o'.
Proof.
  intros E Ho.
  destruct (io_bind_fail (on_fst src) (fun x => on_snd (snk x) ;;? io_ret (Continue (A:=unit)))
              (s, w) (s', w) o) as (o1 & E1 & H1); [unfold on_fst; simpl; by rewrite E|done|].
  destruct (same_failure_not_ok _ _ H1) as [_ Ho1].
  destruct (loop_fail (pump src snk) (s, w) (s', w) o1 n E1 Ho1) as (o2 & E2 & H2).
  exists o2. split; [done|by eapply same_failure_trans].
Qed.

Lemma pump_sink_fails s w s' x w' o n :
  src s = (s', Ok x) -> snk x w = (w', o) -> is_ok o = false ->
  exists o', loop (Datatypes.S n) (pump src snk) (s, w) = ((s', w'), Exited o') /\ same_failure o o'.
Proof.
  intros E Ex Ho.
  destruct (io_bind_fail (on_snd (snk x)) (fun _ => io_ret (Continue (A:=unit)))
              (s', w) (s', w') o) as (o1 & E1 & H1); [unfold on_snd; simpl; by rewrite Ex|done|].
  destruct (same_failure_not_ok _ _ H1) as [_ Ho1].
  destruct (loop_fail (pump src snk) (s, w) (s', w') o1 n) as (o2 & E2 & H2); [|done|].
  { unfold pump. by rewrite (io_bind_on_fst _ _ _ _ _ _ E). }
  exists o2. split; [done|by eapply same_failure_trans].
Qed.

Lemma pump_step s w s' x w' n :
  src s = (s', Ok x) -> snk x w = (w', Ok tt) ->
  loop (Datatypes.S n) (pump src snk) (s, w) = loop n (pump src snk) (s', w').
Proof.
  intros E Ex. apply loop_step. unfold pump.
  rewrite (io_bind_on_fst _ _ _ _ _ _ E). by rewrite (io_bind_on_snd _ _ _ _ _ _ Ex).
Qed.

Lemma pumped_cons n s w s1 x w1 s' w' ex :
  src s = (s1, Ok x) -> log w1 = log w ++ enc x ->
  pumped n s1 w1 s' w' ex -> pumped (Datatypes.S n) s w s' w' ex.
Proof.
  intros E Hl Hp. destruct Hp as [xs s' w' H1 H2 H3|xs s2 s' w' o o' H1 H2 H3 H4 H5
    |xs y s' w0 w' out o o' H1 H2 H0 H3 H4 H5 H6].
  - apply (pumped_running _ _ _ (x :: xs)); [by econstructor|simpl; lia|].
    by rewrite H3, Hl, <- app_assoc.
  - apply (pumped_drained _ _ _ (x :: xs) s2 _ _ o); [by econstructor|simpl; lia|done|done|].
    by rewrite H5, Hl, <- app_assoc.
  - apply (pumped_refused _ _ _ (x :: xs) y _ w0 _ out o);
      [by econstructor|simpl; lia|by rewrite H0, Hl, <- app_assoc|done|done|done|].
    rewrite H6, Hl; simpl. by rewrite <- !app_assoc.
Qed.

Context (Hsnk : forall x, appends inv log (snk x) (enc x)).

Lemma pump_spec n s w s' w' ex :
  inv w -> loop n (pump src snk) (s, w) = ((s', w'), ex) ->
  inv w' /\ pumped n s w s' w' ex.
Proof.
  revert s w; induction n as [|n IH]; intros s w Hw E.
  { simpl in E. simplify_eq. split; [done|].
    apply (pumped_running _ _ _ []); [constructor|done|by rewrite app_nil_r]. }
  destruct (src s) as [s1 o] eqn:Es. destruct (is_ok o) eqn:Ho.
  - destruct o as [x| | |]; try done. destruct (snk x w) as [w1 o1] eqn:Ex.
    destruct (Hsnk _ _ _ _ Hw Ex) as (Hi & _ & out & Hpre & Hlog & Hok).
    destruct (is_ok o1) eqn:Ho1.
    + destruct o1 as [[]| | |]; try done. rewrite (pump_step _ _ _ _ _ _ Es Ex) in E.
      rewrite (Hok eq_refl) in *. destruct (IH _ _ Hi E) as [? Hp].
      split; [done|by eapply pumped_cons].
    + destruct (pump_sink_fails _ _ _ _ _ _ n Es Ex Ho1) as (o2 & E2 & Hf).
      rewrite E2 in E. simplify_eq. split; [done|].
      eapply (pumped_refused _ _ _ []); [by econstructor; [|constructor]|simpl; lia
        |by rewrite app_nil_r|done..].
  - destruct (pump_source_fails s w s1 o n Es Ho) as (o2 & E2 & Hf).
    rewrite E2 in E. simplify_eq. split; [done|].
    eapply (pumped_drained _ _ _ []); [constructor|simpl; lia|done|done|by rewrite app_nil_r].
Qed.

(** With a source known to yield [xs] and then to fail with [o], the pump leaves
    within [length xs + 1] iterations: it has put everything and fails as the
    source does, or the sink refused an item. *)
Lemma pump_drains xs s s1 s2 o w :
  inv w -> pulls src s xs s1 -> src s1 = (s2, o) -> is_ok o = false ->
  exists s' w' o', loop (Datatypes.S (length xs)) (pump src snk) (s, w) = ((s', w'), Exited o') /\
  inv w' /\
  ((s' = s2 /\ same_failure o o' /\ log w' = log w ++ mjoin (enc <$> xs)) \/
   exists ys x zs out w0 ox,
     xs = ys ++ x :: zs /\ out `prefix_of` enc x /\ log w' = log w ++ mjoin (enc <$> ys) ++ out /\
     log w0 = log w ++ mjoin (enc <$> ys) /\ snk x w0 = (w', ox) /\ same_failure ox o').
Proof.
  intros Hw Hp E Ho.
  destruct (loop (Datatypes.S (length xs)) (pump src snk) (s, w)) as [[s' w'] ex] eqn:El.
  destruct (pump_spec _ _ _ _ _ _ Hw El) as [Hi Hpump].
  destruct Hpump as [ys s' w' H1 H2 H3|ys s3 s' w' o1 o' H1 H2 H3 H4 H5
    |ys y s' w0 w' out o1 o' H1 H2 H0 H3 H4 H5 H6].
  - destruct (pulls_stuck _ _ _ _ _ _ _ _ Hp E Ho H1) as (zs & -> & _).
    rewrite length_app in H2. lia.
  - exists s', w', o'. split_and!; [done..|]. left.
    destruct (pulls_stuck _ _ _ _ _ _ _ _ Hp E Ho H1) as (zs & -> & Hz).
    inversion Hz as [|? z ? ? ? E']; subst.
    + rewrite E in H3. simplify_eq. by rewrite app_nil_r.
    + rewrite H3 in E'. simplify_eq. by destruct o'.
  - exists s', w', o'. split_and!; [done..|]. right.
    destruct (pulls_stuck _ _ _ _ _ _ _ _ Hp E Ho H1) as (zs & -> & _).
    exists ys, y, zs, out, w0, o1. rewrite <- app_assoc. done.
Qed.
End Pump.

(** What a pump that has left after any number of iterations has put is what it
    took, but possibly for a part of the last item; it leaves on a failure only. *)
Lemma pumped_exited {S W X B} (src : io S X) (snk : X -> io W unit) (log : W -> list B)
    (enc : X -> list B) n s w s' w' o :
  pumped src snk log enc n s w s' w' (Exited o) ->
  is_ok o = false /\ exists xs s1 out, pulls src s xs s1 /\
    out `prefix_of` mjoin (enc <$> xs) /\ log w' = log w ++ out.
Proof.
  intros Hp. inversion Hp as [|xs s1 ? ? ? ? H1 _ _ Hf Hl
    |xs x ? w0 ? out ? ? H1 _ _ _ Hf Hpre Hl]; subst;
    (split; [apply (same_failure_not_ok _ _ Hf)|]).
  - by exists xs, s1, (mjoin (enc <$> xs)).
  - exists (xs ++ [x]), s', (mjoin (enc <$> xs) ++ out). split_and!; [done| |done].
    rewrite fmap_app, join_app. apply prefix_app. simpl. by rewrite app_nil_r.
Qed.

(** A pump leaves before its source runs out of the measure. *)
Lemma pump_terminates {S W X B} (src : io S X) (snk : X -> io W unit) (inv : W -> Prop)
    (log : W -> list B) (enc : X -> list B) (sinv : S -> Prop) (mu : S -> nat) (cost : X -> nat)
    k s w n :
  (forall x, appends inv log (snk x) (enc x)) ->
  (forall s x s', sinv s -> src s = (s', Ok x) -> sinv s' /\ cost x + mu s' <= mu s) ->
  (forall x, k <= cost x) -> sinv s -> inv w -> mu s < k * n ->
  exists s' w' o xs s1 out,
    loop n (pump src snk) (s, w) = ((s', w'), Exited o) /\ is_ok o = false /\
    pulls src s xs s1 /\ sum_list_with cost xs <= mu s /\
    out `prefix_of` mjoin (enc <$> xs) /\ log w' = log w ++ out.
Proof.
  intros Hsnk Hstep Hk Hs Hw Hn. destruct (loop n _ _) as [[s' w'] ex] eqn:E.
  destruct (pump_spec _ _ _ _ _ Hsnk _ _ _ _ _ _ Hw E) as [_ Hp]. destruct ex as [|o].
  - inversion Hp as [xs ? ? H1 Hl _| |]; subst.
    destruct (pulls_measure _ _ _ _ _ _ _ Hstep Hs H1) as [_ Hle].
    assert (k * length xs <= sum_list_with cost xs); [|lia].
    clear -Hk. induction xs as [|x xs IH]; simpl; [lia|]. specialize (Hk x). lia.
  - destruct (pumped_exited _ _ _ _ _ _ _ _ _ _ Hp) as (Ho & xs & s1 & out & H1 & Hpre & Hl).
    exists s', w', o, xs, s1, out. split_and!; [done..| |done|done].
    destruct (pulls_measure _ _ _ _ _ _ _ Hstep Hs H1) as [_ Hle]. lia.
Qed.

(** A pump into a writer whose puts end in a flush leaves nothing unflushed
    between two iterations. *)
Lemma pump_flushed {S W X} `{AsyncWriteExt W} `{!ByteSink W} (src : io S X)
    (snk : X -> io W unit) (enc : X -> list byte) n s w s' w' :
  (forall x, emits (snk x) (enc x)) -> (forall x, flushes (snk x)) ->
  sink_inv w -> flushed w = written w \/ 0 < n ->
  loop n (pump src snk) (s, w) = ((s', w'), Running) -> flushed w' = written w'.
Proof.
  intros He Hf. revert s w. induction n as [|n IH]; intros s w Hw Hn E.
  { simpl in E. injection E as -> ->. destruct Hn; [done|lia]. }
  destruct (src s) as [s1 o] eqn:Es. destruct o as [x|e|p|];
    [|destruct (pump_source_fails src snk s w s1 _ n Es eq_refl) as (? & E2 & _);
      rewrite E2 in E; discriminate..].
  destruct (snk x w) as [w1 o1] eqn:Ex. destruct (He _ _ _ _ Hw Ex) as [Hi _].
  destruct o1 as [[]|e|p|];
    [|destruct (pump_sink_fails src snk _ _ _ _ _ _ n Es Ex eq_refl) as (? & E2 & _);
      rewrite E2 in E; discriminate..].
  rewrite (pump_step _ _ _ _ _ _ _ _ Es Ex) in E.
  refine (IH _ _ Hi (or_introl _) E). exact (Hf _ _ _ _ Hw Ex).
Qed.
