(* ===== verification/Select.v ===== *)
(** * Two relays at once: [tokio::select!] and [tokio::io::copy]

    A connection is served by two loops, one per direction, that run until the
    first of them leaves; the other is then dropped wherever it is.  A loop is
    cut at its await points into steps: taking an item and putting it.  A
    schedule says which loop is polled next, so that every statement about all
    schedules is a statement about all interleavings. *)

From Stdlib Require Import Lia.
From Stdlib Require Import Strings.Byte.
From stdpp Require Import base list strings numbers relations.
From S2P Require Import Prelude AsyncIo Relay.

#[local] Open Scope nat_scope.

(** ** Loops cut into steps *)

(** Where a loop is: about to take an item, with an item taken and not put yet,
    or waiting for ever. *)
Inductive place (X : Type) := Idle | Holding (x : X) | Stuck.
Arguments Idle {X}.
Arguments Holding {X} x.
Arguments Stuck {X}.

(** A loop over a shared state: [take] yields an item or the end of the loop,
    [put] hands an item on, [finish] is what is done at the end. *)
Record task (S X : Type) := mkTask {
  take_item : io S (option X);
  put_item : X -> io S unit;
  finish : io S unit;
}.
Arguments mkTask {S X} _ _ _.
Arguments take_item {S X} _ _.
Arguments put_item {S X} _ _ _.
Arguments finish {S X} _ _.

(** One step; [Some o] when the loop left with [o]. *)
Definition poll_task {S X} (t : task S X) (s : S) (k : place X) :
    S * place X * option (outcome unit) :=
  match k with
  | Idle =>
      match take_item t s with
      | (s', Ok (Some x)) => (s', Holding x, None)
      | (s', Ok None) =>
          match finish t s' with
          | (s'', Pending) => (s'', Stuck, None)
          | (s'', o) => (s'', Idle, Some o)
          end
      | (s', Err e) => (s', Idle, Some (Err e))
      | (s', Panic p) => (s', Idle, Some (Panic p))
      | (s', Pending) => (s', Stuck, None)
      end
  | Holding x =>
      match put_item t x s with
      | (s', Ok _) => (s', Idle, None)
      | (s', Err e) => (s', Stuck, Some (Err e))
      | (s', Panic p) => (s', Stuck, Some (Panic p))
      | (s', Pending) => (s', Stuck, None)
      end
  | Stuck => (s, Stuck, None)
  end.

Inductive select_end := Unfinished | First (o : outcome unit) | Second (o : outcome unit).

(** [tokio::select!(_ = t1 => (), _ = t2 => ())] under a schedule: [true] polls
    the first branch. *)
Fixpoint select {S X Y} (t1 : task S X) (t2 : task S Y) (sched : list bool)
    (s : S) (k1 : place X) (k2 : place Y) : S * place X * place Y * select_end :=
  match sched with
  | [] => (s, k1, k2, Unfinished)
  | true :: sched' =>
      match poll_task t1 s k1 with
      | (s', k', Some o) => (s', k', k2, First o)
      | (s', k', None) => select t1 t2 sched' s' k' k2
      end
  | false :: sched' =>
      match poll_task t2 s k2 with
      | (s', k', Some o) => (s', k1, k', Second o)
      | (s', k', None) => select t1 t2 sched' s' k1 k'
      end
  end.

(** The results of the branches are discarded; a panic is not. *)
Definition select_outcome (e : select_end) : option (outcome unit) :=
  match e with
  | Unfinished => None
  | First (Panic p) => Some (Panic p)
  | Second (Panic p) => Some (Panic p)
  | _ => Some (Ok tt)
  end.

(** An invariant that every step of either branch preserves holds at the end. *)
Lemma select_invariant {S X Y} (t1 : task S X) (t2 : task S Y)
    (I : S -> place X -> place Y -> Prop) (F1 F2 : S -> place X -> place Y -> outcome unit -> Prop) :
  (forall s k1 k2 s' k' r, I s k1 k2 -> poll_task t1 s k1 = (s', k', r) ->
     match r with None => I s' k' k2 | Some o => F1 s' k' k2 o end) ->
  (forall s k1 k2 s' k' r, I s k1 k2 -> poll_task t2 s k2 = (s', k', r) ->
     match r with None => I s' k1 k' | Some o => F2 s' k1 k' o end) ->
  forall sched s k1 k2 s' k1' k2' e,
  I s k1 k2 -> select t1 t2 sched s k1 k2 = (s', k1', k2', e) ->
  match e with
  | Unfinished => I s' k1' k2'
  | First o => F1 s' k1' k2' o
  | Second o => F2 s' k1' k2' o
  end.
Proof.
  intros H1 H2 sched. induction sched as [|[] sched IH]; intros s k1 k2 s' k1' k2' e Hi E; simpl in E.
  - by simplify_eq.
  - destruct (poll_task t1 s k1) as [[s1 k] r] eqn:Ep. pose proof (H1 _ _ _ _ _ _ Hi Ep) as Hr.
    destruct r as [o|]; [by simplify_eq|]. by eapply IH.
  - destruct (poll_task t2 s k2) as [[s1 k] r] eqn:Ep. pose proof (H2 _ _ _ _ _ _ Hi Ep) as Hr.
    destruct r as [o|]; [by simplify_eq|]. by eapply IH.
Qed.

(** What follows on a schedule that has not ended the [select!]. *)
Lemma select_app {S X Y} (t1 : task S X) (t2 : task S Y) pre post s k1 k2 s' k1' k2' :
  select t1 t2 pre s k1 k2 = (s', k1', k2', Unfinished) ->
  select t1 t2 (pre ++ post) s k1 k2 = select t1 t2 post s' k1' k2'.
Proof.
  revert s k1 k2. induction pre as [|[] pre IH]; intros s k1 k2 E; simpl in *; [by simplify_eq|..].
  - destruct (poll_task t1 s k1) as [[s1 k] [o|]]; [done|by apply IH].
  - destruct (poll_task t2 s k2) as [[s1 k] [o|]]; [done|by apply IH].
Qed.

(** ** [tokio::io::copy]

    [copy(reader, writer)] is tokio's and a parameter: it goes on taking chunks
    from the reader and putting them to the writer until the reader ends, and
    then flushes the writer.  The sizes of the chunks are its own. *)
Class TokioCopy := {
  next_chunk {R} `{AsyncReadExt R} : io R (option (list byte));
  put_chunk {W} `{AsyncWriteExt W} : list byte -> io W unit;
  end_copy {W} `{AsyncWriteExt W} : io W unit;
}.

(** Its documented behaviour: a chunk is what a read returned, never empty before
    the end of the reader; putting it is writing all of it; the end is a flush. *)
Class TokioCopyLawful `{TokioCopy} := {
  next_chunk_view {R} `{AsyncReadExt R} `{!ByteSource R} (r r' : R) o :
    src_inv r -> next_chunk r = (r', o) ->
    src_inv r' /\ fin (view r') = fin (view r) /\
    match o with
    | Ok (Some bs) => bs <> [] /\ data (view r) = bs ++ data (view r')
    | Ok None => data (view r) = [] /\ data (view r') = [] /\ fin (view r) = Eof
    | Err e => data (view r) = [] /\ data (view r') = [] /\ fin (view r) = Broken e
    | Panic _ => False
    | Pending => data (view r) = [] /\ data (view r') = [] /\ fin (view r) = Stalled
    end;
  quiet_next_chunk {A} `{AsyncReadExt A} `{!ByteSource A} `{!AsyncWrite A} `{!ByteSink A}
    `{!ByteDuplex A} : quiet (next_chunk : io A _);

  emits_put_chunk {W} `{AsyncWriteExt W} `{!ByteSink W} bs : emits (put_chunk bs : io W unit) bs;
  emits_end_copy {W} `{AsyncWriteExt W} `{!ByteSink W} : emits (end_copy : io W unit) [];
  flushes_end_copy {W} `{AsyncWriteExt W} `{!ByteSink W} : flushes (end_copy : io W unit);
  still_put_chunk {B} `{AsyncRead B} `{!ByteSource B} `{!AsyncWrite B} `{!AsyncWriteExt B} `{!ByteSink B}
    `{!ByteDuplex B} bs : still (put_chunk bs : io B unit);
  still_end_copy {B} `{AsyncRead B} `{!ByteSource B} `{!AsyncWrite B} `{!AsyncWriteExt B} `{!ByteSink B}
    `{!ByteDuplex B} : still (end_copy : io B unit);
  succeeds_put_chunk {W} `{AsyncWriteExt W} `{!ByteSink W} `{!ReliableSink W} bs :
    succeeds (put_chunk bs : io W unit);
  succeeds_end_copy {W} `{AsyncWriteExt W} `{!ByteSink W} `{!ReliableSink W} :
    succeeds (end_copy : io W unit);
}.

(** A copy that meets the contract, with a buffer of the documented size.  It is
    what the witnesses run on; it is not an instance, so that no theorem can
    depend on it. *)
Definition COPY_BUF : nat := 2 * 4096.

Lemma COPY_BUF_pos : 0 < COPY_BUF.
Proof. unfold COPY_BUF. lia. Qed.

Definition buffered_copy : TokioCopy := {|
  next_chunk _ _ _ :=
    let? bs := read COPY_BUF in
    io_ret (match bs with [] => None | _ => Some bs end);
  put_chunk _ _ _ := write_all;
  end_copy _ _ _ := flush;
|}.

Lemma buffered_copy_lawful : TokioCopyLawful (H:=buffered_copy).
Proof.
  split; simpl; intros; eauto using emits_write_all, emits_flush, flushes_flush, still_write_all,
    still_flush, succeeds_write_all, succeeds_flush.
  - match goal with E : io_bind _ _ ?r = _ |- _ => rename E into E1; rename r into r0 end.
    unfold io_bind, io_ret in E1. destruct (read COPY_BUF r0) as [r1 o1] eqn:E.
    destruct (read_view _ _ _ _ ltac:(eassumption) COPY_BUF_pos E) as (Hi & Hf & Ho).
    destruct o1 as [bs|e|p|]; simplify_eq; (split; [done|]); (split; [done|]).
    + destruct Ho as (Hd & _ & He). destruct bs as [|b bs]; [|done].
      destruct (He eq_refl) as [? ?]. simpl in Hd. split_and!; congruence.
    + destruct Ho as (Hd & Hs & Hd'). by split_and!.
    + done.
    + destruct Ho as (Hd & Hs & Hd'). by split_and!.
  - apply quiet_bind; [apply quiet_read, COPY_BUF_pos|auto with refines].
Qed.

Section Copy.
Context {C S : Type} `{TokioCopy}.
Context `{AsyncReadExt C} `{!AsyncWrite C} `{!AsyncWriteExt C}.
Context `{AsyncReadExt S} `{!AsyncWrite S} `{!AsyncWriteExt S}.

(** The two directions over a client stream and a server stream. *)
Definition copy_up : task (C * S) (list byte) :=
  mkTask (on_fst next_chunk) (fun bs => on_snd (put_chunk bs)) (on_snd end_copy).
Definition copy_down : task (C * S) (list byte) :=
  mkTask (on_snd next_chunk) (fun bs => on_fst (put_chunk bs)) (on_fst end_copy).
End Copy.

(** ** What a relay does to the streams *)

(** One direction, from [x] (initially [x0]) to [y] (initially [y0]) with the
    loop at [k]: what was put is the front of what was taken, and in order. *)
Definition moved {A B} `{ByteSource A} `{ByteSink B}
    (x0 x : A) (y0 y : B) (k : place (list byte)) : Prop :=
  fin (view x) = fin (view x0) /\
  exists out rest,
    data (view x0) = out ++ rest ++ data (view x) /\ written y = written y0 ++ out /\
    match k with Idle => rest = [] | Holding bs => rest = bs | Stuck => True end.

(** How a direction that left with [o] left: at the end of the stream everything
    was put and flushed; otherwise a stream failed. *)
Definition left_with {A B} `{ByteSource A} `{ByteSink B}
    (x0 : A) (y0 y : B) (o : outcome unit) : Prop :=
  match o with
  | Ok _ => fin (view x0) = Eof /\ written y = written y0 ++ data (view x0) /\ flushed y = written y
  | Err _ => True
  | _ => False
  end.

Lemma moved_stuck {A B} `{ByteSource A} `{ByteSink B} (x0 x : A) (y0 y : B) k :
  moved x0 x y0 y k -> moved x0 x y0 y Stuck.
Proof. intros (Hf & out & rest & ? & ? & _). split; [done|]. by exists out, rest. Qed.

Lemma moved_start {A B} `{ByteSource A} `{ByteSink B} (x : A) (y : B) : moved x x y y Idle.
Proof. split; [done|]. exists [], []. by rewrite app_nil_r. Qed.

Section OneWay.
Context {A B : Type} `{TokioCopyLawful}.
Context `{AsyncReadExt A} `{!ByteSource A} `{!AsyncWrite A} `{!AsyncWriteExt A} `{!ByteSink A} `{!ByteDuplex A}.
Context `{AsyncReadExt B} `{!ByteSource B} `{!AsyncWrite B} `{!AsyncWriteExt B} `{!ByteSink B} `{!ByteDuplex B}.

(** A step leaves the opposite directions of both streams alone. *)
Definition framed (a a' : A) (b b' : B) : Prop :=
  both_inv a' /\ both_inv b' /\ written a' = written a /\ flushed a' = flushed a /\ view b' = view b.

Lemma put_framed (a : A) (b b' : B) bs o :
  both_inv a -> both_inv b -> put_chunk bs b = (b', o) -> framed a a b b'.
Proof.
  intros Ha Hb E. destruct (still_put_chunk bs _ _ _ Hb E) as [? ?].
  destruct (emits_put_chunk bs _ _ _ (proj2 Hb) E) as [? _]. done.
Qed.

Lemma flush_framed (a : A) (b b' : B) o :
  both_inv a -> both_inv b -> end_copy b = (b', o) -> framed a a b b'.
Proof.
  intros Ha Hb E. destruct (still_end_copy _ _ _ Hb E) as [? ?].
  destruct (emits_end_copy _ _ _ (proj2 Hb) E) as [? _]. done.
Qed.

(** What taking a chunk does. *)
Lemma take_moved (a0 a a' : A) (b0 b : B) o :
  src_inv a -> next_chunk a = (a', o) -> moved a0 a b0 b Idle ->
  match o with
  | Ok (Some bs) => moved a0 a' b0 b (Holding bs)
  | Ok None => moved a0 a' b0 b Idle /\ fin (view a0) = Eof /\ data (view a') = []
  | Panic _ => False
  | _ => moved a0 a' b0 b Idle
  end.
Proof.
  intros Ha E (Hf & out & rest & Hd & Hw & ->). destruct (next_chunk_view _ _ _ Ha E) as (_ & Hf' & Ho).
  assert (Hidle : data (view a) = [] -> data (view a') = [] -> moved a0 a' b0 b Idle).
  { intros Hda Hda'. split; [congruence|]. exists out, []. by rewrite Hd, Hda, Hda'. }
  destruct o as [[bs|]|e|p|]; [| |by destruct Ho as (? & ? & _); apply Hidle|done
    |by destruct Ho as (? & ? & _); apply Hidle].
  - split; [congruence|]. exists out, bs. by rewrite <- (proj2 Ho).
  - destruct Ho as (H1' & H2' & H3'). split_and!; [by apply Hidle|congruence|done].
Qed.

(** What putting it does. *)
Lemma put_moved (a0 a : A) (b0 b b' : B) bs o :
  sink_inv b -> put_chunk bs b = (b', o) -> moved a0 a b0 b (Holding bs) ->
  is_panic o = false /\ moved a0 a b0 b' (if is_ok o then Idle else Stuck).
Proof.
  intros Hb E (Hf & out & rest & Hd & Hw & ->).
  destruct (emits_put_chunk bs _ _ _ Hb E) as (_ & Hp & _ & put & [tail ->] & Hw' & Hok).
  split; [done|]. split; [done|]. exists (out ++ put), tail. rewrite Hw', Hw.
  rewrite <- !app_assoc in *. split_and!; [done..|]. destruct (is_ok o); [|done].
  rewrite <- (app_nil_r put) in Hok at 1. specialize (Hok eq_refl).
  by apply app_inv_head in Hok.
Qed.

Lemma flush_moved (a0 a : A) (b0 b b' : B) k o :
  sink_inv b -> end_copy b = (b', o) -> moved a0 a b0 b k ->
  is_panic o = false /\ moved a0 a b0 b' k /\ (is_ok o = true -> flushed b' = written b').
Proof.
  intros Hb E (Hf & out & rest & Hd & Hw & Hk).
  destruct (emits_end_copy _ _ _ Hb E) as (_ & Hp & _ & put & Hput%prefix_nil_inv & Hw' & _).
  subst put. rewrite app_nil_r in Hw'. split_and!; [done| |].
  - split; [done|]. exists out, rest. by rewrite Hw'.
  - destruct o as [[]|e|p|]; try done. intros _. by eapply flushes_end_copy.
Qed.

(** One step of a copy. *)
Lemma copy_step (a0 a a' : A) (b0 b b' : B) k k' r :
  both_inv a -> both_inv b -> moved a0 a b0 b k ->
  poll_task copy_up (a, b) k = ((a', b'), k', r) ->
  framed a a' b b' /\
  match r with
  | None => moved a0 a' b0 b' k'
  | Some o => moved a0 a' b0 b' Stuck /\ left_with a0 b0 b' o
  end.
Proof.
  intros Ha Hb Hm. destruct k as [|bs|]; simpl; unfold on_fst, on_snd; simpl.
  - destruct (next_chunk a) as [a1 o1] eqn:E1.
    destruct (quiet_next_chunk _ _ _ Ha E1) as (Ha1 & Hw1 & Hf1).
    pose proof (take_moved _ _ _ _ _ _ (proj1 Ha) E1 Hm) as Ho.
    destruct o1 as [[bs|]|e|p|]; simpl; [by intros [=<- <- <- <-]| |intros [=<- <- <- <-]..]; try done.
    + destruct Ho as (Hm1 & He & Hnil). destruct (end_copy b) as [b1 o2] eqn:E2.
      destruct (flush_framed a1 b b1 o2 Ha1 Hb E2) as (_ & ? & _ & _ & ?).
      destruct (flush_moved _ _ _ _ _ _ _ (proj2 Hb) E2 Hm1) as (Hp & Hm2 & Hfl).
      assert (Hall : written b1 = written b0 ++ data (view a0)).
      { destruct Hm2 as (_ & out & rest & Hd & -> & ->). by rewrite Hd, Hnil, app_nil_r. }
      destruct o2 as [[]|e|p|]; intros [=<- <- <- <-]; try done; (split; [done|]);
        try (split; [by eapply moved_stuck|]); try done; [|by eapply moved_stuck].
      split_and!; [done|done|by apply Hfl].
    + split; [done|]. split; [by eapply moved_stuck|done].
    + split; [done|]. by eapply moved_stuck.
  - destruct (put_chunk bs b) as [b1 o1] eqn:E1.
    pose proof (put_framed a b b1 bs o1 Ha Hb E1) as Hfr.
    destruct (put_moved _ _ _ _ _ _ _ (proj2 Hb) E1 Hm) as [Hp Hm1].
    destruct o1 as [[]|e|p|]; intros [=<- <- <- <-]; try done.
  - intros [=<- <- <- <-]. done.
Qed.
End OneWay.

(** The other direction is the same copy with the streams exchanged. *)
Lemma copy_down_swap {C S} `{TokioCopy} `{AsyncReadExt C} `{!AsyncWrite C} `{!AsyncWriteExt C}
    `{AsyncReadExt S} `{!AsyncWrite S} `{!AsyncWriteExt S} (c : C) (s : S) k c' s' k' r :
  poll_task copy_down (c, s) k = ((c', s'), k', r) ->
  poll_task copy_up (s, c) k = ((s', c'), k', r).
Proof.
  destruct k as [|bs|]; simpl; unfold on_fst, on_snd; simpl.
  - destruct (next_chunk s) as [s1 [[bs|]|e|p|]]; simpl; try (by intros [=<- <- <- <-]).
    destruct (end_copy c) as [c1 []]; by intros [=<- <- <- <-].
  - destruct (put_chunk bs c) as [c1 []]; by intros [=<- <- <- <-].
  - by intros [=<- <- <- <-].
Qed.

(** ** The relay *)

Section Relay.
Context {C S : Type} `{TokioCopyLawful}.
Context `{AsyncReadExt C} `{!ByteSource C} `{!AsyncWrite C} `{!AsyncWriteExt C} `{!ByteSink C} `{!ByteDuplex C}.
Context `{AsyncReadExt S} `{!ByteSource S} `{!AsyncWrite S} `{!AsyncWriteExt S} `{!ByteSink S} `{!ByteDuplex S}.

(** [select!] of the two copies. *)
Definition relay (sched : list bool) (cs : C * S) :=
  select copy_up copy_down sched cs Idle Idle.

Lemma moved_frame {A B} `{ByteSource A} `{ByteSink B} (x0 x x' : A) (y0 y y' : B) k :
  view x' = view x -> written y' = written y -> moved x0 x y0 y k -> moved x0 x' y0 y' k.
Proof. intros Hv Hw. unfold moved. by rewrite Hv, Hw. Qed.

Definition relay_inv (c0 : C) (s0 : S) (cs : C * S) (k1 k2 : place (list byte)) : Prop :=
  both_inv cs.1 /\ both_inv cs.2 /\ moved c0 cs.1 s0 cs.2 k1 /\ moved s0 cs.2 c0 cs.1 k2.

Lemma relay_up_step c0 s0 cs k1 k2 cs' k' r :
  relay_inv c0 s0 cs k1 k2 -> poll_task copy_up cs k1 = (cs', k', r) ->
  match r with
  | None => relay_inv c0 s0 cs' k' k2
  | Some o => relay_inv c0 s0 cs' Stuck Stuck /\ left_with c0 s0 cs'.2 o
  end.
Proof.
  destruct cs as [c s], cs' as [c' s']. intros (Hc & Hs & Hu & Hd) E. simpl in *.
  destruct (copy_step _ _ _ _ _ _ _ _ _ Hc Hs Hu E) as ((? & ? & Hw & _ & Hv) & Hr).
  pose proof (moved_frame s0 s s' c0 c c' k2 Hv Hw Hd) as Hd'.
  unfold relay_inv; destruct r; [destruct Hr|]; split_and!; simpl; eauto using moved_stuck.
Qed.

Lemma relay_down_step c0 s0 cs k1 k2 cs' k' r :
  relay_inv c0 s0 cs k1 k2 -> poll_task copy_down cs k2 = (cs', k', r) ->
  match r with
  | None => relay_inv c0 s0 cs' k1 k'
  | Some o => relay_inv c0 s0 cs' Stuck Stuck /\ left_with s0 c0 cs'.1 o
  end.
Proof.
  destruct cs as [c s], cs' as [c' s']. intros (Hc & Hs & Hu & Hd) E%copy_down_swap. simpl in *.
  destruct (copy_step _ _ _ _ _ _ _ _ _ Hs Hc Hd E) as ((? & ? & Hw & _ & Hv) & Hr).
  pose proof (moved_frame c0 c c' s0 s s' k1 Hv Hw Hu) as Hu'.
  unfold relay_inv; destruct r; [destruct Hr|]; split_and!; simpl; eauto using moved_stuck.
Qed.

Lemma relay_inv_start c s : both_inv c -> both_inv s -> relay_inv c s (c, s) Idle Idle.
Proof. intros. split_and!; [done..|apply moved_start|apply moved_start]. Qed.

(** Whatever the interleaving: in both directions what arrived is the front of
    what was sent; the relay ends when a stream ends, after delivering and
    flushing all of it in that direction, or when a stream fails; never with a
    panic. *)
Lemma relay_spec sched c0 s0 c s k1 k2 e :
  both_inv c0 -> both_inv s0 -> relay sched (c0, s0) = ((c, s), k1, k2, e) ->
  (exists up, up `prefix_of` data (view c0) /\ written s = written s0 ++ up) /\
  (exists down, down `prefix_of` data (view s0) /\ written c = written c0 ++ down) /\
  match e with
  | Unfinished => True
  | First o => left_with c0 s0 s o
  | Second o => left_with s0 c0 c o
  end.
Proof.
  intros Hc Hs E.
  pose proof (select_invariant copy_up copy_down (relay_inv c0 s0)
    (fun cs _ _ o => relay_inv c0 s0 cs Stuck Stuck /\ left_with c0 s0 cs.2 o)
    (fun cs _ _ o => relay_inv c0 s0 cs Stuck Stuck /\ left_with s0 c0 cs.1 o)
    (relay_up_step c0 s0) (relay_down_step c0 s0) _ _ _ _ _ _ _ _
    (relay_inv_start _ _ Hc Hs) E) as Hend.
  assert (Hin : relay_inv c0 s0 (c, s) Stuck Stuck /\
    match e with Unfinished => True | First o => left_with c0 s0 s o
               | Second o => left_with s0 c0 c o end).
  { destruct e; [|by destruct Hend..]. destruct Hend as (? & ? & ? & ?). simpl in *.
    split; [|done]. unfold relay_inv. split_and!; simpl; eauto using moved_stuck. }
  destruct Hin as [(_ & _ & (_ & up & r1 & Hu & Hwu & _) & (_ & down & r2 & Hd & Hwd & _)) Hl].
  simpl in *. split_and!; [exists up|exists down|done]; (split; [|done]).
  - rewrite Hu. by apply prefix_app_r.
  - rewrite Hd. by apply prefix_app_r.
Qed.

(** How much of the upward direction is still to be done. *)
Definition up_work (c : C) (k : place (list byte)) : nat :=
  2 * length (data (view c)) + match k with Holding _ => 1 | _ => 0 end.

Context `{!ReliableSink S}.

Lemma up_progress (c c' : C) (s s' : S) k k' :
  both_inv c -> both_inv s -> fin (view c) = Eof -> k <> Stuck ->
  poll_task copy_up (c, s) k = ((c', s'), k', None) ->
  k' <> Stuck /\ up_work c' k' < up_work c k.
Proof.
  intros Hc Hs He Hk. destruct k as [|bs|]; [| |done]; simpl; unfold on_fst, on_snd; simpl.
  - destruct (next_chunk c) as [c1 o1] eqn:E1.
    destruct (next_chunk_view _ _ _ (proj1 Hc) E1) as (_ & _ & Ho).
    destruct o1 as [[bs|]|e|p|]; simpl; try done; [| |destruct Ho as (_ & _ & ?); congruence].
    + destruct Ho as (Hne & Hd). intros [=<- <- <-]. split; [done|]. unfold up_work.
      rewrite Hd, length_app. destruct bs; [done|]. simpl. lia.
    + destruct (succeeds_end_copy s (proj2 Hs)) as (s1 & [] & Ef). by rewrite Ef.
  - destruct (succeeds_put_chunk bs s (proj2 Hs)) as (s1 & [] & Ew). rewrite Ew; simpl.
    intros [=<- <- <-]. split; [done|]. unfold up_work. lia.
Qed.

(** A relay whose client closes its side ends: once the upward loop has been
    polled often enough, whatever the downward loop does meanwhile. *)
Lemma relay_ends_from c0 s0 sched c s k1 k2 :
  relay_inv c0 s0 (c, s) k1 k2 -> fin (view c0) = Eof -> k1 <> Stuck ->
  up_work c k1 < length (filter (fun b => b = true) sched) ->
  (select copy_up copy_down sched (c, s) k1 k2).2 <> Unfinished.
Proof.
  revert c s k1 k2. induction sched as [|b sched IH]; intros c s k1 k2 Hi He Hk Hl; [simpl in *; lia|].
  pose proof Hi as (Hc & Hs & Hu & Hd). simpl in Hc, Hs, Hu, Hd. destruct b; cbn [select].
  - rewrite filter_cons_True in Hl by done. cbn [length] in Hl.
    destruct (poll_task copy_up (c, s) k1) as [[[c1 s1] k'] r] eqn:E.
    pose proof (relay_up_step _ _ _ _ _ _ _ _ Hi E) as Hr. destruct r as [o|]; [done|].
    assert (He' : fin (view c) = Eof) by (destruct Hu; congruence).
    destruct (up_progress _ _ _ _ _ _ Hc Hs He' Hk E) as [Hk' Hw].
    apply IH; [done|done|done|lia].
  - rewrite filter_cons_False in Hl by done.
    destruct (poll_task copy_down (c, s) k2) as [[[c1 s1] k'] r] eqn:E.
    pose proof (relay_down_step _ _ _ _ _ _ _ _ Hi E) as Hr. destruct r as [o|]; [done|].
    destruct (copy_step _ _ _ _ _ _ _ _ _ Hs Hc Hd (copy_down_swap _ _ _ _ _ _ _ E))
      as ((_ & _ & _ & _ & Hv) & _).
    apply IH; [done..|]. unfold up_work in *. by rewrite Hv.
Qed.

(** The upward loop is neither stuck nor about to put an empty chunk. *)
Definition live (k : place (list byte)) : Prop :=
  match k with Idle => True | Holding bs => bs <> [] | Stuck => False end.

Lemma relay_live c0 s0 sched c s k1 k2 :
  both_inv c0 -> both_inv s0 -> fin (view c0) = Eof ->
  relay sched (c0, s0) = ((c, s), k1, k2, Unfinished) ->
  relay_inv c0 s0 (c, s) k1 k2 /\ live k1.
Proof.
  intros Hc Hs He E.
  refine (select_invariant copy_up copy_down (fun cs k1 k2 => relay_inv c0 s0 cs k1 k2 /\ live k1)
    (fun _ _ _ _ => True) (fun _ _ _ _ => True) _ _ sched _ _ _ _ _ _ _ _ E).
  - intros cs k k2' cs' k' r [Hi Hl] Ep. pose proof (relay_up_step _ _ _ _ _ _ _ _ Hi Ep) as Hr.
    destruct r as [o|]; [done|]. split; [done|].
    destruct cs as [c1 s1], cs' as [c2 s2]. destruct Hi as (Hc1 & Hs1 & Hu & _). simpl in *.
    assert (Hf : fin (view c1) = Eof) by (destruct Hu; congruence).
    destruct (up_progress _ _ _ _ k k' Hc1 Hs1 Hf ltac:(by destruct k) Ep) as [Hk' _].
    destruct k' as [|bs|]; [done| |done]. destruct k as [|bs0|]; simpl in Ep; [| |done].
    + unfold on_fst in Ep; simpl in Ep. destruct (next_chunk c1) as [c3 o] eqn:En.
      destruct (next_chunk_view _ _ _ (proj1 Hc1) En) as (_ & _ & Ho).
      destruct o as [[bs1|]|e|m|]; simpl in *; [by destruct Ho; simplify_eq| |done..].
      by destruct (on_snd end_copy (c3, s1)) as [? []].
    + by destruct (on_snd (put_chunk bs0) (c1, s1)) as [? []].
  - intros cs k k2' cs' k' r [Hi Hl] Ep. pose proof (relay_down_step _ _ _ _ _ _ _ _ Hi Ep) as Hr.
    by destruct r.
  - split; [by apply relay_inv_start|done].
Qed.

(** Once everything a closed client sent has been passed on, the next poll of the
    upward loop ends the relay, and nothing more reaches the client. *)
Lemma relay_cut c0 s0 pre post c s k1 k2 :
  both_inv c0 -> both_inv s0 -> fin (view c0) = Eof ->
  relay pre (c0, s0) = ((c, s), k1, k2, Unfinished) -> written s = written s0 ++ data (view c0) ->
  exists c' s' k, relay (pre ++ true :: post) (c0, s0) = ((c', s'), k, k2, First (Ok tt)) /\
    written c' = written c /\ view s' = view s /\ moved s0 s' c0 c' Stuck.
Proof.
  intros Hc Hs He E Hw. destruct (relay_live _ _ _ _ _ _ _ Hc Hs He E) as [(Hc1 & Hs1 & Hu & Hd) Hl].
  simpl in *. unfold relay. rewrite (select_app _ _ _ _ _ _ _ _ _ _ E). cbn [select].
  destruct Hu as (Hf & out & rest & Hdata & Hw' & Hk). rewrite Hw in Hw'. apply app_inv_head in Hw'.
  subst out. assert (Hnil : rest ++ data (view c) = []).
  { apply (app_inv_head (data (view c0))). by rewrite app_nil_r. }
  apply app_nil in Hnil as [-> Hnil]. destruct k1 as [|bs|]; [|by subst|done].
  cbn [poll_task take_item finish copy_up]. unfold on_fst, on_snd; simpl.
  destruct (next_chunk c) as [c1 o] eqn:En. destruct (quiet_next_chunk _ _ _ Hc1 En) as (_ & Hw1 & _).
  destruct (next_chunk_view _ _ _ (proj1 Hc1) En) as (_ & _ & Ho).
  destruct o as [[bs|]|e|p|]; [| |by destruct Ho as (_ & _ & ?); congruence|done|by destruct Ho as (_ & _ & ?); congruence].
  { destruct Ho as [Hne Hx]. rewrite Hnil in Hx. symmetry in Hx. by apply app_nil in Hx as [-> _]. }
  simpl. destruct (succeeds_end_copy s (proj2 Hs1)) as (s1 & [] & Ef). rewrite Ef; simpl.
  destruct (still_end_copy _ _ _ Hs1 Ef) as [_ Hv]. eexists c1, s1, _. split_and!; [done..|].
  eapply moved_stuck, moved_frame; [exact Hv|exact Hw1|exact Hd].
Qed.

Lemma relay_ends sched c s :
  both_inv c -> both_inv s -> fin (view c) = Eof ->
  2 * length (data (view c)) < length (filter (fun b => b = true) sched) ->
  (relay sched (c, s)).2 <> Unfinished.
Proof.
  intros Hc Hs He Hl. apply (relay_ends_from c s); [by apply relay_inv_start|done|done|].
  unfold up_work. lia.
Qed.
End Relay.

(** ** Pumps as tasks *)

(** A pump from the first component of the state to the second, and back. *)
Definition pump_task {S W X} (src : io S X) (snk : X -> io W unit) : task (S * W) X :=
  mkTask (let? x := on_fst src in io_ret (Some x)) (fun x => on_snd (snk x)) (io_ret tt).
Definition pump_back {S W X} (src : io S X) (snk : X -> io W unit) : task (W * S) X :=
  mkTask (let? x := on_snd src in io_ret (Some x)) (fun x => on_fst (snk x)) (io_ret tt).

(** The cut is sound: a pump polled alone does what the loop does, two steps an
    iteration. *)
Lemma pump_task_loop {S W X Y} (src : io S X) (snk : X -> io W unit) (t2 : task (S * W) Y) n s w k2 :
  let '(sw', ex) := loop n (pump src snk) (s, w) in
  let '(sw, k, _, e) := select (pump_task src snk) t2 (replicate (2 * n) true) (s, w) Idle k2 in
  sw = sw' /\
  match ex with
  | Running => k = Idle /\ e = Unfinished
  | Exited Pending => k = Stuck /\ e = Unfinished
  | Exited o => e = First o
  end.
Proof.
  revert s w. induction n as [|n IH]; intros s w; [done|].
  replace (2 * Datatypes.S n) with (Datatypes.S (Datatypes.S (2 * n))) by lia.
  assert (Hstuck : forall m sw, select (pump_task src snk) t2 (replicate m true) sw Stuck k2 =
            (sw, Stuck, k2, Unfinished)) by (intros m; induction m; simpl; done).
  cbn [replicate select poll_task pump_task take_item put_item loop]. unfold pump at 1.
  unfold io_bind, on_fst, on_snd, io_ret; simpl.
  destruct (src s) as [s1 [x|e|p|]]; simpl; try done.
  - unfold on_snd; simpl. destruct (snk x w) as [w1 [[]|e|p|]]; simpl; try done.
    + apply IH.
    + by rewrite Hstuck.
  - by rewrite Hstuck.
Qed.
