(* ===== verification/Pumps.v ===== *)
(** * Two pumps at once

    The relays whose directions are written as loops of the sources: a direction
    takes an item with one computation and puts it with another.  [takes] and
    [puts] say what the two computations of a direction do to the resource they
    run on; [pumps_relay] concludes, once for all of them, what a connection
    served by two such directions looks like under every schedule. *)

From Stdlib Require Import Lia.
From Stdlib Require Import Strings.Byte.
From stdpp Require Import base list strings numbers relations.
From S2P Require Import Prelude AsyncIo Relay Select.

#[local] Open Scope nat_scope.

(** ** Sessions *)

(** A connection handed over to the two relay loops: the two ends of it as they
    are when the handler is through with them, and how the [select!] ended. *)
Record session (A B : Type) := mkSession { ss_client : A; ss_remote : B; ss_end : select_end }.
Arguments mkSession {A B} _ _ _.
Arguments ss_client {A B} _.
Arguments ss_remote {A B} _.
Arguments ss_end {A B} _.

Definition run_select {A B X Y} (up : task (A * B) X) (down : task (A * B) Y)
    (sched : list bool) (a : A) (b : B) : session A B :=
  let '(((a', b'), _, _), e) := select up down sched (a, b) Idle Idle in mkSession a' b' e.

(** No direction panicked. *)
Definition calm (e : select_end) : Prop :=
  match e with Unfinished => True | First o | Second o => is_panic o = false end.

(** ** What a direction does to a resource *)

(** [takes inv log taken lost src]: [taken xs s] says that the items [xs] were
    taken from [s] so far, [lost xs s] the same of a resource that has failed.
    [src] takes the next item, writes nothing to the resource and does not panic. *)
Definition takes {S X L} (inv : S -> Prop) (log : S -> list L) (taken lost : list X -> S -> Prop)
    (src : io S X) : Prop :=
  forall xs s s' o, inv s -> taken xs s -> src s = (s', o) ->
  inv s' /\ log s' = log s /\ is_panic o = false /\
  match o with Ok x => taken (xs ++ [x]) s' | _ => lost xs s' end.

(** [puts inv log enc taken lost snk]: [snk x] appends [enc x] to the log of the
    resource, and what is still to be taken from it stays what it is. *)
Definition puts {S X Y L} (inv : S -> Prop) (log : S -> list L) (enc : X -> list L)
    (taken lost : list Y -> S -> Prop) (snk : X -> io S unit) : Prop :=
  forall x, appends inv log (snk x) (enc x) /\
  forall ys s s' o, inv s -> snk x s = (s', o) ->
  (taken ys s -> taken ys s') /\ (lost ys s -> lost ys s').

(** A resource of which a failure tells nothing. *)
Definition once {S X} (taken : list X -> S -> Prop) : list X -> S -> Prop :=
  fun xs _ => exists s, taken xs s.

Lemma once_intro {S X} (taken : list X -> S -> Prop) xs s : taken xs s -> once taken xs s.
Proof. by exists s. Qed.

Lemma takes_once {S X L} (inv : S -> Prop) (log : S -> list L) (taken : list X -> S -> Prop) (src : io S X) :
  (forall xs s s' o, inv s -> taken xs s -> src s = (s', o) ->
   inv s' /\ log s' = log s /\ is_panic o = false /\ (forall x, o = Ok x -> taken (xs ++ [x]) s')) ->
  takes inv log taken (once taken) src.
Proof.
  intros H xs s s' o Hs Ht E. destruct (H _ _ _ _ Hs Ht E) as (? & ? & ? & Hx).
  split_and!; [done..|]. destruct o as [x|e|p|]; [by apply Hx|by exists s..].
Qed.

Lemma puts_once {S X Y L} (inv : S -> Prop) (log : S -> list L) (enc : X -> list L)
    (taken : list Y -> S -> Prop) (snk : X -> io S unit) :
  (forall x, appends inv log (snk x) (enc x)) ->
  (forall x ys s s' o, inv s -> taken ys s -> snk x s = (s', o) -> taken ys s') ->
  puts inv log enc taken (once taken) snk.
Proof. intros Ha Hk x. split; [done|]. intros ys s s' o Hs E. split; [|done]. intros Ht. by eapply Hk. Qed.

(** What can have been put when [xs] were taken: all of it, but for the last item,
    of which any part may be missing. *)
Definition delivered {X L} (enc : X -> list L) (xs : list X) (out : list L) : Prop :=
  mjoin (enc <$> take (pred (length xs)) xs) `prefix_of` out /\ out `prefix_of` mjoin (enc <$> xs).

Lemma mjoin_take {X L} (enc : X -> list L) n (xs : list X) :
  mjoin (enc <$> take n xs) `prefix_of` mjoin (enc <$> xs).
Proof. rewrite <- (take_drop n xs) at 2. rewrite fmap_app, join_app. by apply prefix_app_r. Qed.

Lemma delivered_all {X L} (enc : X -> list L) (xs : list X) : delivered enc xs (mjoin (enc <$> xs)).
Proof. split; [apply mjoin_take|done]. Qed.

Lemma delivered_part {X L} (enc : X -> list L) (xs : list X) x out :
  out `prefix_of` enc x -> delivered enc (xs ++ [x]) (mjoin (enc <$> xs) ++ out).
Proof.
  intros Hout. unfold delivered. rewrite length_app, Nat.add_1_r; simpl. rewrite take_app_length.
  rewrite fmap_app, join_app; simpl. rewrite app_nil_r. split; [by apply prefix_app_r|by apply prefix_app].
Qed.

Lemma delivered_prefix {X L} (enc : X -> list L) xs out :
  delivered enc xs out -> out `prefix_of` mjoin (enc <$> xs).
Proof. by intros [_ H]. Qed.

Lemma delivered_fmap {X Y L} (f : Y -> X) (enc : X -> list L) (ys : list Y) out :
  delivered enc (f <$> ys) out <-> delivered (fun y => enc (f y)) ys out.
Proof. unfold delivered. by rewrite length_fmap, <- fmap_take, <- !list_fmap_compose. Qed.

(** Items that are put whole. *)
Lemma delivered_singles {X L} (f : X -> L) (xs : list X) out :
  delivered (fun x => [f x]) xs out ->
  exists n, pred (length xs) <= n <= length xs /\ out = f <$> take n xs.
Proof.
  assert (Hj : forall l : list X, mjoin ((fun x => [f x]) <$> l) = f <$> l).
  { intros l. induction l as [|x l IH]; [done|]. simpl. f_equal. exact IH. }
  unfold delivered. rewrite !Hj. intros [H1 [rest H2]]. exists (length out).
  apply prefix_length in H1. rewrite length_fmap, length_take in H1.
  pose proof (f_equal length H2) as Hl. rewrite length_fmap, length_app in Hl.
  split; [lia|]. by rewrite fmap_take, H2, take_app_length.
Qed.

(** The items taken from one resource are the items put to the other. *)
Definition carried {A B X L} (taken lost : list X -> A -> Prop) (log : B -> list L)
    (enc : X -> list L) (log0 : list L) (a : A) (b : B) (k : place X) : Prop :=
  exists xs,
  match k with
  | Idle => taken xs a /\ log b = log0 ++ mjoin (enc <$> xs)
  | Holding x => taken (xs ++ [x]) a /\ log b = log0 ++ mjoin (enc <$> xs)
  | Stuck => lost xs a /\ exists out, log b = log0 ++ out /\ delivered enc xs out
  end.

Section Carried.
Context {A B X L : Type} (taken lost : list X -> A -> Prop) (log : B -> list L) (enc : X -> list L).
Context (taken_lost : forall xs a, taken xs a -> lost xs a).

Lemma carried_stuck log0 a b k :
  carried taken lost log enc log0 a b k -> carried taken lost log enc log0 a b Stuck.
Proof using taken_lost.
  intros [xs Hk]. destruct k as [|x|].
  - destruct Hk as [Ht Hl]. exists xs. split; [by apply taken_lost|]. eauto using delivered_all.
  - destruct Hk as [Ht Hl]. exists (xs ++ [x]). split; [by apply taken_lost|].
    exists (mjoin (enc <$> xs) ++ []). rewrite app_nil_r at 1. split; [done|].
    apply delivered_part, prefix_nil.
  - by exists xs.
Qed.

(** The frames: the direction does not see what the other one does. *)
Lemma carried_log log0 a b b' k :
  log b' = log b -> carried taken lost log enc log0 a b k -> carried taken lost log enc log0 a b' k.
Proof. intros Hl [xs Hk]. exists xs. destruct k; by rewrite Hl. Qed.

Lemma carried_taken log0 a a' b k :
  (forall xs, (taken xs a -> taken xs a') /\ (lost xs a -> lost xs a')) ->
  carried taken lost log enc log0 a b k -> carried taken lost log enc log0 a' b k.
Proof.
  intros Ht [xs Hk]. exists xs.
  destruct k as [|x|]; destruct Hk; (split; [by apply Ht|done]).
Qed.

Lemma carried_take (inv : A -> Prop) {L'} (logA : A -> list L') (src : io A X) log0 a a' b o :
  takes inv logA taken lost src -> inv a -> src a = (a', o) -> carried taken lost log enc log0 a b Idle ->
  inv a' /\ logA a' = logA a /\ is_panic o = false /\
  carried taken lost log enc log0 a' b (match o with Ok x => Holding x | _ => Stuck end).
Proof.
  intros Hsrc Ha E [xs [Ht Hl]]. destruct (Hsrc xs _ _ _ Ha Ht E) as (Hi & Hlog & Hp & Hx).
  split_and!; [done..|]. exists xs.
  destruct o as [x|e|p|]; simpl; [by split|..]; (split; [done|]); eauto using delivered_all.
Qed.

Lemma carried_put {Y} (inv : B -> Prop) (snk : X -> io B unit) (takenB lostB : list Y -> B -> Prop)
    log0 a b b' x o :
  puts inv log enc takenB lostB snk -> inv b -> snk x b = (b', o) ->
  carried taken lost log enc log0 a b (Holding x) ->
  inv b' /\ is_panic o = false /\
  (forall ys, (takenB ys b -> takenB ys b') /\ (lostB ys b -> lostB ys b')) /\
  carried taken lost log enc log0 a b' (if is_ok o then Idle else Stuck).
Proof using taken_lost.
  intros Hsnk Hb E [xs [Ht Hl]]. destruct (Hsnk x) as [Happ Hkeep].
  destruct (Happ _ _ _ Hb E) as (Hi & Hp & out & Hpre & Hlog & Hok).
  split_and!; [done|done|intros ys; by apply (Hkeep _ _ _ o)|]. exists (xs ++ [x]). destruct (is_ok o).
  - split; [done|]. rewrite fmap_app, join_app; simpl. by rewrite app_nil_r, Hlog, Hl, (Hok eq_refl), app_assoc.
  - split; [by apply taken_lost|]. exists (mjoin (enc <$> xs) ++ out).
    split; [by rewrite Hlog, Hl, app_assoc|]. by apply delivered_part.
Qed.
End Carried.

(** ** The relay *)

Section PumpsRelay.
Context {A B X Y LA LB : Type}.
Context (src : io A X) (snk : X -> io B unit) (src' : io B Y) (snk' : Y -> io A unit).
Context (invA : A -> Prop) (logA : A -> list LA) (takenA lostA : list X -> A -> Prop) (encA : Y -> list LA).
Context (invB : B -> Prop) (logB : B -> list LB) (takenB lostB : list Y -> B -> Prop) (encB : X -> list LB).
Context (Hsrc : takes invA logA takenA lostA src) (Hsnk : puts invB logB encB takenB lostB snk).
Context (Hsrc' : takes invB logB takenB lostB src') (Hsnk' : puts invA logA encA takenA lostA snk').
Context (HlostA : forall xs a, takenA xs a -> lostA xs a) (HlostB : forall ys b, takenB ys b -> lostB ys b).

Definition pumps_inv (a0 : A) (b0 : B) (st : A * B) (k1 : place X) (k2 : place Y) : Prop :=
  invA st.1 /\ invB st.2 /\ carried takenA lostA logB encB (logB b0) st.1 st.2 k1 /\
  carried takenB lostB logA encA (logA a0) st.2 st.1 k2.

Lemma pumps_up_step a0 b0 st k1 k2 st' k' r :
  pumps_inv a0 b0 st k1 k2 -> poll_task (pump_task src snk) st k1 = (st', k', r) ->
  match r with
  | None => pumps_inv a0 b0 st' k' k2
  | Some o => pumps_inv a0 b0 st' Stuck Stuck /\ is_panic o = false
  end.
Proof.
  destruct st as [a b]. intros (Ha & Hb & Hu & Hd); simpl in *. destruct k1 as [|x|]; simpl.
  - unfold io_bind, on_fst, io_ret; simpl. destruct (src a) as [a1 o] eqn:E.
    destruct (carried_take takenA lostA logB encB _ _ _ _ _ _ _ _ Hsrc Ha E Hu) as (Ha1 & Hl & Hp & Hu1).
    apply (carried_log _ _ _ _ _ _ _ _ _ Hl) in Hd.
    destruct o; simpl in *; try done; intros [=<- <- <-];
      unfold pumps_inv; simpl; eauto 10 using carried_stuck.
  - unfold on_snd; simpl. destruct (snk x b) as [b1 o] eqn:E.
    destruct (carried_put takenA lostA logB encB HlostA _ _ _ _ _ _ _ _ _ _ Hsnk Hb E Hu) as (Hb1 & Hp & Hk & Hu1).
    apply (carried_taken _ _ _ _ _ _ _ _ _ Hk) in Hd.
    destruct o; simpl in *; try done; intros [=<- <- <-];
      unfold pumps_inv; simpl; eauto 10 using carried_stuck.
  - intros [=<- <- <-]. by split_and!.
Qed.

Lemma pumps_down_step a0 b0 st k1 k2 st' k' r :
  pumps_inv a0 b0 st k1 k2 -> poll_task (pump_back src' snk') st k2 = (st', k', r) ->
  match r with
  | None => pumps_inv a0 b0 st' k1 k'
  | Some o => pumps_inv a0 b0 st' Stuck Stuck /\ is_panic o = false
  end.
Proof.
  destruct st as [a b]. intros (Ha & Hb & Hu & Hd); simpl in *. destruct k2 as [|x|]; simpl.
  - unfold io_bind, on_snd, io_ret; simpl. destruct (src' b) as [b1 o] eqn:E.
    destruct (carried_take takenB lostB logA encA _ _ _ _ _ _ _ _ Hsrc' Hb E Hd) as (Hb1 & Hl & Hp & Hd1).
    apply (carried_log _ _ _ _ _ _ _ _ _ Hl) in Hu.
    destruct o; simpl in *; try done; intros [=<- <- <-];
      unfold pumps_inv; simpl; eauto 10 using carried_stuck.
  - unfold on_fst; simpl. destruct (snk' x a) as [a1 o] eqn:E.
    destruct (carried_put takenB lostB logA encA HlostB _ _ _ _ _ _ _ _ _ _ Hsnk' Ha E Hd) as (Ha1 & Hp & Hk & Hd1).
    apply (carried_taken _ _ _ _ _ _ _ _ _ Hk) in Hu.
    destruct o; simpl in *; try done; intros [=<- <- <-];
      unfold pumps_inv; simpl; eauto 10 using carried_stuck.
  - intros [=<- <- <-]. by split_and!.
Qed.

(** Whatever the interleaving: in each direction the log holds the encodings of
    the items that were taken, in order and with none missing, but that the last
    may have been cut off; and nothing panics. *)
Lemma pumps_relay sched a b :
  invA a -> invB b -> takenA [] a -> takenB [] b ->
  let s := run_select (pump_task src snk) (pump_back src' snk') sched a b in
  exists xs ys up down, lostA xs (ss_client s) /\ lostB ys (ss_remote s) /\
    logB (ss_remote s) = logB b ++ up /\ delivered encB xs up /\
    logA (ss_client s) = logA a ++ down /\ delivered encA ys down /\
    invA (ss_client s) /\ invB (ss_remote s) /\ calm (ss_end s).
Proof.
  intros Ha Hb Hta Htb s. subst s. unfold run_select.
  destruct (select _ _ sched (a, b) Idle Idle) as [[[[a' b'] k1] k2] e] eqn:E.
  assert (Hstart : pumps_inv a b (a, b) Idle Idle).
  { split_and!; [done..| |]; exists []; by rewrite app_nil_r. }
  pose proof (select_invariant _ _ (pumps_inv a b)
    (fun st _ _ o => pumps_inv a b st Stuck Stuck /\ is_panic o = false)
    (fun st _ _ o => pumps_inv a b st Stuck Stuck /\ is_panic o = false)
    (pumps_up_step a b) (pumps_down_step a b) _ _ _ _ _ _ _ _ Hstart E) as Hend.
  assert (Hfin : pumps_inv a b (a', b') Stuck Stuck /\ calm e).
  { destruct e; [|exact Hend..]. destruct Hend as (? & ? & ? & ?).
    split; [|done]. by split_and!; eauto using carried_stuck. }
  destruct Hfin as [(Ha' & Hb' & (xs & ? & up & ? & ?) & (ys & ? & down & ? & ?)) He].
  simpl in *. exists xs, ys, up, down. by split_and!.
Qed.
End PumpsRelay.
