(* ===== verification/Common.v ===== *)
(** * Common protocol data: src/protocol/common and src/proxy/base.rs

    Commands, address types, addresses, the protocol-independent request, and
    the conversion of a request's address to a socket address, which consults
    the resolver of the host for domain names. *)

From Stdlib Require Import ZArith Lia.
From Stdlib Require Import Strings.Byte.
From stdpp Require Import base list strings numbers relations.
From S2P Require Import Prelude.

#[local] Open Scope Z_scope.

(** ** Commands (common/command.rs) *)

Definition CONNECT : byte := x01.
Definition BIND : byte := x02.
Definition UDP : byte := x03.

Inductive Command := Connect | Bind | Udp.

#[export] Instance Command_eq_dec : EqDecision Command.
Proof. solve_decision. Defined.

Definition Command_from (command : byte) : outcome Command :=
  if decide (command = CONNECT) then Ok Connect
  else if decide (command = BIND) then Ok Bind
  else if decide (command = UDP) then Ok Udp
  else Err (mkError Unsupported "Unsupported command request").

(** The discriminant of the [repr(u8)] enum: [command as u8]. *)
Definition Command_as_u8 (c : Command) : byte :=
  match c with Connect => x01 | Bind => x02 | Udp => x03 end.

Definition Command_fmt (c : Command) : string :=
  match c with Connect => "Connect" | Bind => "Bind" | Udp => "Udp" end.

(** ** Address types (common/atype.rs) *)

Definition ATYPE_IPV4 : byte := x01.
Definition ATYPE_DOMAIN_NAME : byte := x03.
Definition ATYPE_IPV6 : byte := x04.

Inductive Atype := IPv4 | IPv6 | DomainName.

#[export] Instance Atype_eq_dec : EqDecision Atype.
Proof. solve_decision. Defined.

(** The inherent [Atype::from], which is what the parsers call. *)
Definition Atype_from (atype : byte) : outcome Atype :=
  if decide (atype = ATYPE_IPV4) then Ok IPv4
  else if decide (atype = ATYPE_IPV6) then Ok IPv6
  else if decide (atype = ATYPE_DOMAIN_NAME) then Ok DomainName
  else Err (mkError Unsupported "Unsupported address type").

(** The [From<u8>] trait implementation, total, with IPv4 as default. *)
Definition Atype_From_u8 (atype : byte) : Atype :=
  if decide (atype = ATYPE_IPV4) then IPv4
  else if decide (atype = ATYPE_IPV6) then IPv6
  else if decide (atype = ATYPE_DOMAIN_NAME) then DomainName
  else IPv4.

Definition Atype_to_byte (a : Atype) : byte :=
  match a with
  | IPv4 => ATYPE_IPV4
  | IPv6 => ATYPE_IPV6
  | DomainName => ATYPE_DOMAIN_NAME
  end.

(** [atype as u8] *)
Definition Atype_as_u8 (a : Atype) : byte :=
  match a with IPv4 => x01 | IPv6 => x04 | DomainName => x03 end.

Definition Atype_fmt (a : Atype) : string :=
  match a with IPv4 => "IPv4" | IPv6 => "IPv6" | DomainName => "DomainName" end.

(** ** Supported protocols (proxy/base.rs) and transports (common/request.rs) *)

Inductive SupportedProtocols := SOCKS | TROJAN | DIRECT.

#[export] Instance SupportedProtocols_eq_dec : EqDecision SupportedProtocols.
Proof. solve_decision. Defined.

Inductive TransportProtocol := TransportTCP | TransportUDP.

#[export] Instance TransportProtocol_eq_dec : EqDecision TransportProtocol.
Proof. solve_decision. Defined.

(** ** Addresses (common/addr.rs) *)

Definition IPV4_SIZE : nat := 4.
Definition IPV6_SIZE : nat := 16.

(** [std::net::IpAddr], by the numeric value of the address. *)
Inductive IpAddr := V4 (addr : Z) | V6 (addr : Z).

#[export] Instance IpAddr_eq_dec : EqDecision IpAddr.
Proof. solve_decision. Defined.

(** [Ipv4Addr::octets] and [Ipv6Addr::octets]. *)
Definition octets (ip : IpAddr) : list byte :=
  match ip with V4 a => be_bytes 4 a | V6 a => be_bytes 16 a end.

Inductive IpAddress := IpAddr_ (ip : IpAddr) | Domain (inner : list byte).

#[export] Instance IpAddress_eq_dec : EqDecision IpAddress.
Proof. solve_decision. Defined.

Record IpAddrPort := mkIpAddrPort { ip : IpAddress; port : Z }.

#[export] Instance IpAddrPort_eq_dec : EqDecision IpAddrPort.
Proof. solve_decision. Defined.

(** [IpAddress::len] *)
Definition IpAddress_len (a : IpAddress) : nat :=
  match a with
  | IpAddr_ (V4 _) => IPV4_SIZE
  | IpAddr_ (V6 _) => IPV6_SIZE
  | Domain d => length d
  end.

Definition from_u32 (addr : Z) : IpAddress := IpAddr_ (V4 addr).
Definition from_u128 (addr : Z) : IpAddress := IpAddr_ (V6 addr).
Definition from_bytes (addr : list byte) : IpAddress := Domain addr.

(** [std::net::SocketAddr] *)
Record SocketAddr := mkSocketAddr { sa_ip : IpAddr; sa_port : Z }.

#[export] Instance SocketAddr_eq_dec : EqDecision SocketAddr.
Proof. solve_decision. Defined.

(** *** UTF-8 validation, as [std::str::from_utf8] *)

Definition in_range (lo hi : Z) (b : byte) : bool :=
  (lo <=? u8_to_Z b) && (u8_to_Z b <=? hi).

Definition is_cont (b : byte) : bool := in_range 128 191 b.

Fixpoint utf8_valid (bs : list byte) : bool :=
  match bs with
  | [] => true
  | b :: bs1 =>
      if in_range 0 127 b then utf8_valid bs1
      else match bs1 with
      | [] => false
      | c :: bs2 =>
          if in_range 194 223 b then is_cont c && utf8_valid bs2
          else match bs2 with
          | [] => false
          | d :: bs3 =>
              if in_range 224 239 b then
                (if in_range 224 224 b then in_range 160 191 c
                 else if in_range 237 237 b then in_range 128 159 c
                 else is_cont c) && is_cont d && utf8_valid bs3
              else match bs3 with
              | [] => false
              | e :: bs4 =>
                  in_range 240 244 b &&
                  (if in_range 240 240 b then in_range 144 191 c
                   else if in_range 244 244 b then in_range 128 143 c
                   else is_cont c) && is_cont d && is_cont e && utf8_valid bs4
              end
          end
      end
  end.

(** *** Name resolution *)

(** The resolver of the host: [(name, port).to_socket_addrs()]. *)
Class Resolver := {
  to_socket_addrs : list byte -> Z -> list SocketAddr + Error
}.

Definition LOOPBACK_NAME : list byte := [x31; x32; x37; x2e; x30; x2e; x30; x2e; x31].

(** [impl Into<SocketAddr> for IpAddrPort] *)
Definition IpAddrPort_into `{Resolver} (a : IpAddrPort) : outcome SocketAddr :=
  match ip a with
  | IpAddr_ addr => Ok (mkSocketAddr addr (port a))
  | Domain domain =>
      let name := if utf8_valid domain then domain else LOOPBACK_NAME in
      match to_socket_addrs name (port a) with
      | inr _ => Panic "Failed to resolve DNS name"
      | inl addrs =>
          match head addrs with
          | Some n => Ok n
          | None => Panic "No DNS result for the domain name"
          end
      end
  end.

(** ** The universal request (common/request.rs) *)

Record InboundRequest := mkInboundRequest {
  atype : Atype;
  addr_port : IpAddrPort;
  command : Command;
  transport_protocol : TransportProtocol;
  proxy_protocol : SupportedProtocols;
}.

#[export] Instance InboundRequest_eq_dec : EqDecision InboundRequest.
Proof. solve_decision. Defined.

Definition InboundRequest_new (at_ : Atype) (addr : IpAddress) (cmd : Command)
    (p : Z) (tp : TransportProtocol) (pp : SupportedProtocols) : InboundRequest :=
  mkInboundRequest at_ (mkIpAddrPort addr p) cmd tp pp.

(** ** Well-formedness *)

(** The values the integer and length fields can have. *)
Definition addr_ok (a : IpAddress) : Prop :=
  match a with
  | IpAddr_ (V4 z) => u32_ok z
  | IpAddr_ (V6 z) => u128_ok z
  | Domain d => (length d <= 255)%nat
  end.

(** The address type announces the address that follows. *)
Definition atype_of (a : IpAddress) : Atype :=
  match a with
  | IpAddr_ (V4 _) => IPv4
  | IpAddr_ (V6 _) => IPv6
  | Domain _ => DomainName
  end.

(** The wire format of an address in SOCKS5 and in Trojan: the octets of an IP
    address, a domain name preceded by its length. *)
Definition wire_addr (a : IpAddress) : list byte :=
  match a with
  | IpAddr_ i => octets i
  | Domain d => as_u8 (Z.of_nat (length d)) :: d
  end.

Definition transport_of (c : Command) : TransportProtocol :=
  match c with Udp => TransportUDP | _ => TransportTCP end.

(** The invariant of a request that came out of a parser. *)
Record request_ok (r : InboundRequest) : Prop := {
  request_addr_ok : addr_ok (ip (addr_port r));
  request_port_ok : u16_ok (port (addr_port r));
  request_atype : atype r = atype_of (ip (addr_port r));
  request_transport : transport_protocol r = transport_of (command r);
}.

(** ** Lemmas *)

Lemma Command_from_as_u8 c : Command_from (Command_as_u8 c) = Ok c.
Proof. by destruct c. Qed.

Lemma Command_from_Ok b c : Command_from b = Ok c -> b = Command_as_u8 c.
Proof.
  unfold Command_from. repeat case_decide; intros; simplify_eq; done.
Qed.

Lemma Atype_from_as_u8 a : Atype_from (Atype_as_u8 a) = Ok a.
Proof. by destruct a. Qed.

Lemma Atype_from_Ok b a : Atype_from b = Ok a -> b = Atype_as_u8 a.
Proof.
  unfold Atype_from. repeat case_decide; intros; simplify_eq; done.
Qed.

Lemma length_octets ip : length (octets ip) = IpAddress_len (IpAddr_ ip).
Proof. destruct ip; apply length_be_bytes. Qed.

Lemma be_val_octets i : addr_ok (IpAddr_ i) ->
  be_val (octets i) = match i with V4 z => z | V6 z => z end.
Proof.
  destruct i; intros H; apply be_val_be_bytes_small;
    change (Z.of_nat 4) with 4; change (Z.of_nat 16) with 16; exact H.
Qed.
