(* ===== verification/Trojan.v ===== *)
(** * The Trojan protocol: src/protocol/trojan/{base,parser,mod}.rs

    The request header and the UDP packet header as the code parses them, the
    handshake the client side writes, and the authentication of an inbound
    connection; then the header grammar and the theorems that relate the
    three. *)

From Stdlib Require Import ZArith Lia.
From Stdlib Require Import Strings.Byte.
From stdpp Require Import base list strings numbers relations.
From S2P Require Import Prelude AsyncIo Conn Common.

#[local] Open Scope Z_scope.

(** ** base.rs *)

Definition HEX_SIZE : nat := 56.
Definition CRLF : Z := 0x0D0A.

Record Request := mkRequest {
  tr_hex : list byte;
  tr_command : Command;
  tr_atype : Atype;
  tr_addr : IpAddress;
  tr_port : Z;
  tr_proxy_protocol : SupportedProtocols;
}.

Definition Request_new (hex : list byte) (cmd : Command) (at_ : Atype)
    (addr : IpAddress) (p : Z) (pp : SupportedProtocols) : Request :=
  mkRequest hex cmd at_ addr p pp.

(** [Request::into_request] *)
Definition Request_into_request (r : Request) : InboundRequest :=
  match tr_command r with
  | Udp => InboundRequest_new (tr_atype r) (tr_addr r) (tr_command r) (tr_port r)
             TransportUDP (tr_proxy_protocol r)
  | _ => InboundRequest_new (tr_atype r) (tr_addr r) (tr_command r) (tr_port r)
           TransportTCP (tr_proxy_protocol r)
  end.

(** [Request::validate] *)
Definition validate (r : Request) (secret : list byte) : bool :=
  if negb (length secret =? length (tr_hex r))%nat then false
  else bool_decide (secret = tr_hex r).

(** ** packet.rs: the UDP packet header *)

Record TrojanUdpPacketHeader := mkUdpHeader {
  uh_atype : Atype;
  dest : SocketAddr;
  payload_size : nat;
}.

(** ** parser.rs *)

Section Parser.
Context {R : Type} `{AsyncReadExt R}.

(** The address block, the same text in [parse] and in [parse_udp]. *)
Definition read_address (at_ : Atype) : io R IpAddress :=
  match at_ with
  | IPv4 => let? a := read_u32 in io_ret (from_u32 a)
  | IPv6 => let? a := read_u128 in io_ret (from_u128 a)
  | DomainName =>
      let? size := read_u8 in
      let? buf := read_exact (Z.to_nat (u8_to_Z size)) in
      io_ret (from_bytes buf)
  end.

Definition parse : io R Request :=
  let? hex := read_exact HEX_SIZE in
  read_u16 ;;?
  let? c := read_u8 in
  let? command := io_lift (Command_from c) in
  let? a := read_u8 in
  let? atype := io_lift (Atype_from a) in
  let? addr := read_address atype in
  let? port := read_u16 in
  read_u16 ;;?
  io_ret (Request_new hex command atype addr port TROJAN).

Definition parse_udp `{Resolver} : io R TrojanUdpPacketHeader :=
  let? a := read_u8 in
  let? atype := io_lift (Atype_from a) in
  let? addr := read_address atype in
  let? port := read_u16 in
  let? length := read_u16 in
  read_u16 ;;?
  let? dest := io_lift (IpAddrPort_into (mkIpAddrPort addr port)) in
  io_ret (mkUdpHeader atype dest (Z.to_nat length)).

(** ** mod.rs *)

(** [accept]; the stream it returns with the request is the state. *)
Definition accept (secret : list byte) : io R InboundRequest :=
  let? request := parse in
  if negb (validate request secret)
  then io_err (mkError InvalidInput "Received invalid hex value")
  else io_ret (Request_into_request request).
End Parser.

Section Handshake.
Context {W : Type} `{AsyncWriteExt W}.

Definition handshake (request : InboundRequest) (secret : list byte) : io W unit :=
  write_all secret ;;?
  write_u16 CRLF ;;?
  write_u8 (Command_as_u8 (command request)) ;;?
  write_u8 (Atype_as_u8 (atype request)) ;;?
  match ip (addr_port request) with
  | IpAddr_ (V4 ipv4) => write_all (octets (V4 ipv4))
  | IpAddr_ (V6 ipv6) => write_all (octets (V6 ipv6))
  | Domain domain => write_all domain
  end ;;?
  write_u16 (port (addr_port request)) ;;?
  write_u16 CRLF ;;?
  flush ;;?
  io_ret tt.
End Handshake.

(** ** The header grammar

    The wire format of https://trojan-gfw.github.io/trojan/protocol.html as the
    parser accepts it: a domain name is preceded by its length, and the two
    bytes in the place of a CRLF are not looked at. *)

Definition wire_header (hex sep1 : list byte) (cmd : Command) (a : IpAddress)
    (p : Z) (sep2 : list byte) : list byte :=
  hex ++ sep1 ++ [Command_as_u8 cmd] ++ [Atype_as_u8 (atype_of a)] ++
  wire_addr a ++ be_bytes 2 p ++ sep2.

(** What the handshake writes for an address: no length byte. *)
Definition handshake_addr (a : IpAddress) : list byte :=
  match a with IpAddr_ i => octets i | Domain d => d end.

Definition handshake_bytes (request : InboundRequest) (secret : list byte) : list byte :=
  secret ++ be_bytes 2 CRLF ++ [Command_as_u8 (command request)] ++
  [Atype_as_u8 (atype request)] ++ handshake_addr (ip (addr_port request)) ++
  be_bytes 2 (port (addr_port request)) ++ be_bytes 2 CRLF.

(** The invariant of a parsed request. *)
Record parsed_ok (r : Request) : Prop := {
  parsed_hex : length (tr_hex r) = HEX_SIZE;
  parsed_addr : addr_ok (tr_addr r);
  parsed_port : u16_ok (tr_port r);
  parsed_atype : tr_atype r = atype_of (tr_addr r);
  parsed_proto : tr_proxy_protocol r = TROJAN;
}.

(** ** The parser against the grammar *)

Lemma reads_wire_addr a :
  addr_ok a -> reads (read_address (atype_of a)) (wire_addr a) a.
Proof.
  intros Ha. destruct a as [[z|z]|d]; cbn [atype_of read_address wire_addr].
  - rewrite <- (app_nil_r (octets _)). eapply reads_bind.
    + apply reads_u32, length_be_bytes.
    + rewrite (be_val_octets (V4 z) Ha). apply reads_ret.
  - rewrite <- (app_nil_r (octets _)). eapply reads_bind.
    + apply reads_u128, length_be_bytes.
    + rewrite (be_val_octets (V6 z) Ha). apply reads_ret.
  - change (?x :: d) with ([x] ++ d). eapply reads_bind; [apply reads_u8|].
    rewrite <- (app_nil_r d) at 2. eapply reads_bind; [|apply reads_ret].
    apply reads_exact. simpl in Ha. rewrite u8_to_as_u8, Z.mod_small; lia.
Qed.

Lemma took_address at_ :
  took (read_address at_) (fun bs a => at_ = atype_of a /\ addr_ok a /\ bs = wire_addr a).
Proof.
  destruct at_; cbn [read_address];
    (eapply took_weaken; [repeat first
       [ apply took_bind; [|intros ?] | apply took_ret | apply took_u8
       | apply took_exact | eapply took_uint; intros ?; reflexivity ]|]).
  - intros ? ? (bs & ? & ? & -> & [Hl ->] & -> & ->). rewrite app_nil_r.
    split_and!; [done| |symmetry; by apply be_bytes_val_n].
    pose proof (be_val_range bs) as Hr. rewrite Hl in Hr. exact Hr.
  - intros ? ? (bs & ? & ? & -> & [Hl ->] & -> & ->). rewrite app_nil_r.
    split_and!; [done| |symmetry; by apply be_bytes_val_n].
    pose proof (be_val_range bs) as Hr. rewrite Hl in Hr. exact Hr.
  - intros ? ? (? & ? & sz & -> & -> & ? & ? & d & -> & [-> Hl] & -> & ->).
    pose proof (u8_to_Z_range sz). rewrite app_nil_r. unfold from_bytes; simpl.
    split_and!; [done|lia|]. rewrite Hl, Z2Nat.id by lia. by rewrite as_u8_to_Z.
Qed.

Lemma reads_parse hex sep1 cmd a p sep2 :
  length hex = HEX_SIZE -> length sep1 = 2%nat -> length sep2 = 2%nat ->
  addr_ok a -> u16_ok p ->
  reads parse (wire_header hex sep1 cmd a p sep2)
    (mkRequest hex cmd (atype_of a) a p TROJAN).
Proof.
  intros Hh H1 H2 Ha Hp. unfold parse, wire_header.
  eapply reads_bind; [by apply reads_exact|].
  eapply reads_bind; [by apply reads_u16|].
  eapply reads_bind; [apply reads_u8|].
  eapply reads_lift; [apply Command_from_as_u8|].
  eapply reads_bind; [apply reads_u8|].
  eapply reads_lift; [apply Atype_from_as_u8|].
  eapply reads_bind; [by apply reads_wire_addr|].
  eapply reads_bind; [apply reads_u16, length_be_bytes|].
  rewrite <- (app_nil_r sep2). eapply reads_bind; [by apply reads_u16|].
  rewrite be_val_be_bytes_small by exact Hp. apply reads_ret.
Qed.

Lemma took_parse :
  took parse (fun bs q => parsed_ok q /\ exists sep1 sep2,
    length sep1 = 2%nat /\ length sep2 = 2%nat /\
    bs = wire_header (tr_hex q) sep1 (tr_command q) (tr_addr q) (tr_port q) sep2).
Proof.
  unfold parse. eapply took_weaken.
  { repeat first
      [ apply took_bind; [|intros ?] | apply took_ret | apply took_u8 | apply took_lift
      | apply took_address | apply took_exact
      | eapply (took_uint 2); intros ?; reflexivity ]. }
  intros ? q (hex & ? & ? & -> & [-> Hh] & sep1 & ? & ? & -> & [H1 _] &
    ? & ? & c & -> & -> & ? & ? & cmd & -> & [-> Hc] & ? & ? & at_ & -> & -> &
    ? & ? & a' & -> & [-> Ha'] & ? & ? & a & -> & (-> & Ha & ->) &
    pb & ? & ? & -> & [Hp ->] & sep2 & ? & ? & -> & [H2 _] & -> & ->).
  apply Command_from_Ok in Hc as ->. apply Atype_from_Ok in Ha' as ->.
  rewrite !app_nil_r, !app_nil_l. pose proof (be_val_range pb) as Hr. rewrite Hp in Hr. split.
  - by constructor.
  - exists sep1, sep2. split_and!; [done|done|]. unfold wire_header, Request_new.
    cbn [tr_hex tr_command tr_addr tr_port].
    by rewrite (be_bytes_val_n 2 pb Hp).
Qed.

Lemma Command_from_stops b P :
  (forall m, P (mkError Unsupported m)) -> stops (io_lift (Command_from b)) P.
Proof. intros HP. apply stops_lift. unfold Command_from. by repeat case_decide. Qed.

Lemma Atype_from_stops b P :
  (forall m, P (mkError Unsupported m)) -> stops (io_lift (Atype_from b)) P.
Proof. intros HP. apply stops_lift. unfold Atype_from. by repeat case_decide. Qed.

Lemma stops_address at_ P : stops (read_address at_) P.
Proof. destruct at_; cbn [read_address]; auto 10 with stops. Qed.

Lemma stops_parse : stops parse (fun e => kind e = Unsupported).
Proof.
  unfold parse. repeat (apply stops_bind; [|intros ?]);
    auto using Command_from_stops, Atype_from_stops, stops_address with stops.
Qed.

(** What a successful parse says on a reader that makes no bytes up. *)
Section FeedTheorems.
Context {R : Type} `{AsyncReadExt R} `{!ByteFeed R}.

Lemma follows_address at_ : follows (read_address at_ : io R _) (read_address at_).
Proof. destruct at_; cbn [read_address]; auto 10 with follows. Qed.

Lemma follows_parse : follows (parse : io R _) parse.
Proof.
  unfold parse. repeat (apply follows_bind; [|intros ?]);
    auto using follows_address with follows.
Qed.

Lemma parse_feed (r r' : R) q :
  feed_inv r -> parse r = (r', Ok q) ->
  feed_inv r' /\ parsed_ok q /\ exists sep1 sep2, length sep1 = 2%nat /\ length sep2 = 2%nat /\
    feed r = wire_header (tr_hex q) sep1 (tr_command q) (tr_addr q) (tr_port q) sep2 ++ feed r'.
Proof.
  intros Hr E. destruct (follows_parse _ _ _ Hr E) as [Hi Es]. split; [done|].
  destruct (took_parse _ _ _ Es) as (_ & bs & Hd & Hq & sep1 & sep2 & H1 & H2 & ->).
  split; [done|]. by exists sep1, sep2.
Qed.
End FeedTheorems.

Section ParserTheorems.
Context {R : Type} `{AsyncReadExt R} `{!ByteSource R}.

Lemma refines_address at_ : refines (read_address at_ : io R _) (read_address at_).
Proof. destruct at_; cbn [read_address]; auto 10 with refines. Qed.

Lemma refines_parse : refines (parse : io R _) parse.
Proof.
  unfold parse. repeat (apply refines_bind; [|intros ?]);
    auto using refines_address with refines.
Qed.

(** C26: completeness of the request parser: on every well-formed header, in
    whatever chunks it arrives, [parse] returns exactly the request the
    header encodes and leaves exactly the bytes behind the header. *)
Theorem parse_complete r hex sep1 cmd a p sep2 rest :
  src_inv r ->
  length hex = HEX_SIZE -> length sep1 = 2%nat -> length sep2 = 2%nat ->
  addr_ok a -> u16_ok p ->
  data (view r) = wire_header hex sep1 cmd a p sep2 ++ rest ->
  exists r', parse r = (r', Ok (mkRequest hex cmd (atype_of a) a p TROJAN)) /\
             view r' = mkSource rest (fin (view r)) /\ src_inv r'.
Proof.
  intros Hr Hh H1 H2 Ha Hp Hd.
  exact (reads_lawful _ _ _ _ _ _ refines_parse (reads_parse _ _ _ _ _ _ Hh H1 H2 Ha Hp) Hr Hd).
Qed.

Lemma parse_inv r r' q :
  src_inv r -> parse r = (r', Ok q) ->
  parsed_ok q /\ src_inv r' /\ fin (view r') = fin (view r) /\
  exists sep1 sep2, length sep1 = 2%nat /\ length sep2 = 2%nat /\
    data (view r) =
      wire_header (tr_hex q) sep1 (tr_command q) (tr_addr q) (tr_port q) sep2
      ++ data (view r').
Proof.
  intros Hr E. destruct (refines_parse r Hr) as (r1 & E1 & Hv & Hi).
  rewrite E in E1. destruct (parse (view r)) as [s' o] eqn:Es; simpl in *. simplify_eq.
  destruct (took_parse _ _ _ Es) as (Hf & bs & Hd & Hq & sep1 & sep2 & H1 & H2 & ->).
  split_and!; [done..|]. eauto 10.
Qed.

(** C25: soundness of the request parser: a request is returned only for a
    header of the grammar, it is well formed (56-byte hash, address of the
    announced type and size, 16-bit port) and the header is all that was
    consumed. *)
Theorem parse_sound r r' q :
  src_inv r -> parse r = (r', Ok q) ->
  parsed_ok q /\ src_inv r' /\ fin (view r') = fin (view r) /\
  exists sep1 sep2, length sep1 = 2%nat /\ length sep2 = 2%nat /\
    data (view r) =
      wire_header (tr_hex q) sep1 (tr_command q) (tr_addr q) (tr_port q) sep2
      ++ data (view r').
Proof. apply parse_inv. Qed.

(** A header cut short is never mistaken for a request: if the stream
    ends inside a well-formed header, [parse] reads it to its end and reports
    how the stream ended (the end-of-file error, the error of the broken
    connection, or it waits for a stalled peer). *)
Theorem parse_truncated r hex sep1 cmd a p sep2 :
  src_inv r ->
  length hex = HEX_SIZE -> length sep1 = 2%nat -> length sep2 = 2%nat ->
  addr_ok a -> u16_ok p ->
  data (view r) `prefix_of` wire_header hex sep1 cmd a p sep2 ->
  data (view r) <> wire_header hex sep1 cmd a p sep2 ->
  exists r', parse r = (r', short_read (fin (view r))) /\
             view r' = mkSource [] (fin (view r)).
Proof.
  intros Hr Hh H1 H2 Ha Hp Hpre Hne.
  destruct (refines_parse r Hr) as (r' & E & Hv & _).
  destruct (reads_parse hex sep1 cmd a p sep2 Hh H1 H2 Ha Hp (fin (view r))) as [_ Ht].
  destruct (view r) as [d e]; simpl in *.
  assert (Hlen : (length d < length (wire_header hex sep1 cmd a p sep2))%nat).
  { destruct Hpre as [[|x k] Hk]; [by rewrite app_nil_r in Hk|].
    rewrite Hk, length_app. simpl. lia. }
  rewrite (Ht d Hpre Hlen) in E, Hv. by exists r'.
Qed.

(** [parse] is total and never panics: it succeeds, or it reports an
    unsupported command or address type, or it ends as the stream does. *)
Theorem parse_outcomes r r' o :
  src_inv r -> parse r = (r', o) ->
  match o with
  | Ok _ => True
  | Err e => kind e = Unsupported \/ @short_read Request (fin (view r)) = Err e
  | Panic _ => False
  | Pending => fin (view r) = Stalled
  end.
Proof.
  intros Hr E. destruct (refines_parse r Hr) as (r1 & E1 & Hv & _).
  rewrite E in E1. destruct (parse (view r)) as [s' o'] eqn:Es; simpl in *. simplify_eq.
  by destruct (stops_parse _ _ _ Es).
Qed.
End ParserTheorems.

(** Fragmentation independence: two readers of any lawful kind (a socket, a
    TLS session, a buffered reader) with the same bytes to come are parsed to the
    same outcome and left with the same bytes, however the bytes are chunked. *)
Theorem parse_fragmentation {R1 R2} `{AsyncReadExt R1} `{!ByteSource R1}
    `{AsyncReadExt R2} `{!ByteSource R2} (r1 : R1) (r2 : R2) :
  src_inv r1 -> src_inv r2 -> view r1 = view r2 ->
  (parse r1).2 = (parse r2).2 /\ view (parse r1).1 = view (parse r2).1.
Proof.
  intros Hi1 Hi2 Hv.
  destruct (refines_parse r1 Hi1) as (r1' & E1 & Hv1 & _).
  destruct (refines_parse r2 Hi2) as (r2' & E2 & Hv2 & _).
  rewrite E1, E2; simpl. by rewrite Hv1, Hv2, Hv.
Qed.

(** ** Authentication *)

Lemma validate_spec q secret : validate q secret = true <-> secret = tr_hex q.
Proof.
  unfold validate. destruct (Nat.eqb_spec (length secret) (length (tr_hex q))); simpl.
  - by rewrite bool_decide_eq_true.
  - split; [done|]. by intros ->.
Qed.

Lemma into_request_fields q :
  Request_into_request q =
    mkInboundRequest (tr_atype q) (mkIpAddrPort (tr_addr q) (tr_port q))
      (tr_command q) (transport_of (tr_command q)) (tr_proxy_protocol q).
Proof. by unfold Request_into_request; destruct (tr_command q). Qed.

Lemma into_request_ok q : parsed_ok q -> request_ok (Request_into_request q).
Proof. intros [? ? ? ? ?]. rewrite into_request_fields. by constructor. Qed.

Section Accept.
Context {R : Type} `{AsyncReadExt R} `{!ByteSource R}.

Lemma refines_accept secret : refines (accept secret : io R _) (accept secret).
Proof.
  apply refines_bind; [apply refines_parse|intros q].
  destruct (validate q secret); [apply refines_ret|apply (refines_lift (Err _))].
Qed.

Lemma accept_ok_inv secret (r r' : R) q :
  accept secret r = (r', Ok q) ->
  exists h, parse r = (r', Ok h) /\ secret = tr_hex h /\ q = Request_into_request h.
Proof.
  unfold accept. intros (r1 & h & E1 & E2)%io_bind_ok_inv.
  destruct (validate h secret) eqn:Hv; simpl in E2; [|done].
  unfold io_ret in E2. simplify_eq. apply validate_spec in Hv. eauto.
Qed.

Lemma accept_sound secret (r r' : R) q :
  src_inv r -> accept secret r = (r', Ok q) ->
  length secret = HEX_SIZE /\ secret `prefix_of` data (view r) /\
  request_ok q /\ proxy_protocol q = TROJAN.
Proof.
  intros Hr (h & E & -> & ->)%accept_ok_inv.
  destruct (parse_inv _ _ _ Hr E) as (Hq & _ & _ & sep1 & sep2 & _ & _ & ->).
  split_and!; [apply Hq| |by apply into_request_ok|].
  - unfold wire_header. rewrite <- !app_assoc. by apply prefix_app_r.
  - rewrite into_request_fields. apply Hq.
Qed.

(** What was accepted is the request the stream began with, behind the secret. *)
Lemma accept_wire secret (r r' : R) q :
  src_inv r -> accept secret r = (r', Ok q) ->
  fin (view r') = fin (view r) /\ proxy_protocol q = TROJAN /\
  exists sep1 sep2, data (view r) =
    wire_header secret sep1 (command q) (ip (addr_port q)) (port (addr_port q)) sep2 ++ data (view r').
Proof.
  intros Hr (h & E & -> & ->)%accept_ok_inv.
  destruct (parse_inv _ _ _ Hr E) as (Hq & _ & Hf & sep1 & sep2 & _ & _ & Hd).
  rewrite into_request_fields. split_and!; [done|apply Hq|]. by exists sep1, sep2.
Qed.

Lemma accept_header secret r hex sep1 cmd a p sep2 rest :
  src_inv r ->
  length hex = HEX_SIZE -> length sep1 = 2%nat -> length sep2 = 2%nat ->
  addr_ok a -> u16_ok p ->
  data (view r) = wire_header hex sep1 cmd a p sep2 ++ rest ->
  exists r', view r' = mkSource rest (fin (view r)) /\
    accept secret r =
      (r', if decide (secret = hex)
           then Ok (mkInboundRequest (atype_of a) (mkIpAddrPort a p) cmd
                      (transport_of cmd) TROJAN)
           else Err (mkError InvalidInput "Received invalid hex value")).
Proof.
  intros Hr Hh H1 H2 Ha Hp Hd.
  destruct (reads_lawful _ _ _ _ _ _ refines_parse
              (reads_parse _ _ _ _ _ _ Hh H1 H2 Ha Hp) Hr Hd) as (r' & E & Hv & _).
  exists r'. split; [done|]. unfold accept, io_bind. rewrite E.
  pose proof (validate_spec (mkRequest hex cmd (atype_of a) a p TROJAN) secret) as Hval.
  simpl in Hval. destruct (validate _ _) eqn:Ev; simpl.
  - rewrite decide_True by tauto. unfold io_ret. by rewrite into_request_fields.
  - rewrite decide_False by (intros Hs; by apply Hval in Hs). done.
Qed.

(** Every well-formed header with the right secret is accepted and with any
    other secret of the right length is refused with [InvalidInput]; either
    way exactly the header has been consumed. *)
Theorem accept_decides secret r hex sep1 cmd a p sep2 rest :
  src_inv r ->
  length hex = HEX_SIZE -> length sep1 = 2%nat -> length sep2 = 2%nat ->
  addr_ok a -> u16_ok p ->
  data (view r) = wire_header hex sep1 cmd a p sep2 ++ rest ->
  exists r', view r' = mkSource rest (fin (view r)) /\
    accept secret r =
      (r', if decide (secret = hex)
           then Ok (mkInboundRequest (atype_of a) (mkIpAddrPort a p) cmd
                      (transport_of cmd) TROJAN)
           else Err (mkError InvalidInput "Received invalid hex value")).
Proof. apply accept_header. Qed.
End Accept.

(** On a duplex stream, parsing and accepting write nothing. *)
Section Quiet.
Context {T : Type} `{AsyncReadExt T} `{!ByteSource T} `{!AsyncWrite T} `{!ByteSink T} `{!ByteDuplex T}.

Lemma quiet_address at_ : quiet (read_address at_ : io T _).
Proof. destruct at_; cbn [read_address]; auto 10 with refines. Qed.

Lemma quiet_parse : quiet (parse : io T _).
Proof.
  unfold parse. repeat (apply quiet_bind; [|intros ?]); auto using quiet_address with refines.
Qed.

Lemma quiet_accept secret : quiet (accept secret : io T _).
Proof.
  unfold accept. apply quiet_bind; [apply quiet_parse|intros q].
  destruct (negb _); [apply (quiet_lift (Err _))|apply quiet_ret].
Qed.
End Quiet.

(** ** The handshake *)

Section HandshakeTheorems.
Context {W : Type} `{AsyncWriteExt W} `{!ByteSink W}.

Lemma emits_handshake request secret :
  emits (handshake request secret : io W unit) (handshake_bytes request secret).
Proof.
  unfold handshake, handshake_bytes.
  repeat (apply emits_bind; [solve [auto with emits]|intros _]).
  apply emits_bind.
  { destruct (ip (addr_port request)) as [[]|]; simpl; auto with emits. }
  intros _. repeat (apply emits_bind; [solve [auto with emits]|intros _]).
  rewrite <- (app_nil_r (be_bytes 2 CRLF)).
  apply emits_bind; [auto with emits|intros _].
  apply (emits_bind _ _ [] []); auto with emits.
Qed.

Lemma flushes_handshake request secret : flushes (handshake request secret : io W unit).
Proof.
  unfold handshake. repeat first
    [ apply flushes_then_ret, flushes_flush
    | eapply flushes_bind; [apply emits_write_all || apply emits_write_u16 || apply emits_write_u8|intros _] ].
  eapply (flushes_bind _ _ (handshake_addr (ip (addr_port request)))).
  { destruct (ip (addr_port request)) as [[]|]; simpl; auto with emits. }
  intros _. repeat first
    [ apply flushes_then_ret, flushes_flush
    | eapply flushes_bind; [apply emits_write_u16|intros _] ].
Qed.

(** What the handshake puts on the wire: on success exactly
    [handshake_bytes], nothing of it left in a local buffer; on failure a
    prefix of it; and it never panics. *)
Theorem handshake_writes request secret (w w' : W) o :
  sink_inv w -> handshake request secret w = (w', o) ->
  is_panic o = false /\
  exists out, out `prefix_of` handshake_bytes request secret /\
    written w' = written w ++ out /\
    (is_ok o = true -> out = handshake_bytes request secret /\ flushed w' = written w').
Proof.
  intros Hw E. destruct (emits_handshake _ _ _ _ _ Hw E) as (Hi & Hp & Hf & out & Hpre & Hout & Hok).
  split; [done|]. exists out. split_and!; [done..|]. intros Ho.
  split; [by apply Hok|]. destruct o as [[]|e|p|]; try done.
  exact (flushes_handshake _ _ _ _ _ Hw E).
Qed.
End HandshakeTheorems.

(** ** Client handshake against server accept *)

Lemma handshake_bytes_ip request secret i :
  ip (addr_port request) = IpAddr_ i -> atype request = atype_of (IpAddr_ i) ->
  handshake_bytes request secret =
    wire_header secret (be_bytes 2 CRLF) (command request) (IpAddr_ i)
      (port (addr_port request)) (be_bytes 2 CRLF).
Proof. intros Hi Ha. unfold handshake_bytes, wire_header. by rewrite Hi, Ha. Qed.

Section RoundTrip.
Context {W : Type} `{AsyncWriteExt W} `{!ByteSink W}.
Context {R : Type} `{AsyncReadExt R} `{!ByteSource R}.

(** Round trip for IP destinations: when the client's handshake succeeded,
    a server configured with the same secret that reads what the client wrote
    accepts it, obtains the same address type, address, port, command and
    transport, and is left with exactly the payload behind the header. *)
Theorem handshake_accept_roundtrip request secret (w w' : W) (r : R) rest i :
  sink_inv w -> handshake request secret w = (w', Ok tt) ->
  src_inv r -> data (view r) = drop (length (written w)) (written w') ++ rest ->
  length secret = HEX_SIZE -> request_ok request ->
  ip (addr_port request) = IpAddr_ i ->
  exists r', view r' = mkSource rest (fin (view r)) /\
    accept secret r =
      (r', Ok (mkInboundRequest (atype request) (addr_port request) (command request)
                 (transport_protocol request) TROJAN)).
Proof.
  intros Hw E Hr Hd Hs [Haddr Hport Hat Htr] Hi.
  rewrite (emits_ok _ _ _ _ _ (emits_handshake request secret) Hw E), drop_app_length in Hd.
  rewrite Hi in Hat. rewrite (handshake_bytes_ip _ _ _ Hi Hat) in Hd. rewrite Hi in Haddr.
  destruct (reads_lawful _ _ _ _ _ _ refines_parse
              (reads_parse _ _ _ _ _ _ Hs (length_be_bytes 2 CRLF)
                 (length_be_bytes 2 CRLF) Haddr Hport) Hr Hd)
    as (r' & Ep & Hv & _).
  exists r'. split; [done|]. unfold accept, io_bind. rewrite Ep.
  rewrite (proj2 (validate_spec (mkRequest _ _ _ _ _ _) secret) eq_refl); simpl.
  unfold io_ret. rewrite into_request_fields; simpl.
  rewrite Hat, Htr. simpl. rewrite <- Hi. by destruct (addr_port request).
Qed.

(** C30: there is no such round trip for domain names.  The handshake does not
    send the length of the name, which the parser expects in front of it: no
    server that reads a domain handshake can both recover the domain name and
    stop at the payload. *)
Theorem handshake_domain_no_roundtrip request secret (w w' : W) (r r' : R) rest q d :
  sink_inv w -> handshake request secret w = (w', Ok tt) ->
  src_inv r -> data (view r) = drop (length (written w)) (written w') ++ rest ->
  ip (addr_port request) = Domain d ->
  accept secret r = (r', Ok q) ->
  ~ (ip (addr_port q) = Domain d /\ data (view r') = rest).
Proof.
  intros Hw E Hr Hd Hi (h & Ep & Hs & ->)%accept_ok_inv [Hq Hrest].
  rewrite (emits_ok _ _ _ _ _ (emits_handshake request secret) Hw E), drop_app_length in Hd.
  destruct (parse_inv _ _ _ Hr Ep) as (_ & _ & _ & sep1 & sep2 & H1' & H2' & Hdata).
  rewrite into_request_fields in Hq. simpl in Hq. rewrite Hq, Hd, Hrest in Hdata.
  apply (f_equal length) in Hdata. unfold handshake_bytes, wire_header in Hdata.
  rewrite Hi in Hdata. rewrite !length_app, !length_be_bytes, H1', H2', Hs in Hdata.
  simpl in Hdata. lia.
Qed.
End RoundTrip.

(** ** Witnesses *)

Definition demo_secret : list byte := replicate 56 x61.
Definition demo_request : InboundRequest :=
  mkInboundRequest IPv4 (mkIpAddrPort (IpAddr_ (V4 16909060)) 443) Connect TransportTCP SOCKS.
Definition demo_domain : list byte := [x03; x63; x6f; x6d].
Definition demo_domain_request : InboundRequest :=
  mkInboundRequest DomainName (mkIpAddrPort (Domain demo_domain) 443) Connect TransportTCP SOCKS.
Definition demo_header : list byte :=
  wire_header demo_secret [x0d; x0a] Udp (Domain demo_domain) 53 [x0d; x0a].

(** A connection that delivers [bs] byte by byte. *)
Definition demo_conn (bs : list byte) : Conn := conn (dribble bs) Eof.

Lemma demo_conn_inv bs : src_inv (demo_conn bs).
Proof. induction bs; repeat constructor; done. Qed.

Lemma demo_header_sizes :
  length demo_secret = HEX_SIZE /\ addr_ok (Domain demo_domain) /\ u16_ok 53.
Proof. unfold u16_ok. simpl. split_and!; done || lia. Qed.

Lemma parse_complete_witness :
  exists r', parse (demo_conn (demo_header ++ [x41])) =
    (r', Ok (mkRequest demo_secret Udp DomainName (Domain demo_domain) 53 TROJAN)).
Proof.
  destruct (parse_complete (demo_conn (demo_header ++ [x41]))
    demo_secret [x0d; x0a] Udp (Domain demo_domain) 53 [x0d; x0a] [x41]) as (r' & E & _).
  - apply demo_conn_inv.
  - apply demo_header_sizes.
  - reflexivity.
  - reflexivity.
  - apply demo_header_sizes.
  - apply demo_header_sizes.
  - vm_compute. reflexivity.
  - exists r'. exact E.
Defined.

Lemma parse_sound_witness :
  parsed_ok (mkRequest demo_secret Udp DomainName (Domain demo_domain) 53 TROJAN).
Proof.
  refine (proj1 (parse_sound (demo_conn (demo_header ++ [x41]))
            (parse (demo_conn (demo_header ++ [x41]))).1 _ (demo_conn_inv _) _)).
  vm_compute. reflexivity.
Defined.

Lemma parse_truncated_witness :
  exists r', parse (demo_conn (take 60 demo_header)) = (r', Err eof_error).
Proof.
  destruct (parse_truncated (demo_conn (take 60 demo_header))
    demo_secret [x0d; x0a] Udp (Domain demo_domain) 53 [x0d; x0a]) as (r' & E & _).
  - apply demo_conn_inv.
  - apply demo_header_sizes.
  - reflexivity.
  - reflexivity.
  - apply demo_header_sizes.
  - apply demo_header_sizes.
  - exists (drop 60 demo_header). vm_compute. reflexivity.
  - vm_compute. discriminate.
  - exists r'. exact E.
Defined.

Lemma parse_outcomes_witness :
  kind (mkError Unsupported "Unsupported command request") = Unsupported \/
  @short_read Request Eof = Err (mkError Unsupported "Unsupported command request").
Proof.
  refine (parse_outcomes (demo_conn (demo_secret ++ [x0d; x0a; x09]))
    (parse (demo_conn (demo_secret ++ [x0d; x0a; x09]))).1 (Err _) (demo_conn_inv _) _).
  vm_compute. reflexivity.
Defined.

Lemma parse_fragmentation_witness :
  (parse (demo_conn demo_header)).2 = (parse (mkSource demo_header Eof)).2.
Proof.
  refine (proj1 (parse_fragmentation (demo_conn demo_header) (mkSource demo_header Eof)
                   (demo_conn_inv _) I _)).
  vm_compute. reflexivity.
Defined.

Lemma accept_decides_witness :
  exists r', accept (replicate 56 x62) (demo_conn demo_header) =
    (r', Err (mkError InvalidInput "Received invalid hex value")).
Proof.
  destruct (accept_decides (replicate 56 x62) (demo_conn demo_header)
    demo_secret [x0d; x0a] Udp (Domain demo_domain) 53 [x0d; x0a] []) as (r' & _ & E).
  - apply demo_conn_inv.
  - apply demo_header_sizes.
  - reflexivity.
  - reflexivity.
  - apply demo_header_sizes.
  - apply demo_header_sizes.
  - vm_compute. reflexivity.
  - exists r'. exact E.
Defined.

Lemma handshake_writes_witness :
  is_panic (handshake demo_request demo_secret (mkConn [] Eof [] [] (Some 20%nat))).2 = false.
Proof.
  refine (proj1 (handshake_writes demo_request demo_secret
    (mkConn [] Eof [] [] (Some 20%nat))
    (handshake demo_request demo_secret (mkConn [] Eof [] [] (Some 20%nat))).1 _ _ _)).
  - apply fresh_sink_inv.
  - apply surjective_pairing.
Defined.

Lemma handshake_accept_roundtrip_witness :
  exists r', accept demo_secret (demo_conn (handshake_bytes demo_request demo_secret ++ [x47])) =
    (r', Ok (mkInboundRequest IPv4 (mkIpAddrPort (IpAddr_ (V4 16909060)) 443) Connect
               TransportTCP TROJAN)).
Proof.
  destruct (handshake_accept_roundtrip demo_request demo_secret (conn [] Eof)
    (handshake demo_request demo_secret (conn [] Eof)).1
    (demo_conn (handshake_bytes demo_request demo_secret ++ [x47])) [x47] (V4 16909060))
    as (r' & _ & E).
  - apply fresh_sink_inv.
  - vm_compute. reflexivity.
  - apply demo_conn_inv.
  - vm_compute. reflexivity.
  - reflexivity.
  - constructor; unfold u16_ok; simpl; unfold u32_ok; done || lia.
  - reflexivity.
  - exists r'. exact E.
Defined.

(** A domain handshake the server does accept, with the wrong destination: the
    first byte of the name is taken for its length. *)
Definition demo_misread : InboundRequest :=
  mkInboundRequest DomainName (mkIpAddrPort (Domain [x63; x6f; x6d]) 443) Connect
    TransportTCP TROJAN.

Lemma handshake_domain_no_roundtrip_witness :
  ~ (ip (addr_port demo_misread) = Domain demo_domain /\ @nil byte = []).
Proof.
  refine (handshake_domain_no_roundtrip demo_domain_request demo_secret (conn [] Eof)
    (handshake demo_domain_request demo_secret (conn [] Eof)).1
    (demo_conn (handshake_bytes demo_domain_request demo_secret))
    (accept demo_secret (demo_conn (handshake_bytes demo_domain_request demo_secret))).1
    [] demo_misread demo_domain _ _ (demo_conn_inv _) _ _ _).
  - apply fresh_sink_inv.
  - vm_compute. reflexivity.
  - vm_compute. reflexivity.
  - reflexivity.
  - vm_compute. reflexivity.
Defined.
