(* ===== verification/Socks5.v ===== *)
(** * The SOCKS5 inbound: src/protocol/socks5/{base,parser,mod}.rs

    The request parser, the greeting and the acknowledgement, and the whole
    [accept] dialogue on a duplex stream. *)

From Stdlib Require Import ZArith Lia.
From Stdlib Require Import Strings.Byte.
From stdpp Require Import base list strings numbers relations.
From S2P Require Import Prelude AsyncIo Conn Relay Common.

#[local] Open Scope Z_scope.

(** ** base.rs *)

Definition VERSION : byte := x05.

Record SocksRequest := mkSocksRequest {
  sr_version : byte;
  sr_command : Command;
  sr_rsv : byte;
  sr_atype : Atype;
  sr_addr : IpAddress;
  sr_port : Z;
}.

(** [Request::new], with the argument order of the source. *)
Definition SocksRequest_new (version : byte) (cmd : Command) (rsv : byte)
    (at_ : Atype) (p : Z) (addr : IpAddress) : SocksRequest :=
  mkSocksRequest version cmd rsv at_ addr p.

Record ServerHello := mkServerHello { sh_version : byte; sh_method : byte }.

Definition ServerHello_new (method : byte) : ServerHello := mkServerHello VERSION method.

Definition ServerHello_bytes (h : ServerHello) : list byte := [sh_version h; sh_method h].

Record RequestAck := mkRequestAck {
  ra_version : byte; ra_rep : byte; ra_rsv : byte; ra_atype : byte;
  ra_addr : IpAddress; ra_port : Z;
}.

Definition RequestAck_new (rep rsv at_ : byte) (addr : IpAddress) (p : Z) : RequestAck :=
  mkRequestAck VERSION rep rsv at_ addr p.

(** [Request::into_request] *)
Definition SocksRequest_into_request (r : SocksRequest) : InboundRequest :=
  match sr_command r with
  | Udp => InboundRequest_new (sr_atype r) (sr_addr r) (sr_command r) (sr_port r)
             TransportUDP SOCKS
  | _ => InboundRequest_new (sr_atype r) (sr_addr r) (sr_command r) (sr_port r)
           TransportTCP SOCKS
  end.

(** ** parser.rs *)

(** [Vec::with_capacity(n)]: capacity [n], length zero. *)
Definition Vec_with_capacity (n : nat) : list byte := [].

Section Parser.
Context {R : Type} `{AsyncReadExt R}.

Definition socks_read_address (at_ : Atype) : io R IpAddress :=
  match at_ with
  | IPv4 => let? a := read_u32 in io_ret (from_u32 a)
  | IPv6 => let? a := read_u128 in io_ret (from_u128 a)
  | DomainName =>
      let? size := read_u8 in
      let buf := Vec_with_capacity (Z.to_nat (u8_to_Z size)) in
      let? buf := read_exact (length buf) in
      io_ret (from_bytes buf)
  end.

Definition socks_parse : io R SocksRequest :=
  let? v := read_u8 in
  let? version :=
    if decide (v = VERSION) then io_ret VERSION
    else io_err (mkError Unsupported "Unsupported version number") in
  let? c := read_u8 in
  let? command := io_lift (Command_from c) in
  let? rsv := read_u8 in
  let? a := read_u8 in
  let? atype := io_lift (Atype_from a) in
  let? addr := socks_read_address atype in
  let? port := read_u16 in
  io_ret (SocksRequest_new version command rsv atype port addr).
End Parser.

(** ** mod.rs *)

Section Accept.
Context {T : Type} `{AsyncReadExt T} `{!AsyncWrite T} `{!AsyncWriteExt T}.

Definition init_ack : io T unit :=
  read 32 ;;?
  write_all (ServerHello_bytes (ServerHello_new x00)) ;;?
  flush ;;?
  io_ret tt.

Definition write_request_ack (port : Z) : io T unit :=
  write_all [VERSION; x00; x00; x01; x7f; x00; x00; x01] ;;?
  write_u16 port ;;?
  flush ;;?
  io_ret tt.

Definition socks_accept (port : Z) : io T InboundRequest :=
  init_ack ;;?
  let? request := socks_parse in
  let request := SocksRequest_into_request request in
  write_request_ack port ;;?
  io_ret request.
End Accept.

(** ** The request grammar of RFC 1928 *)

Definition socks_wire (cmd : Command) (rsv : byte) (a : IpAddress) (p : Z) : list byte :=
  [VERSION] ++ [Command_as_u8 cmd] ++ [rsv] ++ [Atype_as_u8 (atype_of a)] ++
  wire_addr a ++ be_bytes 2 p.

Definition hello_reply : list byte := [x05; x00].
Definition ack_reply (port : Z) : list byte :=
  [x05; x00; x00; x01; x7f; x00; x00; x01] ++ be_bytes 2 port.

(** ** Lemmas *)

Lemma reads_socks_ip i :
  addr_ok (IpAddr_ i) ->
  reads (socks_read_address (atype_of (IpAddr_ i))) (octets i) (IpAddr_ i).
Proof.
  intros Ha. rewrite <- (app_nil_r (octets i)).
  destruct i; cbn [atype_of socks_read_address]; eapply reads_bind;
    try (apply reads_u32 || apply reads_u128; apply length_be_bytes);
    rewrite (be_val_octets _ Ha); apply reads_ret.
Qed.

Lemma reads_socks_domain size :
  reads (socks_read_address DomainName) [size] (Domain []).
Proof.
  rewrite <- (app_nil_r [size]). eapply reads_bind; [apply reads_u8|].
  rewrite <- (app_nil_r []). eapply reads_bind; [by apply reads_exact|apply reads_ret].
Qed.

(** The request parser on any header whose address block reads as [a]. *)
Lemma reads_socks_parse cmd rsv at_ ab a pb :
  reads (socks_read_address at_) ab a -> length pb = 2%nat ->
  reads socks_parse
    ([VERSION] ++ [Command_as_u8 cmd] ++ [rsv] ++ [Atype_as_u8 at_] ++ ab ++ pb)
    (mkSocksRequest VERSION cmd rsv at_ a (be_val pb)).
Proof.
  intros Ha Hp. unfold socks_parse.
  eapply reads_bind; [apply reads_u8|]. rewrite decide_True by done.
  eapply (reads_lift (Ok VERSION)); [reflexivity|].
  eapply reads_bind; [apply reads_u8|].
  eapply reads_lift; [apply Command_from_as_u8|].
  eapply reads_bind; [apply reads_u8|].
  eapply reads_bind; [apply reads_u8|].
  eapply reads_lift; [apply Atype_from_as_u8|].
  eapply reads_bind; [apply Ha|].
  rewrite <- (app_nil_r pb) at 1. eapply reads_bind; [by apply reads_u16|]. apply reads_ret.
Qed.

Section Theorems.
Context {R : Type} `{AsyncReadExt R} `{!ByteSource R}.

Lemma refines_socks_address at_ :
  refines (socks_read_address at_ : io R _) (socks_read_address at_).
Proof. destruct at_; cbn [socks_read_address]; auto 10 with refines. Qed.

Lemma refines_socks_parse : refines (socks_parse : io R _) socks_parse.
Proof.
  unfold socks_parse. apply refines_bind; [auto with refines|intros v].
  apply refines_bind.
  { case_decide; [apply refines_ret|]. apply (refines_lift (Err _)). }
  intros ?. repeat (apply refines_bind; [|intros ?]);
    auto using refines_socks_address with refines.
Qed.

(** The SOCKS5 request parser returns exactly the request a well-formed
    IPv4 or IPv6 request encodes and leaves exactly the bytes behind it. *)
Theorem socks_parse_ip r cmd rsv i p rest :
  src_inv r -> addr_ok (IpAddr_ i) -> u16_ok p ->
  data (view r) = socks_wire cmd rsv (IpAddr_ i) p ++ rest ->
  exists r', socks_parse r =
      (r', Ok (mkSocksRequest VERSION cmd rsv (atype_of (IpAddr_ i)) (IpAddr_ i) p)) /\
    view r' = mkSource rest (fin (view r)) /\ src_inv r'.
Proof.
  intros Hr Ha Hp Hd.
  pose proof (reads_socks_parse cmd rsv _ _ _ (be_bytes 2 p) (reads_socks_ip i Ha)
                (length_be_bytes 2 p)) as Hreads.
  rewrite be_val_be_bytes_small in Hreads by exact Hp.
  exact (reads_lawful _ _ _ _ _ _ refines_socks_parse Hreads Hr Hd).
Qed.

(** C32: the SOCKS5 parser misreads every domain request: its buffer has
    capacity but no length, so none of the name is read; the address becomes
    the empty name, the first two bytes of the name are taken for the port,
    and the rest of the request is left in the stream as if it were
    payload. *)
Theorem socks_parse_domain_misread r cmd rsv b1 b2 d p rest :
  src_inv r -> data (view r) = socks_wire cmd rsv (Domain (b1 :: b2 :: d)) p ++ rest ->
  exists r', socks_parse r =
      (r', Ok (mkSocksRequest VERSION cmd rsv DomainName (Domain []) (be_val [b1; b2]))) /\
    view r' = mkSource (d ++ be_bytes 2 p ++ rest) (fin (view r)) /\ src_inv r'.
Proof.
  intros Hr Hd.
  pose proof (reads_socks_parse cmd rsv DomainName _ _ [b1; b2]
                (reads_socks_domain (as_u8 (Z.of_nat (length (b1 :: b2 :: d))))) eq_refl)
    as Hreads.
  refine (reads_lawful _ _ _ _ _ _ refines_socks_parse Hreads Hr _).
  rewrite Hd. unfold socks_wire, wire_addr. by rewrite <- !app_assoc.
Qed.
End Theorems.

(** ** The dialogue *)

Section Dialogue.
Context {T : Type} `{AsyncReadExt T} `{!ByteSource T}.
Context `{!AsyncWrite T} `{!AsyncWriteExt T} `{!ByteSink T} `{!ByteDuplex T}.

Lemma quiet_socks_address at_ : quiet (socks_read_address at_ : io T _).
Proof. destruct at_; cbn [socks_read_address]; auto 10 with refines. Qed.

Lemma quiet_socks_parse : quiet (socks_parse : io T _).
Proof.
  unfold socks_parse. apply quiet_bind; [auto with refines|intros v].
  apply quiet_bind.
  { case_decide; [apply quiet_ret|]. apply (quiet_lift (Err _)). }
  intros ?. repeat (apply quiet_bind; [|intros ?]);
    auto using quiet_socks_address with refines.
Qed.

(** The two replies have the same shape. *)
Definition reply (bs : list byte) (port : option Z) : io T unit :=
  write_all bs ;;?
  (match port with Some p => write_u16 p | None => io_ret tt end) ;;?
  flush ;;? io_ret tt.

Definition reply_bytes (bs : list byte) (port : option Z) : list byte :=
  bs ++ match port with Some p => be_bytes 2 p | None => [] end.

Lemma says_reply bs port : says (reply bs port) (reply_bytes bs port).
Proof.
  apply says_bind; [apply says_emits; auto with emits|intros _].
  rewrite <- (app_nil_r (match port with _ => _ end)).
  apply says_bind; [destruct port; apply says_emits; auto with emits|intros _].
  apply (says_bind _ _ [] []); [apply says_emits; auto with emits|intros _].
  apply says_quiet, quiet_ret.
Qed.

Lemma still_reply bs port : still (reply bs port).
Proof.
  eapply still_bind; [auto with emits..|intros _].
  eapply (still_bind _ _ (match port with Some p => be_bytes 2 p | None => [] end));
    [destruct port; auto with emits..|intros _].
  eapply still_bind; [auto with emits..|intros _]. auto with emits.
Qed.

Lemma flushes_reply bs port : flushes (reply bs port).
Proof.
  eapply flushes_bind; [apply emits_write_all|intros _].
  eapply (flushes_bind _ _ (match port with Some p => be_bytes 2 p | None => [] end));
    [destruct port; auto with emits|intros _].
  apply flushes_then_ret, flushes_flush.
Qed.

(** [o] is the failure of a write to the stream, or of a flush. *)
Definition write_failed {A} (t' : T) (o : outcome A) : Prop :=
  exists t0 (e : outcome unit), sink_inv t0 /\
    ((exists bs, write_all bs t0 = (t', e)) \/ flush t0 = (t', e)) /\ same_failure e o.

(** A reply that does not succeed was stopped by the stream. *)
Lemma reply_fails bs port (t t' : T) o :
  both_inv t -> reply bs port t = (t', o) -> is_ok o = false -> write_failed t' o.
Proof.
  intros [_ Ht] E Ho. unfold reply, io_bind, io_ret in E.
  destruct (write_all bs t) as [t1 [[]|e|m|]] eqn:E1; simplify_eq;
    [|by eexists t, _; split; [done|]; split; [left; eexists; exact E1|]..].
  destruct (emits_write_all _ _ _ _ Ht E1) as [Ht1 _].
  destruct port as [p|]; simpl in E.
  - rewrite write_u16_eq in E. destruct (write_all (be_bytes 2 p) t1) as [t2 [[]|e|m|]] eqn:E2; simplify_eq;
      [|by eexists t1, _; split; [done|]; split; [left; eexists; exact E2|]..].
    destruct (emits_write_all _ _ _ _ Ht1 E2) as [Ht2 _].
    destruct (flush t2) as [t3 [[]|e|m|]] eqn:E3; simplify_eq;
      (by eexists t2, _; split; [done|]; split; [right; exact E3|]).
  - destruct (flush t1) as [t3 [[]|e|m|]] eqn:E3; simplify_eq;
      (by eexists t1, _; split; [done|]; split; [right; exact E3|]).
Qed.

(** What a reply does, in one statement. *)
Lemma reply_run bs port (t : T) :
  both_inv t -> exists t' o out, reply bs port t = (t', o) /\ both_inv t' /\ view t' = view t /\
    written t' = written t ++ out /\ out `prefix_of` reply_bytes bs port /\
    ((o = Ok tt /\ out = reply_bytes bs port /\ flushed t' = written t') \/
     (is_ok o = false /\ write_failed t' o)).
Proof.
  intros Ht. destruct (reply bs port t) as [t' o] eqn:E.
  destruct (says_reply bs port t t' o Ht E) as (Hi & out & Hpre & Hw & Hok).
  destruct (still_reply bs port t t' o Ht E) as [_ Hv].
  exists t', o, out. split_and!; [done..|]. destruct (is_ok o) eqn:Ho; [left|right].
  - destruct o as [[]| | |]; try done. split_and!; [done|by apply Hok|].
    exact (flushes_reply bs port t t' tt (proj2 Ht) E).
  - split; [done|]. exact (reply_fails bs port t t' o Ht E Ho).
Qed.

Lemma says_init_ack : says (init_ack : io T unit) hello_reply.
Proof.
  apply (says_bind _ _ [] hello_reply); [apply says_quiet, quiet_read; lia|intros _].
  exact (says_reply (ServerHello_bytes (ServerHello_new x00)) None).
Qed.

Lemma says_write_request_ack port :
  says (write_request_ack port : io T unit) (ack_reply port).
Proof. exact (says_reply [VERSION; x00; x00; x01; x7f; x00; x00; x01] (Some port)). Qed.

Lemma flushes_write_request_ack port : flushes (write_request_ack port : io T unit).
Proof.
  eapply flushes_bind; [apply emits_write_all|intros _].
  eapply flushes_bind; [apply emits_write_u16|intros _].
  apply flushes_then_ret, flushes_flush.
Qed.

(** The replies of a SOCKS5 accept: what is written is a prefix of the
    server hello followed by the acknowledgement carrying the listening port;
    on success both have been sent and flushed, and nothing of the
    acknowledgement is sent unless a request has been parsed before. *)
Theorem socks_accept_dialogue port (t t' : T) o :
  both_inv t -> socks_accept port t = (t', o) ->
  both_inv t' /\ exists out,
    out `prefix_of` hello_reply ++ ack_reply port /\ written t' = written t ++ out /\
    (is_ok o = true -> out = hello_reply ++ ack_reply port /\ flushed t' = written t') /\
    ((length hello_reply < length out)%nat ->
       exists t1 t2 q, written t1 = written t ++ hello_reply /\
                       socks_parse t1 = (t2, Ok q)).
Proof.
  intros Ht E. unfold socks_accept, io_bind at 1 in E.
  destruct (init_ack t) as [t1 o1] eqn:E1.
  destruct (says_init_ack _ _ _ Ht E1) as (Hi1 & out1 & Hpre1 & Hout1 & Hok1).
  destruct o1 as [[]|e|p|]; simplify_eq; [|
    split; [done|]; exists out1; split_and!; [by apply prefix_app_r|done|done|];
    intros Hlen; apply prefix_length in Hpre1; lia..].
  rewrite (Hok1 eq_refl) in Hout1. clear Hok1 Hpre1 out1.
  unfold io_bind at 1 in E. destruct (socks_parse t1) as [t2 o2] eqn:E2.
  destruct (quiet_socks_parse _ _ _ Hi1 E2) as (Hi2 & Hout2 & _).
  rewrite Hout1 in Hout2.
  destruct o2 as [q|e|p|]; simplify_eq; [|
    split; [done|]; exists hello_reply; split_and!; [by apply prefix_app_r|done|done|lia]..].
  assert (Hs : says (write_request_ack port ;;? io_ret (SocksRequest_into_request q) : io T _)
                 (ack_reply port)).
  { rewrite <- (app_nil_r (ack_reply port)).
    apply says_bind; [apply says_write_request_ack|intros _; apply says_quiet, quiet_ret]. }
  destruct (Hs _ _ _ Hi2 E) as (Hi3 & out3 & Hpre3 & Hout3 & Hok3).
  split; [done|]. exists (hello_reply ++ out3). split_and!.
  - by apply prefix_app.
  - by rewrite Hout3, Hout2, app_assoc.
  - intros Ho. rewrite (Hok3 Ho). split; [done|]. destruct o; try done.
    refine (flushes_then_ret _ _ (flushes_write_request_ack port) _ _ _ (proj2 Hi2) E).
  - intros _. eauto.
Qed.

(** The dialogue with a client whose hello is what the first read yields and who
    asks for an IP destination: it succeeds, or the stream refuses a reply. *)
Lemma socks_accept_run port (t t1 : T) hello cmd rsv i p rest :
  both_inv t -> read 32 t = (t1, Ok hello) -> addr_ok (IpAddr_ i) -> u16_ok p ->
  data (view t1) = socks_wire cmd rsv (IpAddr_ i) p ++ rest ->
  exists t' o out, socks_accept port t = (t', o) /\ both_inv t' /\
    written t' = written t ++ out /\ out `prefix_of` hello_reply ++ ack_reply port /\
    ((o = Ok (mkInboundRequest (atype_of (IpAddr_ i)) (mkIpAddrPort (IpAddr_ i) p) cmd
                (transport_of cmd) SOCKS) /\
      out = hello_reply ++ ack_reply port /\ flushed t' = written t' /\
      view t' = mkSource rest (fin (view t))) \/
     write_failed t' o).
Proof.
  intros Ht Er Ha Hp Hd. assert (Hn : (0 < 32)%nat) by lia.
  destruct (quiet_read 32 Hn _ _ _ Ht Er) as (Ht1 & Hw1 & _).
  destruct (read_view _ _ _ _ (proj1 Ht) Hn Er) as (_ & Hf1 & _).
  destruct (reply_run (ServerHello_bytes (ServerHello_new x00)) None t1 Ht1)
    as (t2 & o2 & out2 & E2 & Ht2 & Hv2 & Hw2 & Hpre2 & Ho2).
  change (reply_bytes _ None) with hello_reply in *.
  unfold socks_accept, init_ack. unfold io_bind at 1 2. rewrite Er.
  change ((write_all ?b ;;? flush ;;? io_ret tt) t1) with (reply b None t1). rewrite E2.
  destruct Ho2 as [(-> & -> & _)|(Hno & Hfail)]; [|exists t2; destruct o2 as [|e|m|]; [done|..];
    eexists _, out2; (split_and!; [done|done|by rewrite Hw2, Hw1|by apply prefix_app_r|by right])].
  pose proof (reads_socks_parse cmd rsv _ _ _ (be_bytes 2 p) (reads_socks_ip i Ha)
                (length_be_bytes 2 p)) as Hreads.
  rewrite be_val_be_bytes_small in Hreads by exact Hp. rewrite <- Hv2 in Hd.
  destruct (reads_lawful _ _ _ _ _ _ refines_socks_parse Hreads (proj1 Ht2) Hd)
    as (t3 & E3 & Hv3 & _).
  destruct (quiet_socks_parse _ _ _ Ht2 E3) as (Ht3 & Hw3 & _).
  destruct (reply_run [VERSION; x00; x00; x01; x7f; x00; x00; x01] (Some port) t3 Ht3)
    as (t4 & o4 & out4 & E4 & Ht4 & Hv4 & Hw4 & Hpre4 & Ho4).
  change (reply_bytes _ (Some port)) with (ack_reply port) in *.
  assert (Hw : written t4 = written t ++ hello_reply ++ out4).
  { by rewrite Hw4, Hw3, Hw2, Hw1, <- app_assoc. }
  unfold io_bind at 1. rewrite E3. cbv zeta. unfold io_bind at 1.
  change (write_request_ack port t3) with (reply [VERSION; x00; x00; x01; x7f; x00; x00; x01] (Some port) t3).
  rewrite E4. destruct Ho4 as [(-> & -> & Hfl)|(Hno & Hfail)].
  - eexists t4, _, _. split_and!; [done|done|exact Hw|done|left]. split_and!; [|done|done|].
    + unfold SocksRequest_into_request; simpl. by destruct cmd.
    + by rewrite Hv4, Hv3, Hv2, Hf1.
  - exists t4. destruct o4 as [|e|m|]; [done|..]; eexists _, (hello_reply ++ out4);
      (split_and!; [done|done|exact Hw|by apply prefix_app|by right]).
Qed.

(** C31: a SOCKS5 client whose first read yields its hello (the method list plays
    no role) and who then sends a well-formed request for an IPv4 or IPv6 address,
    with any command.  The accept returns exactly that request, having written and
    flushed exactly the two replies: the hello without authentication, and the
    acknowledgement with the listening port; the payload behind the request is
    untouched.  It does not return a request only if the stream refuses a reply:
    then the failure is that of a write or of a flush, and a prefix of the two
    replies has been written. *)
Theorem socks_accept_request port (t t1 : T) hello cmd rsv i p rest :
  both_inv t -> read 32 t = (t1, Ok hello) -> addr_ok (IpAddr_ i) -> u16_ok p ->
  data (view t1) = socks_wire cmd rsv (IpAddr_ i) p ++ rest ->
  exists t' o out, socks_accept port t = (t', o) /\ both_inv t' /\
    written t' = written t ++ out /\
    out `prefix_of` [x05; x00] ++ [x05; x00; x00; x01; x7f; x00; x00; x01] ++ be_bytes 2 port /\
    ((o = Ok (mkInboundRequest (atype_of (IpAddr_ i)) (mkIpAddrPort (IpAddr_ i) p) cmd
                (transport_of cmd) SOCKS) /\
      out = [x05; x00] ++ [x05; x00; x00; x01; x7f; x00; x00; x01] ++ be_bytes 2 port /\
      flushed t' = written t' /\ view t' = mkSource rest (fin (view t))) \/
     write_failed t' o).
Proof. apply socks_accept_run. Qed.
End Dialogue.

(** ** Witnesses *)

Definition demo_socks_ip : list byte := socks_wire Connect x00 (IpAddr_ (V4 16909060)) 80.
Definition demo_socks_domain : list byte :=
  socks_wire Connect x00 (Domain [x61; x2e; x63; x6f; x6d]) 80.

Lemma demo_rx_ok bs evs : bs <> [] -> rx_ok evs -> rx_ok (Chunk bs :: evs).
Proof. intros Hb He. constructor; [|done]. congruence. Qed.

Lemma socks_parse_ip_witness :
  exists r', socks_parse (conn [Chunk demo_socks_ip; Chunk [x47]] Stalled) =
    (r', Ok (mkSocksRequest VERSION Connect x00 IPv4 (IpAddr_ (V4 16909060)) 80)).
Proof.
  destruct (socks_parse_ip (conn [Chunk demo_socks_ip; Chunk [x47]] Stalled)
              Connect x00 (V4 16909060) 80 [x47]) as (r' & E & _).
  - apply demo_rx_ok; [discriminate|]. apply demo_rx_ok; [discriminate|constructor].
  - simpl. unfold u32_ok. lia.
  - unfold u16_ok. lia.
  - vm_compute. reflexivity.
  - exists r'. exact E.
Defined.

Lemma socks_parse_domain_misread_witness :
  exists r', socks_parse (conn [Chunk demo_socks_domain] Eof) =
    (r', Ok (mkSocksRequest VERSION Connect x00 DomainName (Domain []) (be_val [x61; x2e]))).
Proof.
  destruct (socks_parse_domain_misread (conn [Chunk demo_socks_domain] Eof)
              Connect x00 x61 x2e [x63; x6f; x6d] 80 []) as (r' & E & _).
  - apply demo_rx_ok; [discriminate|constructor].
  - vm_compute. reflexivity.
  - exists r'. exact E.
Defined.

(** A client that waits for the server hello before it sends its request. *)
Definition demo_socks_conn : Conn :=
  conn [Chunk [x05; x01; x00]; NotReady; Chunk demo_socks_ip; Chunk [x47; x45; x54]] Stalled.

Lemma demo_socks_conn_inv : both_inv demo_socks_conn.
Proof.
  split; [|apply fresh_sink_inv]. repeat constructor; discriminate.
Qed.

Lemma socks_accept_dialogue_witness :
  both_inv (socks_accept 1080 demo_socks_conn).1.
Proof.
  refine (proj1 (socks_accept_dialogue 1080 demo_socks_conn
                   (socks_accept 1080 demo_socks_conn).1 _ demo_socks_conn_inv _)).
  apply surjective_pairing.
Defined.

Lemma socks_accept_request_witness :
  exists t' o out, socks_accept 1080 demo_socks_conn = (t', o) /\ both_inv t' /\
    written t' = out /\ out `prefix_of` hello_reply ++ ack_reply 1080.
Proof.
  destruct (socks_accept_request 1080 demo_socks_conn (read 32 demo_socks_conn).1
    [x05; x01; x00] Connect x00 (V4 16909060) 80 [x47; x45; x54] demo_socks_conn_inv)
    as (t' & o & out & E & Hi & Hw & Hpre & _).
  - vm_compute. reflexivity.
  - simpl. unfold u32_ok. lia.
  - unfold u16_ok. lia.
  - vm_compute. reflexivity.
  - exists t', o, out. split; [exact E|]. split; [exact Hi|]. split; [exact Hw|exact Hpre].
Defined.
