(* ===== verification/Stream.v ===== *)
(** * The transport stream: src/protocol/common/stream.rs

    [StandardTcpStream] is a plain connection, a TLS session this side accepted
    or a TLS session this side opened; every poll goes to the stream inside.
    The TLS session types of tokio-rustls are type parameters with their own
    [AsyncRead] and [AsyncWrite] implementations. *)

From Stdlib Require Import ZArith Lia.
From Stdlib Require Import Strings.Byte.
From stdpp Require Import base list strings numbers relations.
From S2P Require Import Prelude AsyncIo Conn Common Trojan.

#[local] Open Scope nat_scope.

Inductive StandardTcpStream (T TlsServer TlsClient : Type) :=
| Plain (s : T)
| RustlsServer (s : TlsServer)
| RustlsClient (s : TlsClient).
Arguments Plain {T TlsServer TlsClient} s.
Arguments RustlsServer {T TlsServer TlsClient} s.
Arguments RustlsClient {T TlsServer TlsClient} s.

(** Run a poll on the stream inside and put the stream back. *)
Definition rewrap {S S' B A} (f : S -> S') (r : (S * B) * outcome A) : (S' * B) * outcome A :=
  let '((s', b'), o) := r in ((f s', b'), o).
Definition rewrap1 {S S' A} (f : S -> S') (r : S * outcome A) : S' * outcome A :=
  let '(s', o) := r in (f s', o).

Section Delegation.
Context {T TS TC : Type}.
#[local] Abbreviation Std := (StandardTcpStream T TS TC).

Section Polls.
Context `{AsyncRead T} `{AsyncRead TS} `{AsyncRead TC}.
Context `{AsyncWrite T} `{AsyncWrite TS} `{AsyncWrite TC}.

Definition standard_poll_read : io (Std * ReadBuf) unit := fun sb =>
  let '(self, buf) := sb in
  match self with
  | Plain s => rewrap Plain (poll_read (s, buf))
  | RustlsServer s => rewrap RustlsServer (poll_read (s, buf))
  | RustlsClient s => rewrap RustlsClient (poll_read (s, buf))
  end.

Definition standard_poll_write (buf : list byte) : io Std nat := fun self =>
  match self with
  | Plain s => rewrap1 Plain (poll_write buf s)
  | RustlsServer s => rewrap1 RustlsServer (poll_write buf s)
  | RustlsClient s => rewrap1 RustlsClient (poll_write buf s)
  end.

Definition standard_poll_flush : io Std unit := fun self =>
  match self with
  | Plain s => rewrap1 Plain (poll_flush s)
  | RustlsServer s => rewrap1 RustlsServer (poll_flush s)
  | RustlsClient s => rewrap1 RustlsClient (poll_flush s)
  end.

Definition standard_poll_shutdown : io Std unit := fun self =>
  match self with
  | Plain s => rewrap1 Plain (poll_shutdown s)
  | RustlsServer s => rewrap1 RustlsServer (poll_shutdown s)
  | RustlsClient s => rewrap1 RustlsClient (poll_shutdown s)
  end.

#[export] Instance Standard_AsyncRead : AsyncRead Std := {
  poll_read := standard_poll_read;
  will_wake := fun self =>
    match self with
    | Plain s => will_wake s
    | RustlsServer s => will_wake s
    | RustlsClient s => will_wake s
    end
}.

#[export] Instance Standard_AsyncWrite : AsyncWrite Std := {
  poll_write := standard_poll_write;
  poll_flush := standard_poll_flush;
  poll_shutdown := standard_poll_shutdown
}.
End Polls.

(** ** The contracts pass through *)

#[export] Program Instance Standard_ByteSource
    `{ByteSource T} `{ByteSource TS} `{ByteSource TC} : ByteSource Std := {
  src_inv := fun self =>
    match self with
    | Plain s => src_inv s | RustlsServer s => src_inv s | RustlsClient s => src_inv s
    end;
  view := fun self =>
    match self with
    | Plain s => view s | RustlsServer s => view s | RustlsClient s => view s
    end;
  wakes := fun self =>
    match self with
    | Plain s => wakes s | RustlsServer s => wakes s | RustlsClient s => wakes s
    end
}.
Next Obligation.
  intros ? ? ? ? ? ? self b self' b' o Hi Hrem E. simpl in E. unfold standard_poll_read in E.
  destruct self as [s|s|s]; destruct (poll_read (s, b)) as [[s1 b1] o1] eqn:Ep;
    simpl in E; simplify_eq; exact (poll_read_view _ _ _ _ _ Hi Hrem Ep).
Qed.

#[export] Program Instance Standard_ByteSink
    `{ByteSink T} `{ByteSink TS} `{ByteSink TC} : ByteSink Std := {
  sink_inv := fun self =>
    match self with
    | Plain s => sink_inv s | RustlsServer s => sink_inv s | RustlsClient s => sink_inv s
    end;
  written := fun self =>
    match self with
    | Plain s => written s | RustlsServer s => written s | RustlsClient s => written s
    end;
  flushed := fun self =>
    match self with
    | Plain s => flushed s | RustlsServer s => flushed s | RustlsClient s => flushed s
    end
}.
Next Obligation.
  intros ? ? ? ? ? ? [s|s|s] Hi; exact (flushed_written _ Hi).
Qed.
Next Obligation.
  intros ? ? ? ? ? ? bs self self' o Hi Hne E. simpl in E. unfold standard_poll_write in E.
  destruct self as [s|s|s]; destruct (poll_write bs s) as [s1 o1] eqn:Ep;
    simpl in E; simplify_eq; exact (poll_write_written _ _ _ _ Hi Hne Ep).
Qed.
Next Obligation.
  intros ? ? ? ? ? ? self self' o Hi E. simpl in E. unfold standard_poll_flush in E.
  destruct self as [s|s|s]; destruct (poll_flush s) as [s1 o1] eqn:Ep;
    simpl in E; simplify_eq; exact (poll_flush_written _ _ _ Hi Ep).
Qed.

#[export] Program Instance Standard_ByteDuplex
    `{ByteDuplex T} `{ByteDuplex TS} `{ByteDuplex TC} : ByteDuplex Std := {}.
Next Obligation.
  intros. destruct t as [s|s|s]; simpl in *; unfold standard_poll_read in *;
    destruct (poll_read (s, b)) as [[s1 b1] o1] eqn:Ep; simpl in *; simplify_eq;
    eapply poll_read_frame; eauto.
Qed.
Next Obligation.
  intros. destruct t as [s|s|s]; simpl in *; unfold standard_poll_write in *;
    destruct (poll_write bs s) as [s1 o1] eqn:Ep; simpl in *; simplify_eq;
    eapply poll_write_frame; eauto.
Qed.
Next Obligation.
  intros. destruct t as [s|s|s]; simpl in *; unfold standard_poll_flush in *;
    destruct (poll_flush s) as [s1 o1] eqn:Ep; simpl in *; simplify_eq;
    eapply poll_flush_frame; eauto.
Qed.
End Delegation.

(** Two readers on which [accept] has the same outcome and leaves the same. *)
Definition accept_agrees {R1 R2} `{AsyncReadExt R1} `{!ByteSource R1}
    `{AsyncReadExt R2} `{!ByteSource R2} (secret : list byte) (r1 : R1) (r2 : R2) : Prop :=
  (accept secret r1).2 = (accept secret r2).2 /\
  view (accept secret r1).1 = view (accept secret r2).1.

Lemma accept_agrees_view {R1 R2} `{AsyncReadExt R1} `{!ByteSource R1}
    `{AsyncReadExt R2} `{!ByteSource R2} secret (r1 : R1) (r2 : R2) :
  src_inv r1 -> src_inv r2 -> view r1 = view r2 -> accept_agrees secret r1 r2.
Proof.
  intros Hi1 Hi2 Hv. destruct (refines_accept secret r1 Hi1) as (r1' & E1 & Hv1 & _).
  destruct (refines_accept secret r2 Hi2) as (r2' & E2 & Hv2 & _).
  unfold accept_agrees. rewrite E1, E2; simpl. by rewrite Hv1, Hv2, Hv.
Qed.

Section Transparency.
Context {T TS TC : Type}.
Context `{AsyncReadExt T} `{!ByteSource T}.
Context `{AsyncReadExt TS} `{!ByteSource TS}.
Context `{AsyncReadExt TC} `{!ByteSource TC}.
Context `{!AsyncReadExt (StandardTcpStream T TS TC)}.

(** The wrapper is transparent: accepting a Trojan connection through any of
    the three variants has the outcome, and leaves the bytes, of accepting it on
    the stream inside. *)
Theorem standard_accept_transparent secret (self : StandardTcpStream T TS TC) :
  src_inv self ->
  match self with
  | Plain s => accept_agrees secret self s
  | RustlsServer s => accept_agrees secret self s
  | RustlsClient s => accept_agrees secret self s
  end.
Proof. intros Hi. destruct self as [s|s|s]; by apply accept_agrees_view. Qed.
End Transparency.

#[export] Instance Standard_MeasuredRead {T TS TC}
    `{MeasuredRead T} `{MeasuredRead TS} `{MeasuredRead TC} :
  MeasuredRead (StandardTcpStream T TS TC).
Proof.
  refine {| poll_measure := fun self =>
    match self with
    | Plain s => poll_measure s
    | RustlsServer s => poll_measure s
    | RustlsClient s => poll_measure s
    end |}.
  - intros self b self' b' o E. simpl in E. unfold standard_poll_read in E.
    destruct self as [s|s|s]; destruct (poll_read (s, b)) as [[s1 b1] o1] eqn:Ep;
      simpl in E; simplify_eq; exact (poll_measure_le _ _ _ _ _ Ep).
  - intros self b self' b' E Hw. simpl in E. unfold standard_poll_read in E.
    destruct self as [s|s|s]; destruct (poll_read (s, b)) as [[s1 b1] o1] eqn:Ep;
      simpl in E; simplify_eq; exact (poll_measure_lt _ _ _ _ Ep Hw).
Defined.

#[export] Instance StdConn_AsyncReadExt : AsyncReadExt (StandardTcpStream Conn Conn Conn) :=
  measured_AsyncReadExt.

(** The writing methods of the wrapper, computed from those inside. *)
Definition standard_write {T TS TC} (f : forall W (aw : AsyncWrite W), AsyncWriteExt W -> io W unit)
    `{AsyncWriteExt T} `{AsyncWriteExt TS} `{AsyncWriteExt TC} :
    io (StandardTcpStream T TS TC) unit := fun self =>
  match self with
  | Plain s => rewrap1 Plain (f T _ _ s)
  | RustlsServer s => rewrap1 RustlsServer (f TS _ _ s)
  | RustlsClient s => rewrap1 RustlsClient (f TC _ _ s)
  end.

Definition standard_AsyncWriteExt {T TS TC}
    `{AsyncWriteExt T} `{AsyncWriteExt TS} `{AsyncWriteExt TC} :
  AsyncWriteExt (StandardTcpStream T TS TC).
Proof.
  refine {| write_all := fun bs => standard_write (fun W _ _ => write_all bs);
            write_u8 := fun b => standard_write (fun W _ _ => write_u8 b);
            write_u16 := fun z => standard_write (fun W _ _ => write_u16 z);
            flush := standard_write (fun W _ _ => flush) |}.
  - intros bs [s|s|s]; simpl; rewrite write_all_eq; destruct bs as [|b bs]; try done;
      unfold standard_poll_write; destruct (poll_write (b :: bs) s) as [s1 [[|n]|e|p|]]; done.
  - intros b [s|s|s]; simpl; by rewrite write_u8_eq.
  - intros z [s|s|s]; simpl; by rewrite write_u16_eq.
  - intros [s|s|s]; simpl; by rewrite flush_eq.
Defined.

#[export] Instance StdConn_AsyncWriteExt : AsyncWriteExt (StandardTcpStream Conn Conn Conn) :=
  standard_AsyncWriteExt.

Lemma standard_accept_transparent_witness :
  (accept demo_secret (RustlsServer (demo_conn demo_header)
                         : StandardTcpStream Conn Conn Conn)).2 =
  (accept demo_secret (demo_conn demo_header)).2.
Proof.
  exact (proj1 (standard_accept_transparent demo_secret
    (RustlsServer (demo_conn demo_header) : StandardTcpStream Conn Conn Conn)
    (demo_conn_inv demo_header))).
Defined.
