(* ===== verification/GrpcStream.v ===== *)
(** * The gRPC transport: src/transport/grpc_stream.rs

    [GrpcDataReaderStream] turns a stream of hunks into a byte stream;
    [GrpcHunkRequestStream] and [GrpcHunkResponseStream] turn a byte stream into
    a stream of hunks.  The stream of hunks itself is tonic's [Streaming], a
    parameter: the [Stream] class has its only method, [HunkSource] the contract
    that it delivers a sequence of hunks and then ends in one of three ways. *)

From Stdlib Require Import ZArith Lia.
From Stdlib Require Import Strings.Byte.
From stdpp Require Import base list strings numbers relations.
From S2P Require Import Prelude AsyncIo Conn Common Trojan.

#[local] Open Scope nat_scope.

(** The message of proto/transport.proto. *)
Record Hunk := mkHunk { hunk_data : list byte }.

(** The part of [tonic::Status] the sources use. *)
Inductive Status := Aborted (msg : string) | OtherStatus.

(** ** Streams of items *)

Inductive StreamPoll (I : Type) :=
| StreamPending
| StreamReady (item : option I)
| StreamPanic (msg : string).
Arguments StreamPending {I}.
Arguments StreamReady {I} item.
Arguments StreamPanic {I} msg.

(** [futures::Stream]; [stream_wakes_task] says, as [will_wake] does, whether a
    task that found the stream pending is woken again. *)
Class Stream (S I : Type) := {
  poll_next : S -> S * StreamPoll I;
  stream_wakes_task : S -> bool;
}.

(** ** The reader *)

Record GrpcDataReaderStream (S : Type) := mkGrpc { reader : S; buf : list byte }.
Arguments mkGrpc {S} reader buf.
Arguments reader {S} g.
Arguments buf {S} g.

Definition from_reader {S} (s : S) : GrpcDataReaderStream S := mkGrpc s [].

Definition read_failed : Error := mkError BrokenPipe "Failed to read".

Section Reader.
Context {S : Type} `{Stream S (Hunk + Status)}.
#[local] Abbreviation G := (GrpcDataReaderStream S).

(** [buf.put_slice(bs)] on the read buffer. *)
Definition buf_put (bs : list byte) : io (G * ReadBuf) unit := fun gb =>
  match put_slice gb.2 bs with
  | Ok b' => ((gb.1, b'), Ok tt)
  | Err e => (gb, Err e)
  | Panic p => (gb, Panic p)
  | Pending => (gb, Pending)
  end.

(** [self.buf.clear()], [self.buf.advance(n)] (which panics past the end) and
    [self.buf.put_slice(bs)]. *)
Definition self_clear : io (G * ReadBuf) unit := fun gb =>
  ((mkGrpc (reader gb.1) [], gb.2), Ok tt).
Definition self_advance (n : nat) : io (G * ReadBuf) unit := fun gb =>
  if n <=? length (buf gb.1)
  then ((mkGrpc (reader gb.1) (drop n (buf gb.1)), gb.2), Ok tt)
  else (gb, Panic "cannot advance past `remaining`").
Definition self_put (bs : list byte) : io (G * ReadBuf) unit := fun gb =>
  ((mkGrpc (reader gb.1) (buf gb.1 ++ bs), gb.2), Ok tt).

(** The first half of [poll_read]: hand out what is left of earlier hunks.
    [None] is the early return of the source, [Some b] the value of
    [has_new_data] when it goes on. *)
Definition drain_internal : io (G * ReadBuf) (option bool) := fun gb =>
  let '(self, b) := gb in
  if 0 <? length (buf self) then
    if length (buf self) <=? remaining b then
      (buf_put (buf self) ;;? self_clear ;;? io_ret (Some true)) gb
    else
      let read_len := remaining b in
      (let? part := io_lift (slice_to (buf self) read_len) in
       buf_put part ;;? self_advance read_len ;;? io_ret None) gb
  else io_ret (Some false) gb.

(** The second half: poll the hunk stream once and hand out the new hunk. *)
Definition poll_packet (has_new_data : bool) : io (G * ReadBuf) unit := fun gb =>
  let '(self, b) := gb in
  let '(reader', p) := poll_next (reader self) in
  let self' := mkGrpc reader' (buf self) in
  match p with
  | StreamPanic m => ((self', b), Panic m)
  | StreamPending => if has_new_data then ((self', b), Ok tt) else ((self', b), Pending)
  | StreamReady None => ((self', b), Err read_failed)
  | StreamReady (Some (inr _)) => ((self', b), Err read_failed)
  | StreamReady (Some (inl packet)) =>
      if length (hunk_data packet) <=? remaining b then
        buf_put (hunk_data packet) (self', b)
      else
        let rem := remaining b in
        (let? front := io_lift (slice_to (hunk_data packet) rem) in
         buf_put front ;;?
         let? back := io_lift (slice_from (hunk_data packet) rem) in
         self_put back) (self', b)
  end.

(** [<GrpcDataReaderStream<Hunk> as AsyncRead>::poll_read] *)
Definition grpc_poll_read : io (G * ReadBuf) unit :=
  let? drained := drain_internal in
  match drained with
  | None => io_ret tt
  | Some has_new_data => poll_packet has_new_data
  end.

#[export] Instance Grpc_AsyncRead : AsyncRead G := {
  poll_read := grpc_poll_read;
  will_wake := fun g => stream_wakes_task (reader g)
}.
End Reader.

(** ** The hunk streams *)

Section HunkStreams.
Context {T : Type} `{AsyncRead T}.

(** [GrpcHunkRequestStream::poll_next] on the inner reader. *)
Definition request_poll_next (inner : T) : T * StreamPoll Hunk :=
  match poll_read (inner, mkReadBuf 4096 []) with
  | ((inner', _), Pending) => (inner', StreamPending)
  | ((inner', _), Panic m) => (inner', StreamPanic m)
  | ((inner', _), Err _) => (inner', StreamReady None)
  | ((inner', read_buf), Ok _) => (inner', StreamReady (Some (mkHunk (filled read_buf))))
  end.

(** [GrpcHunkResponseStream::poll_next] on the inner reader. *)
Definition response_poll_next (inner : T) : T * StreamPoll (Hunk + Status) :=
  match poll_read (inner, mkReadBuf 4096 []) with
  | ((inner', _), Pending) => (inner', StreamPending)
  | ((inner', _), Panic m) => (inner', StreamPanic m)
  | ((inner', _), Err _) =>
      (inner', StreamReady (Some (inr (Aborted "Failed to poll the data"))))
  | ((inner', read_buf), Ok _) => (inner', StreamReady (Some (inl (mkHunk (filled read_buf)))))
  end.
End HunkStreams.

(** ** The contract of the hunk stream *)

Inductive hunk_end := Closed | Failed | Open.

Class HunkSource (S : Type) `{Stream S (Hunk + Status)} := {
  hunks_inv : S -> Prop;
  hunks : S -> list Hunk;
  hunks_end : S -> hunk_end;
  hunk_wakes : S -> nat;

  poll_next_hunks s s' p :
    hunks_inv s -> poll_next s = (s', p) ->
    hunks_inv s' /\ hunks_end s' = hunks_end s /\ hunk_wakes s' <= hunk_wakes s /\
    match p with
    | StreamPanic _ => False
    | StreamReady (Some (inl h)) => hunks s = h :: hunks s'
    | StreamReady (Some (inr _)) => hunks s = [] /\ hunks s' = [] /\ hunks_end s = Failed
    | StreamReady None => hunks s = [] /\ hunks s' = [] /\ hunks_end s = Closed
    | StreamPending =>
        hunks s' = hunks s /\
        if stream_wakes_task s' then hunk_wakes s' < hunk_wakes s
        else hunks s = [] /\ hunks_end s = Open
    end
}.

Definition hunk_bytes (hs : list Hunk) : list byte := mjoin (hunk_data <$> hs).

(** ** What a poll does, in one piece

    The reference: hand out the internal buffer; if there is room left, poll the
    hunk stream once and split the new hunk between the read buffer and the
    internal buffer. *)

Definition append (b : ReadBuf) (bs : list byte) : ReadBuf :=
  mkReadBuf (capacity b) (filled b ++ bs).

Definition grpc_poll_spec {S} `{Stream S (Hunk + Status)}
    (gb : GrpcDataReaderStream S * ReadBuf) :
    (GrpcDataReaderStream S * ReadBuf) * outcome unit :=
  let '(self, b) := gb in
  let n := remaining b in
  if n <? length (buf self) then
    ((mkGrpc (reader self) (drop n (buf self)), append b (take n (buf self))), Ok tt)
  else
    let b1 := append b (buf self) in
    let '(reader', p) := poll_next (reader self) in
    match p with
    | StreamPending =>
        ((mkGrpc reader' [], b1), if decide (buf self = []) then Pending else Ok tt)
    | StreamPanic m => ((mkGrpc reader' [], b1), Panic m)
    | StreamReady (Some (inl h)) =>
        let n1 := remaining b1 in
        ((mkGrpc reader' (drop n1 (hunk_data h)), append b1 (take n1 (hunk_data h))), Ok tt)
    | StreamReady _ => ((mkGrpc reader' [], b1), Err read_failed)
    end.

Section PollTheorems.
Context {S : Type} `{Stream S (Hunk + Status)}.
Implicit Types (self : GrpcDataReaderStream S) (b : ReadBuf).

Lemma append_nil b : append b [] = b.
Proof. destruct b. unfold append; simpl. by rewrite app_nil_r. Qed.

Lemma buf_put_ok bs self b :
  length bs <= remaining b -> buf_put bs (self, b) = ((self, append b bs), Ok tt).
Proof.
  intros Hle. unfold buf_put, put_slice. simpl.
  by destruct (Nat.leb_spec (length bs) (remaining b)); [|lia].
Qed.

Lemma drain_internal_spec self b :
  drain_internal (self, b) =
    if remaining b <? length (buf self) then
      ((mkGrpc (reader self) (drop (remaining b) (buf self)),
        append b (take (remaining b) (buf self))), Ok None)
    else ((mkGrpc (reader self) [], append b (buf self)),
          Ok (Some (bool_decide (buf self <> [])))).
Proof.
  unfold drain_internal.
  destruct (Nat.ltb_spec (remaining b) (length (buf self))) as [Hlt|Hge].
  - destruct (Nat.ltb_spec 0 (length (buf self))); [|lia].
    destruct (Nat.leb_spec (length (buf self)) (remaining b)); [lia|].
    rewrite slice_to_ok by lia. unfold io_bind, io_lift.
    rewrite buf_put_ok by (rewrite length_take; lia). unfold self_advance; simpl.
    by destruct (Nat.leb_spec (remaining b) (length (buf self))); [|lia].
  - destruct (Nat.ltb_spec 0 (length (buf self))) as [Hpos|Hz].
    + destruct (Nat.leb_spec (length (buf self)) (remaining b)); [|lia].
      unfold io_bind. rewrite buf_put_ok by lia. simpl.
      rewrite bool_decide_true; [done|]. by destruct (buf self); [simpl in *; lia|].
    + destruct self as [rd [|]]; simpl in *; [|lia]. by rewrite append_nil.
Qed.

Lemma poll_packet_spec new_data rd b :
  poll_packet new_data (mkGrpc rd [], b) =
    let '(reader', p) := poll_next rd in
    match p with
    | StreamPending =>
        ((mkGrpc reader' [], b), if new_data then Ok tt else Pending)
    | StreamPanic m => ((mkGrpc reader' [], b), Panic m)
    | StreamReady (Some (inl h)) =>
        ((mkGrpc reader' (drop (remaining b) (hunk_data h)),
          append b (take (remaining b) (hunk_data h))), Ok tt)
    | StreamReady _ => ((mkGrpc reader' [], b), Err read_failed)
    end.
Proof.
  unfold poll_packet; simpl. destruct (poll_next rd) as [rd' [|[[h|]|]|m]]; try done.
  - by destruct new_data.
  - destruct (Nat.leb_spec (length (hunk_data h)) (remaining b)) as [Hle|Hgt].
    + rewrite buf_put_ok, take_ge, drop_ge by lia. done.
    + unfold io_bind, io_lift. rewrite slice_to_ok by lia.
      rewrite buf_put_ok by (rewrite length_take; lia).
      by rewrite slice_from_ok by lia.
Qed.

Lemma poll_read_steps self b : grpc_poll_read (self, b) = grpc_poll_spec (self, b).
Proof.
  unfold grpc_poll_read, grpc_poll_spec, io_bind at 1. rewrite drain_internal_spec.
  destruct (Nat.ltb_spec (remaining b) (length (buf self))); [done|].
  rewrite poll_packet_spec.
  destruct (poll_next (reader self)) as [rd' [|[[h|]|]|m]]; try done.
  case_bool_decide; case_decide; done.
Qed.

(** C27: [poll_read] of the gRPC reader does exactly what the reference says, on
    every stream, every internal buffer and every read buffer; in particular
    none of its slices and buffer operations can panic. *)
Theorem grpc_poll_read_spec self b : grpc_poll_read (self, b) = grpc_poll_spec (self, b).
Proof. apply poll_read_steps. Qed.
End PollTheorems.

(** ** The reader as a byte stream *)

Section ByteStream.
Context {S : Type} `{HunkSource S}.
#[local] Abbreviation G := (GrpcDataReaderStream S).
Implicit Types (self : G) (b : ReadBuf).

(** What is still to be read: the internal buffer and the hunks to come. *)
Definition grpc_bytes (self : G) : list byte :=
  buf self ++ hunk_bytes (hunks (reader self)).

Lemma poll_conserves self b self' b' o :
  hunks_inv (reader self) -> poll_read (self, b) = ((self', b'), o) ->
  is_panic o = false /\ hunks_inv (reader self') /\
  exists bs, b' = append b bs /\ length bs <= remaining b /\
             grpc_bytes self = bs ++ grpc_bytes self'.
Proof.
  intros Hi E. change (poll_read (self, b)) with (grpc_poll_read (self, b)) in E.
  rewrite poll_read_steps in E. unfold grpc_poll_spec, grpc_bytes in *.
  destruct (Nat.ltb_spec (remaining b) (length (buf self))) as [Hlt|Hge].
  { simplify_eq; simpl. split_and!; [done..|]. exists (take (remaining b) (buf self)).
    split_and!; [done|rewrite length_take; lia|]. by rewrite app_assoc, take_drop. }
  destruct (poll_next (reader self)) as [rd' p] eqn:Ep.
  destruct (poll_next_hunks _ _ _ Hi Ep) as (Hi' & _ & _ & Hp).
  assert (Hr : remaining (append b (buf self)) = remaining b - length (buf self)).
  { unfold remaining, append; simpl. rewrite length_app. lia. }
  destruct p as [|[[h|]|]|m]; simplify_eq; simpl; try done.
  - split_and!; [by case_decide|done|]. exists (buf self). destruct Hp as [Hp _].
    rewrite Hp. by split_and!.
  - split_and!; [done..|].
    exists (buf self ++ take (remaining (append b (buf self))) (hunk_data h)). split_and!.
    + unfold append; simpl. by rewrite app_assoc.
    + rewrite length_app, length_take, Hr. lia.
    + rewrite Hp. unfold hunk_bytes; simpl.
      by rewrite <- (app_assoc (buf self)), (app_assoc (take _ _)), take_drop.
  - destruct Hp as (-> & Hp & _). split_and!; [done..|]. exists (buf self). rewrite Hp. done.
  - destruct Hp as (-> & Hp & _). split_and!; [done..|]. exists (buf self). rewrite Hp. done.
Qed.

(** C28: no byte is lost, duplicated or reordered by a poll: what it puts into
    the read buffer is the front of what was to be read, and what is to be read
    afterwards is the rest; it stays within the room of the read buffer and does
    not panic. *)
Theorem grpc_poll_conserves self b self' b' o :
  hunks_inv (reader self) -> poll_read (self, b) = ((self', b'), o) ->
  is_panic o = false /\ hunks_inv (reader self') /\
  exists bs, b' = append b bs /\ length bs <= remaining b /\
             grpc_bytes self = bs ++ grpc_bytes self'.
Proof. apply poll_conserves. Qed.

Lemma append_same b bs : append b bs = b -> bs = [].
Proof.
  destruct b as [c f]. intros [= Hf]. apply (f_equal length) in Hf.
  rewrite length_app in Hf. destruct bs; [done|simpl in Hf; lia].
Qed.

(** The next poll of a pending stream is paid for by a wake. *)
Lemma poll_wakes self b self' b' o :
  hunks_inv (reader self) -> poll_read (self, b) = ((self', b'), o) ->
  hunk_wakes (reader self') <= hunk_wakes (reader self) /\
  (o = Pending -> b' = b /\
     (will_wake self' = true -> hunk_wakes (reader self') < hunk_wakes (reader self))).
Proof.
  intros Hi E. change (poll_read (self, b)) with (grpc_poll_read (self, b)) in E.
  rewrite poll_read_steps in E. unfold grpc_poll_spec in E.
  destruct (Nat.ltb_spec (remaining b) (length (buf self))) as [Hlt|Hge]; [by simplify_eq|].
  destruct (poll_next (reader self)) as [rd' p] eqn:Ep.
  destruct (poll_next_hunks _ _ _ Hi Ep) as (_ & _ & Hw & Hp).
  destruct p as [|[[h|]|]|m]; simplify_eq; simpl; (split; [done|]); try done.
  case_decide as Hb; [|done]. intros _. rewrite Hb, append_nil. split; [done|].
  intros Hwake. destruct Hp as [_ Hp]. by rewrite Hwake in Hp.
Qed.

(** On every hunk stream, empty hunks and early ends included, the reader hands
    out only bytes of the hunks, in order. *)
#[export] Program Instance Grpc_ByteFeed : ByteFeed G := {
  feed_inv := fun self => hunks_inv (reader self);
  feed := grpc_bytes;
  feed_wakes := fun self => hunk_wakes (reader self)
}.
Next Obligation.
  intros self b self' b' o Hi Hrem E.
  destruct (poll_conserves _ _ _ _ _ Hi E) as (_ & Hi' & bs & -> & Hlen & Hd).
  destruct (poll_wakes _ _ _ _ _ Hi E) as [Hw Hp]. split_and!; [done|done|].
  destruct o as [[]|e|p|]; try done.
  - by exists bs.
  - destruct (Hp eq_refl) as [->%append_same Hlt]. by split.
Qed.

(** The condition under which the reader is a lawful byte stream: the peer sends
    no empty hunk and keeps the stream open. *)
Definition grpc_ok (self : G) : Prop :=
  hunks_inv (reader self) /\ hunks_end (reader self) = Open /\
  Forall (fun h => hunk_data h <> []) (hunks (reader self)).

Lemma grpc_poll_ok self b self' b' o :
  grpc_ok self -> 0 < remaining b -> poll_read (self, b) = ((self', b'), o) ->
  grpc_ok self' /\ hunk_wakes (reader self') <= hunk_wakes (reader self) /\
  match o with
  | Ok _ => b' <> b
  | Pending => b' = b /\
      if will_wake self' then hunk_wakes (reader self') < hunk_wakes (reader self)
      else grpc_bytes self = []
  | _ => False
  end.
Proof.
  intros (Hi & He & Hne) Hrem E.
  change (poll_read (self, b)) with (grpc_poll_read (self, b)) in E.
  rewrite poll_read_steps in E. unfold grpc_poll_spec in E.
  destruct (Nat.ltb_spec (remaining b) (length (buf self))) as [Hlt|Hge].
  { simplify_eq; simpl. split_and!; [done|lia|]. intros Hb%append_same.
    apply (f_equal length) in Hb. rewrite length_take in Hb. simpl in Hb. lia. }
  destruct (poll_next (reader self)) as [rd' p] eqn:Ep.
  destruct (poll_next_hunks _ _ _ Hi Ep) as (Hi' & He' & Hw & Hp).
  destruct p as [|[[h|]|]|m]; simplify_eq; simpl; unfold grpc_ok, grpc_bytes; simpl; try done.
  - destruct Hp as [Hh Hp]. rewrite Hh, He'. split_and!; [done..|].
    case_decide as Hb; [|by intros ?%append_same]. rewrite Hb, append_nil. split; [done|].
    destruct (stream_wakes_task rd'); [done|]. destruct Hp as [-> _]. done.
  - rewrite Hp in Hne. apply Forall_cons in Hne as [Hh Hne]. split_and!; try done; [congruence|].
    intros Hf. apply (f_equal (fun x => length (filled x))) in Hf.
    unfold append, remaining in *; simpl in *.
    repeat (rewrite ?length_app, ?length_take in Hf).
    destruct (hunk_data h); simpl in *; [done|lia].
  - destruct Hp as (_ & _ & Hp). congruence.
  - destruct Hp as (_ & _ & Hp). congruence.
Qed.

#[export] Program Instance Grpc_ByteSource : ByteSource G := {
  src_inv := grpc_ok;
  view := fun self => mkSource (grpc_bytes self) Stalled;
  wakes := fun self => hunk_wakes (reader self)
}.
Next Obligation.
  intros self b self' b' o Hi Hrem E.
  destruct (grpc_poll_ok _ _ _ _ _ Hi Hrem E) as (Hi' & Hw & Ho).
  destruct (poll_conserves _ _ _ _ _ (proj1 Hi) E) as (_ & _ & bs & -> & Hlen & Hd).
  split_and!; [done|done|done|]. exists bs. split_and!; [done|done|done|]. simpl.
  destruct o as [[]|e|p|]; try done.
  - intros ->. by rewrite append_nil in Ho.
  - destruct Ho as [Hb Ho]. apply append_same in Hb. split; [done|].
    simpl in Ho. by destruct (stream_wakes_task (reader self')); [|split].
Qed.
End ByteStream.

Section ReaderTheorems.
Context {S : Type} `{HunkSource S} `{!AsyncReadExt (GrpcDataReaderStream S)}.
Implicit Types self : GrpcDataReaderStream S.

(** C29: the gRPC transport refines the byte stream of the hunk contents: however
    a Trojan header and its payload are cut into hunks, as long as the stream is
    open and no hunk is empty, the parser run on the gRPC reader returns the
    encoded request and leaves exactly the payload to be read. *)
Theorem grpc_parse_refines self hex sep1 cmd a p sep2 rest :
  grpc_ok self ->
  length hex = HEX_SIZE -> length sep1 = 2 -> length sep2 = 2 ->
  addr_ok a -> u16_ok p ->
  grpc_bytes self = wire_header hex sep1 cmd a p sep2 ++ rest ->
  exists self', parse self = (self', Ok (mkRequest hex cmd (atype_of a) a p TROJAN)) /\
                grpc_bytes self' = rest /\ grpc_ok self'.
Proof.
  intros Hi Hh H1' H2' Ha Hp Hd. change (grpc_ok self) with (src_inv self) in Hi.
  change (grpc_bytes self) with (data (view self)) in Hd.
  destruct (reads_lawful _ _ _ _ self rest refines_parse
              (reads_parse _ _ _ _ _ _ Hh H1' H2' Ha Hp) Hi Hd) as (self' & E & Hv & Hi').
  exists self'. split_and!; [done| |done]. by injection Hv.
Qed.

(** C39: bytes already received are lost when the peer closes: if the internal
    buffer holds exactly the bytes a read asks for and the hunk stream has ended
    or failed, the poll copies them into the read buffer and then reports
    [BrokenPipe] all the same, so the exact read fails and the bytes are gone. *)
Theorem grpc_tail_lost self rd' item :
  buf self <> [] -> poll_next (reader self) = (rd', StreamReady item) ->
  (forall h, item <> Some (inl h)) ->
  read_exact (length (buf self)) self = (mkGrpc rd' [], Err read_failed).
Proof.
  intros Hb Ep Hitem. rewrite read_exact_eq.
  destruct (Nat.eqb_spec (length (buf self)) 0) as [Hz|_].
  { by apply nil_length_inv in Hz. }
  change (poll_read (R:=GrpcDataReaderStream S)) with (grpc_poll_read (S:=S)).
  rewrite poll_read_steps. unfold grpc_poll_spec, remaining at 1; simpl.
  destruct (Nat.ltb_spec (length (buf self) - 0) (length (buf self))); [lia|].
  rewrite Ep. destruct item as [[h|st]|]; [by destruct (Hitem h)|done|done].
Qed.

(** An empty hunk is taken for the end of the stream: with nothing buffered,
    an exact read that meets an empty hunk fails with the end-of-file error,
    whatever the hunks behind it hold. *)
Theorem grpc_empty_hunk_is_eof self rd' n :
  buf self = [] -> poll_next (reader self) = (rd', StreamReady (Some (inl (mkHunk [])))) ->
  0 < n -> read_exact n self = (mkGrpc rd' [], Err eof_error).
Proof.
  intros Hb Ep Hn. rewrite read_exact_eq. destruct (Nat.eqb_spec n 0); [lia|].
  change (poll_read (R:=GrpcDataReaderStream S)) with (grpc_poll_read (S:=S)).
  rewrite poll_read_steps. unfold grpc_poll_spec. rewrite Hb, Ep; simpl.
  by rewrite drop_nil, take_nil.
Qed.
End ReaderTheorems.

Section HunkStreamTheorems.
Context {T : Type} `{AsyncRead T} `{!ByteSource T}.

(** The hunk streams cut the bytes of their inner reader into hunks of at most
    4096 bytes in order; an empty hunk means the reader is at its end, which the
    request stream reports that way again on every poll; a broken reader ends the
    request stream and is an aborted status in the response stream. *)
Theorem hunk_streams_chunk inner inner' p :
  src_inv inner -> request_poll_next inner = (inner', p) ->
  src_inv inner' /\
  match p with
  | StreamReady (Some h) =>
      response_poll_next inner = (inner', StreamReady (Some (inl h))) /\
      length (hunk_data h) <= 4096 /\
      data (view inner) = hunk_data h ++ data (view inner') /\
      (hunk_data h = [] -> data (view inner) = [] /\ view inner' = mkSource [] Eof)
  | StreamReady None =>
      response_poll_next inner =
        (inner', StreamReady (Some (inr (Aborted "Failed to poll the data")))) /\
      data (view inner) = [] /\ exists e, fin (view inner) = Broken e
  | StreamPending => response_poll_next inner = (inner', StreamPending)
  | StreamPanic _ => False
  end.
Proof.
  intros Hi. unfold request_poll_next, response_poll_next.
  destruct (poll_read (inner, mkReadBuf 4096 [])) as [[i b] o] eqn:Ep.
  assert (Hrem : 0 < remaining (mkReadBuf 4096 [])) by (unfold remaining; simpl; lia).
  pose proof (poll_read_view _ _ _ _ _ Hi Hrem Ep) as (Hi' & Hf & _ & bs & -> & Hl & Hd & Ho).
  unfold remaining in Hl; cbn [capacity filled app length] in *.
  destruct o as [[]|e|m|]; intros E; simplify_eq; try done.
  - split_and!; [done|done|cbn [hunk_data]; lia|done|]. cbn [hunk_data]. intros ->.
    destruct (Ho eq_refl) as [Hd' He]. split; [done|].
    destruct (view inner'); simpl in *. congruence.
  - destruct Ho as [Hd' He]. split_and!; [done..|]. eauto.
Qed.
End HunkStreamTheorems.

(** ** A concrete hunk stream *)

(** The items to come ([None] for a moment at which nothing is ready). *)
Record HunkScript := mkScript { script : list (option Hunk); script_end : hunk_end }.

Definition script_poll_next (s : HunkScript) : HunkScript * StreamPoll (Hunk + Status) :=
  match script s with
  | Some h :: evs => (mkScript evs (script_end s), StreamReady (Some (inl h)))
  | None :: evs => (mkScript evs (script_end s), StreamPending)
  | [] =>
      match script_end s with
      | Closed => (s, StreamReady None)
      | Failed => (s, StreamReady (Some (inr OtherStatus)))
      | Open => (s, StreamPending)
      end
  end.

#[export] Instance HunkScript_Stream : Stream HunkScript (Hunk + Status) := {
  poll_next := script_poll_next;
  stream_wakes_task := fun s =>
    match script s, script_end s with [], Open => false | _, _ => true end
}.

#[export] Program Instance HunkScript_HunkSource : HunkSource HunkScript := {
  hunks_inv := fun _ => True;
  hunks := fun s => omap id (script s);
  hunks_end := script_end;
  hunk_wakes := fun s => length (script s)
}.
Next Obligation.
  intros [evs e] s' p _. simpl. unfold script_poll_next; simpl.
  destruct evs as [|[h|] evs]; [destruct e| |]; intros ?; simplify_eq; simpl;
    split_and!; try done; try lia. destruct evs, e; simpl; done || lia.
Qed.

#[export] Program Instance GrpcScript_Measured : MeasuredRead (GrpcDataReaderStream HunkScript) := {
  poll_measure := fun g => length (script (reader g))
}.
Next Obligation.
  intros [[evs e] bf] b g' b' o E.
  change (poll_read (?g, b)) with (grpc_poll_read (g, b)) in E.
  rewrite poll_read_steps in E. unfold grpc_poll_spec in E; simpl in *.
  unfold script_poll_next in E; simpl in E.
  destruct (_ <? _); [|destruct evs as [|[h|] evs]; [destruct e| |]];
    simplify_eq; simpl; lia.
Qed.
Next Obligation.
  intros [[evs e] bf] b g' b' E Hw.
  change (poll_read (?g, b)) with (grpc_poll_read (g, b)) in E.
  rewrite poll_read_steps in E. unfold grpc_poll_spec in E; simpl in *.
  unfold script_poll_next in E; simpl in E.
  destruct (_ <? _); [|destruct evs as [|[h|] evs]; [destruct e| |]];
    simplify_eq; simpl in *; done || lia.
Qed.

#[export] Instance GrpcScript_AsyncReadExt : AsyncReadExt (GrpcDataReaderStream HunkScript) :=
  measured_AsyncReadExt.

(** ** Witnesses *)

(** The demonstration header cut into hunks of seven bytes, with pauses. *)
Definition demo_hunks : list (option Hunk) :=
  [Some (mkHunk (take 7 demo_header)); None; Some (mkHunk (drop 7 demo_header ++ [x41])); None].

Definition demo_grpc : GrpcDataReaderStream HunkScript :=
  from_reader (mkScript demo_hunks Open).

Lemma demo_grpc_ok : grpc_ok demo_grpc.
Proof.
  split_and!; [done|done|]. repeat constructor; discriminate.
Qed.

Lemma grpc_poll_conserves_witness :
  is_panic (poll_read (demo_grpc, mkReadBuf 3 [])).2 = false.
Proof.
  refine (proj1 (grpc_poll_conserves demo_grpc (mkReadBuf 3 [])
    (poll_read (demo_grpc, mkReadBuf 3 [])).1.1 (poll_read (demo_grpc, mkReadBuf 3 [])).1.2
    (poll_read (demo_grpc, mkReadBuf 3 [])).2 I _)).
  vm_compute. reflexivity.
Defined.

Lemma grpc_parse_refines_witness :
  exists self', parse demo_grpc =
    (self', Ok (mkRequest demo_secret Udp DomainName (Domain demo_domain) 53 TROJAN)).
Proof.
  destruct (grpc_parse_refines demo_grpc
    demo_secret [x0d; x0a] Udp (Domain demo_domain) 53%Z [x0d; x0a] [x41]) as (self' & E & _).
  - apply demo_grpc_ok.
  - apply demo_header_sizes.
  - reflexivity.
  - reflexivity.
  - apply demo_header_sizes.
  - apply demo_header_sizes.
  - vm_compute. reflexivity.
  - exists self'. exact E.
Defined.

(** Three bytes buffered, the peer gone: reading three bytes fails. *)
Lemma grpc_tail_lost_witness :
  read_exact 3 (mkGrpc (mkScript [] Closed) [x47; x45; x54]) =
    (mkGrpc (mkScript [] Closed) [], Err read_failed).
Proof.
  refine (grpc_tail_lost (mkGrpc (mkScript [] Closed) [x47; x45; x54])
            (mkScript [] Closed) None _ _ _).
  - discriminate.
  - reflexivity.
  - discriminate.
Defined.

Lemma grpc_empty_hunk_is_eof_witness :
  read_exact 2 (from_reader (mkScript [Some (mkHunk []); Some (mkHunk [x41; x42])] Open)) =
    (from_reader (mkScript [Some (mkHunk [x41; x42])] Open), Err eof_error).
Proof.
  refine (grpc_empty_hunk_is_eof
    (from_reader (mkScript [Some (mkHunk []); Some (mkHunk [x41; x42])] Open))
    (mkScript [Some (mkHunk [x41; x42])] Open) 2 _ _ _).
  - reflexivity.
  - reflexivity.
  - lia.
Defined.

Lemma hunk_streams_chunk_witness :
  src_inv (request_poll_next (demo_conn [x41; x42])).1.
Proof.
  refine (proj1 (hunk_streams_chunk (demo_conn [x41; x42])
    (request_poll_next (demo_conn [x41; x42])).1 (request_poll_next (demo_conn [x41; x42])).2
    (demo_conn_inv _) _)).
  apply surjective_pairing.
Defined.
