(* ===== verification/Packet.v ===== *)
(** * UDP over Trojan: src/protocol/trojan/packet.rs

    The six relay loops of the file, each as its loop body and the loop over it,
    and what they do to whole sequences of packets.  The UDP socket and the
    channel sender are tokio's: classes with the documented contracts. *)

From Stdlib Require Import ZArith Lia.
From Stdlib Require Import Strings.Byte.
From stdpp Require Import base list strings numbers relations.
From S2P Require Import Prelude AsyncIo Conn Cursor Relay Common Trojan GrpcStream.

#[local] Open Scope nat_scope.

(** ** The UDP socket *)

(** [send_to] sends one datagram; [recv_from] and [recv] receive one datagram
    into a buffer of [n] bytes. *)
Class UdpSocket (U : Type) := {
  send_to : list byte -> SocketAddr -> io U nat;
  recv_from : nat -> io U (list byte * SocketAddr);
  recv : nat -> io U (list byte);
}.

(** The contract: the datagrams sent so far in order; a datagram received is
    truncated to the buffer. *)
Class UdpLawful (U : Type) `{UdpSocket U} := {
  sent : U -> list (list byte * SocketAddr);
  send_to_sent bs a u u' o :
    send_to bs a u = (u', o) ->
    is_panic o = false /\
    sent u' = if is_ok o then sent u ++ [(bs, a)] else sent u;
  recv_from_sent n u u' o :
    recv_from n u = (u', o) ->
    is_panic o = false /\ sent u' = sent u /\
    forall d, o = Ok d -> length d.1 <= n;
  recv_sent n u u' o :
    recv n u = (u', o) ->
    is_panic o = false /\ sent u' = sent u /\
    forall bs, o = Ok bs -> length bs <= n;
}.

(** What a socket receives: the datagrams still to arrive, in the order in which
    they are handed out.  A datagram that does not fit the buffer is cut to it;
    sending, and a receive that fails, take none. *)
Class UdpReceives (U : Type) `{UdpLawful U} := {
  arriving : U -> list (list byte * SocketAddr);
  send_to_arriving bs a u u' o : send_to bs a u = (u', o) -> arriving u' = arriving u;
  recv_from_arriving n u u' o :
    recv_from n u = (u', o) ->
    match o with
    | Ok d => exists whole, arriving u = (whole, d.2) :: arriving u' /\ d.1 = take n whole
    | _ => arriving u' = arriving u
    end;
  recv_arriving n u u' o :
    recv n u = (u', o) ->
    match o with
    | Ok bs => exists whole from, arriving u = (whole, from) :: arriving u' /\ bs = take n whole
    | _ => arriving u' = arriving u
    end;
}.

(** ** The channel sender *)

(** [tokio::sync::mpsc::Sender::send]: an error when the receiver is gone. *)
Class Sender (C I : Type) := { send : I -> io C unit }.

(** The contract: the items accepted so far in order. *)
Class SenderLawful (C I : Type) `{Sender C I} := {
  queued : C -> list I;
  send_queued i c c' o :
    send i c = (c', o) ->
    is_panic o = false /\ queued c' = if is_ok o then queued c ++ [i] else queued c;
}.

(** ** packet.rs *)

Definition BUF_SIZE : nat := 4096.

(** [vec![0u8; BUF_SIZE]] *)
Definition zeroed (n : nat) : list byte := replicate n x00.

Section Loops.
Context {R U W C : Type}.
Context `{AsyncReadExt R} `{UdpSocket U} `{AsyncWriteExt W} `{Sender C Hunk}.
Context `{Resolver}.

(** [copy_client_reader_to_udp_socket]: one iteration. *)
Definition client_to_udp_body : io (R * U) (flow unit) :=
  let? header := on_fst parse_udp in
  (if payload_size header <=? BUF_SIZE then io_ret tt
   else io_panic "Payload size exceeds read buffer size") ;;?
  io_lift (slice_to (zeroed BUF_SIZE) (payload_size header)) ;;?
  let? read := on_fst (read_exact (payload_size header)) in
  (if length read =? payload_size header then io_ret tt
   else io_panic "Failed to read the entire trojan udp packet") ;;?
  on_snd (send_to read (dest header)) ;;?
  io_ret Continue.

Definition copy_client_reader_to_udp_socket (fuel : nat) : R * U -> (R * U) * exit unit :=
  loop fuel client_to_udp_body.

(** [copy_udp_socket_to_client_writer]: one iteration. *)
Definition udp_to_client_body (addr : IpAddrPort) : io (U * W) (flow unit) :=
  let? received := on_fst (recv_from BUF_SIZE) in
  let size := length received.1 in
  match ip addr with
  | IpAddr_ (V4 a) =>
      on_snd (write_u8 (Atype_as_u8 IPv4)) ;;?
      on_snd (write_all (octets (V4 a)))
  | IpAddr_ (V6 a) =>
      on_snd (write_u8 (Atype_as_u8 IPv6)) ;;?
      on_snd (write_all (octets (V6 a)))
  | Domain domain =>
      on_snd (write_u8 (Atype_as_u8 DomainName)) ;;?
      on_snd (write_u8 (as_u8 (Z.of_nat (length domain)))) ;;?
      on_snd (write_all domain)
  end ;;?
  on_snd (write_u16 (port addr)) ;;?
  on_snd (write_u16 (as_u16 (Z.of_nat size))) ;;?
  on_snd (write_u16 CRLF) ;;?
  on_snd (write_all received.1) ;;?
  on_snd flush ;;?
  io_ret Continue.

Definition copy_udp_socket_to_client_writer (addr : IpAddrPort) (fuel : nat) :
    U * W -> (U * W) * exit unit :=
  loop fuel (udp_to_client_body addr).

(** The address and length fields as the client side writes them. *)
Definition write_packet_header (request : InboundRequest) (size : nat) : io W unit :=
  write_u8 (Atype_as_u8 (atype request)) ;;?
  match ip (addr_port request) with
  | IpAddr_ (V4 addr) => write_all (octets (V4 addr))
  | IpAddr_ (V6 addr) => write_all (octets (V6 addr))
  | Domain domain =>
      write_u8 (as_u8 (Z.of_nat (length domain))) ;;?
      write_all domain
  end ;;?
  write_u16 (port (addr_port request)) ;;?
  write_u16 (as_u16 (Z.of_nat size)) ;;?
  write_u16 CRLF.

(** [copy_client_reader_to_udp_server_writer]: one iteration. *)
Definition client_to_server_body (request : InboundRequest) : io (R * W) (flow unit) :=
  let? read := on_fst (read BUF_SIZE) in
  on_snd (write_packet_header request (length read)) ;;?
  on_snd (write_all read) ;;?
  on_snd flush ;;?
  io_ret Continue.

Definition copy_client_reader_to_udp_server_writer (request : InboundRequest) (fuel : nat) :
    R * W -> (R * W) * exit unit :=
  loop fuel (client_to_server_body request).

(** [copy_udp_server_reader_to_client_writer]: one iteration. *)
Definition server_to_client_body : io (R * W) (flow unit) :=
  let? header := on_fst parse_udp in
  io_lift (slice_to (zeroed BUF_SIZE) (payload_size header)) ;;?
  let? read := on_fst (read_exact (payload_size header)) in
  on_snd (write_all read) ;;?
  io_ret Continue.

Definition copy_udp_server_reader_to_client_writer (fuel : nat) :
    R * W -> (R * W) * exit unit :=
  loop fuel server_to_client_body.
End Loops.

Section GrpcLoops.
Context {R C S W : Type}.
Context `{AsyncReadExt R} `{Sender C Hunk} `{AsyncWriteExt W} `{Resolver}.
Context `{Stream S (Hunk + Status)} `{!AsyncReadExt (GrpcDataReaderStream S)}.

Definition send_failed : Error := mkError ConnectionReset "Failed to send GRPC packet".

(** [if let Err(_) = server_writer.send(..).await { return Err(..) }] *)
Definition send_hunk (data : list byte) : io C unit :=
  io_map_err (fun _ => send_failed) (send (mkHunk data)).

(** The header serialised into a cursor and cut at its position. *)
Definition packet_header_vec (request : InboundRequest) (n : nat) : outcome (list byte) :=
  let '(cursor, o) := write_packet_header request n (Cursor_new 512) in
  outcome_map (fun _ => truncate (position cursor) (inner cursor)) o.

(** [copy_client_reader_to_server_grpc_writer]: one iteration. *)
Definition client_to_grpc_body (request : InboundRequest) : io (R * C) (flow unit) :=
  let? read_buf := on_fst (read BUF_SIZE) in
  let? header := io_lift (packet_header_vec request (length read_buf)) in
  on_snd (send_hunk header) ;;?
  on_snd (send_hunk read_buf) ;;?
  io_ret Continue.

Definition copy_client_reader_to_server_grpc_writer (request : InboundRequest) (fuel : nat) :
    R * C -> (R * C) * exit unit :=
  loop fuel (client_to_grpc_body request).

(** [copy_server_grpc_reader_to_client_writer]: the hunk stream is wrapped into a
    byte stream first. *)
Definition copy_server_grpc_reader_to_client_writer (fuel : nat) (sw : S * W) :
    (GrpcDataReaderStream S * W) * exit unit :=
  loop fuel server_to_client_body (from_reader sw.1, sw.2).
End GrpcLoops.

(** ** The packet format *)

(** A packet to or from [pk_addr]:[pk_port] carrying [pk_payload]. *)
Record packet := mkPacket { pk_addr : IpAddress; pk_port : Z; pk_payload : list byte }.

Definition udp_header_bytes (a : IpAddress) (p n : Z) (sep : list byte) : list byte :=
  [Atype_as_u8 (atype_of a)] ++ wire_addr a ++ be_bytes 2 p ++ be_bytes 2 n ++ sep.

Definition packet_bytes (k : packet) : list byte :=
  udp_header_bytes (pk_addr k) (pk_port k) (Z.of_nat (length (pk_payload k))) (be_bytes 2 CRLF)
  ++ pk_payload k.

Definition packets_bytes (ks : list packet) : list byte := mjoin (packet_bytes <$> ks).

Definition packet_ok (k : packet) : Prop :=
  addr_ok (pk_addr k) /\ u16_ok (pk_port k) /\ length (pk_payload k) <= BUF_SIZE.

(** [k] resolves to the destination [d]. *)
Definition resolves `{Resolver} (k : packet) (d : SocketAddr) : Prop :=
  IpAddrPort_into (mkIpAddrPort (pk_addr k) (pk_port k)) = Ok d.

(** ** The packet header parser *)

Section HeaderLemmas.
Context `{Resolver}.

Lemma consumes_parse_udp a p n sep :
  addr_ok a -> u16_ok p -> u16_ok n -> length sep = 2 ->
  consumes parse_udp (udp_header_bytes a p n sep)
    (outcome_map (fun d => mkUdpHeader (atype_of a) d (Z.to_nat n))
       (IpAddrPort_into (mkIpAddrPort a p))).
Proof.
  intros Ha Hp Hn Hs. unfold parse_udp, udp_header_bytes.
  eapply consumes_bind; [apply reads_u8|]. eapply consumes_lift; [apply Atype_from_as_u8|].
  eapply consumes_bind; [by apply reads_wire_addr|].
  eapply consumes_bind; [apply reads_u16, length_be_bytes|].
  eapply consumes_bind; [apply reads_u16, length_be_bytes|].
  rewrite <- (app_nil_r sep). eapply consumes_bind; [by apply reads_u16|].
  rewrite !be_val_be_bytes_small by assumption. apply consumes_finish.
Qed.

Lemma parse_udp_end e : parse_udp (mkSource [] e) = (mkSource [] e, short_read e).
Proof. by destruct e. Qed.

Context {R : Type} `{AsyncReadExt R} `{!ByteSource R}.

Lemma refines_parse_udp : refines (parse_udp : io R _) parse_udp.
Proof.
  unfold parse_udp. repeat (apply refines_bind; [|intros ?]);
    auto using refines_address with refines.
Qed.

(** The header of a packet in front of the stream. *)
Lemma parse_udp_packet (r : R) k d rest :
  src_inv r -> packet_ok k -> resolves k d -> data (view r) = packet_bytes k ++ rest ->
  exists r', parse_udp r =
      (r', Ok (mkUdpHeader (atype_of (pk_addr k)) d (length (pk_payload k)))) /\
    view r' = mkSource (pk_payload k ++ rest) (fin (view r)) /\ src_inv r'.
Proof.
  intros Hr (Ha & Hp & Hl) Hd Hdata. unfold packet_bytes in Hdata. rewrite <- app_assoc in Hdata.
  unfold BUF_SIZE in Hl.
  assert (Hn : u16_ok (Z.of_nat (length (pk_payload k)))) by (unfold u16_ok; lia).
  destruct (consumes_lawful _ _ _ _ r _ refines_parse_udp
    (consumes_parse_udp _ _ _ _ Ha Hp Hn (length_be_bytes 2 CRLF)) Hr Hdata) as (r' & E & Hv & Hi).
  rewrite Hd, Nat2Z.id in E. simpl in E. eauto.
Qed.

Lemma read_exact_front (r : R) bs rest :
  src_inv r -> data (view r) = bs ++ rest ->
  exists r', read_exact (length bs) r = (r', Ok bs) /\
    view r' = mkSource rest (fin (view r)) /\ src_inv r'.
Proof.
  intros Hr Hd. exact (reads_lawful _ _ _ _ r rest (refines_read_exact (length bs))
                         (reads_exact _ _ eq_refl) Hr Hd).
Qed.

Lemma parse_udp_at_end (r : R) :
  src_inv r -> data (view r) = [] ->
  exists r', parse_udp r = (r', short_read (fin (view r))) /\ view r' = view r.
Proof.
  intros Hr Hd. destruct (refines_parse_udp r Hr) as (r' & E & Hv & _).
  destruct (view r) as [d e]; simpl in *. subst d. rewrite parse_udp_end in *. eauto.
Qed.
End HeaderLemmas.

(** ** The relay loops as pumps *)

Section Items.
Context {R : Type} `{AsyncReadExt R} `{Resolver}.

(** The item the server side takes from the tunnel: a payload and where it goes. *)
Definition next_datagram : io R (list byte * SocketAddr) :=
  let? header := parse_udp in
  (if payload_size header <=? BUF_SIZE then io_ret tt
   else io_panic "Payload size exceeds read buffer size") ;;?
  io_lift (slice_to (zeroed BUF_SIZE) (payload_size header)) ;;?
  let? read := read_exact (payload_size header) in
  (if length read =? payload_size header then io_ret tt
   else io_panic "Failed to read the entire trojan udp packet") ;;?
  io_ret (read, dest header).

(** The item the client side takes from the tunnel. *)
Definition next_payload : io R (list byte) :=
  let? header := parse_udp in
  io_lift (slice_to (zeroed BUF_SIZE) (payload_size header)) ;;?
  read_exact (payload_size header).

Lemma client_to_udp_pump {U} `{UdpSocket U} :
  io_eq (client_to_udp_body (R:=R) (U:=U))
    (pump next_datagram (fun x => send_to x.1 x.2 ;;? io_ret tt)).
Proof.
  intros [r u]. unfold client_to_udp_body, pump, next_datagram, io_bind, on_fst, on_snd, io_lift; simpl.
  destruct (parse_udp r) as [r1 [h|e|p|]]; simpl; [|done..].
  destruct (payload_size h <=? BUF_SIZE); simpl; [|done].
  destruct (slice_to _ _); simpl; try done.
  destruct (read_exact _ r1) as [r2 [bs|e|p|]]; simpl; try done.
  destruct (length bs =? _); simpl; [|done]. by destruct (send_to _ _ u) as [u1 []].
Qed.

Lemma server_to_client_pump {W} `{AsyncWriteExt W} :
  io_eq (server_to_client_body (R:=R) (W:=W)) (pump next_payload write_all).
Proof.
  intros [r w]. unfold server_to_client_body, pump, next_payload, io_bind, on_fst, on_snd, io_lift; simpl.
  destruct (parse_udp r) as [r1 [h|e|p|]]; simpl; try done.
  by destruct (slice_to _ _).
Qed.

Context `{!ByteSource R}.

(** A packet in front of the stream is taken as one item. *)
Lemma next_datagram_packet (r : R) k d rest :
  src_inv r -> packet_ok k -> resolves k d -> data (view r) = packet_bytes k ++ rest ->
  exists r', next_datagram r = (r', Ok (pk_payload k, d)) /\
    view r' = mkSource rest (fin (view r)) /\ src_inv r'.
Proof.
  intros Hr Hk Hd Hdata. destruct (parse_udp_packet r k d rest Hr Hk Hd Hdata) as (r1 & E1 & Hv1 & Hi1).
  destruct (read_exact_front r1 (pk_payload k) rest Hi1 ltac:(by rewrite Hv1)) as (r2 & E2 & Hv2 & Hi2).
  exists r2. rewrite Hv1 in Hv2. split_and!; [|done|done].
  unfold next_datagram, io_bind, io_lift. rewrite E1; simpl. destruct Hk as (_ & _ & Hl).
  destruct (Nat.leb_spec (length (pk_payload k)) BUF_SIZE); [|lia]. simpl.
  rewrite slice_to_ok by (unfold zeroed; rewrite length_replicate; lia).
  by rewrite E2, Nat.eqb_refl.
Qed.

Lemma next_payload_packet (r : R) k d rest :
  src_inv r -> packet_ok k -> resolves k d -> data (view r) = packet_bytes k ++ rest ->
  exists r', next_payload r = (r', Ok (pk_payload k)) /\
    view r' = mkSource rest (fin (view r)) /\ src_inv r'.
Proof.
  intros Hr Hk Hd Hdata. destruct (parse_udp_packet r k d rest Hr Hk Hd Hdata) as (r1 & E1 & Hv1 & Hi1).
  destruct (read_exact_front r1 (pk_payload k) rest Hi1 ltac:(by rewrite Hv1)) as (r2 & E2 & Hv2 & Hi2).
  exists r2. rewrite Hv1 in Hv2. split_and!; [|done|done].
  unfold next_payload, io_bind, io_lift. rewrite E1; simpl. destruct Hk as (_ & _ & Hl).
  by rewrite slice_to_ok by (unfold zeroed; rewrite length_replicate; lia).
Qed.

(** A sequence of packets is taken as the sequence of its items, whatever the
    chunks it arrives in. *)
Lemma pulls_packets {X} (src : io R X) (item : packet -> SocketAddr -> X) ks ds r rest :
  (forall r k d rest, src_inv r -> packet_ok k -> resolves k d ->
     data (view r) = packet_bytes k ++ rest ->
     exists r', src r = (r', Ok (item k d)) /\
       view r' = mkSource rest (fin (view r)) /\ src_inv r') ->
  src_inv r -> Forall packet_ok ks -> Forall2 resolves ks ds ->
  data (view r) = packets_bytes ks ++ rest ->
  exists r', pulls src r (zip_with item ks ds) r' /\
    view r' = mkSource rest (fin (view r)) /\ src_inv r'.
Proof.
  intros Hsrc Hr Hks Hds. revert r Hr. induction Hds as [|k d ks ds Hkd Hds IH]; intros r Hr Hd.
  { exists r. split_and!; [constructor| |done]. destruct (view r); simpl in *; by subst. }
  apply Forall_cons in Hks as [Hk Hks]. unfold packets_bytes in Hd; simpl in Hd.
  rewrite <- app_assoc in Hd.
  destruct (Hsrc _ _ _ _ Hr Hk Hkd Hd) as (r1 & E & Hv & Hi).
  destruct (IH Hks r1 Hi ltac:(by rewrite Hv)) as (r2 & Hp & Hv2 & Hi2).
  exists r2. rewrite Hv in Hv2. split_and!; [by econstructor|done|done].
Qed.

Lemma next_datagram_end (r : R) :
  src_inv r -> data (view r) = [] ->
  exists r', next_datagram r = (r', short_read (fin (view r))).
Proof.
  intros Hr Hd. destruct (parse_udp_at_end r Hr Hd) as (r1 & E & _). exists r1.
  unfold next_datagram, io_bind. rewrite E. by destruct (fin (view r)).
Qed.

Lemma next_payload_end (r : R) :
  src_inv r -> data (view r) = [] ->
  exists r', next_payload r = (r', short_read (fin (view r))).
Proof.
  intros Hr Hd. destruct (parse_udp_at_end r Hr Hd) as (r1 & E & _). exists r1.
  unfold next_payload, io_bind. rewrite E. by destruct (fin (view r)).
Qed.
End Items.

Lemma short_read_not_ok {A} e : is_ok (@short_read A e) = false.
Proof. by destruct e. Qed.

Lemma appends_send_to {U} `{UdpLawful U} (x : list byte * SocketAddr) :
  appends (fun _ => True) sent (send_to x.1 x.2 ;;? io_ret tt) [x].
Proof.
  apply appends_discard. intros u u' o _ E. destruct (send_to_sent _ _ _ _ _ E) as [Hp Hs].
  split_and!; [done..|]. destruct x as [bs a]. destruct (is_ok o).
  - by exists [(bs, a)].
  - exists []. rewrite app_nil_r. split_and!; [apply prefix_nil|done|done].
Qed.

Lemma mjoin_singletons {A} (l : list A) : mjoin ((fun x => [x]) <$> l) = l.
Proof. induction l as [|x l IH]; [done|]. simpl. f_equal. exact IH. Qed.

(** ** Packets that are cut off *)

Lemma reads_parse_udp `{Resolver} k d :
  packet_ok k -> resolves k d ->
  reads parse_udp
    (udp_header_bytes (pk_addr k) (pk_port k) (Z.of_nat (length (pk_payload k))) (be_bytes 2 CRLF))
    (mkUdpHeader (atype_of (pk_addr k)) d (length (pk_payload k))).
Proof.
  intros (Ha & Hp & Hl) Hd. unfold BUF_SIZE in Hl.
  assert (Hn : u16_ok (Z.of_nat (length (pk_payload k)))) by (unfold u16_ok; lia).
  unfold parse_udp, udp_header_bytes.
  eapply reads_bind; [apply reads_u8|]. eapply reads_lift; [apply Atype_from_as_u8|].
  eapply reads_bind; [by apply reads_wire_addr|].
  eapply reads_bind; [apply reads_u16, length_be_bytes|].
  eapply reads_bind; [apply reads_u16, length_be_bytes|].
  rewrite <- (app_nil_r (be_bytes 2 CRLF)). eapply reads_bind; [apply reads_u16, length_be_bytes|].
  rewrite !be_val_be_bytes_small by assumption. eapply reads_lift; [exact Hd|].
  rewrite Nat2Z.id. apply reads_ret.
Qed.

Lemma reads_next_datagram `{Resolver} k d :
  packet_ok k -> resolves k d -> reads next_datagram (packet_bytes k) (pk_payload k, d).
Proof.
  intros Hk Hd. pose proof Hk as (_ & _ & Hl). unfold next_datagram, packet_bytes.
  eapply reads_bind; [by apply reads_parse_udp|]. cbn [payload_size dest].
  destruct (Nat.leb_spec (length (pk_payload k)) BUF_SIZE); [|lia].
  eapply (reads_lift (Ok tt)); [done|].
  eapply reads_lift; [by rewrite slice_to_ok by (unfold zeroed; rewrite length_replicate; lia)|].
  rewrite <- (app_nil_r (pk_payload k)) at 2. eapply reads_bind; [by apply reads_exact|].
  rewrite Nat.eqb_refl. eapply (reads_lift (Ok tt)); [done|]. apply reads_ret.
Qed.

Lemma refines_next_datagram {R} `{AsyncReadExt R} `{!ByteSource R} `{Resolver} :
  refines (next_datagram : io R _) next_datagram.
Proof.
  unfold next_datagram. apply refines_bind; [apply refines_parse_udp|]. intros h.
  repeat (apply refines_bind; [|intros ?]); auto with refines;
    case_match; apply refines_ret || apply (refines_lift (Panic _)).
Qed.

(** What is at hand of a packet that is cut off is read, and no datagram made of it. *)
Lemma next_datagram_cut {R} `{AsyncReadExt R} `{!ByteSource R} `{Resolver} (r : R) k d :
  src_inv r -> packet_ok k -> resolves k d ->
  data (view r) `prefix_of` packet_bytes k -> length (data (view r)) < length (packet_bytes k) ->
  exists r', next_datagram r = (r', short_read (fin (view r))).
Proof.
  intros Hr Hk Hd Hpre Hl. destruct (refines_next_datagram r Hr) as (r' & E & _). exists r'.
  destruct (reads_next_datagram k d Hk Hd (fin (view r))) as [_ Hcut].
  destruct (view r) as [l e]; simpl in *. by rewrite (Hcut l Hpre Hl) in E.
Qed.

Lemma packets_bytes_app ks1 ks2 : packets_bytes (ks1 ++ ks2) = packets_bytes ks1 ++ packets_bytes ks2.
Proof. unfold packets_bytes. by rewrite fmap_app, join_app. Qed.

(** A prefix of a sequence of packets: some of them whole, and the front of one. *)
Lemma packets_cut ks l :
  l `prefix_of` packets_bytes ks ->
  exists m rest, m <= length ks /\ l = packets_bytes (take m ks) ++ rest /\
    match ks !! m with
    | Some k => rest `prefix_of` packet_bytes k /\ length rest < length (packet_bytes k)
    | None => rest = []
    end.
Proof.
  revert l. induction ks as [|k ks IH]; intros l Hl.
  { apply prefix_nil_inv in Hl as ->. by exists 0, []. }
  change (packets_bytes (k :: ks)) with (packet_bytes k ++ packets_bytes ks) in Hl.
  destruct (decide (length l < length (packet_bytes k))) as [Hlt|Hge].
  - exists 0, l. simpl. split; [lia|]. split; [done|]. split; [|done].
    destruct (prefix_of_app_split _ _ _ Hl) as [?|(l' & -> & _)]; [done|]. rewrite length_app in Hlt. lia.
  - assert (exists l', l = packet_bytes k ++ l' /\ l' `prefix_of` packets_bytes ks) as (l' & -> & Hl').
    { destruct (prefix_of_app_split _ _ _ Hl) as [[z Hz]|?]; [|done]. exists [].
      pose proof (f_equal length Hz) as Hlen. rewrite length_app in Hlen.
      assert (z = []) as -> by (destruct z; simpl in *; [done|lia]).
      rewrite app_nil_r in *. split; [done|apply prefix_nil]. }
    destruct (IH _ Hl') as (m & rest & Hm & -> & Hrest). exists (S m), rest.
    simpl. split; [lia|]. split; [|done].
    change (packets_bytes (k :: take m ks)) with (packet_bytes k ++ packets_bytes (take m ks)).
    by rewrite app_assoc.
Qed.

(** Nothing is left out: every packet that is whole in [l] is among them. *)
Lemma packets_cut_max ks m rest n :
  n <= length ks ->
  match ks !! m with
  | Some k => rest `prefix_of` packet_bytes k /\ length rest < length (packet_bytes k)
  | None => rest = []
  end ->
  m <= length ks -> packets_bytes (take n ks) `prefix_of` packets_bytes (take m ks) ++ rest -> n <= m.
Proof.
  intros Hn Hrest Hm Hpre. destruct (Nat.le_gt_cases n m) as [|Hlt]; [done|]. exfalso.
  destruct (lookup_lt_is_Some_2 ks m ltac:(lia)) as [k Ek]. rewrite Ek in Hrest.
  apply prefix_length in Hpre.
  assert (Htn : take n ks = take m ks ++ k :: drop (S m) (take n ks)).
  { rewrite <- (take_drop (S m) (take n ks)) at 1. rewrite take_take, Nat.min_l by lia.
    rewrite (take_S_r _ _ _ Ek). by rewrite <- app_assoc. }
  rewrite Htn, packets_bytes_app, !length_app in Hpre.
  change (packets_bytes (k :: ?l)) with (packet_bytes k ++ packets_bytes l) in Hpre.
  rewrite length_app in Hpre. lia.
Qed.

(** ** Tunnel to datagrams (the server side) *)

Section ServerSide.
Context {R U : Type} `{AsyncReadExt R} `{!ByteSource R} `{UdpLawful U} `{Resolver}.

(** The socket failed on one of [datagrams]: those before it were sent, nothing
    else, and the failure is reported as [o]. *)
Definition socket_refused {A} (datagrams : list (list byte * SocketAddr)) (u u' : U)
    (o : outcome A) : Prop :=
  exists n bs a u0 e,
    datagrams !! n = Some (bs, a) /\ sent u' = sent u ++ take n datagrams /\
    send_to bs a u0 = (u', e) /\ same_failure e o.

(** The packets in front of the stream are forwarded; what stops the loop is
    what stops the parser behind them. *)
Lemma forward_until {A} r u ks ds rest (e : outcome A) :
  src_inv r -> Forall packet_ok ks -> Forall2 resolves ks ds ->
  data (view r) = packets_bytes ks ++ rest ->
  (forall r1, src_inv r1 -> view r1 = mkSource rest (fin (view r)) ->
     exists r2 e', next_datagram r1 = (r2, e') /\ same_failure e' e) ->
  exists r' u' o,
    copy_client_reader_to_udp_socket (S (length ks)) (r, u) = ((r', u'), Exited o) /\
    ((sent u' = sent u ++ zip (pk_payload <$> ks) ds /\ same_failure e o) \/
     socket_refused (zip (pk_payload <$> ks) ds) u u' o).
Proof.
  intros Hr Hks Hds Hd Hend.
  destruct (pulls_packets next_datagram (fun k d => (pk_payload k, d)) ks ds r rest
    next_datagram_packet Hr Hks Hds Hd) as (r1 & Hp & Hv & Hi).
  destruct (Hend r1 Hi Hv) as (r2 & e' & E2 & He). destruct (same_failure_not_ok _ _ He) as [He' _].
  rewrite <- (zip_with_fmap_l pair) in Hp. set (datagrams := zip (pk_payload <$> ks) ds) in *.
  assert (Hlen : length datagrams = length ks).
  { unfold datagrams. rewrite length_zip_with, length_fmap. apply Forall2_length in Hds. lia. }
  destruct (pump_drains next_datagram _ (fun _ => True) sent (fun x => [x]) appends_send_to
    _ _ _ _ _ u I Hp E2 He') as (r' & u' & o & El & _ & Ho).
  exists r', u', o. unfold copy_client_reader_to_udp_socket.
  rewrite (loop_ext _ _ _ _ client_to_udp_pump), <- Hlen. split; [done|].
  destruct Ho as [(-> & Hf & Hl)|(ys & [bs a] & zs & out & u0 & ox & Hsplit & _ & _ & Hl & Ex & Hf)];
    rewrite mjoin_singletons in Hl.
  - left. split; [done|]. destruct e, e', o; simpl in *; subst; done.
  - right. unfold io_bind, io_ret in Ex; simpl in Ex.
    destruct (send_to bs a u0) as [u1 e1] eqn:Es.
    assert (u1 = u' /\ same_failure e1 o) as [-> Hfe] by (destruct e1; simplify_eq; by split).
    destruct (send_to_sent _ _ _ _ _ Es) as [_ Hs].
    destruct (same_failure_not_ok _ _ Hfe) as [He1 _]. rewrite He1 in Hs.
    exists (length ys), bs, a, u0, e1. rewrite Hsplit. split_and!; [|..|done|done].
    + by rewrite list_lookup_middle.
    + by rewrite take_app_length, Hs, Hl.
Qed.

(** A sequence of Trojan UDP packets that arrives through the tunnel in
    whatever chunks, followed by the end of the stream, is forwarded by
    [copy_client_reader_to_udp_socket] as exactly one datagram per packet, in
    order, each to the destination its header names; the loop then leaves with
    what ended the stream ([UnexpectedEof] on a close).  It ends earlier only
    with a failure of the socket, and then the datagrams sent are those of the
    packets before. *)
Theorem client_packets_forwarded r u ks ds :
  src_inv r -> Forall packet_ok ks -> Forall2 resolves ks ds ->
  data (view r) = packets_bytes ks ->
  exists r' u' o,
    copy_client_reader_to_udp_socket (S (length ks)) (r, u) = ((r', u'), Exited o) /\
    ((sent u' = sent u ++ zip (pk_payload <$> ks) ds /\ o = short_read (fin (view r))) \/
     socket_refused (zip (pk_payload <$> ks) ds) u u' o).
Proof.
  intros Hr Hks Hds Hd. rewrite <- (app_nil_r (packets_bytes ks)) in Hd.
  destruct (forward_until r u ks ds [] (@short_read unit (fin (view r))) Hr Hks Hds Hd)
    as (r' & u' & o & El & Ho).
  { intros r1 Hi Hv. destruct (next_datagram_end r1 Hi ltac:(by rewrite Hv)) as (r2 & E).
    exists r2, (short_read (fin (view r1))). rewrite Hv. split; [by rewrite E, Hv|].
    simpl. by destruct (fin (view r)). }
  exists r', u', o. split; [done|]. destruct Ho as [[Hs Hf]|Ho]; [left|by right].
  split; [done|by apply same_failure_short_read in Hf].
Qed.

(** What a header makes the loop panic with: the name does not resolve, or the
    announced payload does not fit the buffer. *)
Definition panics_with (a : IpAddress) (p n : Z) (msg : string) : Prop :=
  match IpAddrPort_into (mkIpAddrPort a p) with
  | Panic m => msg = m
  | Ok _ => (Z.of_nat BUF_SIZE < n)%Z /\ msg = "Payload size exceeds read buffer size"
  | _ => False
  end.

Lemma next_datagram_panics (r : R) a p n sep rest msg :
  src_inv r -> addr_ok a -> u16_ok p -> u16_ok n -> length sep = 2 ->
  data (view r) = udp_header_bytes a p n sep ++ rest -> panics_with a p n msg ->
  exists r', next_datagram r = (r', Panic msg).
Proof.
  intros Hr Ha Hp Hn Hs Hd Hm.
  destruct (consumes_lawful _ _ _ _ r _ refines_parse_udp
    (consumes_parse_udp _ _ _ _ Ha Hp Hn Hs) Hr Hd) as (r' & E & _).
  unfold panics_with in Hm. exists r'. unfold next_datagram, io_bind. rewrite E.
  destruct (IpAddrPort_into _); simpl; [|done|by subst|done].
  destruct Hm as [Hm ->]. by destruct (Nat.leb_spec (Z.to_nat n) BUF_SIZE); [lia|].
Qed.

(** C37: one header that names a host that does not resolve, or that announces
    more than 4096 bytes, panics the forwarding task: the packets in front of it
    are forwarded, nothing behind it is, and neither check is reported as an
    error. *)
Theorem client_bad_packet_panics r u ks ds a p n sep rest msg :
  src_inv r -> Forall packet_ok ks -> Forall2 resolves ks ds ->
  addr_ok a -> u16_ok p -> u16_ok n -> length sep = 2 ->
  data (view r) = packets_bytes ks ++ udp_header_bytes a p n sep ++ rest ->
  panics_with a p n msg ->
  exists r' u' o,
    copy_client_reader_to_udp_socket (S (length ks)) (r, u) = ((r', u'), Exited o) /\
    ((sent u' = sent u ++ zip (pk_payload <$> ks) ds /\ o = Panic msg) \/
     socket_refused (zip (pk_payload <$> ks) ds) u u' o).
Proof.
  intros Hr Hks Hds Ha Hp Hn Hs Hd Hm.
  destruct (forward_until r u ks ds _ (@Panic unit msg) Hr Hks Hds Hd) as (r' & u' & o & El & Ho).
  { intros r1 Hi Hv. destruct (next_datagram_panics r1 a p n sep rest msg Hi Ha Hp Hn Hs
      ltac:(by rewrite Hv) Hm) as (r2 & E). by exists r2, (Panic msg). }
  exists r', u', o. split; [done|]. destruct Ho as [[Hs' Hf]|Ho]; [left|by right].
  split; [done|]. destruct o; simpl in Hf; by subst.
Qed.
End ServerSide.

(** ** Tunnel to byte stream (the client side) *)

Section ClientSide.
Context {R W : Type} `{AsyncReadExt R} `{!ByteSource R} `{AsyncWriteExt W} `{!ByteSink W} `{Resolver}.

(** The writer failed: of [bs] a prefix was written, and the failure is [o]. *)
Definition writer_refused {A} (bs : list byte) (w w' : W) (o : outcome A) : Prop :=
  exists out chunk w0 (e : outcome unit),
    out `prefix_of` bs /\ written w' = written w ++ out /\
    write_all chunk w0 = (w', e) /\ same_failure e o.

Lemma deliver_packets r w ks ds :
  src_inv r -> sink_inv w -> Forall packet_ok ks -> Forall2 resolves ks ds ->
  data (view r) = packets_bytes ks ->
  exists r' w' o,
    loop (S (length ks)) server_to_client_body (r, w) = ((r', w'), Exited o) /\
    ((written w' = written w ++ mjoin (pk_payload <$> ks) /\ o = short_read (fin (view r))) \/
     writer_refused (mjoin (pk_payload <$> ks)) w w' o).
Proof.
  intros Hr Hw Hks Hds Hd. rewrite <- (app_nil_r (packets_bytes ks)) in Hd.
  destruct (pulls_packets next_payload (fun k _ => pk_payload k) ks ds r []
    next_payload_packet Hr Hks Hds Hd) as (r1 & Hp & Hv & Hi).
  destruct (next_payload_end r1 Hi ltac:(by rewrite Hv)) as (r2 & E2).
  assert (Hz : zip_with (fun k (_ : SocketAddr) => pk_payload k) ks ds = pk_payload <$> ks).
  { clear -Hds. induction Hds; [done|]. simpl. by f_equal. }
  rewrite Hz in Hp. rewrite Hv in E2; simpl in E2.
  destruct (pump_drains next_payload write_all sink_inv written (fun x => x)
    (fun x => emits_appends _ _ (emits_write_all x)) _ _ _ _ _ w Hw Hp E2 (short_read_not_ok _))
    as (r' & w' & o & El & Hi' & Ho).
  exists r', w', o. rewrite (loop_ext _ _ _ _ server_to_client_pump).
  rewrite length_fmap in El. split; [done|]. setoid_rewrite list_fmap_id in Ho.
  destruct Ho as [(-> & Hf & Hl)|(ys & x & zs & out & w0 & ox & Hsplit & Hpre & Hl & _ & Ex & Hf)].
  - left. split; [done|by apply same_failure_short_read in Hf].
  - right. exists (mjoin ys ++ out), x, w0, ox. split_and!; [|done|done|done].
    rewrite Hsplit, join_app. apply prefix_app. simpl. by apply prefix_app_r.
Qed.

(** The client side of the UDP tunnel: a sequence of packets arriving from
    the server in whatever chunks is delivered to the client as the
    concatenation of the payloads, in order and without headers, by
    [copy_udp_server_reader_to_client_writer], which then leaves with what ended
    the stream; when the client stops accepting, what was written is a prefix. *)
Theorem server_packets_delivered r w ks ds :
  src_inv r -> sink_inv w -> Forall packet_ok ks -> Forall2 resolves ks ds ->
  data (view r) = packets_bytes ks ->
  exists r' w' o,
    copy_udp_server_reader_to_client_writer (S (length ks)) (r, w) = ((r', w'), Exited o) /\
    ((written w' = written w ++ mjoin (pk_payload <$> ks) /\ o = short_read (fin (view r))) \/
     writer_refused (mjoin (pk_payload <$> ks)) w w' o).
Proof. apply deliver_packets. Qed.
End ClientSide.

(** ** Framing *)

Lemma be_bytes_as_u16 z : be_bytes 2 (as_u16 z) = be_bytes 2 z.
Proof.
  unfold as_u16. rewrite (Z.div_mod z 65536) at 2 by lia.
  rewrite Z.mul_comm. change 65536%Z with (256 ^ Z.of_nat 2)%Z. by rewrite be_bytes_add_mul.
Qed.

Lemma on_snd_bind3 {S T A B C} (m : io T A) (n : io T B) (p : io T C) :
  io_eq (on_snd (S:=S) m ;;? on_snd n ;;? on_snd p) (on_snd (m ;;? n ;;? p)).
Proof.
  intros [s t]. unfold io_bind, on_snd; simpl. destruct (m t) as [t1 []]; simpl; try done.
  by destruct (n t1) as [t2 []].
Qed.

Section Framing.
Context {W : Type} `{AsyncWriteExt W} `{!ByteSink W}.

(** What an iteration of [copy_udp_socket_to_client_writer] does to the writer. *)
Definition write_reply_addr (a : IpAddress) : io W unit :=
  match a with
  | IpAddr_ (V4 a) =>
      write_u8 (Atype_as_u8 IPv4) ;;?
      write_all (octets (V4 a))
  | IpAddr_ (V6 a) =>
      write_u8 (Atype_as_u8 IPv6) ;;?
      write_all (octets (V6 a))
  | Domain domain =>
      write_u8 (Atype_as_u8 DomainName) ;;?
      write_u8 (as_u8 (Z.of_nat (length domain))) ;;?
      write_all domain
  end.

Definition write_reply (addr : IpAddrPort) (payload : list byte) : io W unit :=
  write_reply_addr (ip addr) ;;?
  write_u16 (port addr) ;;?
  write_u16 (as_u16 (Z.of_nat (length payload))) ;;?
  write_u16 CRLF ;;?
  write_all payload ;;?
  flush ;;?
  io_ret tt.

Lemma udp_to_client_pump {U} `{UdpSocket U} addr :
  io_eq (udp_to_client_body (U:=U) addr)
    (pump (recv_from BUF_SIZE) (fun x => write_reply addr x.1)).
Proof.
  unfold udp_to_client_body, pump, write_reply, write_reply_addr. apply io_bind_proper; [done|]. intros [bs from].
  cbn [fst]. destruct (ip addr) as [[a|a]|domain];
    [rewrite on_snd_bind..|rewrite on_snd_bind3]; apply on_snd_seq; intros _;
    repeat (apply on_snd_seq; intros _); by intros [? ?].
Qed.

Lemma emits_write_reply_addr a :
  emits (write_reply_addr a) ([Atype_as_u8 (atype_of a)] ++ wire_addr a).
Proof.
  destruct a as [[a|a]|domain]; apply emits_bind; auto with emits.
  intros _. apply (emits_bind _ _ [_]); auto with emits.
Qed.

Lemma emits_write_reply addr payload :
  emits (write_reply addr payload)
    (packet_bytes (mkPacket (ip addr) (port addr) payload)).
Proof.
  unfold write_reply, packet_bytes, udp_header_bytes. cbn [pk_addr pk_port pk_payload].
  rewrite <- !app_assoc, app_assoc. apply emits_bind; [apply emits_write_reply_addr|].
  intros _. apply emits_bind; [auto with emits|]. intros _.
  apply emits_bind; [rewrite <- be_bytes_as_u16; auto with emits|]. intros _.
  apply emits_bind; [auto with emits|]. intros _.
  rewrite <- (app_nil_r payload) at 2. apply emits_bind; [auto with emits|]. intros _.
  rewrite <- (app_nil_r []). apply emits_bind; auto with emits.
Qed.

Lemma flushes_write_reply addr payload : flushes (write_reply addr payload).
Proof.
  unfold write_reply. eapply flushes_bind; [apply emits_write_reply_addr|].
  intros _. do 4 (eapply flushes_bind; [auto with emits|intros _]). auto with emits.
Qed.

(** Replies travel back framed: after [n] iterations of
    [copy_udp_socket_to_client_writer] the bytes written are the packets of the
    datagrams received, one packet per datagram in order, each with its own
    length and the address of the request; while the loop runs everything is
    flushed.  The loop leaves only with a failure of the socket, behind complete
    packets, or of the writer, inside the packet of the last datagram. *)
Theorem udp_replies_framed {U} `{UdpSocket U} addr n (u u' : U) w w' ex :
  sink_inv w ->
  copy_udp_socket_to_client_writer addr n (u, w) = ((u', w'), ex) ->
  pumped (recv_from BUF_SIZE) (fun x => write_reply addr x.1) written
    (fun x => packet_bytes (mkPacket (ip addr) (port addr) x.1)) n u w u' w' ex /\
  (ex = Running -> 0 < n -> flushed w' = written w').
Proof.
  intros Hw. unfold copy_udp_socket_to_client_writer.
  rewrite (loop_ext _ _ _ _ (udp_to_client_pump addr)). intros E. split.
  - eapply pump_spec; [|done|done]. intros x. apply emits_appends, emits_write_reply.
  - intros -> Hn. eapply pump_flushed; [..|exact E]; eauto.
    + intros x. apply emits_write_reply.
    + intros x. apply flushes_write_reply.
Qed.

(** What an iteration of [copy_client_reader_to_udp_server_writer] does to the
    writer. *)
Definition write_packet (request : InboundRequest) (payload : list byte) : io W unit :=
  write_packet_header request (length payload) ;;?
  write_all payload ;;?
  flush ;;?
  io_ret tt.

Lemma client_to_server_pump {R} `{AsyncReadExt R} request :
  io_eq (client_to_server_body (R:=R) request) (pump (read BUF_SIZE) (write_packet request)).
Proof.
  unfold client_to_server_body, pump, write_packet. apply io_bind_proper; [done|]. intros bs.
  repeat (apply on_snd_seq; intros _). by intros [? ?].
Qed.

(** The packet a chunk of client data becomes. *)
Definition request_packet (request : InboundRequest) (payload : list byte) : packet :=
  mkPacket (ip (addr_port request)) (port (addr_port request)) payload.

Lemma emits_write_packet_header request (payload : list byte) :
  request_ok request ->
  emits (write_packet_header request (length payload))
    (udp_header_bytes (ip (addr_port request)) (port (addr_port request))
       (Z.of_nat (length payload)) (be_bytes 2 CRLF)).
Proof.
  intros [_ _ Ha _]. unfold write_packet_header, udp_header_bytes. rewrite Ha.
  apply emits_bind; [auto with emits|]. intros _. apply emits_bind.
  { destruct (ip (addr_port request)) as [[a|a]|domain]; auto with emits.
    apply (emits_bind _ _ [_]); auto with emits. }
  intros _. apply emits_bind; [auto with emits|]. intros _.
  apply emits_bind; [rewrite <- be_bytes_as_u16|]; auto with emits.
Qed.

Lemma emits_write_packet request payload :
  request_ok request ->
  emits (write_packet request payload) (packet_bytes (request_packet request payload)).
Proof.
  intros Hr. unfold write_packet, packet_bytes, request_packet. cbn [pk_addr pk_port pk_payload].
  apply emits_bind; [by apply emits_write_packet_header|]. intros _.
  rewrite <- (app_nil_r payload) at 2. apply emits_bind; [auto with emits|]. intros _.
  rewrite <- (app_nil_r []). apply emits_bind; auto with emits.
Qed.
End Framing.

(** ** Through the tunnel and back *)

Lemma BUF_SIZE_pos : 0 < BUF_SIZE.
Proof. unfold BUF_SIZE. lia. Qed.

(** What a run of [read]s takes off a stream: chunks that make up a prefix of it. *)
Lemma pulls_read {R} `{AsyncReadExt R} `{!ByteSource R} (r : R) cs r' n :
  0 < n -> src_inv r -> pulls (read n) r cs r' ->
  src_inv r' /\ data (view r) = mjoin cs ++ data (view r') /\
  Forall (fun c => length c <= n) cs.
Proof.
  intros Hn Hr Hp. induction Hp as [r|r c r1 cs r2 E Hp IH]; [by split_and!|].
  destruct (read_view _ _ _ _ Hr Hn E) as (Hi & _ & Hd & Hl & _).
  destruct (IH Hi) as (Hi2 & Hd2 & Hf). split_and!; [done| |by constructor].
  simpl. by rewrite Hd, Hd2, app_assoc.
Qed.

Lemma pulls_recv {U} `{UdpLawful U} (u : U) ds u' n :
  pulls (recv_from n) u ds u' -> Forall (fun x => length x.1 <= n) ds.
Proof.
  induction 1 as [|u x u1 ds u2 Ex _ IH]; constructor; [|done].
  destruct (recv_from_sent _ _ _ _ Ex) as (_ & _ & Hl). by apply Hl.
Qed.

Lemma resolves_request `{Resolver} request d cs :
  IpAddrPort_into (addr_port request) = Ok d ->
  Forall2 resolves (request_packet request <$> cs) (replicate (length cs) d).
Proof.
  intros Hd. induction cs as [|c cs IH]; constructor; [|done].
  unfold resolves, request_packet; simpl. rewrite <- Hd. by destruct (addr_port request).
Qed.

Lemma packets_request_ok request cs :
  request_ok request -> Forall (fun c => length c <= BUF_SIZE) cs ->
  Forall packet_ok (request_packet request <$> cs).
Proof.
  intros [Ha Hp _ _] Hcs. apply Forall_fmap. eapply Forall_impl; [exact Hcs|]. by intros c.
Qed.

Lemma zip_replicate {A B} (l : list A) (d : B) :
  zip l (replicate (length l) d) = (fun x => (x, d)) <$> l.
Proof. induction l as [|x l IH]; [done|]. simpl. by rewrite IH. Qed.

(** The server side on the packets of one request. *)
Lemma forward_request {R U} `{AsyncReadExt R} `{!ByteSource R} `{UdpLawful U} `{Resolver}
    request (cs : list (list byte)) (r : R) (u : U) d :
  request_ok request -> Forall (fun c => length c <= BUF_SIZE) cs ->
  IpAddrPort_into (addr_port request) = Ok d -> src_inv r ->
  data (view r) = packets_bytes (request_packet request <$> cs) ->
  exists r' u' o,
    copy_client_reader_to_udp_socket (S (length cs)) (r, u) = ((r', u'), Exited o) /\
    ((sent u' = sent u ++ ((fun c => (c, d)) <$> cs) /\ o = short_read (fin (view r))) \/
     socket_refused ((fun c => (c, d)) <$> cs) u u' o).
Proof.
  intros Hreq Hlen Hd Hr Hdata. rewrite <- (app_nil_r (packets_bytes _)) in Hdata.
  destruct (forward_until r u _ (replicate (length cs) d) []
    (@short_read unit (fin (view r))) Hr (packets_request_ok _ _ Hreq Hlen)
    (resolves_request _ _ _ Hd) Hdata) as (r' & u' & o & El & Ho).
  { intros r1 Hi Hv1. destruct (next_datagram_end r1 Hi ltac:(by rewrite Hv1)) as (r2 & E2).
    exists r2, (short_read (fin (view r1))). split; [done|]. rewrite Hv1; simpl.
    by destruct (fin (view r)). }
  rewrite length_fmap, <- list_fmap_compose in *. unfold compose in *.
  assert (Hz : zip ((fun x => pk_payload (request_packet request x)) <$> cs)
                 (replicate (length cs) d) = (fun c => (c, d)) <$> cs).
  { change (zip ((fun x => x) <$> cs) (replicate (length cs) d) = (fun c => (c, d)) <$> cs).
    by rewrite list_fmap_id, zip_replicate. }
  rewrite Hz in Ho. exists r', u', o. split; [done|].
  destruct Ho as [[Hs Hf]|Ho]; [left|by right]. split; [done|].
  by apply same_failure_short_read in Hf.
Qed.

(** The server side on the front of the packets of one request: one datagram for
    every packet that is there as a whole, then what ended the stream. *)
Lemma forward_cut {R U} `{AsyncReadExt R} `{!ByteSource R} `{UdpLawful U} `{Resolver}
    request (cs : list (list byte)) (r : R) (u : U) d :
  request_ok request -> Forall (fun c => length c <= BUF_SIZE) cs ->
  IpAddrPort_into (addr_port request) = Ok d -> src_inv r ->
  data (view r) `prefix_of` packets_bytes (request_packet request <$> cs) ->
  exists n r' u' o, n <= length cs /\
    (forall k, k <= length cs ->
       packets_bytes (request_packet request <$> take k cs) `prefix_of` data (view r) -> k <= n) /\
    copy_client_reader_to_udp_socket (S n) (r, u) = ((r', u'), Exited o) /\
    ((sent u' = sent u ++ ((fun c => (c, d)) <$> take n cs) /\ o = short_read (fin (view r))) \/
     socket_refused ((fun c => (c, d)) <$> take n cs) u u' o).
Proof.
  intros Hreq Hlen Hd Hr Hpre. destruct (packets_cut _ _ Hpre) as (n & rest & Hn & Hdata & Hrest).
  rewrite length_fmap in Hn. rewrite <- fmap_take in Hdata.
  assert (Hlt : length (take n cs) = n) by (rewrite length_take; lia).
  destruct (forward_until r u _ (replicate n d) rest (@short_read unit (fin (view r))) Hr
    (packets_request_ok _ (take n cs) Hreq (Forall_take _ n _ Hlen))
    ltac:(rewrite <- Hlt at 2; by apply resolves_request) Hdata) as (r' & u' & o & El & Ho).
  { intros r1 Hi Hv.
    assert (E : exists r2, next_datagram r1 = (r2, short_read (fin (view r1)))).
    { destruct ((request_packet request <$> cs) !! n) as [k|] eqn:Ek; [destruct Hrest as [Hp Hl]|].
      - apply (next_datagram_cut r1 k d); [done|..]; rewrite ?Hv; [..|done|done].
        + eapply Forall_lookup_1; [by apply packets_request_ok|exact Ek].
        + apply list_lookup_fmap_Some in Ek as (c & -> & _).
          unfold resolves, request_packet; simpl. rewrite <- Hd. by destruct (addr_port request).
      - apply next_datagram_end; [done|]. by rewrite Hv. }
    destruct E as (r2 & E). exists r2, (short_read (fin (view r1))). split; [done|].
    rewrite Hv; simpl. by destruct (fin (view r)). }
  rewrite length_fmap, Hlt in El. exists n, r', u', o. split; [done|]. split.
  { intros k Hk Hkp. rewrite Hdata, !fmap_take in Hkp.
    apply (packets_cut_max (request_packet request <$> cs) n rest); rewrite ?length_fmap; done. }
  split; [done|].
  assert (Hz : zip (pk_payload <$> (request_packet request <$> take n cs)) (replicate n d) =
    (fun c => (c, d)) <$> take n cs).
  { rewrite <- list_fmap_compose. change (zip ((fun x => x) <$> take n cs) (replicate n d) =
      (fun c => (c, d)) <$> take n cs). rewrite list_fmap_id. rewrite <- Hlt at 2. apply zip_replicate. }
  rewrite Hz in Ho. destruct Ho as [[Hs Hf]|Ho]; [left|by right].
  split; [done|by apply same_failure_short_read in Hf].
Qed.

Section Tunnel.
Context {A W R U : Type}.
Context `{AsyncReadExt A} `{!ByteSource A} `{AsyncWriteExt W} `{!ByteSink W}.
Context `{AsyncReadExt R} `{!ByteSource R} `{UdpLawful U} `{Resolver}.

(** C7: the UDP tunnel end to end.  Let the client side relay [n] chunks of
    application data for [request] into the tunnel, and the server side read
    exactly the tunnel's bytes, cut in any way.  Then the server sends the
    client's chunks as datagrams: the same chunks in the same order, nothing
    merged, split, lost or added, all to the address the request resolves to,
    unless the socket fails; and the chunks are the application's bytes. *)
Theorem udp_tunnel_end_to_end request n (a a' : A) (w w' : W) (r : R) (u : U) d :
  request_ok request -> src_inv a -> sink_inv w -> written w = [] ->
  copy_client_reader_to_udp_server_writer request n (a, w) = ((a', w'), Running) ->
  src_inv r -> view r = mkSource (written w') Eof ->
  IpAddrPort_into (addr_port request) = Ok d ->
  exists chunks r' u' o,
    length chunks = n /\ data (view a) = mjoin chunks ++ data (view a') /\
    copy_client_reader_to_udp_socket (S n) (r, u) = ((r', u'), Exited o) /\
    ((sent u' = sent u ++ ((fun c => (c, d)) <$> chunks) /\ o = Err eof_error) \/
     socket_refused ((fun c => (c, d)) <$> chunks) u u' o).
Proof.
  intros Hreq Ha Hw Hw0 E Hr Hv Hd. unfold copy_client_reader_to_udp_server_writer in E.
  rewrite (loop_ext _ _ _ _ (client_to_server_pump request)) in E.
  destruct (pump_spec _ _ sink_inv written (fun c => packet_bytes (request_packet request c))
    (fun x => emits_appends _ _ (emits_write_packet request x Hreq)) _ _ _ _ _ _ Hw E)
    as [_ Hp]. inversion Hp as [cs ? ? Hpull Hn Hlog| |]; subst.
  destruct (pulls_read _ _ _ _ BUF_SIZE_pos Ha Hpull) as (_ & Hda & Hlen).
  rewrite Hw0 in Hlog; simpl in Hlog.
  destruct (forward_request request cs r u d Hreq Hlen Hd Hr) as (r' & u' & o & El & Ho).
  { rewrite Hv; simpl. unfold packets_bytes. by rewrite Hlog, <- list_fmap_compose. }
  rewrite Hv in Ho; simpl in Ho. by exists cs, r', u', o.
Qed.

(** Replies come back through the tunnel.  Let the server side relay [n]
    datagrams for [addr] into the tunnel and the client side read exactly those
    bytes, cut in any way.  Then the client application receives the datagrams'
    contents in order, unless its writer fails.  The client resolves the address
    in each packet although it does not use it, so it has to be resolvable
    there. *)
Theorem udp_tunnel_back addr n (u u' : U) (w w' : W) (r : R) (c : A) d
    `{!AsyncWrite A} `{!AsyncWriteExt A} `{!ByteSink A} :
  addr_ok (ip addr) -> u16_ok (port addr) -> IpAddrPort_into addr = Ok d ->
  sink_inv w -> written w = [] ->
  copy_udp_socket_to_client_writer addr n (u, w) = ((u', w'), Running) ->
  src_inv r -> view r = mkSource (written w') Eof -> sink_inv c ->
  exists datagrams r' c' o,
    length datagrams = n /\ pulls (recv_from BUF_SIZE) u datagrams u' /\
    copy_udp_server_reader_to_client_writer (S n) (r, c) = ((r', c'), Exited o) /\
    ((written c' = written c ++ mjoin datagrams.*1 /\ o = Err eof_error) \/
     writer_refused (mjoin datagrams.*1) c c' o).
Proof.
  intros Ha Hpt Hd Hw Hw0 E Hr Hv Hc. unfold copy_udp_socket_to_client_writer in E.
  rewrite (loop_ext _ _ _ _ (udp_to_client_pump addr)) in E.
  destruct (pump_spec _ _ sink_inv written
    (fun x => packet_bytes (mkPacket (ip addr) (port addr) x.1))
    (fun x => emits_appends _ _ (emits_write_reply addr x.1)) _ _ _ _ _ _ Hw E) as [_ Hp].
  inversion Hp as [ds ? ? Hpull Hn Hlog| |]; subst. rewrite Hw0 in Hlog; simpl in Hlog.
  set (ks := (fun x : list byte * SocketAddr => mkPacket (ip addr) (port addr) x.1) <$> ds).
  destruct (deliver_packets r c ks (replicate (length ds) d)) as (r' & c' & o & El & Ho);
    [done|done| | | |].
  - apply Forall_fmap. eapply Forall_impl; [exact (pulls_recv _ _ _ _ Hpull)|]. by intros x.
  - clear -Hd. unfold ks. induction ds; constructor; [|done].
    unfold resolves; simpl. rewrite <- Hd. by destruct addr.
  - rewrite Hv; simpl. unfold packets_bytes, ks. by rewrite Hlog, <- list_fmap_compose.
  - exists ds, r', c', o. unfold ks in *. rewrite length_fmap in El.
    rewrite Hv, <- list_fmap_compose in Ho. by split_and!.
Qed.
End Tunnel.

(** ** The end of the client's stream *)

Lemma succeeds_write_packet {W} `{AsyncWriteExt W} `{!ByteSink W} `{!ReliableSink W} request payload :
  request_ok request -> succeeds (write_packet request payload : io W unit).
Proof.
  intros Hr. unfold write_packet. eapply succeeds_bind; [by apply emits_write_packet_header| |].
  - destruct Hr as [_ _ Ha _]. unfold write_packet_header.
    eapply succeeds_bind; [auto with emits|auto with emits|intros _].
    eapply (succeeds_bind _ _ (wire_addr (ip (addr_port request)))).
    + destruct (ip (addr_port request)) as [[a|a]|dm]; auto with emits.
      apply (emits_bind _ _ [_]); auto with emits.
    + destruct (ip (addr_port request)) as [[a|a]|dm]; auto with emits.
      eapply succeeds_bind; auto with emits.
    + intros _. do 2 (eapply succeeds_bind; [auto with emits..|intros _]). auto with emits.
  - intros _. do 2 (eapply succeeds_bind; [auto with emits..|intros _]). auto with emits.
Qed.

(** A lawful reader at the end of its stream reads nothing, again and again. *)
Lemma read_at_eof {R} `{AsyncReadExt R} `{!ByteSource R} (r : R) n :
  0 < n -> src_inv r -> view r = mkSource [] Eof ->
  exists r', read n r = (r', Ok []) /\ src_inv r' /\ view r' = mkSource [] Eof.
Proof.
  intros Hn Hr Hv. destruct (read n r) as [r' o] eqn:E.
  destruct (read_view _ _ _ _ Hr Hn E) as (Hi & Hf & Ho). rewrite Hv in *; simpl in *.
  destruct o as [bs|e|p|]; [|by destruct Ho as (_ & ? & _)|done|by destruct Ho as (_ & ? & _)].
  destruct Ho as (Hd & _). symmetry in Hd. apply app_nil in Hd as [-> Hd].
  exists r'. split_and!; [done|done|]. destruct (view r'); simpl in *; by subst.
Qed.

Section EndOfStream.
Context {A W : Type} `{AsyncReadExt A} `{!ByteSource A}.
Context `{AsyncWriteExt W} `{!ByteSink W} `{!ReliableSink W}.

(** C38: the client closing its stream does not end
    [copy_client_reader_to_udp_server_writer]: [read] returns no bytes, the loop
    does not look at that, and after any number [n] of iterations it is still
    running and has sent [n] empty packets to the server. *)
Theorem client_eof_spins request n (a : A) (w : W) :
  request_ok request -> src_inv a -> view a = mkSource [] Eof -> sink_inv w ->
  exists a' w',
    copy_client_reader_to_udp_server_writer request n (a, w) = ((a', w'), Running) /\
    written w' = written w ++ packets_bytes (replicate n (request_packet request [])).
Proof.
  intros Hreq. revert a w. induction n as [|n IH]; intros a w Ha Hv Hw.
  { exists a, w. by rewrite app_nil_r. }
  destruct (read_at_eof a BUF_SIZE BUF_SIZE_pos Ha Hv) as (a1 & E1 & Hi1 & Hv1).
  destruct (succeeds_write_packet request [] Hreq w Hw) as (w1 & [] & Ew).
  destruct (emits_write_packet request [] Hreq _ _ _ Hw Ew) as (Hi & _).
  pose proof (emits_ok _ _ _ _ _ (emits_write_packet request [] Hreq) Hw Ew) as Hl.
  destruct (IH a1 w1 Hi1 Hv1 Hi) as (a2 & w2 & E2 & Hl2). exists a2, w2.
  unfold copy_client_reader_to_udp_server_writer in *.
  rewrite (loop_ext _ _ _ _ (client_to_server_pump request)).
  rewrite (loop_ext _ _ _ _ (client_to_server_pump request)) in E2.
  rewrite (pump_step _ _ _ _ _ _ _ _ E1 Ew). split; [done|].
  by rewrite Hl2, Hl, <- app_assoc.
Qed.
End EndOfStream.

(** ** The gRPC loops *)

Lemma packet_header_vec_ok request (payload : list byte) :
  request_ok request ->
  packet_header_vec request (length payload) =
    Ok (udp_header_bytes (ip (addr_port request)) (port (addr_port request))
          (Z.of_nat (length payload)) (be_bytes 2 CRLF)).
Proof.
  intros Hr. unfold packet_header_vec.
  destruct (succeeds_write_packet (W:=Cursor) request payload Hr (Cursor_new 512) (Cursor_new_inv 512))
    as (c & [] & (c1 & [] & E1 & _)%io_bind_ok_inv).
  rewrite E1; simpl. f_equal.
  exact (cursor_serialises _ _ _ _ _ (emits_write_packet_header request payload Hr) E1).
Qed.

(** What an iteration of [copy_client_reader_to_server_grpc_writer] does to the
    channel, and the two hunks that come of it. *)
Definition send_packet {C} `{Sender C Hunk} (request : InboundRequest) (payload : list byte) :
    io C unit :=
  let? header := io_lift (packet_header_vec request (length payload)) in
  send_hunk header ;;?
  send_hunk payload ;;?
  io_ret tt.

Definition packet_hunks (request : InboundRequest) (payload : list byte) : list Hunk :=
  [mkHunk (udp_header_bytes (ip (addr_port request)) (port (addr_port request))
             (Z.of_nat (length payload)) (be_bytes 2 CRLF)); mkHunk payload].

Lemma client_to_grpc_pump {R C} `{AsyncReadExt R} `{Sender C Hunk} request :
  io_eq (client_to_grpc_body (R:=R) (C:=C) request)
    (pump (read BUF_SIZE) (send_packet request)).
Proof.
  unfold client_to_grpc_body, pump, send_packet. apply io_bind_proper; [done|]. intros bs [r c].
  unfold io_bind, io_lift, on_snd, io_ret; simpl. destruct (packet_header_vec _ _); simpl; try done.
  destruct (send_hunk _ c) as [c1 []]; simpl; try done. by destruct (send_hunk _ c1) as [c2 []].
Qed.

Lemma appends_send_hunk {C} `{SenderLawful C Hunk} bs :
  appends (fun _ => True) queued (send_hunk bs : io C unit) [mkHunk bs].
Proof.
  apply appends_map_err. intros c c' o _ E. destruct (send_queued _ _ _ _ E) as [Hp Hq].
  split_and!; [done..|]. destruct (is_ok o).
  - by exists [mkHunk bs].
  - exists []. rewrite app_nil_r. split_and!; [apply prefix_nil|done|done].
Qed.

Lemma appends_send_packet {C} `{SenderLawful C Hunk} request payload :
  request_ok request ->
  appends (fun _ => True) queued (send_packet request payload : io C unit)
    (packet_hunks request payload).
Proof.
  intros Hr. eapply appends_lift; [by apply packet_header_vec_ok|].
  apply (appends_bind _ _ _ _ [_] [_]); [apply appends_send_hunk|].
  intros _. apply appends_discard, appends_send_hunk.
Qed.

Lemma hunk_bytes_packets request (cs : list (list byte)) :
  hunk_bytes (mjoin (packet_hunks request <$> cs)) = packets_bytes (request_packet request <$> cs).
Proof.
  induction cs as [|c cs IH]; [done|].
  change (hunk_bytes (packet_hunks request c ++ mjoin (packet_hunks request <$> cs)) =
    packet_bytes (request_packet request c) ++ packets_bytes (request_packet request <$> cs)).
  rewrite <- IH. unfold hunk_bytes. rewrite fmap_app, join_app. f_equal.
  unfold packet_hunks, packet_bytes, request_packet. cbn [pk_addr pk_port pk_payload].
  match goal with |- _ = ?h ++ c => change (h ++ c ++ [] = h ++ c) end. by rewrite app_nil_r.
Qed.

Section GrpcTunnel.
Context {A C S U : Type}.
Context `{AsyncReadExt A} `{!ByteSource A} `{SenderLawful C Hunk}.
Context `{HunkSource S} `{!AsyncReadExt (GrpcDataReaderStream S)} `{UdpLawful U} `{Resolver}.

(** The chunks read from a stream that is not at its end are not empty. *)
Lemma pulls_read_nonempty (a : A) cs a' n :
  0 < n -> src_inv a -> fin (view a) <> Eof -> pulls (read n) a cs a' ->
  Forall (fun c => c <> []) cs.
Proof.
  intros Hn Ha Hf Hp. induction Hp as [|a c a1 cs a2 E Hp IH]; constructor.
  - destruct (read_view _ _ _ _ Ha Hn E) as (_ & _ & _ & _ & Hc). intros ->. by apply Hf, Hc.
  - destruct (read_view _ _ _ _ Ha Hn E) as (Hi & Hf' & _). apply IH; [done|congruence].
Qed.


Context {W : Type} `{AsyncWriteExt W} `{!ByteSink W}.

(** Replies over gRPC: packets arriving from the server cut into hunks in any
    way are delivered to the client as the concatenation of their payloads, as
    long as the stream is open and no hunk is empty; then the loop waits for
    more, unless the client's writer fails. *)
Theorem grpc_packets_delivered (s : S) (w : W) ks ds :
  hunks_inv s -> hunks_end s = Open -> Forall (fun h => hunk_data h <> []) (hunks s) ->
  sink_inv w -> Forall packet_ok ks -> Forall2 resolves ks ds ->
  hunk_bytes (hunks s) = packets_bytes ks ->
  exists s' w' o,
    copy_server_grpc_reader_to_client_writer (Datatypes.S (length ks)) (s, w) =
      ((s', w'), Exited o) /\
    ((written w' = written w ++ mjoin (pk_payload <$> ks) /\ o = Pending) \/
     writer_refused (mjoin (pk_payload <$> ks)) w w' o).
Proof.
  intros Hi He Hne Hw Hks Hds Hb.
  exact (deliver_packets (from_reader s) w ks ds (conj Hi (conj He Hne)) Hw Hks Hds Hb).
Qed.
End GrpcTunnel.

(** ** Concrete environments *)

(** A socket with its outbox, the datagrams that will arrive, and how many more
    sends succeed. *)
Record UdpScript := mkUdp {
  outbox : list (list byte * SocketAddr);
  inbox : list (list byte * SocketAddr);
  send_room : option nat;
}.

Definition script_send_to (bs : list byte) (a : SocketAddr) : io UdpScript nat := fun u =>
  match send_room u with
  | Some 0 => (u, Err (mkError ConnectionRefused "network unreachable"))
  | room => (mkUdp (outbox u ++ [(bs, a)]) (inbox u) (pred <$> room), Ok (length bs))
  end.

Definition script_recv_from (n : nat) : io UdpScript (list byte * SocketAddr) := fun u =>
  match inbox u with
  | [] => (u, Pending)
  | (bs, a) :: rest => (mkUdp (outbox u) rest (send_room u), Ok (take n bs, a))
  end.

#[export] Instance UdpScript_UdpSocket : UdpSocket UdpScript := {
  send_to := script_send_to;
  recv_from := script_recv_from;
  recv := fun n u => let '(u', o) := script_recv_from n u in (u', outcome_map fst o)
}.

#[export] Program Instance UdpScript_UdpLawful : UdpLawful UdpScript := { sent := outbox }.
Next Obligation.
  intros bs a u u' o. simpl. unfold script_send_to.
  destruct (send_room u) as [[|k]|]; intros [=<- <-]; done.
Qed.
Next Obligation.
  intros n u u' o. simpl. unfold script_recv_from.
  destruct (inbox u) as [|[bs a] rest]; intros [=<- <-]; split_and!; try done.
  intros d [=<-]. simpl. rewrite length_take. lia.
Qed.
Next Obligation.
  intros n u u' o. simpl. unfold script_recv_from.
  destruct (inbox u) as [|[bs a] rest]; intros [=<- <-]; split_and!; try done.
  intros d [=<-]. rewrite length_take. lia.
Qed.

#[export] Program Instance UdpScript_UdpReceives : UdpReceives UdpScript := { arriving := inbox }.
Next Obligation.
  intros bs a u u' o. simpl. unfold script_send_to.
  destruct (send_room u) as [[|k]|]; intros [=<- <-]; done.
Qed.
Next Obligation.
  intros n u u' o. simpl. unfold script_recv_from.
  destruct (inbox u) as [|[bs a] rest] eqn:E; intros [=<- <-]; [done|]. by exists bs.
Qed.
Next Obligation.
  intros n u u' o. simpl. unfold script_recv_from.
  destruct (inbox u) as [|[bs a] rest] eqn:E; intros [=<- <-]; [done|]. by exists bs, a.
Qed.

(** A channel and how many more items its receiver takes. *)
Record ChannelScript := mkChannel { items : list Hunk; channel_room : option nat }.

#[export] Instance ChannelScript_Sender : Sender ChannelScript Hunk := {
  send := fun h c =>
    match channel_room c with
    | Some 0 => (c, Err (mkError OtherKind "channel closed"))
    | room => (mkChannel (items c ++ [h]) (pred <$> room), Ok tt)
    end
}.

#[export] Program Instance ChannelScript_SenderLawful : SenderLawful ChannelScript Hunk := {
  queued := items
}.
Next Obligation.
  intros h c c' o. simpl. destruct (channel_room c) as [[|k]|]; intros [=<- <-]; done.
Qed.

(** A resolver that knows one name. *)
Definition demo_dest : SocketAddr := mkSocketAddr (V4 167772161) 53.

Definition demo_resolver : Resolver := {|
  to_socket_addrs := fun name p =>
    if decide (name = demo_domain) then inl [mkSocketAddr (V4 167772161) p]
    else inr (mkError OtherKind "failed to lookup address information")
|}.

(** ** Witnesses *)

#[local] Existing Instance demo_resolver.

Definition demo_packets : list packet :=
  [mkPacket (Domain demo_domain) 53 [x41; x42]; mkPacket (IpAddr_ (V4 167772161)) 53 []].

Definition demo_udp : UdpScript := mkUdp [] [([x51], demo_dest); ([x52; x53], demo_dest)] None.

Definition demo_udp_request : InboundRequest :=
  mkInboundRequest DomainName (mkIpAddrPort (Domain demo_domain) 53) Udp TransportUDP TROJAN.

Lemma demo_packets_ok : Forall packet_ok demo_packets.
Proof.
  repeat apply Forall_cons_2; [..|constructor]; unfold packet_ok, BUF_SIZE; simpl;
    unfold u32_ok, u16_ok; lia.
Qed.

Lemma demo_packets_resolve : Forall2 resolves demo_packets [demo_dest; demo_dest].
Proof. repeat constructor. Qed.

Lemma demo_udp_request_ok : request_ok demo_udp_request.
Proof. constructor; simpl; unfold u16_ok; done || lia. Qed.

Lemma client_packets_forwarded_witness :
  exists r' u' o,
    copy_client_reader_to_udp_socket 3 (demo_conn (packets_bytes demo_packets), demo_udp) =
      ((r', u'), Exited o).
Proof.
  destruct (client_packets_forwarded (demo_conn (packets_bytes demo_packets)) demo_udp
    demo_packets [demo_dest; demo_dest]) as (r' & u' & o & E & _).
  - apply demo_conn_inv.
  - apply demo_packets_ok.
  - apply demo_packets_resolve.
  - vm_compute. reflexivity.
  - exists r', u', o. exact E.
Defined.

(** A packet that announces 5000 bytes. *)
Lemma client_bad_packet_panics_witness :
  exists r' u' o,
    copy_client_reader_to_udp_socket 3
      (demo_conn (packets_bytes demo_packets ++
         udp_header_bytes (Domain demo_domain) 53 5000 [x0d; x0a] ++ [x41]), demo_udp) =
      ((r', u'), Exited o).
Proof.
  destruct (client_bad_packet_panics
    (demo_conn (packets_bytes demo_packets ++
       udp_header_bytes (Domain demo_domain) 53 5000 [x0d; x0a] ++ [x41]))
    demo_udp demo_packets [demo_dest; demo_dest] (Domain demo_domain) 53 5000 [x0d; x0a] [x41]
    "Payload size exceeds read buffer size") as (r' & u' & o & E & _).
  - apply demo_conn_inv.
  - apply demo_packets_ok.
  - apply demo_packets_resolve.
  - apply demo_header_sizes.
  - apply demo_header_sizes.
  - unfold u16_ok. lia.
  - reflexivity.
  - vm_compute. reflexivity.
  - split; reflexivity.
  - exists r', u', o. exact E.
Defined.

Lemma server_packets_delivered_witness :
  exists r' w' o,
    copy_udp_server_reader_to_client_writer 3
      (demo_conn (packets_bytes demo_packets), conn [] Eof) = ((r', w'), Exited o).
Proof.
  destruct (server_packets_delivered (demo_conn (packets_bytes demo_packets)) (conn [] Eof)
    demo_packets [demo_dest; demo_dest]) as (r' & w' & o & E & _).
  - apply demo_conn_inv.
  - apply fresh_sink_inv.
  - apply demo_packets_ok.
  - apply demo_packets_resolve.
  - vm_compute. reflexivity.
  - exists r', w', o. exact E.
Defined.

Definition demo_replies : (UdpScript * Conn) * exit unit :=
  copy_udp_socket_to_client_writer (addr_port demo_udp_request) 2 (demo_udp, conn [] Eof).

Lemma udp_replies_framed_witness : flushed demo_replies.1.2 = written demo_replies.1.2.
Proof.
  refine (proj2 (udp_replies_framed (addr_port demo_udp_request) 2 demo_udp demo_replies.1.1
    (conn [] Eof) demo_replies.1.2 Running _ _) eq_refl _).
  - apply fresh_sink_inv.
  - vm_compute. reflexivity.
  - lia.
Defined.

Definition demo_sent : (Conn * Conn) * exit unit :=
  copy_client_reader_to_udp_server_writer demo_udp_request 2
    (conn [Chunk [x41]; NotReady; Chunk [x42; x43]] Stalled, conn [] Eof).

Lemma udp_tunnel_end_to_end_witness :
  exists r' u' o,
    copy_client_reader_to_udp_socket 3 (demo_conn (written demo_sent.1.2), demo_udp) =
      ((r', u'), Exited o).
Proof.
  destruct (udp_tunnel_end_to_end demo_udp_request 2
    (conn [Chunk [x41]; NotReady; Chunk [x42; x43]] Stalled) demo_sent.1.1
    (conn [] Eof) demo_sent.1.2 (demo_conn (written demo_sent.1.2)) demo_udp demo_dest)
    as (cs & r' & u' & o & _ & _ & E & _).
  - apply demo_udp_request_ok.
  - repeat constructor; discriminate.
  - apply fresh_sink_inv.
  - reflexivity.
  - vm_compute. reflexivity.
  - apply demo_conn_inv.
  - vm_compute. reflexivity.
  - vm_compute. reflexivity.
  - exists r', u', o. exact E.
Defined.

Lemma udp_tunnel_back_witness :
  exists r' c' o,
    copy_udp_server_reader_to_client_writer 3 (demo_conn (written demo_replies.1.2), conn [] Eof) =
      ((r', c'), Exited o).
Proof.
  destruct (udp_tunnel_back (addr_port demo_udp_request) 2 demo_udp demo_replies.1.1
    (conn [] Eof) demo_replies.1.2 (demo_conn (written demo_replies.1.2)) (conn [] Eof) demo_dest)
    as (ds & r' & c' & o & _ & _ & E & _).
  - apply demo_header_sizes.
  - apply demo_header_sizes.
  - vm_compute. reflexivity.
  - apply fresh_sink_inv.
  - reflexivity.
  - vm_compute. reflexivity.
  - apply demo_conn_inv.
  - vm_compute. reflexivity.
  - apply fresh_sink_inv.
  - exists r', c', o. exact E.
Defined.

Lemma client_eof_spins_witness :
  exists a' w',
    copy_client_reader_to_udp_server_writer demo_udp_request 1000 (conn [] Eof, Cursor_new 0) =
      ((a', w'), Running).
Proof.
  destruct (client_eof_spins demo_udp_request 1000 (conn [] Eof) (Cursor_new 0))
    as (a' & w' & E & _).
  - apply demo_udp_request_ok.
  - constructor.
  - reflexivity.
  - apply Cursor_new_inv.
  - exists a', w'. exact E.
Defined.

Definition demo_queued : (Conn * ChannelScript) * exit unit :=
  copy_client_reader_to_server_grpc_writer demo_udp_request 2
    (conn [Chunk [x41]; NotReady; Chunk [x42; x43]] Stalled, mkChannel [] None).

Definition demo_queued_script : HunkScript := mkScript (Some <$> queued demo_queued.1.2) Open.


Definition demo_reply_script : HunkScript :=
  mkScript [Some (mkHunk (take 5 (packets_bytes demo_packets))); None;
            Some (mkHunk (drop 5 (packets_bytes demo_packets)))] Open.

Lemma grpc_packets_delivered_witness :
  exists s' w' o,
    copy_server_grpc_reader_to_client_writer 3 (demo_reply_script, conn [] Eof) =
      ((s', w'), Exited o).
Proof.
  destruct (grpc_packets_delivered demo_reply_script (conn [] Eof)
    demo_packets [demo_dest; demo_dest]) as (s' & w' & o & E & _).
  - exact I.
  - reflexivity.
  - repeat constructor; discriminate.
  - apply fresh_sink_inv.
  - apply demo_packets_ok.
  - apply demo_packets_resolve.
  - vm_compute. reflexivity.
  - exists s', w', o. exact E.
Defined.
