(* ===== verification/SocketAddrText.v ===== *)
(** * The textual form of socket addresses

    [str::parse::<SocketAddr>] of the Rust standard library (core::net::parser)
    and the decimal [Display] of integers, as [TcpHandler::init] uses them on the
    configured destination. *)

From Stdlib Require Import ZArith Lia.
From Stdlib Require Import Strings.Byte.
From stdpp Require Import base list strings numbers relations.
From S2P Require Import Prelude Common.

#[local] Open Scope Z_scope.

(** ** Decimal and hexadecimal digits *)

Definition digit_of (z : Z) : byte := as_u8 (48 + z).

(** [char::to_digit(radix)] for the radixes 10 and 16. *)
Definition to_digit (radix : Z) (b : byte) : option Z :=
  let c := u8_to_Z b in
  let d := if (48 <=? c) && (c <=? 57) then Some (c - 48)
           else if (97 <=? c) && (c <=? 102) then Some (c - 87)
           else if (65 <=? c) && (c <=? 70) then Some (c - 55)
           else None in
  d ≫= fun d => if d <? radix then Some d else None.

(** [{}] of an unsigned integer below [10^fuel]. *)
Fixpoint dec_digits (fuel : nat) (z : Z) (acc : list byte) : list byte :=
  match fuel with
  | O => acc
  | S fuel' => if z <? 10 then digit_of z :: acc
               else dec_digits fuel' (z / 10) (digit_of (z mod 10) :: acc)
  end.

Definition fmt_u16 (z : Z) : list byte := dec_digits 5 z [].
Definition fmt_u8 (z : Z) : list byte := dec_digits 3 z [].

(** ** The parser *)

Definition parser (A : Type) : Type := list byte -> option (A * list byte).

(** The digits in front of the input: how many, whether the first is a zero, and
    the value, [None] when it does not fit in [max]. *)
Fixpoint read_digits (radix max : Z) (count : nat) (acc : Z) (s : list byte) :
    option (nat * Z * list byte) :=
  match s with
  | [] => Some (count, acc, [])
  | b :: s' =>
      match to_digit radix b with
      | None => Some (count, acc, s)
      | Some d =>
          if acc * radix + d <=? max then read_digits radix max (S count) (acc * radix + d) s'
          else None
      end
  end.

(** [Parser::read_number] *)
Definition read_number (radix max : Z) (max_digits : option nat) (allow_zero_prefix : bool) :
    parser Z := fun s =>
  match read_digits radix max 0 0 s with
  | None => None
  | Some (count, v, rest) =>
      let too_many := match max_digits with Some m => (m <? count)%nat | None => false end in
      let leading_zero := match s with b :: _ => bool_decide (b = x30) | [] => false end in
      if (count =? 0)%nat || too_many ||
         (negb allow_zero_prefix && leading_zero && (1 <? count)%nat)
      then None else Some (v, rest)
  end.

Definition read_given_char (c : byte) : parser unit := fun s =>
  match s with b :: s' => if decide (b = c) then Some (tt, s') else None | [] => None end.

Definition DOT : byte := x2e.
Definition COLON : byte := x3a.

(** [Parser::read_separator] *)
Definition read_separator {A} (sep : byte) (index : nat) (inner : parser A) : parser A := fun s =>
  if (index =? 0)%nat then inner s
  else '(_, s1) ← read_given_char sep s; inner s1.

Definition read_octet : parser Z := read_number 10 255 (Some 3%nat) false.

(** [Parser::read_ipv4_addr] *)
Definition read_ipv4_addr : parser Z := fun s =>
  '(a, s) ← read_octet s;
  '(b, s) ← read_separator DOT 1 read_octet s;
  '(c, s) ← read_separator DOT 2 read_octet s;
  '(d, s) ← read_separator DOT 3 read_octet s;
  Some (((a * 256 + b) * 256 + c) * 256 + d, s).

(** [read_groups]: up to [limit] groups, the last two of which may be an IPv4
    address; the groups and whether they end in an IPv4 address. *)
Fixpoint read_groups (fuel i limit : nat) (groups : list Z) (s : list byte) :
    list Z * bool * list byte :=
  match fuel with
  | O => (groups, false, s)
  | S fuel' =>
      if (limit <=? i)%nat then (groups, false, s)
      else
        let v4 := if (i <? limit - 1)%nat then read_separator COLON i read_ipv4_addr s else None in
        match v4 with
        | Some (a, s1) => (groups ++ [a / 65536; a mod 65536], true, s1)
        | None =>
            match read_separator COLON i (read_number 16 65535 (Some 4%nat) true) s with
            | Some (g, s1) => read_groups fuel' (S i) limit (groups ++ [g]) s1
            | None => (groups, false, s)
            end
        end
  end.

Definition groups_val (gs : list Z) : Z := fold_left (fun acc g => acc * 65536 + g) gs 0.

(** [Parser::read_ipv6_addr] *)
Definition read_ipv6_addr : parser Z := fun s =>
  let '(head, head_ipv4, s1) := read_groups 8 0 8 [] s in
  if (length head =? 8)%nat then Some (groups_val head, s1)
  else if head_ipv4 then None
  else
    '(_, s2) ← read_given_char COLON s1;
    '(_, s3) ← read_given_char COLON s2;
    let limit := (8 - (length head + 1))%nat in
    let '(tail, _, s4) := read_groups limit 0 limit [] s3 in
    Some (groups_val (head ++ replicate (8 - length head - length tail) 0 ++ tail), s4).

Definition read_port : parser Z := fun s =>
  '(_, s) ← read_given_char COLON s; read_number 10 65535 None true s.

Definition read_socket_addr_v4 : parser SocketAddr := fun s =>
  '(a, s) ← read_ipv4_addr s;
  '(p, s) ← read_port s;
  Some (mkSocketAddr (V4 a) p, s).

(** [read_scope_id]; the scope is not part of the model's address. *)
Definition read_scope_id : parser Z := fun s =>
  '(_, s) ← read_given_char x25 s; read_number 10 4294967295 None true s.

Definition read_socket_addr_v6 : parser SocketAddr := fun s =>
  '(_, s) ← read_given_char x5b s;
  '(a, s) ← read_ipv6_addr s;
  let s := match read_scope_id s with Some (_, s') => s' | None => s end in
  '(_, s) ← read_given_char x5d s;
  '(p, s) ← read_port s;
  Some (mkSocketAddr (V6 a) p, s).

(** [s.parse::<SocketAddr>()] *)
Definition parse_socket_addr (s : list byte) : option SocketAddr :=
  let r := match read_socket_addr_v4 s with
           | Some r => Some r
           | None => read_socket_addr_v6 s
           end in
  match r with Some (a, []) => Some a | _ => None end.

(** [format!("{}:{}", addr, port)] *)
Definition fmt_addr_port (addr : list byte) (p : Z) : list byte := addr ++ [COLON] ++ fmt_u16 p.

(** The dotted form of an IPv4 address. *)
Definition fmt_ipv4 (a b c d : Z) : list byte :=
  fmt_u8 a ++ [DOT] ++ fmt_u8 b ++ [DOT] ++ fmt_u8 c ++ [DOT] ++ fmt_u8 d.

(** ** Printing and parsing back *)

Definition is_digit_char (b : byte) : bool := bool_decide (is_Some (to_digit 10 b)).

Lemma to_digit_digit_of z : 0 <= z < 10 -> to_digit 10 (digit_of z) = Some z.
Proof.
  intros Hz. unfold to_digit, digit_of. rewrite u8_to_as_u8, Z.mod_small by lia.
  destruct (Z.leb_spec 48 (48 + z)), (Z.leb_spec (48 + z) 57); try lia. simpl.
  replace (48 + z - 48) with z by lia. by destruct (Z.ltb_spec z 10); [|lia].
Qed.

(** The value of a string of decimal digits. *)
Definition digits_val (acc : Z) (ds : list Z) : Z := fold_left (fun a d => a * 10 + d) ds acc.

Lemma digits_val_ge acc ds : 0 <= acc -> Forall (fun d => 0 <= d < 10) ds -> acc <= digits_val acc ds.
Proof.
  revert acc; induction ds as [|d ds IH]; intros acc Ha Hd; [unfold digits_val; simpl; lia|].
  apply Forall_cons in Hd as [Hd Hds]. unfold digits_val in *; simpl.
  specialize (IH (acc * 10 + d) ltac:(lia) Hds). lia.
Qed.

Definition stops_digits (s : list byte) : Prop :=
  match s with [] => True | b :: _ => to_digit 10 b = None end.

Lemma read_digits_app max ds count acc rest :
  0 <= acc -> Forall (fun d => 0 <= d < 10) ds -> digits_val acc ds <= max -> stops_digits rest ->
  read_digits 10 max count acc ((digit_of <$> ds) ++ rest) =
    Some ((count + length ds)%nat, digits_val acc ds, rest).
Proof.
  revert count acc; induction ds as [|d ds IH]; intros count acc Ha Hd Hm Hr; simpl.
  - unfold digits_val; simpl. rewrite Nat.add_0_r.
    destruct rest as [|b rest]; simpl in *; [done|by rewrite Hr].
  - apply Forall_cons in Hd as [Hd Hds]. rewrite to_digit_digit_of by done.
    pose proof (digits_val_ge (acc * 10 + d) ds ltac:(lia) Hds) as Hge.
    unfold digits_val in Hm, Hge |- *; simpl in *.
    destruct (Z.leb_spec (acc * 10 + d) max); [|lia].
    unfold digits_val in IH. rewrite IH by (done || lia). do 3 f_equal. lia.
Qed.

(** [dec_digits] writes the digits of the value, the first not a zero unless the
    value is. *)
Lemma dec_digits_spec fuel z acc :
  0 <= z < 10 ^ Z.of_nat fuel -> (0 < fuel)%nat ->
  exists ds, dec_digits fuel z acc = (digit_of <$> ds) ++ acc /\
    Forall (fun d => 0 <= d < 10) ds /\ digits_val 0 ds = z /\
    (0 < length ds <= fuel)%nat /\ (head ds = Some 0 -> length ds = 1%nat).
Proof.
  revert z acc; induction fuel as [|fuel IH]; intros z acc Hz Hf; [lia|]. simpl.
  destruct (Z.ltb_spec z 10) as [Hlt|Hge].
  - exists [z]. split_and!; [done|apply Forall_singleton; lia|unfold digits_val; simpl; lia|simpl; lia..|done].
  - rewrite Nat2Z.inj_succ, Z.pow_succ_r in Hz by lia.
    assert (Hq : 0 <= z / 10 < 10 ^ Z.of_nat fuel).
    { split; [apply Z.div_pos; lia|apply Z.div_lt_upper_bound; lia]. }
    assert (H1 : 1 <= z / 10) by (apply Z.div_le_lower_bound; lia).
    destruct fuel as [|fuel]; [simpl in Hq; lia|].
    destruct (IH (z / 10) (digit_of (z mod 10) :: acc) Hq ltac:(lia))
      as (ds & E & Hds & Hv & Hl & Hz0).
    exists (ds ++ [z mod 10]). rewrite E, fmap_app, <- app_assoc. split_and!; [done| | | | |].
    + apply Forall_app; split; [done|]. apply Forall_singleton, Z.mod_pos_bound; lia.
    + unfold digits_val in *. rewrite fold_left_app, Hv; simpl.
      rewrite (Z.div_mod z 10) at 3 by lia. lia.
    + rewrite length_app; simpl; lia.
    + rewrite length_app; simpl; lia.
    + destruct ds as [|d ds]; [simpl in Hl; lia|]. simpl. intros [= ->].
      specialize (Hz0 eq_refl). destruct ds; [|done]. unfold digits_val in Hv; simpl in Hv. lia.
Qed.

(** Reading back a printed number. *)
Lemma read_number_fmt fuel max md azp z rest :
  0 <= z <= max -> z < 10 ^ Z.of_nat fuel -> (0 < fuel)%nat ->
  (match md with Some m => (fuel <= m)%nat | None => True end) -> stops_digits rest ->
  read_number 10 max md azp (dec_digits fuel z [] ++ rest) = Some (z, rest).
Proof.
  intros Hz Hlt Hf Hmd Hr. destruct (dec_digits_spec fuel z [] ltac:(lia) Hf)
    as (ds & -> & Hds & Hv & Hl & Hz0).
  unfold read_number. rewrite app_nil_r, read_digits_app by (done || lia). rewrite Hv.
  replace (0 + length ds =? 0)%nat with false by (symmetry; apply Nat.eqb_neq; lia).
  replace (match md with Some m => (m <? 0 + length ds)%nat | None => false end) with false.
  2:{ destruct md; [|done]. symmetry. apply Nat.ltb_ge. lia. }
  assert (Hnz : (match (digit_of <$> ds) ++ rest with
                 | b :: _ => bool_decide (b = x30) | [] => false end &&
                 (1 <? 0 + length ds)%nat) = false).
  { destruct ds as [|d ds]; [simpl in Hl; lia|]. simpl.
    apply Forall_cons in Hds as [Hd _]. case_bool_decide as Hb; [|done].
    assert (d = 0) as ->.
    { assert (H0 : to_digit 10 (digit_of d) = to_digit 10 x30) by (by rewrite Hb).
      rewrite to_digit_digit_of in H0 by done. vm_compute in H0. congruence. }
    specialize (Hz0 eq_refl). simpl in Hz0. injection Hz0 as ->. done. }
  destruct azp; simpl in *; [done|]. by rewrite Hnz.
Qed.

Lemma read_separator_hit {A} sep i (inner : parser A) s :
  read_separator sep (S i) inner (sep :: s) = inner s.
Proof. unfold read_separator, read_given_char; simpl. by rewrite decide_True. Qed.

#[local] Arguments read_number : simpl never.
#[local] Arguments dec_digits : simpl never.

(** An IPv4 destination in the configuration is parsed back as that address and
    port. *)
Lemma parse_ipv4_addr_port a b c d p :
  0 <= a <= 255 -> 0 <= b <= 255 -> 0 <= c <= 255 -> 0 <= d <= 255 -> u16_ok p ->
  parse_socket_addr (fmt_addr_port (fmt_ipv4 a b c d) p) =
    Some (mkSocketAddr (V4 (((a * 256 + b) * 256 + c) * 256 + d)) p).
Proof.
  intros Ha Hb Hc Hd Hp. unfold parse_socket_addr, read_socket_addr_v4, read_ipv4_addr, read_octet.
  unfold fmt_addr_port, fmt_ipv4, fmt_u8. rewrite <- !app_assoc.
  assert (Hno : forall z rest, 0 <= z <= 255 -> stops_digits rest ->
    read_number 10 255 (Some 3%nat) false (dec_digits 3 z [] ++ rest) = Some (z, rest)).
  { intros. apply read_number_fmt; simpl; done || lia. }
  do 3 (rewrite Hno by done; simpl; rewrite read_separator_hit).
  rewrite Hno by done. simpl. unfold read_port, read_given_char, fmt_u16; simpl.
  rewrite <- (app_nil_r (dec_digits 5 p [])).
  unfold u16_ok in Hp. by rewrite read_number_fmt by (simpl; done || lia).
Qed.

(** A destination that begins with a letter, as a host name does, is refused. *)
Lemma parse_host_name b s :
  to_digit 10 b = None -> b <> x5b -> parse_socket_addr (b :: s) = None.
Proof.
  intros Hb Hne. unfold parse_socket_addr, read_socket_addr_v4, read_ipv4_addr, read_octet,
    read_number; simpl. rewrite Hb. simpl. unfold read_socket_addr_v6, read_given_char.
  by rewrite decide_False by done.
Qed.
