(* ===== verification/Config.v ===== *)
(** * Configuration: src/config/{base,tls,parser}.rs and the derived secret

    The configuration records, the loading of TLS material, and the derivation
    of the Trojan secret from the configured password, which the TCP acceptor,
    the TCP handler and the gRPC acceptor share.  The file system, the JSON
    deserialiser, rustls and the SHA-224 function are parameters. *)

From Stdlib Require Import ZArith Lia.
From Stdlib Require Import Strings.Byte Strings.String.
From stdpp Require Import base list strings numbers relations.
From S2P Require Import Prelude Common Trojan.

#[local] Open Scope nat_scope.

(** ** base.rs *)

Inductive InboundMode := InboundTCP | InboundGRPC | InboundQUIC.
Inductive OutboundMode := OutboundDIRECT | OutboundTCP | OutboundGRPC | OutboundQUIC.

Record InboundTlsConfig := mkInboundTls { cert_path : string; key_path : string }.
Record OutboundTlsConfig := mkOutboundTls { host_name : string; allow_insecure : bool }.

Record InboundConfig := mkInbound {
  in_mode : InboundMode;
  in_protocol : SupportedProtocols;
  in_address : string;
  in_port : Z;
  in_secret : option string;
  in_tls : option InboundTlsConfig;
}.

Record OutboundConfig := mkOutbound {
  out_mode : OutboundMode;
  out_protocol : SupportedProtocols;
  out_address : option string;
  out_port : option Z;
  out_secret : option string;
  out_tls : option OutboundTlsConfig;
}.

Record Config := mkConfig { inbound : InboundConfig; outbound : OutboundConfig }.

(** ** The environment *)

(** [std::fs::File::open]; the file with its contents. *)
Class FileSystem (File : Type) := { open_file : string -> File + Error }.

(** [serde_json::serde_from_reader] at the type of the configuration. *)
Class ConfigReader (File : Type) := { serde_from_reader : File -> Config + Error }.

(** The item kinds of rustls_pemfile. *)
Inductive PemItem :=
| X509Certificate (der : list byte)
| RSAKey (der : list byte)
| PKCS8Key (der : list byte)
| ECKey (der : list byte)
| OtherItem.

Record Certificate := mkCertificate { certificate_der : list byte }.
Record PrivateKey := mkPrivateKey { private_key_der : list byte }.

(** rustls and rustls_pemfile as far as the sources call them.  A verifier is
    the [verify_server_cert] method of the trait [ServerCertVerifier]: the end
    entity, the intermediates and the server name to an acceptance or an error. *)
Definition Verifier : Type := Certificate -> list Certificate -> string -> outcome unit.

Class Rustls (File ServerConfig ClientConfig RootCertStore : Type) := {
  pem_certs : File -> list (list byte) + Error;
  read_one : File -> option PemItem + Error;
  safe_default_protocol_versions : outcome unit;
  with_single_cert : list Certificate -> PrivateKey -> ServerConfig + Error;
  RootCertStore_empty : RootCertStore;
  add_webpki_roots : RootCertStore -> RootCertStore;
  client_with_roots : RootCertStore -> ClientConfig;
  set_certificate_verifier : Verifier -> ClientConfig -> ClientConfig;
}.

(** The documented behaviour: a client configuration verifies against its roots
    until another verifier is set, which then decides alone; a chain is accepted
    against roots only if it leads to one of them. *)
Class RustlsLawful (File ServerConfig ClientConfig RootCertStore : Type)
    `{Rustls File ServerConfig ClientConfig RootCertStore} := {
  verifier : ClientConfig -> Verifier;
  anchored : RootCertStore -> Certificate -> list Certificate -> string -> Prop;
  verifier_set v c : verifier (set_certificate_verifier v c) = v;
  verifier_roots roots e i n :
    verifier (client_with_roots roots) e i n = Ok tt -> anchored roots e i n;
}.

(** ** tls.rs *)

(** [NoCertificateVerification::verify_server_cert] *)
Definition verify_server_cert : Verifier := fun _end_entity _intermediates _server_name => Ok tt.

Section Tls.
Context {File ServerConfig ClientConfig RootCertStore : Type}.
Context `{FileSystem File} `{Rustls File ServerConfig ClientConfig RootCertStore}.

Definition make_client_config (config : OutboundTlsConfig) : ClientConfig :=
  if allow_insecure config
  then set_certificate_verifier verify_server_cert (client_with_roots RootCertStore_empty)
  else client_with_roots (add_webpki_roots RootCertStore_empty).

Definition load_certs (path : string) : outcome (list Certificate) :=
  match open_file path with
  | inr e => Err e
  | inl reader =>
      match pem_certs reader with
      | inl certs => Ok (mkCertificate <$> certs)
      | inr _ => Err (mkError InvalidData "failed to load tls certificate")
      end
  end.

Definition load_private_key (path : string) : outcome PrivateKey :=
  match open_file path with
  | inr e => Err e
  | inl reader =>
      match read_one reader with
      | inl (Some item) =>
          match item with
          | RSAKey key => Ok (mkPrivateKey key)
          | PKCS8Key key => Ok (mkPrivateKey key)
          | ECKey key => Ok (mkPrivateKey key)
          | _ => Err (mkError InvalidInput "Found cert in ssl key file")
          end
      | inl None => Err (mkError InvalidInput "Failed to find any private key in file")
      | inr e => Err e
      end
  end.

Definition make_server_config (config : InboundTlsConfig) : outcome (option ServerConfig) :=
  match load_certs (cert_path config) with
  | Ok certificates =>
      match load_private_key (key_path config) with
      | Ok key =>
          match safe_default_protocol_versions with
          | Ok _ =>
              match with_single_cert certificates key with
              | inl cfg => Ok (Some cfg)
              | inr _ => Panic "bad certificate/key"
              end
          | _ => Panic "called `Result::unwrap()` on an `Err` value"
          end
      | _ => Ok None
      end
  | _ => Ok None
  end.
End Tls.

(** ** parser.rs *)

Definition invalid_data (e : Error) : Error := mkError InvalidData (message e).

Definition read_config {File} `{FileSystem File} `{ConfigReader File} (path : string) : outcome Config :=
  match open_file path with
  | inr e => Err (invalid_data e)
  | inl reader =>
      match serde_from_reader reader with
      | inl config => Ok config
      | inr e => Err (invalid_data e)
      end
  end.

(** ** The secret *)

(** [Sha224::digest] of the sha2 crate: 28 bytes. *)
Class Sha224 := { digest : list byte -> list byte }.
Class Sha224Lawful `{Sha224} := { length_digest bs : length (digest bs) = 28 }.

(** The characters 0-9, a-f. *)
Definition hex_char (z : Z) : byte := if (z <? 10)%Z then as_u8 (48 + z) else as_u8 (87 + z).

(** [format!("{:02x}", x)] of a byte *)
Definition format_02x (x : byte) : list byte :=
  [hex_char (u8_to_Z x / 16); hex_char (u8_to_Z x mod 16)].

Definition hex_encode (bs : list byte) : list byte := mjoin (format_02x <$> bs).

(** [str::as_bytes] *)
Definition as_bytes (s : string) : list byte := String.list_byte_of_string s.

(** The secret of [TcpAcceptor::init], [TcpHandler::init] and
    [GrpcAcceptor::new]: the same text in the three. *)
Definition derive_secret `{Sha224} (protocol : SupportedProtocols) (secret : option string) :
    list byte :=
  match protocol, secret with
  | TROJAN, Some secret => hex_encode (digest (as_bytes secret))
  | _, _ => []
  end.

(** ** Lemmas *)

Lemma length_hex_encode bs : length (hex_encode bs) = 2 * length bs.
Proof.
  induction bs as [|b bs IH]; [done|].
  change (length (format_02x b ++ hex_encode bs) = 2 * length (b :: bs)).
  rewrite length_app, IH. simpl. lia.
Qed.

(** Two hexadecimal digits determine the byte. *)
Definition unhex_char (c : byte) : Z :=
  if (u8_to_Z c <? 58)%Z then (u8_to_Z c - 48)%Z else (u8_to_Z c - 87)%Z.
Definition unhex (ds : list byte) : byte := as_u8 (fold_left (fun a c => a * 16 + unhex_char c)%Z ds 0%Z).

Lemma unhex_format_02x b : unhex (format_02x b) = b.
Proof. by destruct b. Qed.

#[export] Instance format_02x_inj : Inj (=) (=) format_02x.
Proof. intros a b E. by rewrite <- (unhex_format_02x a), E, unhex_format_02x. Qed.

#[export] Instance hex_encode_inj : Inj (=) (=) hex_encode.
Proof.
  intros a. induction a as [|x a IH]; intros [|y b] E; try done.
  change (format_02x x ++ hex_encode a = format_02x y ++ hex_encode b) in E.
  apply app_inj_1 in E as [Hx Hab]; [|done]. apply (inj format_02x) in Hx. by rewrite Hx, (IH b).
Qed.

Lemma length_derive_secret `{Sha224Lawful} s :
  length (derive_secret TROJAN (Some s)) = HEX_SIZE.
Proof. unfold derive_secret. by rewrite length_hex_encode, length_digest. Qed.

Lemma derive_secret_inj `{Sha224} s1 s2 :
  derive_secret TROJAN (Some s1) = derive_secret TROJAN (Some s2) <->
  digest (as_bytes s1) = digest (as_bytes s2).
Proof. unfold derive_secret. split; [apply (inj hex_encode)|by intros ->]. Qed.

(** ** Theorems *)

Section TlsTheorems.
Context {File ServerConfig ClientConfig RootCertStore : Type}.
Context `{FileSystem File} `{RustlsLawful File ServerConfig ClientConfig RootCertStore}.

(** The client verifies the server's certificate against the web roots unless
    [allow_insecure] is set, and with it set accepts every certificate for every
    name. *)
Theorem client_tls_verification config e i n :
  if allow_insecure config
  then verifier (make_client_config config) e i n = Ok tt
  else verifier (make_client_config config) e i n = Ok tt ->
       anchored (add_webpki_roots RootCertStore_empty) e i n.
Proof.
  unfold make_client_config. destruct (allow_insecure config).
  - by rewrite verifier_set.
  - apply verifier_roots.
Qed.

(** Loading the server's TLS material: the three ways it can end.  It is
    silently absent exactly when a certificate or key file cannot be used, and
    the process panics exactly when both were read and do not go together. *)
Theorem server_config_cases config :
  safe_default_protocol_versions = Ok tt ->
  match make_server_config config with
  | Ok (Some cfg) => exists certs key,
      load_certs (cert_path config) = Ok certs /\ load_private_key (key_path config) = Ok key /\
      with_single_cert certs key = inl cfg
  | Ok None =>
      is_ok (load_certs (cert_path config)) && is_ok (load_private_key (key_path config)) = false
  | Panic p => p = "bad certificate/key" /\ exists certs key e,
      load_certs (cert_path config) = Ok certs /\ load_private_key (key_path config) = Ok key /\
      with_single_cert certs key = inr e
  | _ => False
  end.
Proof.
  intros Hv. unfold make_server_config. rewrite Hv.
  destruct (load_certs (cert_path config)) as [certs|e|p|]; simpl; try done.
  destruct (load_private_key (key_path config)) as [key|e|p|]; simpl; try done.
  destruct (with_single_cert certs key) as [cfg|e] eqn:E; eauto 10.
Qed.
End TlsTheorems.

(** ** A concrete environment *)

(** Files are their paths; the path ["missing"] cannot be opened, the path
    ["mismatch"] is a key that goes with no certificate. *)
#[export] Instance demo_files : FileSystem string := {
  open_file := fun path =>
    if decide (path = "missing"%string) then inr (mkError OtherKind "No such file or directory")
    else inl path
}.

Definition demo_anchored (roots : bool) (e : Certificate) (i : list Certificate) (n : string) : Prop :=
  roots = true /\ certificate_der e = [x01].

#[export] Instance demo_rustls : Rustls string unit Verifier bool := {
  pem_certs := fun _ => inl [[x01]];
  read_one := fun f => inl (Some (RSAKey (if decide (f = "mismatch"%string) then [] else [x02])));
  safe_default_protocol_versions := Ok tt;
  with_single_cert := fun _ key =>
    match private_key_der key with
    | [] => inr (mkError OtherKind "invalid private key")
    | _ => inl tt
    end;
  RootCertStore_empty := false;
  add_webpki_roots := fun _ => true;
  client_with_roots := fun roots e _ _ =>
    if roots && bool_decide (certificate_der e = [x01]) then Ok tt
    else Err (mkError OtherKind "invalid peer certificate");
  set_certificate_verifier := fun v _ => v
}.

#[export] Program Instance demo_rustls_lawful : RustlsLawful string unit Verifier bool := {
  verifier := fun c => c;
  anchored := demo_anchored
}.
Next Obligation. done. Qed.
Next Obligation.
  intros roots e i n. simpl. unfold demo_anchored.
  destruct roots; simpl; [|done]. by case_bool_decide.
Qed.

Lemma client_tls_verification_witness :
  demo_anchored true (mkCertificate [x01]) [] "example.com".
Proof.
  refine (client_tls_verification (mkOutboundTls "example.com" false)
    (mkCertificate [x01]) [] "example.com" _).
  reflexivity.
Defined.

Lemma server_config_cases_witness :
  exists certs key e,
    load_certs "cert" = Ok certs /\ load_private_key "mismatch" = Ok key /\
    with_single_cert certs key = inr e.
Proof.
  exact (proj2 (server_config_cases (mkInboundTls "cert" "mismatch") eq_refl)).
Defined.
