(* ===== verification/TcpAcceptor.v ===== *)
(** * The TCP acceptor: src/proxy/tcp/acceptor.rs

    The acceptor is built once from the inbound configuration and then turns
    each accepted socket into a request and an application stream: TLS first if
    it has a TLS acceptor, then SOCKS5 or Trojan. *)

From Stdlib Require Import ZArith Lia.
From Stdlib Require Import Strings.Byte.
From stdpp Require Import base list strings numbers relations.
From S2P Require Import Prelude AsyncIo Conn Common Trojan Socks5 Stream Config.

#[local] Open Scope nat_scope.

(** [once_cell::sync::OnceCell::get_or_init] with the value already computed, as
    all callers do; the state is the cell. *)
Definition get_or_init {A} (value : A) : io (option A) A := fun cell =>
  match cell with
  | Some a => (cell, Ok a)
  | None => (Some value, Ok value)
  end.

Record TcpAcceptor (ServerConfig : Type) := mkTcpAcceptor {
  tls_acceptor : option ServerConfig;
  ta_port : Z;
  ta_protocol : SupportedProtocols;
  ta_secret : list byte;
}.
Arguments mkTcpAcceptor {ServerConfig} _ _ _ _.
Arguments tls_acceptor {ServerConfig} _.
Arguments ta_port {ServerConfig} _.
Arguments ta_protocol {ServerConfig} _.
Arguments ta_secret {ServerConfig} _.

Section Init.
Context {File ServerConfig ClientConfig RootCertStore : Type}.
Context `{FileSystem File} `{Rustls File ServerConfig ClientConfig RootCertStore} `{Sha224}.

(** [TcpAcceptor::init] *)
Definition TcpAcceptor_init (inbound : InboundConfig) :
    io (option (TcpAcceptor ServerConfig)) (TcpAcceptor ServerConfig) :=
  let secret := derive_secret (in_protocol inbound) (in_secret inbound) in
  let? tls_acceptor := io_lift
    (match in_tls inbound with
     | Some tls => outcome_map (fun cfg =>
         match cfg with Some cfg => Some cfg | None => None end) (make_server_config tls)
     | None => Ok None
     end) in
  get_or_init (mkTcpAcceptor tls_acceptor (in_port inbound) (in_protocol inbound) secret).
End Init.

(** [TlsAcceptor::accept] of tokio-rustls: the TLS handshake on a stream. *)
Class TlsAccept (ServerConfig T TS : Type) := { tls_accept : ServerConfig -> T -> outcome TS }.

Section Accept.
Context {ServerConfig T TS TC : Type} `{TlsAccept ServerConfig T TS}.
#[local] Abbreviation Std := (StandardTcpStream T TS TC).
Context `{AsyncReadExt Std} `{!AsyncWrite Std} `{!AsyncWriteExt Std}.

(** Running a protocol's [accept] on a stream; the stream is handed on with the
    request, or dropped with the error. *)
Definition escalate (m : io Std InboundRequest) (s : Std) : option Std * outcome InboundRequest :=
  let '(s', o) := m s in (Some s', o).

(** [tls_acceptor.accept(inbound_stream).await?] and what follows. *)
Definition over_tls (cfg : ServerConfig) (inbound_stream : T) (m : io Std InboundRequest) :
    option Std * outcome InboundRequest :=
  match tls_accept cfg inbound_stream with
  | Ok tls_stream => escalate m (RustlsServer tls_stream)
  | Err e => (None, Err e)
  | Panic p => (None, Panic p)
  | Pending => (None, Pending)
  end.

(** [TcpAcceptor::accept] *)
Definition tcp_accept (self : TcpAcceptor ServerConfig) (inbound_stream : T) :
    option Std * outcome InboundRequest :=
  match ta_protocol self, tls_acceptor self with
  | SOCKS, Some cfg => over_tls cfg inbound_stream (socks_accept (ta_port self))
  | SOCKS, None => escalate (socks_accept (ta_port self)) (Plain inbound_stream)
  | TROJAN, Some cfg => over_tls cfg inbound_stream (accept (ta_secret self))
  | TROJAN, None => escalate (accept (ta_secret self)) (Plain inbound_stream)
  | _, _ => (None, Err (mkError ConnectionReset
                          "Failed to accept inbound stream, unsupported protocol"))
  end.
End Accept.

(** ** Theorems *)

Section InitTheorems.
Context {File ServerConfig ClientConfig RootCertStore : Type}.
Context `{FileSystem File} `{Rustls File ServerConfig ClientConfig RootCertStore} `{Sha224}.

Lemma TcpAcceptor_init_inv inbound cell (acceptor : TcpAcceptor ServerConfig) :
  TcpAcceptor_init inbound None = (cell, Ok acceptor) ->
  cell = Some acceptor /\ ta_port acceptor = in_port inbound /\
  ta_protocol acceptor = in_protocol inbound /\
  ta_secret acceptor = derive_secret (in_protocol inbound) (in_secret inbound) /\
  match in_tls inbound with
  | Some tls => make_server_config tls = Ok (tls_acceptor acceptor)
  | None => tls_acceptor acceptor = None
  end.
Proof.
  unfold TcpAcceptor_init, io_bind, io_lift.
  destruct (in_tls inbound) as [tls|]; [|by intros [=<- <-]].
  destruct (make_server_config tls) as [[cfg|]| | |]; simpl; try done; by intros [=<- <-].
Qed.

(** The acceptor is initialised once: whatever configuration a later call is
    given, and provided its TLS material does not panic it, it gets the acceptor
    of the first. *)
Theorem acceptor_init_once inbound1 inbound2 cell a cell' o :
  TcpAcceptor_init inbound1 None = (cell, Ok a) ->
  TcpAcceptor_init inbound2 cell = (cell', o) -> is_panic o = false ->
  o = Ok a /\ cell' = Some a.
Proof.
  intros E1 E2 Hp. destruct (TcpAcceptor_init_inv _ _ _ E1) as [-> _]. revert E2 Hp.
  unfold TcpAcceptor_init, io_bind, io_lift.
  destruct (in_tls inbound2) as [tls|]; [|by intros [=<- <-]]. unfold make_server_config.
  repeat case_match; simplify_eq; try done; intros [=<- <-]; done.
Qed.
End InitTheorems.

Section AcceptTheorems.
Context {File ServerConfig ClientConfig RootCertStore T TS TC : Type}.
Context `{FileSystem File} `{Rustls File ServerConfig ClientConfig RootCertStore} `{Sha224Lawful}.
Context `{TlsAccept ServerConfig T TS}.
Context `{ByteDuplex T} `{ByteDuplex TS} `{ByteDuplex TC}.
Context `{!AsyncReadExt (StandardTcpStream T TS TC)} `{!AsyncWriteExt (StandardTcpStream T TS TC)}.
#[local] Abbreviation Std := (StandardTcpStream T TS TC).

(** The stream the protocol is spoken on: the TLS session if TLS is configured. *)
Definition spoken_on (acceptor : TcpAcceptor ServerConfig) (t : T) (s : Std) : Prop :=
  match tls_acceptor acceptor with
  | None => s = Plain t
  | Some cfg => exists ts, tls_accept cfg t = Ok ts /\ s = RustlsServer ts
  end.

Lemma tcp_accept_trojan acceptor t s' q :
  ta_protocol acceptor = TROJAN -> tcp_accept acceptor t = (s', Ok q) ->
  exists s s1 : Std, spoken_on acceptor t s /\ s' = Some s1 /\
    accept (ta_secret acceptor) s = (s1, Ok q).
Proof.
  intros Hp. unfold tcp_accept, spoken_on, over_tls, escalate. rewrite Hp.
  destruct (tls_acceptor acceptor) as [cfg|].
  - destruct (tls_accept cfg t) as [ts| | |]; try done.
    destruct (accept _ (RustlsServer ts)) as [s1 o] eqn:E. intros [=<- ->]. eauto 10.
  - destruct (accept _ (Plain t)) as [s1 o] eqn:E. intros [=<- ->]. eauto 10.
Qed.

(** C1: authentication of the TCP server: a socket is accepted by an acceptor
    configured for Trojan with a password only if the application stream, inside
    TLS when TLS is in use, begins with the hexadecimal SHA-224 of that password;
    the request is then well formed. *)
Theorem tcp_accept_requires_password inbound cell acceptor password t s' q :
  in_protocol inbound = TROJAN -> in_secret inbound = Some password ->
  TcpAcceptor_init inbound None = (cell, Ok acceptor) ->
  (forall s, spoken_on acceptor t s -> src_inv s) ->
  tcp_accept acceptor t = (s', Ok q) ->
  request_ok q /\
  exists s : Std, spoken_on acceptor t s /\
    hex_encode (digest (as_bytes password)) `prefix_of` data (view s).
Proof.
  intros Hp Hs E Hinv Ea. destruct (TcpAcceptor_init_inv _ _ _ E) as (_ & _ & Hpr & Hsec & _).
  destruct (tcp_accept_trojan acceptor t s' q ltac:(congruence) Ea) as (s & s1 & Hon & _ & Eacc).
  destruct (accept_sound _ _ _ _ (Hinv s Hon) Eacc) as (_ & Hpre & Hq & _). split; [done|].
  exists s. split; [done|]. rewrite Hsec, Hp, Hs in Hpre. exact Hpre.
Qed.

(** A Trojan acceptor without a configured password accepts nobody. *)
Theorem missing_password_rejects_all inbound cell acceptor t s' q :
  in_protocol inbound = TROJAN -> in_secret inbound = None ->
  TcpAcceptor_init inbound None = (cell, Ok acceptor) ->
  (forall s, spoken_on acceptor t s -> src_inv s) ->
  tcp_accept acceptor t <> (s', Ok q).
Proof.
  intros Hp Hs E Hinv Ea. destruct (TcpAcceptor_init_inv _ _ _ E) as (_ & _ & Hpr & Hsec & _).
  destruct (tcp_accept_trojan acceptor t s' q ltac:(congruence) Ea) as (s & s1 & Hon & _ & Eacc).
  destruct (accept_sound _ _ _ _ (Hinv s Hon) Eacc) as (Hl & _).
  rewrite Hsec, Hp, Hs in Hl. done.
Qed.

(** C5: the password decides: for the bytes a client with password [pw] sends for
    an IP destination on a plain connection, a server with password [password]
    hands on exactly the client's request when the digests agree and refuses with
    [InvalidInput] when they do not, having consumed exactly the header. *)
Theorem password_decides inbound cell acceptor password pw request i rest t :
  in_protocol inbound = TROJAN -> in_secret inbound = Some password -> in_tls inbound = None ->
  TcpAcceptor_init inbound None = (cell, Ok acceptor) ->
  request_ok request -> ip (addr_port request) = IpAddr_ i ->
  src_inv t ->
  data (view t) = handshake_bytes request (derive_secret TROJAN (Some pw)) ++ rest ->
  exists s : Std, view s = mkSource rest (fin (view t)) /\
    tcp_accept acceptor t =
      (Some s, if decide (digest (as_bytes password) = digest (as_bytes pw))
               then Ok (mkInboundRequest (atype request) (addr_port request) (command request)
                          (transport_protocol request) TROJAN)
               else Err (mkError InvalidInput "Received invalid hex value")).
Proof.
  intros Hp Hs Ht E [Haddr Hport Hat Htr] Hi Hinv Hd.
  destruct (TcpAcceptor_init_inv _ _ _ E) as (_ & _ & Hpr & Hsec & Htls). rewrite Ht in Htls.
  rewrite Hi in Hat, Haddr. rewrite (handshake_bytes_ip _ _ _ Hi Hat) in Hd.
  change (src_inv (Plain t : Std)) in Hinv.
  change (data (view t)) with (data (view (Plain t : Std))) in Hd.
  change (fin (view t)) with (fin (view (Plain t : Std))).
  destruct (accept_header (ta_secret acceptor) (Plain t : Std) _ _ _ _ _ _ rest Hinv
    (length_derive_secret pw) (length_be_bytes 2 CRLF) (length_be_bytes 2 CRLF) Haddr Hport Hd)
    as (s & Hv & Eacc).
  exists s. split; [done|]. unfold tcp_accept, escalate. rewrite Hpr, Hp, Htls, Eacc. f_equal.
  rewrite Hsec, Hp, Hs. destruct (decide (digest (as_bytes password) = _)) as [Heq|Hne].
  - rewrite decide_True by (by apply derive_secret_inj). rewrite Hat, Htr, <- Hi.
    by destruct (addr_port request).
  - rewrite decide_False by (by rewrite derive_secret_inj). done.
Qed.

(** TLS that fails to load is silently off: when TLS is configured but a
    certificate or key file cannot be used, the acceptor is built all the same
    and speaks its protocol in clear on the socket. *)
Theorem tls_downgrade inbound tls :
  in_tls inbound = Some tls ->
  is_ok (load_certs (cert_path tls)) && is_ok (load_private_key (key_path tls)) = false ->
  exists acceptor, TcpAcceptor_init inbound None = (Some acceptor, Ok acceptor) /\
    forall t, tcp_accept acceptor t =
      match in_protocol inbound with
      | TROJAN => escalate (accept (ta_secret acceptor)) (Plain t : Std)
      | SOCKS => escalate (socks_accept (ta_port acceptor)) (Plain t)
      | DIRECT => (None, Err (mkError ConnectionReset
                           "Failed to accept inbound stream, unsupported protocol"))
      end.
Proof.
  intros Ht Hl. assert (Hm : make_server_config tls = Ok None).
  { unfold make_server_config. destruct (load_certs _); try done.
    destruct (load_private_key _); done. }
  eexists. unfold TcpAcceptor_init, io_bind, io_lift. rewrite Ht, Hm. split; [reflexivity|].
  intros t. unfold tcp_accept; simpl. by destruct (in_protocol inbound).
Qed.
End AcceptTheorems.

(** ** Witnesses *)

(** A digest of 28 bytes: the input cut or padded. *)
#[export] Instance demo_sha224 : Sha224 := {
  digest := fun bs => take 28 (bs ++ replicate 28 x00)
}.

#[export] Program Instance demo_sha224_lawful : Sha224Lawful := {}.
Next Obligation.
  intros bs. change (length (take 28 (bs ++ replicate 28 x00)) = 28).
  rewrite length_take, length_app, length_replicate. lia.
Qed.

(** TLS sessions that carry the bytes as they are. *)
#[export] Instance demo_tls_accept : TlsAccept unit Conn Conn := { tls_accept := fun _ c => Ok c }.

Definition demo_inbound (secret : option string) (tls : option InboundTlsConfig) : InboundConfig :=
  mkInbound InboundTCP TROJAN "127.0.0.1" 8081 secret tls.

Definition demo_acceptor (tls : option unit) (secret : option string) : TcpAcceptor unit :=
  mkTcpAcceptor tls 8081 TROJAN (derive_secret TROJAN secret).

Definition demo_hello (pw : string) : Conn :=
  demo_conn (handshake_bytes demo_request (derive_secret TROJAN (Some pw)) ++ [x47]).

Lemma demo_spoken acceptor pw s :
  spoken_on (TC:=Conn) acceptor (demo_hello pw) s -> src_inv s.
Proof.
  unfold spoken_on. destruct (tls_acceptor acceptor).
  - intros (ts & E & ->). injection E as <-. apply demo_conn_inv.
  - intros ->. apply demo_conn_inv.
Qed.

Lemma demo_request_ok : request_ok demo_request.
Proof. constructor; unfold u16_ok; simpl; unfold u32_ok; done || lia. Qed.

Lemma acceptor_init_once_witness :
  TcpAcceptor_init (demo_inbound (Some "other"%string) None)
    (Some (demo_acceptor None (Some "hunter2"%string))) =
  (Some (demo_acceptor None (Some "hunter2"%string)),
   Ok (demo_acceptor None (Some "hunter2"%string))).
Proof.
  destruct (acceptor_init_once (demo_inbound (Some "hunter2"%string) None)
    (demo_inbound (Some "other"%string) None) _ (demo_acceptor None (Some "hunter2"%string))
    _ _ eq_refl eq_refl eq_refl) as [_ _].
  reflexivity.
Defined.

Lemma tcp_accept_requires_password_witness :
  exists s : StandardTcpStream Conn Conn Conn,
    hex_encode (digest (as_bytes "hunter2")) `prefix_of` data (view s).
Proof.
  destruct (tcp_accept_requires_password (TC:=Conn)
    (demo_inbound (Some "hunter2"%string) (Some (mkInboundTls "cert" "key")))
    (Some (demo_acceptor (Some tt) (Some "hunter2"%string)))
    (demo_acceptor (Some tt) (Some "hunter2"%string)) "hunter2" (demo_hello "hunter2")
    (tcp_accept (TC:=Conn) (demo_acceptor (Some tt) (Some "hunter2"%string)) (demo_hello "hunter2")).1
    (mkInboundRequest IPv4 (addr_port demo_request) Connect TransportTCP TROJAN)
    eq_refl eq_refl) as (_ & s & _ & Hs).
  - vm_compute. reflexivity.
  - apply demo_spoken.
  - vm_compute. reflexivity.
  - exists s. exact Hs.
Defined.

Lemma missing_password_rejects_all_witness :
  tcp_accept (TC:=Conn) (demo_acceptor None None) (demo_hello "hunter2") <>
    (None, Ok demo_request).
Proof.
  exact (missing_password_rejects_all (TC:=Conn) (demo_inbound None None) _
    (demo_acceptor None None) (demo_hello "hunter2") None demo_request
    eq_refl eq_refl eq_refl (demo_spoken _ _)).
Defined.

Lemma password_decides_witness :
  exists s : StandardTcpStream Conn Conn Conn,
    tcp_accept (demo_acceptor None (Some "hunter2"%string)) (demo_hello "guess") =
      (Some s, Err (mkError InvalidInput "Received invalid hex value")).
Proof.
  destruct (password_decides (TC:=Conn) (demo_inbound (Some "hunter2"%string) None) _
    (demo_acceptor None (Some "hunter2"%string)) "hunter2" "guess" demo_request
    (V4 16909060) [x47] (demo_hello "guess") eq_refl eq_refl eq_refl eq_refl
    demo_request_ok eq_refl) as (s & _ & E).
  - apply demo_conn_inv.
  - vm_compute. reflexivity.
  - exists s. exact E.
Defined.

Lemma tls_downgrade_witness :
  exists acceptor : TcpAcceptor unit,
    TcpAcceptor_init (demo_inbound (Some "hunter2"%string) (Some (mkInboundTls "missing" "key")))
      None = (Some acceptor, Ok acceptor).
Proof.
  destruct (tls_downgrade (TC:=Conn)
    (demo_inbound (Some "hunter2"%string) (Some (mkInboundTls "missing" "key")))
    (mkInboundTls "missing" "key") eq_refl) as (acceptor & E & _).
  - vm_compute. reflexivity.
  - exists acceptor. exact E.
Defined.
