(* ===== verification/Bounds.v ===== *)
(** * How much the parsers read, and how long the loops run

    What a peer can make the program do before it is authenticated or refused:
    every computation that reads a header takes a bounded number of bytes and
    reaches its verdict on a bounded prefix of the stream, whatever is behind it;
    a loop that reads packets leaves after a number of iterations bounded by the
    bytes it is given. *)

From Stdlib Require Import ZArith Lia.
From Stdlib Require Import Strings.Byte.
From stdpp Require Import base list strings numbers relations.
From S2P Require Import Prelude AsyncIo Conn Relay Common Trojan Socks5 Stream GrpcStream Packet.
From S2P Require Import Config TcpAcceptor.

#[local] Open Scope nat_scope.

(** ** How much a computation reads *)

(** [spends p lo hi]: whatever the outcome, [p] takes at most [hi] bytes off the
    front of the stream, and at least [lo] if it succeeds. *)
Definition spends {A} (p : io source A) (lo hi : nat) : Prop :=
  forall s s' o, p s = (s', o) ->
  fin s' = fin s /\ exists bs, data s = bs ++ data s' /\ length bs <= hi /\
    (is_ok o = true -> lo <= length bs).

(** [verdict p hi]: on a stream of which [hi] bytes are at hand, [p] takes at
    most [hi] bytes and reaches an outcome that depends on them only: not on what
    is behind them, and not on how the stream ends. *)
Definition verdict {A} (p : io source A) (hi : nat) : Prop :=
  forall d, hi <= length d ->
  exists bs d' o, d = bs ++ d' /\ length bs <= hi /\ o <> Pending /\
    forall rest e, p (mkSource (d ++ rest) e) = (mkSource (d' ++ rest) e, o).

Lemma spends_weaken {A} (p : io source A) lo hi lo' hi' :
  spends p lo hi -> lo' <= lo -> hi <= hi' -> spends p lo' hi'.
Proof.
  intros Hp H1 H2 s s' o E. destruct (Hp _ _ _ E) as (? & bs & ? & ? & Hok).
  split; [done|]. exists bs. split_and!; [done|lia|]. intros Ho. specialize (Hok Ho). lia.
Qed.

Lemma verdict_weaken {A} (p : io source A) hi hi' : verdict p hi -> hi <= hi' -> verdict p hi'.
Proof.
  intros Hp Hle d Hd. destruct (Hp d ltac:(lia)) as (bs & d' & o & ? & ? & ? & ?).
  exists bs, d', o. split_and!; [done|lia|done|done].
Qed.

(** Computations that read nothing. *)
Lemma spends_lift {A} (o : outcome A) : spends (io_lift o) 0 0.
Proof. intros s s' o' [= <- <-]. split; [done|]. exists []. split_and!; simpl; [done|lia..]. Qed.

Lemma spends_ret {A} (a : A) : spends (io_ret a) 0 0.
Proof. apply (spends_lift (Ok a)). Qed.

Lemma verdict_lift {A} (o : outcome A) : o <> Pending -> verdict (io_lift o) 0.
Proof. intros Ho d _. exists [], d, o. split_and!; [done|simpl; lia|done|]. by intros. Qed.

Lemma verdict_ret {A} (a : A) : verdict (io_ret a) 0.
Proof. by apply (verdict_lift (Ok a)). Qed.

Lemma spends_exact n : spends (read_exact n) n n.
Proof.
  intros s s' o. cbn [read_exact source_AsyncReadExt]. unfold source_read_exact.
  destruct (Nat.leb_spec n (length (data s))); intros [= <- <-]; (split; [done|]).
  - exists (take n (data s)). rewrite length_take; simpl. rewrite take_drop.
    split_and!; [done|lia|lia].
  - exists (data s). rewrite app_nil_r. split_and!; [done|lia|]. by destruct (fin s).
Qed.

Lemma verdict_exact n : verdict (read_exact n) n.
Proof.
  intros d Hd. exists (take n d), (drop n d), (Ok (take n d)).
  split_and!; [by rewrite take_drop|rewrite length_take; lia|done|].
  intros rest e. cbn [read_exact source_AsyncReadExt]. unfold source_read_exact; cbn [data fin].
  rewrite length_app. destruct (Nat.leb_spec n (length d + length rest)); [|lia].
  by rewrite drop_app_le, take_app_le by lia.
Qed.

Lemma spends_map {A B} (f : A -> B) p lo hi : spends p lo hi -> spends (io_map f p) lo hi.
Proof.
  intros Hp s s' o. unfold io_map. destruct (p s) as [s1 o1] eqn:E. intros [= <- <-].
  destruct (Hp _ _ _ E) as (? & bs & ? & ? & Hok). split; [done|]. exists bs.
  split_and!; [done..|]. intros Ho. apply Hok. by destruct o1.
Qed.

Lemma verdict_map {A B} (f : A -> B) p hi : verdict p hi -> verdict (io_map f p) hi.
Proof.
  intros Hp d Hd. destruct (Hp d Hd) as (bs & d' & o & ? & ? & Ho & E).
  exists bs, d', (outcome_map f o). split_and!; [done|done|by destruct o|].
  intros rest e. unfold io_map. by rewrite E.
Qed.

Lemma spends_bind {A B} (p : io source A) (q : A -> io source B) lo1 hi1 lo2 hi2 :
  spends p lo1 hi1 -> (forall a, spends (q a) lo2 hi2) ->
  spends (io_bind p q) (lo1 + lo2) (hi1 + hi2).
Proof.
  intros Hp Hq s s' o. unfold io_bind. destruct (p s) as [s1 o1] eqn:E1.
  destruct (Hp _ _ _ E1) as (Hf & bs1 & Hd & Hl & Hok).
  destruct o1 as [a|e|m|]; [|intros [= <- <-]; split; [done|]; exists bs1;
    split_and!; [done|lia|done]..].
  intros E2. destruct (Hq _ _ _ _ E2) as (Hf2 & bs2 & Hd2 & Hl2 & Hok2).
  split; [congruence|]. exists (bs1 ++ bs2). rewrite length_app, <- app_assoc, <- Hd2.
  split_and!; [done|lia|]. intros Ho. specialize (Hok eq_refl). specialize (Hok2 Ho). lia.
Qed.

Lemma verdict_bind {A B} (p : io source A) (q : A -> io source B) hi1 hi2 :
  verdict p hi1 -> (forall a, verdict (q a) hi2) -> verdict (io_bind p q) (hi1 + hi2).
Proof.
  intros Hp Hq d Hd. destruct (Hp d ltac:(lia)) as (bs1 & d1 & o1 & -> & Hl & Ho & E1).
  rewrite length_app in Hd. unfold io_bind.
  destruct o1 as [a|e|m|]; [|
    (exists bs1, d1; eexists; split_and!; [done|lia|..|intros rest e0; by rewrite E1]; done)..].
  destruct (Hq a d1 ltac:(lia)) as (bs2 & d2 & o2 & -> & Hl2 & Ho2 & E2).
  exists (bs1 ++ bs2), d2, o2. rewrite length_app, <- app_assoc. split_and!; [done|lia|done|].
  intros rest e. by rewrite E1, E2.
Qed.

(** A computation behind a check of what was read before. *)
Lemma spends_check {A} (b : bool) (q : io source A) msg lo hi :
  (b = true -> spends q lo hi) ->
  spends ((if b then io_ret tt else io_panic msg) ;;? q) lo hi.
Proof.
  destruct b; intros Hq; [by apply (spends_bind _ _ 0 0), (fun _ => Hq eq_refl); apply spends_ret|].
  intros s s' o [= <- <-]. split; [done|]. exists []. split_and!; [done|simpl; lia|done].
Qed.

Lemma spends_lawful {R} `{ByteSource R} {A} (m : io R A) p lo hi r r' o :
  refines m p -> spends p lo hi -> src_inv r -> m r = (r', o) ->
  src_inv r' /\ fin (view r') = fin (view r) /\
  exists bs, data (view r) = bs ++ data (view r') /\ length bs <= hi /\
    (is_ok o = true -> lo <= length bs).
Proof.
  intros Hm Hp Hr E. destruct (Hm r Hr) as (r1 & E1 & Hv & Hi). rewrite E in E1.
  destruct (p (view r)) as [s' o'] eqn:Es; simpl in *. simplify_eq.
  split; [done|]. by eapply Hp.
Qed.

Lemma spends_uint n (p : io source Z) :
  (forall s, p s = io_map be_val (read_exact n) s) -> spends p n n.
Proof. intros E s s' o. rewrite E. apply spends_map, spends_exact. Qed.

Lemma verdict_uint n (p : io source Z) :
  (forall s, p s = io_map be_val (read_exact n) s) -> verdict p n.
Proof.
  intros E d Hd. destruct (verdict_map be_val _ _ (verdict_exact n) d Hd)
    as (bs & d' & o & ? & ? & ? & E'). exists bs, d', o. split_and!; [done..|].
  intros. by rewrite E.
Qed.

Lemma spends_u8 : spends read_u8 1 1.
Proof. apply spends_map, spends_exact. Qed.
Lemma spends_u16 : spends read_u16 2 2.
Proof. by apply spends_uint. Qed.
Lemma spends_u32 : spends read_u32 4 4.
Proof. by apply spends_uint. Qed.
Lemma spends_u128 : spends read_u128 16 16.
Proof. by apply spends_uint. Qed.
Lemma verdict_u8 : verdict read_u8 1.
Proof. apply verdict_map, verdict_exact. Qed.
Lemma verdict_u16 : verdict read_u16 2.
Proof. by apply verdict_uint. Qed.
Lemma verdict_u32 : verdict read_u32 4.
Proof. by apply verdict_uint. Qed.
Lemma verdict_u128 : verdict read_u128 16.
Proof. by apply verdict_uint. Qed.

Create HintDb bounds.
#[export] Hint Resolve spends_ret spends_lift spends_exact spends_u8 spends_u16 spends_u32
  spends_u128 verdict_ret verdict_exact verdict_u8 verdict_u16 verdict_u32 verdict_u128 : bounds.

(** Sum up the bounds of a sequence of reads, one bind after the other. *)
Ltac spend :=
  eapply spends_weaken; [repeat (eapply spends_bind; [|intros ?]); eauto with bounds|..].
Ltac settle :=
  eapply verdict_weaken; [repeat (eapply verdict_bind; [|intros ?]); eauto with bounds|..].

Lemma stops_weaken {A} (p : io source A) (P Q : Error -> Prop) :
  stops p P -> (forall e, P e -> Q e) -> stops p Q.
Proof.
  intros Hp HPQ s s' o E. destruct (Hp _ _ _ E) as [? Ho]. split; [done|].
  destruct o; try done. destruct Ho; eauto.
Qed.

(** ** The parsers *)

Lemma Command_from_settles b : verdict (io_lift (Command_from b)) 0.
Proof. apply verdict_lift. unfold Command_from. by repeat case_decide. Qed.
Lemma Atype_from_settles b : verdict (io_lift (Atype_from b)) 0.
Proof. apply verdict_lift. unfold Atype_from. by repeat case_decide. Qed.

Lemma u8_to_nat_le b : Z.to_nat (u8_to_Z b) <= 255.
Proof. pose proof (u8_to_Z_range b). lia. Qed.

Lemma spends_exact_u8 b : spends (read_exact (Z.to_nat (u8_to_Z b))) 0 255.
Proof. eapply spends_weaken; [apply spends_exact|lia|apply u8_to_nat_le]. Qed.
Lemma verdict_exact_u8 b : verdict (read_exact (Z.to_nat (u8_to_Z b))) 255.
Proof. eapply verdict_weaken; [apply verdict_exact|apply u8_to_nat_le]. Qed.

Lemma spends_address at_ : spends (read_address at_) 1 256.
Proof.
  destruct at_; cbn [read_address]; [spend; lia|spend; lia|].
  eapply spends_weaken; [eapply spends_bind; [apply spends_u8|intros b]|..].
  { eapply spends_bind; [apply spends_exact_u8|intros ?; apply spends_ret]. }
  all: lia.
Qed.

Lemma verdict_address at_ : verdict (read_address at_) 256.
Proof.
  destruct at_; cbn [read_address]; [settle; lia|settle; lia|].
  eapply verdict_weaken; [eapply verdict_bind; [apply verdict_u8|intros b]|].
  { eapply verdict_bind; [apply verdict_exact_u8|intros ?; apply verdict_ret]. }
  lia.
Qed.

#[export] Hint Resolve Command_from_settles Atype_from_settles spends_address verdict_address : bounds.

Lemma spends_parse : spends parse 65 320.
Proof. unfold parse. spend; unfold HEX_SIZE; lia. Qed.

Lemma verdict_parse : verdict parse 320.
Proof. unfold parse. settle; unfold HEX_SIZE; lia. Qed.

Lemma spends_accept secret : spends (accept secret) 65 320.
Proof.
  unfold accept. eapply (spends_bind _ _ 65 320 0 0); [apply spends_parse|intros q].
  destruct (negb _); [apply (spends_lift (Err _))|apply spends_ret].
Qed.

Lemma verdict_accept secret : verdict (accept secret) 320.
Proof.
  unfold accept. eapply (verdict_bind _ _ 320 0); [apply verdict_parse|intros q].
  destruct (negb _); [by apply (verdict_lift (Err _))|apply verdict_ret].
Qed.

Lemma stops_accept secret :
  stops (accept secret)
    (fun e => kind e = Unsupported \/ e = mkError InvalidInput "Received invalid hex value").
Proof.
  unfold accept. apply stops_bind.
  - eapply stops_weaken; [apply stops_parse|by left].
  - intros q. destruct (negb _); [apply (stops_lift (Err _)); by right|apply stops_ret].
Qed.

Lemma spends_socks_address at_ : spends (socks_read_address at_) 1 16.
Proof.
  destruct at_; cbn [socks_read_address]; unfold Vec_with_capacity; cbv zeta; spend; simpl; lia.
Qed.

#[export] Hint Resolve spends_socks_address : bounds.

Lemma took_socks_address at_ :
  took (socks_read_address at_) (fun _ a => at_ = atype_of a /\ addr_ok a).
Proof.
  destruct at_; cbn [socks_read_address]; unfold Vec_with_capacity; cbv zeta;
    (eapply took_weaken; [repeat first
       [ apply took_bind; [|intros ?] | apply took_ret | apply took_u8
       | apply took_exact | eapply took_uint; intros ?; reflexivity ]|]).
  - intros ? ? (bs & ? & ? & -> & [Hl ->] & _ & ->). split; [done|].
    pose proof (be_val_range bs) as Hr. rewrite Hl in Hr. exact Hr.
  - intros ? ? (bs & ? & ? & -> & [Hl ->] & _ & ->). split; [done|].
    pose proof (be_val_range bs) as Hr. rewrite Hl in Hr. exact Hr.
  - intros ? ? (? & ? & sz & _ & _ & ? & ? & d & _ & [-> Hl] & _ & ->).
    split; [done|]. simpl in *. lia.
Qed.

(** A parsed SOCKS5 request is well formed. *)
Lemma took_socks_parse :
  took socks_parse (fun _ q =>
    addr_ok (sr_addr q) /\ u16_ok (sr_port q) /\ sr_atype q = atype_of (sr_addr q)).
Proof.
  unfold socks_parse. eapply took_weaken.
  { apply took_bind; [apply took_u8|intros v]. apply took_bind.
    { instantiate (1 := fun _ _ => True). case_decide; intros s s' a E; [|done].
      destruct (took_ret VERSION _ _ _ E) as (? & bs & ? & _). eauto. }
    intros ?. repeat first
      [ apply took_bind; [|intros ?] | apply took_ret | apply took_u8 | apply took_lift
      | apply took_socks_address | eapply (took_uint 2); intros ?; reflexivity ]. }
  intros ? q (? & ? & v & _ & _ & ? & ? & ver & _ & _ & ? & ? & c & _ & _ & ? & ? & cmd & _ & _ &
    ? & ? & rsv & _ & _ & ? & ? & ab & _ & _ & ? & ? & at_ & _ & _ & ? & ? & a & _ & [Hat Ha] &
    pb & ? & p & _ & [Hp ->] & _ & ->).
  pose proof (be_val_range pb) as Hr. rewrite Hp in Hr. done.
Qed.

Lemma spends_socks_parse : spends socks_parse 7 22.
Proof.
  unfold socks_parse. eapply (spends_bind _ _ 1 1 6 21); [apply spends_u8|intros v].
  eapply (spends_bind _ _ 0 0); [case_decide; [apply spends_ret|apply (spends_lift (Err _))]|intros ?].
  spend; lia.
Qed.

Section Udp.
Context `{Resolver}.

Lemma spends_parse_udp : spends parse_udp 8 263.
Proof. unfold parse_udp. spend; lia. Qed.

Context {R : Type} `{AsyncReadExt R} `{!ByteSource R}.

(** Reading a payload costs the payload and at least eight bytes of header. *)
Lemma spends_payload (r r1 r2 : R) h bs n :
  src_inv r -> parse_udp r = (r1, Ok h) -> read_exact n r1 = (r2, Ok bs) ->
  src_inv r2 /\ 8 + length bs + length (data (view r2)) <= length (data (view r)) /\
  length bs = n.
Proof.
  intros Hr E1 E2.
  destruct (spends_lawful _ _ _ _ _ _ _ refines_parse_udp spends_parse_udp Hr E1)
    as (Hi & _ & bs1 & Hd1 & _ & Hlo). specialize (Hlo eq_refl).
  destruct (refines_read_exact n r1 Hi) as (r2' & E2' & Hv & Hi2). rewrite E2 in E2'.
  cbn [read_exact source_AsyncReadExt] in E2', Hv. unfold source_read_exact in *.
  destruct (Nat.leb_spec n (length (data (view r1)))); simpl in *.
  - simplify_eq. rewrite Hv, Hd1, length_app; simpl. rewrite length_drop, length_take.
    split_and!; [done|lia|lia].
  - by destruct (fin (view r1)).
Qed.

Lemma next_datagram_pays (r : R) x (r' : R) :
  src_inv r -> next_datagram r = (r', Ok x) ->
  src_inv r' /\ 8 + length x.1 + length (data (view r')) <= length (data (view r)) /\
  length x.1 <= BUF_SIZE.
Proof.
  unfold next_datagram. intros Hr E. io_inv. cbn [fst].
  destruct (Nat.leb_spec (payload_size x1) BUF_SIZE) as [Hle|]; [|done].
  destruct (Nat.eqb_spec (length x7) (payload_size x1)) as [Hn|]; [|done].
  io_inv. edestruct spends_payload as (? & ? & ?); [exact Hr|eassumption..|].
  split_and!; [done|done|lia].
Qed.

Lemma next_payload_pays (r : R) bs (r' : R) :
  src_inv r -> next_payload r = (r', Ok bs) ->
  src_inv r' /\ 8 + length bs + length (data (view r')) <= length (data (view r)).
Proof.
  unfold next_payload. intros Hr E. io_inv.
  edestruct spends_payload as (? & ? & ?); [exact Hr|eassumption..|]. by split.
Qed.
End Udp.

(** ** Theorems *)

Section Accept.
Context {R : Type} `{AsyncReadExt R} `{!ByteSource R}.

(** C19: a bound on what an unauthenticated peer can make the Trojan acceptor
    read, and on how long it can keep it undecided: once 320 bytes of a stream
    have arrived, [accept] returns a request or an error (never waits, never
    panics), having taken at most those bytes; and it returns the same, and
    leaves the same bytes unread, on every stream that begins with them, whatever
    follows and however that stream is chunked or ends. *)
Theorem accept_decides_early secret (r : R) :
  src_inv r -> 320 <= length (data (view r)) ->
  exists bs o, length bs <= 320 /\ bs `prefix_of` data (view r) /\
    match o with
    | Ok _ => 65 <= length bs
    | Err e => kind e = Unsupported \/ e = mkError InvalidInput "Received invalid hex value"
    | _ => False
    end /\
    forall r1 : R, src_inv r1 -> take 320 (data (view r)) `prefix_of` data (view r1) ->
    exists r1', accept secret r1 = (r1', o) /\ src_inv r1' /\
      data (view r1) = bs ++ data (view r1') /\ fin (view r1') = fin (view r1).
Proof.
  intros Hr Hlen. set (d := take 320 (data (view r))).
  assert (Hd : 320 <= length d) by (unfold d; rewrite length_take; lia).
  destruct (verdict_accept secret d Hd) as (bs & d' & o & Hsplit & Hl & Ho & E).
  exists bs, o. split; [done|]. split.
  { etrans; [|apply (prefix_take _ 320)]. fold d. rewrite Hsplit. by exists d'. }
  assert (E0 := E [] Stalled). rewrite !app_nil_r in E0. split.
  - destruct (spends_accept secret _ _ _ E0) as (_ & bs' & Hd2 & _ & Hok). simpl in Hd2.
    rewrite Hsplit in Hd2. apply (inj (fun l => l ++ d')) in Hd2 as <-.
    destruct (stops_accept secret _ _ _ E0) as [_ Hs].
    destruct o; try done; [by apply Hok|]. by destruct Hs.
  - intros r1 Hr1 [rest Hrest]. destruct (refines_accept secret r1 Hr1) as (r1' & E1 & Hv & Hi).
    destruct (view r1) as [d1 e1] eqn:Ev; simpl in *. subst d1.
    rewrite (E rest e1) in E1, Hv. exists r1'. rewrite Hv; simpl.
    split_and!; [done|done|by rewrite Hsplit, <- app_assoc|done].
Qed.
End Accept.

(** ** Termination of the packet loops *)

Section Termination.
Context {R : Type} `{AsyncReadExt R} `{!ByteSource R} `{Resolver}.

(** What [n] bytes of a tunnel pay for. *)
Definition packet_cost {X} (size : X -> nat) (x : X) : nat := 8 + size x.

Lemma packet_cost_ge {X} (size : X -> nat) x : 8 <= packet_cost size x.
Proof. unfold packet_cost. lia. Qed.

(** C14: [copy_client_reader_to_udp_socket] terminates on every input, well formed
    or not: given [n] bytes it leaves, with a failure, within [n / 8 + 1]
    iterations; the datagrams it has sent by then have payloads of at most 4096
    bytes, and their payloads and eight bytes for each do not add up to more than
    [n]: the forwarder does not amplify. *)
Theorem udp_forwarding_terminates {U} `{UdpLawful U} (r : R) (u : U) :
  src_inv r ->
  exists r' u' o datagrams,
    copy_client_reader_to_udp_socket (S (length (data (view r)) / 8)) (r, u) =
      ((r', u'), Exited o) /\ is_ok o = false /\
    sent u' = sent u ++ datagrams /\
    Forall (fun d => length d.1 <= BUF_SIZE) datagrams /\
    sum_list_with (packet_cost (fun d => length d.1)) datagrams <= length (data (view r)).
Proof.
  intros Hr. set (size := fun d : list byte * SocketAddr => length d.1).
  destruct (pump_terminates next_datagram (fun x => send_to x.1 x.2 ;;? io_ret tt) (fun _ => True)
    sent (fun x => [x]) src_inv (fun r => length (data (view r))) (packet_cost size) 8 r u
    (S (length (data (view r)) / 8))) as (r' & u' & o & xs & r1 & out & E & Ho & Hp & Hsum & Hpre & Hl).
  - apply appends_send_to.
  - intros s x s' Hs E. destruct (next_datagram_pays _ _ _ Hs E) as (? & ? & _). by split.
  - apply packet_cost_ge.
  - done.
  - done.
  - pose proof (Nat.div_mod (length (data (view r))) 8).
    pose proof (Nat.mod_upper_bound (length (data (view r))) 8). lia.
  - rewrite mjoin_singletons in Hpre. destruct Hpre as [zs ->].
    exists r', u', o, out. split_and!; [|done|done| |].
    + unfold copy_client_reader_to_udp_socket. by rewrite (loop_ext _ _ _ _ client_to_udp_pump).
    + apply pulls_app_inv in Hp as (r2 & Hp & _). clear -Hp Hr.
      induction Hp as [s|s x s1 xs s2 E _ IH]; [constructor|].
      destruct (next_datagram_pays _ _ _ Hr E) as (Hi & _ & Hle). constructor; auto.
    + rewrite sum_list_with_app in Hsum. unfold size in *. lia.
Qed.

(** The other end of the tunnel, [copy_udp_server_reader_to_client_writer],
    terminates as well, and gives the client no more bytes than it was given. *)
Theorem udp_delivery_terminates {W} `{AsyncWriteExt W} `{!ByteSink W} (r : R) (w : W) :
  src_inv r -> sink_inv w ->
  exists r' w' o out,
    copy_udp_server_reader_to_client_writer (S (length (data (view r)) / 8)) (r, w) =
      ((r', w'), Exited o) /\ is_ok o = false /\
    written w' = written w ++ out /\ length out <= length (data (view r)).
Proof.
  intros Hr Hw.
  destruct (pump_terminates next_payload write_all sink_inv written (fun x => x) src_inv
    (fun r => length (data (view r))) (packet_cost length) 8 r w
    (S (length (data (view r)) / 8))) as (r' & w' & o & xs & r1 & out & E & Ho & Hp & Hsum & Hpre & Hl).
  - intros x. apply emits_appends, emits_write_all.
  - intros s x s' Hs E. by apply next_payload_pays.
  - apply packet_cost_ge.
  - done.
  - done.
  - pose proof (Nat.div_mod (length (data (view r))) 8).
    pose proof (Nat.mod_upper_bound (length (data (view r))) 8). lia.
  - exists r', w', o, out. split_and!; [|done|done|].
    + unfold copy_udp_server_reader_to_client_writer.
      by rewrite (loop_ext _ _ _ _ server_to_client_pump).
    + apply prefix_length in Hpre. rewrite list_fmap_id in Hpre. etrans; [exact Hpre|].
      etrans; [|exact Hsum]. clear. induction xs as [|x xs IH]; [done|].
      simpl. rewrite length_app. unfold packet_cost in *. lia.
Qed.
End Termination.

(** ** The TCP acceptor *)

(** [limited m n]: [m] takes at most [n] bytes off the stream it reads and
    writes. *)
Definition limited {T} `{ByteDuplex T} {A} (m : io T A) (n : nat) : Prop :=
  forall t t' o, both_inv t -> m t = (t', o) ->
  both_inv t' /\ exists bs, data (view t) = bs ++ data (view t') /\ length bs <= n.

Section Limited.
Context {T : Type} `{AsyncReadExt T} `{!ByteSource T}.
Context `{!AsyncWrite T} `{!AsyncWriteExt T} `{!ByteSink T} `{!ByteDuplex T}.

Lemma limited_still {A} (m : io T A) bs : emits m bs -> still m -> limited m 0.
Proof.
  intros He Hs t t' o [Hr Hw] E. destruct (Hs _ _ _ (conj Hr Hw) E) as [Hr' Hv].
  destruct (He _ _ _ Hw E) as [Hw' _]. split; [by split|]. exists []. by rewrite Hv.
Qed.

Lemma limited_quiet {A} (m : io T A) p lo hi :
  refines m p -> spends p lo hi -> quiet m -> limited m hi.
Proof.
  intros Hm Hp Hq t t' o Ht E. destruct (Hq _ _ _ Ht E) as [Hi _].
  destruct (spends_lawful _ _ _ _ _ _ _ Hm Hp (proj1 Ht) E) as (_ & _ & bs & Hd & Hl & _).
  split; [done|]. by exists bs.
Qed.

Lemma limited_read n : 0 < n -> limited (read n : io T _) n.
Proof.
  intros Hn t t' o Ht E. destruct (quiet_read n Hn _ _ _ Ht E) as [Hi _]. split; [done|].
  destruct (read_view _ _ _ _ (proj1 Ht) Hn E) as (_ & _ & Ho). destruct o as [bs| | |].
  - destruct Ho as (Hd & Hl & _). by exists bs.
  - destruct Ho as (-> & _ & ->). exists []. split; [done|simpl; lia].
  - done.
  - destruct Ho as (-> & _ & ->). exists []. split; [done|simpl; lia].
Qed.

Lemma limited_bind {A B} (m : io T A) (k : A -> io T B) n1 n2 :
  limited m n1 -> (forall a, limited (k a) n2) -> limited (io_bind m k) (n1 + n2).
Proof.
  intros Hm Hk t t' o Ht. unfold io_bind. destruct (m t) as [t1 o1] eqn:E1.
  destruct (Hm _ _ _ Ht E1) as (Hi & bs & Hd & Hl).
  destruct o1 as [a|e|p|]; [|intros [= <- <-]; split; [done|]; exists bs; split; [done|lia]..].
  intros E2. destruct (Hk _ _ _ _ Hi E2) as (Hi2 & bs2 & Hd2 & Hl2). split; [done|].
  exists (bs ++ bs2). rewrite length_app, <- app_assoc, <- Hd2. split; [done|lia].
Qed.

Lemma limited_reply bs (port : option Z) :
  limited (write_all bs ;;?
           (match port with Some p => write_u16 p | None => io_ret tt end) ;;?
           flush ;;? io_ret tt : io T unit) 0.
Proof.
  apply (limited_bind _ _ 0 0); [eapply limited_still; auto with emits|intros _].
  apply (limited_bind _ _ 0 0); [destruct port; eapply limited_still; auto with emits|intros _].
  apply (limited_bind _ _ 0 0); [eapply limited_still; auto with emits|intros _].
  eapply limited_still; auto with emits.
Qed.

(** A SOCKS5 accept reads at most the 32 bytes offered to the hello and the 22 of
    the longest request it can parse. *)
Lemma limited_socks_accept port : limited (socks_accept port : io T _) 54.
Proof.
  unfold socks_accept. apply (limited_bind _ _ 32 22).
  { apply (limited_bind _ _ 32 0); [apply limited_read; lia|intros _].
    exact (limited_reply (ServerHello_bytes (ServerHello_new x00)) None). }
  intros _. apply (limited_bind _ _ 22 0).
  { eapply limited_quiet; [apply refines_socks_parse|apply spends_socks_parse|apply quiet_socks_parse]. }
  intros q. apply (limited_bind _ _ 0 0); [exact (limited_reply _ (Some port))|intros _].
  eapply limited_still; auto with emits.
Qed.

Lemma socks_accept_typed port (t t' : T) q :
  both_inv t -> socks_accept port t = (t', Ok q) -> request_ok q /\ proxy_protocol q = SOCKS.
Proof.
  intros Ht E. unfold socks_accept in E. io_inv.
  destruct (limited_bind _ _ 32 0 (limited_read 32 ltac:(lia)) (fun _ =>
    limited_reply (ServerHello_bytes (ServerHello_new x00)) None) _ _ _ Ht
    ltac:(eassumption)) as [Hi _].
  match goal with Hp : socks_parse _ = _ |- _ =>
    destruct (refines_socks_parse _ (proj1 Hi)) as (t1 & E1 & _); rewrite Hp in E1 end.
  destruct (socks_parse (view _)) as [s o] eqn:Es; simpl in E1. simplify_eq.
  destruct (took_socks_parse _ _ _ Es) as (_ & _ & _ & Ha & Hp & Hat).
  unfold SocksRequest_into_request.
  destruct (sr_command _) eqn:Ec; (split; [constructor; simpl; rewrite ?Ec|]; done).
Qed.
End Limited.

Section TcpAccept.
Context {ServerConfig T TS TC : Type} `{TlsAccept ServerConfig T TS}.
Context `{ByteDuplex T} `{ByteDuplex TS} `{ByteDuplex TC}.
Context `{!AsyncReadExt (StandardTcpStream T TS TC)} `{!AsyncWriteExt (StandardTcpStream T TS TC)}.
#[local] Abbreviation Std := (StandardTcpStream T TS TC).

(** The most an acceptor takes off a stream before its verdict. *)
Definition header_limit (p : SupportedProtocols) : nat :=
  match p with TROJAN => 320 | SOCKS => 54 | DIRECT => 0 end.

(** The protocol an acceptor speaks. *)
Definition dialogue (acceptor : TcpAcceptor ServerConfig) : io Std InboundRequest :=
  match ta_protocol acceptor with
  | TROJAN => accept (ta_secret acceptor)
  | SOCKS => socks_accept (ta_port acceptor)
  | DIRECT => io_err (mkError ConnectionReset
                        "Failed to accept inbound stream, unsupported protocol")
  end.

(** An acceptor hands on nothing but what the dialogue left of the stream it is
    spoken on. *)
Lemma tcp_accept_dialogue acceptor t (s1 : Std) o :
  tcp_accept acceptor t = (Some s1, o) ->
  exists s, spoken_on acceptor t s /\ dialogue acceptor s = (s1, o).
Proof.
  unfold tcp_accept, spoken_on, dialogue, over_tls, escalate.
  destruct (ta_protocol acceptor), (tls_acceptor acceptor) as [cfg|]; try done;
    try destruct (tls_accept cfg t) as [ts| | |]; try done;
    match goal with |- context [let '(_, _) := ?m in _] => destruct m as [s2 o2] eqn:E end;
    intros [= <- <-]; eauto.
Qed.

Lemma tcp_accept_ok_some acceptor t s' q :
  tcp_accept acceptor t = (s', Ok q) -> exists s1 : Std, s' = Some s1.
Proof.
  unfold tcp_accept, over_tls, escalate.
  destruct (ta_protocol acceptor), (tls_acceptor acceptor) as [cfg|]; try done;
    try destruct (tls_accept cfg t) as [ts| | |]; try done;
    match goal with |- context [let '(_, _) := ?m in _] => destruct m as [s2 o2] end;
    intros E; simplify_eq; eauto.
Qed.

(** Whatever a peer sends, the acceptor takes at most [header_limit] bytes
    off its stream, 320 for Trojan and 54 for SOCKS5, to accept or to refuse it:
    what is behind them is still in the stream, in order, for the relay or to be
    dropped. *)
Theorem tcp_accept_bounded acceptor t (s1 : Std) o :
  (forall s, spoken_on acceptor t s -> both_inv s) ->
  tcp_accept acceptor t = (Some s1, o) ->
  exists s, spoken_on acceptor t s /\
  exists bs, data (view s) = bs ++ data (view s1) /\
    length bs <= header_limit (ta_protocol acceptor).
Proof.
  intros Hinv E. destruct (tcp_accept_dialogue _ _ _ _ E) as (s & Hon & Ed).
  exists s. split; [done|]. revert Ed. unfold dialogue, header_limit.
  destruct (ta_protocol acceptor); intros Ed.
  - by destruct (limited_socks_accept _ _ _ _ (Hinv s Hon) Ed) as [_ ?].
  - destruct (spends_lawful _ _ _ _ _ _ _ (refines_accept _) (spends_accept _)
      (proj1 (Hinv s Hon)) Ed) as (_ & _ & bs & ? & ? & _). by exists bs.
  - injection Ed as <- _. by exists [].
Qed.

(** C20: requests are well typed: whatever the protocol and whatever the peer
    sends, a request the acceptor hands on has an address of the announced type
    and within the range of that type, a 16-bit port, the transport its command
    calls for, and names the protocol of the acceptor. *)
Theorem tcp_accept_well_typed acceptor t s' q :
  (forall s, spoken_on acceptor t s -> both_inv s) ->
  tcp_accept (TC:=TC) acceptor t = (s', Ok q) ->
  request_ok q /\ proxy_protocol q = ta_protocol acceptor.
Proof.
  intros Hinv E. destruct (tcp_accept_ok_some _ _ _ _ E) as [s1 ->].
  destruct (tcp_accept_dialogue _ _ _ _ E) as (s & Hon & Ed). revert Ed. unfold dialogue.
  destruct (ta_protocol acceptor); intros Ed.
  - exact (socks_accept_typed _ _ _ _ (Hinv s Hon) Ed).
  - destruct (accept_sound _ _ _ _ (proj1 (Hinv s Hon)) Ed) as (_ & _ & ? & ?). by split.
  - discriminate Ed.
Qed.
End TcpAccept.

(** ** Witnesses *)

#[local] Existing Instance demo_resolver.

(** A header with the wrong hash, more bytes behind it, in two chunks. *)
Definition demo_flood : Conn :=
  conn [Chunk (replicate 56 x00); Chunk ([x0d; x0a; x01; x01] ++ replicate 300 x00)] Stalled.

Lemma demo_flood_inv : src_inv demo_flood.
Proof. repeat constructor; discriminate. Qed.

Lemma accept_decides_early_witness :
  exists (bs : list byte) (o : outcome InboundRequest), length bs <= 320 /\
    exists r1', accept (derive_secret TROJAN (Some "hunter2"%string)) demo_flood = (r1', o).
Proof.
  destruct (accept_decides_early (derive_secret TROJAN (Some "hunter2"%string)) demo_flood
    demo_flood_inv) as (bs & o & Hl & _ & _ & Hall).
  - apply Nat.leb_le. vm_compute. reflexivity.
  - exists bs, o. split; [exact Hl|].
    destruct (Hall demo_flood demo_flood_inv (prefix_take _ _)) as (r1' & E & _).
    by exists r1'.
Defined.

Lemma udp_forwarding_terminates_witness :
  exists st o, is_ok o = false /\
    copy_client_reader_to_udp_socket
      (S (length (data (view (demo_conn (packets_bytes demo_packets)))) / 8))
      (demo_conn (packets_bytes demo_packets), demo_udp) = (st, Exited o).
Proof.
  destruct (udp_forwarding_terminates (demo_conn (packets_bytes demo_packets)) demo_udp
    (demo_conn_inv _)) as (r' & u' & o & ds & E & Ho & _).
  exists (r', u'), o. by split.
Defined.

Lemma udp_delivery_terminates_witness :
  exists st o, is_ok o = false /\
    copy_udp_server_reader_to_client_writer
      (S (length (data (view (demo_conn (packets_bytes demo_packets)))) / 8))
      (demo_conn (packets_bytes demo_packets), conn [] Eof) = (st, Exited o).
Proof.
  destruct (udp_delivery_terminates (demo_conn (packets_bytes demo_packets)) (conn [] Eof)
    (demo_conn_inv _) (fresh_sink_inv _ _ _)) as (r' & w' & o & out & E & Ho & _).
  exists (r', w'), o. by split.
Defined.

(** A SOCKS5 acceptor and a client of it. *)
Definition demo_socks_acceptor : TcpAcceptor unit := mkTcpAcceptor None 1080 SOCKS [].

Lemma demo_socks_spoken (s : StandardTcpStream Conn Conn Conn) :
  spoken_on demo_socks_acceptor demo_socks_conn s -> both_inv s.
Proof. intros ->. exact demo_socks_conn_inv. Qed.

Definition demo_socks_accepted : option (StandardTcpStream Conn Conn Conn) * outcome InboundRequest :=
  tcp_accept demo_socks_acceptor demo_socks_conn.

Lemma tcp_accept_bounded_witness :
  exists s1 : StandardTcpStream Conn Conn Conn, demo_socks_accepted.1 = Some s1 /\
  exists bs, data (view demo_socks_conn) = bs ++ data (view s1) /\ length bs <= 54.
Proof.
  destruct demo_socks_accepted as [[s1|] o] eqn:E; [|vm_compute in E; discriminate E].
  exists s1. split; [reflexivity|].
  destruct (tcp_accept_bounded demo_socks_acceptor demo_socks_conn s1 o demo_socks_spoken E)
    as (s & Hs & bs & Hd & Hl).
  rewrite Hs in Hd. exists bs. by split.
Defined.

Lemma tcp_accept_well_typed_witness :
  request_ok (mkInboundRequest IPv4 (mkIpAddrPort (IpAddr_ (V4 16909060)) 80) Connect
    TransportTCP SOCKS).
Proof.
  refine (proj1 (tcp_accept_well_typed demo_socks_acceptor demo_socks_conn demo_socks_accepted.1 _
    demo_socks_spoken _)).
  vm_compute. reflexivity.
Defined.
