(* ===== verification/TcpHandler.v ===== *)
(** * The outbound handler: src/proxy/tcp/handler.rs

    The handler is built once from the outbound configuration.  For each request
    it dials the destination (directly, or a remote proxy over TCP, TLS, gRPC or
    QUIC), speaks the Trojan handshake to a remote proxy, and relays both
    directions until one of them ends.  The network, TLS, tonic and quinn are
    parameters: classes whose operations are the calls the source makes. *)

From Stdlib Require Import ZArith Lia.
From Stdlib Require Import Strings.Byte.
From stdpp Require Import base list strings numbers relations.
From S2P Require Import Prelude AsyncIo Conn Cursor Relay Select Pumps Common.
From S2P Require Import Trojan Stream GrpcStream Packet SocketAddrText Config TcpAcceptor.

#[local] Open Scope nat_scope.

(** ** [TcpHandler::init] *)

Record TcpHandler (ClientConfig ServerName : Type) := mkTcpHandler {
  th_mode : OutboundMode;
  th_protocol : SupportedProtocols;
  destination : option SocketAddr;
  th_tls : option (ClientConfig * ServerName);
  th_secret : list byte;
}.
Arguments mkTcpHandler {ClientConfig ServerName} _ _ _ _ _.
Arguments th_mode {ClientConfig ServerName} _.
Arguments th_protocol {ClientConfig ServerName} _.
Arguments destination {ClientConfig ServerName} _.
Arguments th_tls {ClientConfig ServerName} _.
Arguments th_secret {ClientConfig ServerName} _.

(** [rustls::ServerName::try_from] *)
Class ServerNames (ServerName : Type) := { server_name_try_from : string -> option ServerName }.

Section Init.
Context {File ServerConfig ClientConfig RootCertStore ServerName : Type}.
Context `{Rustls File ServerConfig ClientConfig RootCertStore} `{ServerNames ServerName} `{Sha224}.

Definition init_tls (tls : option OutboundTlsConfig) : outcome (option (ClientConfig * ServerName)) :=
  match tls with
  | Some cfg =>
      let client_config := make_client_config cfg in
      match server_name_try_from (host_name cfg) with
      | Some name => Ok (Some (client_config, name))
      | None => Panic "Failed to parse host name"
      end
  | None => Ok None
  end.

Definition init_destination (address : option string) (port : option Z) : outcome (option SocketAddr) :=
  match address, port with
  | Some addr, Some port =>
      match parse_socket_addr (fmt_addr_port (as_bytes addr) port) with
      | Some s => Ok (Some s)
      | None => Panic "Failed to parse destination address"
      end
  | Some _, None => Panic "Missing port while address is present"
  | None, Some _ => Panic "Missing address while address is present"
  | None, None => Ok None
  end.

(** [TcpHandler::init] *)
Definition TcpHandler_init (outbound : OutboundConfig) :
    io (option (TcpHandler ClientConfig ServerName)) (TcpHandler ClientConfig ServerName) :=
  let? tls := io_lift (init_tls (out_tls outbound)) in
  let? destination := io_lift (init_destination (out_address outbound) (out_port outbound)) in
  let secret := derive_secret (out_protocol outbound) (out_secret outbound) in
  get_or_init (mkTcpHandler (out_mode outbound) (out_protocol outbound) destination tls secret).
End Init.

(** ** The calls into the network *)

(** [TcpStream::connect] and [UdpSocket::bind("0.0.0.0:0")]. *)
Class Net (N T U : Type) := {
  tcp_connect : SocketAddr -> io N T;
  udp_bind : io N U;
}.

(** [TlsConnector::connect] *)
Class TlsConnect (ClientConfig ServerName T TC : Type) := {
  tls_connect : ClientConfig -> ServerName -> T -> outcome TC
}.

(** [BufReader::new] and [BufWriter::new] around the two halves of a stream. *)
Class Buffers (T BT : Type) := { with_buffers : T -> BT }.

(** tonic: [GrpcServiceClient::connect] (with the scheme https or http), the
    channel, and the [tun] call that streams what the channel receives. *)
Class GrpcClient (N G Ch S : Type) := {
  grpc_connect : bool -> SocketAddr -> io N G;
  mpsc_channel : nat -> Ch;
  tun_call : G -> Ch -> io N S;
}.

(** quinn: a client endpoint, a connection to an address under a name, and a
    bidirectional stream of it. *)
Class QuicClient (N QC Q : Type) := {
  quic_endpoint : io N unit;
  quic_connect : SocketAddr -> string -> io N QC;
  open_bi : QC -> io N Q;
}.

(** [StreamExt::next]: awaits the next item. *)
Class StreamExt (S I : Type) `{Stream S I} := {
  next : io S (option I);
  next_eq s :
    next s = match poll_next s with
             | (s', StreamReady i) => (s', Ok i)
             | (s', StreamPanic p) => (s', Panic p)
             | (s', StreamPending) => if stream_wakes_task s' then next s' else (s', Pending)
             end;
}.

(** [m.await.unwrap()] and [match m.await { Err(_) => return Err(e), .. }] *)
Definition unwrap {S A} (m : io S A) : io S A := fun s =>
  match m s with
  | (s', Err _) => (s', Panic "called `Result::unwrap()` on an `Err` value")
  | r => r
  end.
Definition or_err {S A} (e : Error) (m : io S A) : io S A := io_map_err (fun _ => e) m.

(** ** The copy loops at the end of the file *)

Section GrpcCopies.
Context {R Ch S W : Type}.
Context `{AsyncReadExt R} `{Sender Ch Hunk} `{StreamExt S (Hunk + Status)} `{AsyncWriteExt W}.

Definition send_back_failed : Error := mkError ConnectionReset "Failed to send back server data".

(** [copy_client_reader_to_server_grpc_writer]: one iteration. *)
Definition tcp_client_to_grpc_body : io (R * Ch) (flow unit) :=
  let? read_buf := on_fst (read 4096) in
  on_snd (or_err send_back_failed (send (mkHunk read_buf))) ;;?
  io_ret Continue.

Definition tcp_copy_client_reader_to_server_grpc_writer (fuel : nat) :
    R * Ch -> (R * Ch) * exit unit :=
  loop fuel tcp_client_to_grpc_body.

(** [copy_server_grpc_reader_to_client_writer]: one iteration. *)
Definition tcp_grpc_to_client_body : io (S * W) (flow unit) :=
  let? item := on_fst next in
  match item with
  | Some (inl hunk) => on_snd (write_all (hunk_data hunk)) ;;? io_ret Continue
  | Some (inr _) => io_err (mkError ConnectionReset "Received error from GRPC server")
  | None => io_ret (Return tt)
  end.

Definition tcp_copy_server_grpc_reader_to_client_writer (fuel : nat) :
    S * W -> (S * W) * exit unit :=
  loop fuel tcp_grpc_to_client_body.

(** The same two loops cut into steps, for the interleaving. *)
Definition grpc_up : task (R * (Ch * S)) (list byte) :=
  pump_task (read 4096) (fun bs => on_fst (or_err send_back_failed (send (mkHunk bs)))).
Definition grpc_down : task (W * (Ch * S)) Hunk :=
  mkTask
    (let? item := on_snd (on_snd next) in
     match item with
     | Some (inl hunk) => io_ret (Some hunk)
     | Some (inr _) => io_err (mkError ConnectionReset "Received error from GRPC server")
     | None => io_ret None
     end)
    (fun hunk => on_fst (write_all (hunk_data hunk)))
    (io_ret tt).
End GrpcCopies.

(** ** The handler *)

(** Two spawned tasks: when one has ended the other goes on. *)
Fixpoint run_spawned {A B X Y} (up : task (A * B) X) (down : task (A * B) Y)
    (sched : list bool) (ab : A * B) (k1 : place X) (k2 : place Y) (e : select_end) :
    (A * B) * select_end :=
  match sched with
  | [] => (ab, e)
  | true :: sched' =>
      match poll_task up ab k1 with
      | (ab', _, Some o) =>
          run_spawned up down sched' ab' Stuck k2 (match e with Unfinished => First o | _ => e end)
      | (ab', k', None) => run_spawned up down sched' ab' k' k2 e
      end
  | false :: sched' =>
      match poll_task down ab k2 with
      | (ab', _, Some o) =>
          run_spawned up down sched' ab' k1 Stuck (match e with Unfinished => Second o | _ => e end)
      | (ab', k', None) => run_spawned up down sched' ab' k1 k' e
      end
  end.

(** A spawned task hands its panic to whoever joins it as an error, which the
    [select!] discards like any other result. *)
Definition joined (e : select_end) : select_end :=
  match e with
  | First (Panic p) => First (Err (mkError OtherKind p))
  | Second (Panic p) => Second (Err (mkError OtherKind p))
  | _ => e
  end.

Section Handler.
(** The client stream, its buffered form, a TCP stream, the TLS streams, the
    buffered outbound stream, a UDP socket, and the gRPC and QUIC types. *)
Context {N C BC T TS TC BO U G Ch S QC Q ClientConfig ServerName : Type}.
Context `{TokioCopy}.
#[local] Abbreviation Out := (StandardTcpStream T TS TC).
Context `{Net N T U} `{TlsConnect ClientConfig ServerName T TC}.
Context `{Buffers C BC} `{!Buffers Out BO}.
Context `{AsyncReadExt C} `{!AsyncWrite C} `{!AsyncWriteExt C}.
Context `{AsyncReadExt BC} `{!AsyncWrite BC} `{!AsyncWriteExt BC}.
Context `{AsyncReadExt T} `{!AsyncWrite T} `{!AsyncWriteExt T}.
Context `{AsyncReadExt Out} `{!AsyncWrite Out} `{!AsyncWriteExt Out}.
Context `{AsyncReadExt BO} `{!AsyncWrite BO} `{!AsyncWriteExt BO}.
Context `{AsyncReadExt Q} `{!AsyncWrite Q} `{!AsyncWriteExt Q}.
Context `{UdpSocket U} `{Resolver} `{Sender Ch Hunk} `{StreamExt S (Hunk + Status)}.
Context `{!AsyncReadExt (GrpcDataReaderStream S)}.
Context `{GrpcClient N G Ch S} `{QuicClient N QC Q}.
#[local] Abbreviation Handler := (TcpHandler ClientConfig ServerName).

(** How far a handler that reached its relay is after the schedule, by the path
    it took.  What [tokio::select!] then makes of the handler is [handled_result]:
    nothing yet while both directions run, the panic if a direction panicked,
    and otherwise [Ok(())], whatever the result of the direction that ended. *)
Inductive handled :=
| DirectTcp (s : session C T)
| DirectUdp (s : session BC U)
| ProxyTcp (s : session C Out)
| ProxyUdp (s : session C BO)
| ProxyQuic (s : session C Q)
| ProxyGrpc (s : session C (Ch * S))
| ProxyGrpcUdp (s : session C (Ch * GrpcDataReaderStream S)).

Definition handled_result (h : handled) : option (outcome unit) :=
  select_outcome
    match h with
    | DirectTcp s => ss_end s | DirectUdp s => ss_end s | ProxyTcp s => ss_end s
    | ProxyUdp s => ss_end s | ProxyGrpc s => ss_end s | ProxyGrpcUdp s => ss_end s
    | ProxyQuic s => joined (ss_end s)
    end.

(** [TcpHandler::handle_direct_stream] *)
Definition handle_direct_stream (request : InboundRequest) (inbound_stream : C)
    (sched : list bool) : io N handled :=
  match proxy_protocol request with
  | TROJAN =>
      match transport_protocol request with
      | TransportTCP =>
          let? addr := io_lift (IpAddrPort_into (addr_port request)) in
          let? outbound_stream :=
            or_err (mkError ConnectionRefused "failed to connect to tcp") (tcp_connect addr) in
          io_ret (DirectTcp (run_select copy_up copy_down sched inbound_stream outbound_stream))
      | TransportUDP =>
          let? socket := udp_bind in
          io_ret (DirectUdp (run_select
            (pump_task next_datagram (fun x => send_to x.1 x.2 ;;? io_ret tt))
            (pump_back (recv_from BUF_SIZE) (fun x => write_reply (addr_port request) x.1))
            sched (with_buffers inbound_stream) socket))
      end
  | SOCKS => io_err (mkError Unsupported "Proxy request can't have socks as proxy protocol")
  | DIRECT => io_err (mkError Unsupported "Proxy request can't have direct as proxy protocol")
  end.

(** [TcpHandler::handle_tcp_stream] *)
Definition handle_tcp_stream (self : Handler) (request : InboundRequest) (inbound_stream : C)
    (sched : list bool) : io N handled :=
  let? connection :=
    match destination self with
    | Some dest => tcp_connect dest
    | None => io_err (mkError NotConnected "missing address of the remote server")
    end in
  let? outbound_stream :=
    match th_tls self with
    | Some (client_config, domain) =>
        io_lift (outcome_map RustlsClient (tls_connect client_config domain connection))
    | None => io_ret (Plain connection : Out)
    end in
  match th_protocol self with
  | TROJAN =>
      (if length (th_secret self) =? HEX_SIZE then io_ret tt
       else io_err (mkError InvalidInput "Hex in trojan protocol is not 56 bytes")) ;;?
      let '(outbound_stream', o) := handshake request (th_secret self) outbound_stream in
      io_lift o ;;?
      match transport_protocol request with
      | TransportTCP =>
          io_ret (ProxyTcp (run_select copy_up copy_down sched inbound_stream outbound_stream'))
      | TransportUDP =>
          io_ret (ProxyUdp (run_select
            (pump_task (read BUF_SIZE) (write_packet request))
            (pump_back next_payload write_all)
            sched inbound_stream (with_buffers outbound_stream')))
      end
  | SOCKS => io_err (mkError Unsupported "Unsupported protocol")
  | DIRECT => io_err (mkError Unsupported "Unsupported protocol")
  end.

(** The header serialised into a cursor and cut at its position. *)
Definition handshake_vec (request : InboundRequest) (secret : list byte) : outcome (list byte) :=
  let '(cursor, o) := handshake request secret (Cursor_new 512) in
  outcome_map (fun _ => truncate (position cursor) (inner cursor)) o.

(** [TcpHandler::handle_grpc_stream] *)
Definition handle_grpc_stream (self : Handler) (request : InboundRequest) (inbound_stream : C)
    (sched : list bool) : io N handled :=
  match destination self with
  | None => io_err (mkError Unsupported "Destination can not be null")
  | Some dest =>
      let https := match th_tls self with None => false | Some _ => true end in
      let? connection :=
        or_err (mkError ConnectionRefused "Failed to connect to remote GRPC server")
          (grpc_connect https dest) in
      let tx := mpsc_channel 16 in
      let? data := io_lift (handshake_vec request (th_secret self)) in
      let '(tx', o) := send (mkHunk data) tx in
      or_err (mkError ConnectionRefused "Failed to send trojan request") (io_lift o) ;;?
      let? server_reader :=
        or_err (mkError ConnectionRefused "failed to write request data")
          (tun_call connection tx') in
      match command request with
      | Connect =>
          io_ret (ProxyGrpc (run_select grpc_up grpc_down sched inbound_stream (tx', server_reader)))
      | Udp =>
          io_ret (ProxyGrpcUdp (run_select
            (pump_task (read BUF_SIZE) (fun bs => on_fst (send_packet request bs)))
            (pump_back (on_snd next_payload) write_all)
            sched inbound_stream (tx', from_reader server_reader)))
      | Bind => io_err (mkError Unsupported "Bind command is not supported in Trojan protocol")
      end
  end.

Definition quic_remote : SocketAddr := mkSocketAddr (V4 2130706433) 8081.

(** [TcpHandler::handle_quic_stream] *)
Definition handle_quic_stream (self : Handler) (request : InboundRequest) (inbound_stream : C)
    (sched : list bool) : io N handled :=
  unwrap quic_endpoint ;;?
  let? connection := unwrap (quic_connect quic_remote "example.com") in
  let? bi := unwrap (open_bi connection) in
  let '(bi', o) := handshake request (th_secret self) bi in
  io_lift o ;;?
  let '(((c, q), e)) := run_spawned copy_up copy_down sched (inbound_stream, bi') Idle Idle Unfinished in
  io_ret (ProxyQuic (mkSession c q e)).

(** [TcpHandler::dispatch] *)
Definition dispatch (self : Handler) (inbound_stream : C) (request : InboundRequest)
    (sched : list bool) : io N handled :=
  match th_mode self with
  | OutboundDIRECT => handle_direct_stream request inbound_stream sched
  | OutboundTCP => handle_tcp_stream self request inbound_stream sched
  | OutboundQUIC => handle_quic_stream self request inbound_stream sched
  | OutboundGRPC => handle_grpc_stream self request inbound_stream sched
  end.
End Handler.

(** ** Initialisation *)

Section InitTheorems.
Context {File ServerConfig ClientConfig RootCertStore ServerName : Type}.
Context `{Rustls File ServerConfig ClientConfig RootCertStore} `{ServerNames ServerName} `{Sha224}.

(** An IPv4 destination in the configuration becomes exactly that socket
    address, for every address and port, and the secret is derived from the
    configured password. *)
Theorem handler_ipv4_destination outbound addr a b c d p :
  out_tls outbound = None -> out_address outbound = Some addr -> out_port outbound = Some p ->
  as_bytes addr = fmt_ipv4 a b c d ->
  (0 <= a <= 255)%Z -> (0 <= b <= 255)%Z -> (0 <= c <= 255)%Z -> (0 <= d <= 255)%Z -> u16_ok p ->
  exists handler : TcpHandler ClientConfig ServerName,
    TcpHandler_init outbound None = (Some handler, Ok handler) /\
    destination handler = Some (mkSocketAddr (V4 (((a * 256 + b) * 256 + c) * 256 + d)) p) /\
    th_secret handler = derive_secret (out_protocol outbound) (out_secret outbound).
Proof.
  intros Ht Ha Hp Hb Ha1 Hb1 Hc1 Hd1 Hp1. eexists.
  unfold TcpHandler_init, init_tls, init_destination. rewrite Ht, Ha, Hp, Hb.
  rewrite parse_ipv4_addr_port by done. split_and!; reflexivity.
Qed.

(** A destination that is not one: half of it is missing, or the address is a
    text that does not begin with a digit or a bracket, as a host name. *)
Definition bad_destination (address : option string) (port : option Z) : Prop :=
  match address, port with
  | Some addr, Some _ =>
      match as_bytes addr with
      | b :: _ => to_digit 10 b = None /\ b <> x5b
      | [] => True
      end
  | None, None => False
  | _, _ => True
  end.

Lemma bad_destination_panics address port :
  bad_destination address port -> exists msg, init_destination address port = Panic msg.
Proof.
  unfold bad_destination, init_destination.
  destruct address as [addr|], port as [p|]; try done; try (by eexists).
  intros Hd. assert (Hp : parse_socket_addr (fmt_addr_port (as_bytes addr) p) = None).
  { unfold fmt_addr_port. destruct (as_bytes addr) as [|b bs].
    - by apply parse_host_name.
    - destruct Hd. by apply parse_host_name. }
  rewrite Hp. by eexists.
Qed.

(** A destination that is half-specified or that is a host name panics at
    start-up, with or without TLS, and no handler is installed. *)
Theorem handler_bad_destination outbound :
  bad_destination (out_address outbound) (out_port outbound) ->
  exists msg, TcpHandler_init outbound None =
    (None : option (TcpHandler ClientConfig ServerName), Panic msg).
Proof.
  intros [msg Hd]%bad_destination_panics. unfold TcpHandler_init, io_bind, io_lift.
  rewrite Hd. unfold init_tls. destruct (out_tls outbound) as [tls|]; [|by eexists].
  destruct (server_name_try_from (host_name tls)); by eexists.
Qed.
End InitTheorems.

(** ** Relaying *)

(** What a finished or unfinished relay has done to the two ends: in each
    direction a prefix of what was to be read has been delivered; the direction
    that ended the relay ended with its stream, everything of it delivered and
    flushed, or a stream failed; nothing panicked. *)
Definition relayed {A B} `{ByteSource A} `{!AsyncWrite A} `{!ByteSink A}
    `{ByteSource B} `{!AsyncWrite B} `{!ByteSink B} (c0 : A) (s0 : B) (s : session A B) : Prop :=
  (exists up, up `prefix_of` data (view c0) /\ written (ss_remote s) = written s0 ++ up) /\
  (exists down, down `prefix_of` data (view s0) /\ written (ss_client s) = written c0 ++ down) /\
  match ss_end s with
  | Unfinished => True
  | First o => left_with c0 s0 (ss_remote s) o
  | Second o => left_with s0 c0 (ss_client s) o
  end.

Lemma run_select_relayed `{TokioCopyLawful} {A B}
    `{AsyncReadExt A} `{!ByteSource A} `{!AsyncWrite A} `{!AsyncWriteExt A} `{!ByteSink A} `{!ByteDuplex A}
    `{AsyncReadExt B} `{!ByteSource B} `{!AsyncWrite B} `{!AsyncWriteExt B} `{!ByteSink B} `{!ByteDuplex B}
    sched (a : A) (b : B) :
  both_inv a -> both_inv b -> relayed a b (run_select copy_up copy_down sched a b).
Proof.
  intros Ha Hb. unfold run_select. destruct (select _ _ _ _ _ _) as [[[[a' b'] k1] k2] e] eqn:E.
  exact (relay_spec sched a b a' b' k1 k2 e Ha Hb E).
Qed.

(** What a server with the same secret makes of a handshake and of what follows. *)
Lemma accept_handshake {R} `{AsyncReadExt R} `{!ByteSource R} request i secret (r : R) rest :
  request_ok request -> ip (addr_port request) = IpAddr_ i -> length secret = HEX_SIZE ->
  src_inv r -> data (view r) = handshake_bytes request secret ++ rest ->
  exists r', view r' = mkSource rest (fin (view r)) /\
    accept secret r =
      (r', Ok (mkInboundRequest (atype request) (addr_port request) (command request)
                 (transport_protocol request) TROJAN)).
Proof.
  intros [Haddr Hport Hat Htrans] Hi Hs Hr Hdata. rewrite Hi in Hat, Haddr.
  rewrite (handshake_bytes_ip _ _ _ Hi Hat) in Hdata.
  destruct (accept_header secret r _ _ _ _ _ _ rest Hr Hs (length_be_bytes 2 CRLF)
    (length_be_bytes 2 CRLF) Haddr Hport Hdata) as (r' & Hv' & Ea).
  exists r'. split; [done|]. rewrite Ea, decide_True by done. rewrite Hat, Htrans, <- Hi.
  by destruct (addr_port request).
Qed.

Lemma still_handshake {T} `{AsyncReadExt T} `{!ByteSource T} `{!AsyncWrite T} `{!AsyncWriteExt T}
    `{!ByteSink T} `{!ByteDuplex T} request secret : still (handshake request secret : io T unit).
Proof.
  unfold handshake. do 4 (eapply still_bind; [auto with emits|auto with emits|intros _]).
  eapply (still_bind _ _ (handshake_addr (ip (addr_port request)))).
  { destruct (ip (addr_port request)) as [[]|]; simpl; auto with emits. }
  { destruct (ip (addr_port request)) as [[]|]; simpl; auto with emits. }
  intros _. do 3 (eapply still_bind; [auto with emits|auto with emits|intros _]). auto with emits.
Qed.

Section HandlerTheorems.
Context {N C BC T TS TC BO U G Ch S QC Q ClientConfig ServerName : Type}.
Context `{TokioCopyLawful}.
#[local] Abbreviation Out := (StandardTcpStream T TS TC).
Context `{Net N T U} `{TlsConnect ClientConfig ServerName T TC}.
Context `{Buffers C BC} `{!Buffers Out BO}.
Context `{AsyncReadExt C} `{!ByteSource C} `{!AsyncWrite C} `{!AsyncWriteExt C} `{!ByteSink C} `{!ByteDuplex C}.
Context `{AsyncReadExt BC} `{!ByteSource BC} `{!AsyncWrite BC} `{!AsyncWriteExt BC} `{!ByteSink BC} `{!ByteDuplex BC}.
Context `{AsyncReadExt T} `{!ByteSource T} `{!AsyncWrite T} `{!AsyncWriteExt T} `{!ByteSink T} `{!ByteDuplex T}.
Context `{ByteDuplex TS} `{ByteDuplex TC}.
Context `{!AsyncReadExt Out} `{!AsyncWriteExt Out}.
Context `{AsyncReadExt BO} `{!AsyncWrite BO} `{!AsyncWriteExt BO}.
Context `{AsyncReadExt Q} `{!AsyncWrite Q} `{!AsyncWriteExt Q}.
Context `{UdpLawful U} `{Resolver} `{Sender Ch Hunk} `{StreamExt S (Hunk + Status)}.
Context `{!AsyncReadExt (GrpcDataReaderStream S)}.
Context `{GrpcClient N G Ch S} `{QuicClient N QC Q}.
#[local] Abbreviation Handler := (TcpHandler ClientConfig ServerName).
#[local] Abbreviation direct := (handle_direct_stream (N:=N) (C:=C) (BC:=BC) (T:=T) (TS:=TS)
  (TC:=TC) (BO:=BO) (U:=U) (Ch:=Ch) (S:=S) (Q:=Q)).

Lemma direct_tcp_run request c sched n addr n' t :
  proxy_protocol request = TROJAN -> transport_protocol request = TransportTCP ->
  IpAddrPort_into (addr_port request) = Ok addr -> tcp_connect addr n = (n', Ok t) ->
  direct request c sched n = (n', Ok (DirectTcp (run_select copy_up copy_down sched c t))).
Proof.
  intros Hp Ht Ha Hc. unfold handle_direct_stream, or_err, io_map_err, io_bind, io_lift.
  by rewrite Hp, Ht, Ha, Hc.
Qed.

(** C8: the direct TCP path is transparent: for a Trojan CONNECT (or BIND) the
    handler dials the address of the request and then, under every interleaving
    of the two directions, delivers to each side a prefix of what the other
    sent, in order and unchanged, and ends only at the end of a stream, with all
    of that stream delivered and flushed, or at a failure. *)
Theorem direct_tcp_relays request c sched n addr n' t :
  proxy_protocol request = TROJAN -> transport_protocol request = TransportTCP ->
  IpAddrPort_into (addr_port request) = Ok addr -> tcp_connect addr n = (n', Ok t) ->
  both_inv c -> both_inv t ->
  exists s, direct request c sched n = (n', Ok (DirectTcp s)) /\ relayed c t s.
Proof.
  intros Hp Ht Ha Hc Hic Hit. eexists. split; [by eapply direct_tcp_run|].
  by apply run_select_relayed.
Qed.

(** C33: a direct TCP connection whose client has closed its side comes to an end:
    when the remote side accepts what is written, every schedule that polls the
    upward copy more than twice per byte still to be sent ends the relay. *)
Theorem direct_tcp_ends `{!ReliableSink T} request c sched n addr n' t :
  proxy_protocol request = TROJAN -> transport_protocol request = TransportTCP ->
  IpAddrPort_into (addr_port request) = Ok addr -> tcp_connect addr n = (n', Ok t) ->
  both_inv c -> both_inv t -> fin (view c) = Eof ->
  2 * length (data (view c)) < length (filter (fun b => b = true) sched) ->
  exists s, direct request c sched n = (n', Ok (DirectTcp s)) /\ ss_end s <> Unfinished.
Proof.
  intros Hp Ht Ha Hc Hic Hit He Hl. eexists. split; [by eapply direct_tcp_run|].
  pose proof (relay_ends sched c t Hic Hit He Hl) as Hne. unfold relay in Hne. unfold run_select.
  by destruct (select _ _ _ _ _ _) as [[[[c' t'] k1] k2] e].
Qed.

(** C34: a half-closed connection is cut.  Let the client close its sending side,
    and let [pre] be any schedule after which the relay is still running and all
    bytes of the client have been passed on to the remote.  Then the next poll of
    the upward copy ends the relay, whatever polls [post] were to follow: the
    client never gets more than it had got by then, and what the remote has sent
    since, or has still to send, is left unread. *)
Theorem direct_tcp_half_close `{!ReliableSink T} request c pre post n addr n' t s0 :
  proxy_protocol request = TROJAN -> transport_protocol request = TransportTCP ->
  IpAddrPort_into (addr_port request) = Ok addr -> tcp_connect addr n = (n', Ok t) ->
  both_inv c -> both_inv t -> fin (view c) = Eof ->
  direct request c pre n = (n', Ok (DirectTcp s0)) -> ss_end s0 = Unfinished ->
  written (ss_remote s0) = written t ++ data (view c) ->
  exists s, direct request c (pre ++ true :: post) n = (n', Ok (DirectTcp s)) /\
    ss_end s = First (Ok tt) /\ written (ss_client s) = written (ss_client s0) /\
    view (ss_remote s) = view (ss_remote s0) /\
    exists down held, written (ss_client s) = written c ++ down /\
      data (view t) = down ++ held ++ data (view (ss_remote s)).
Proof.
  intros Hp Ht Ha Hc Hic Hit He E0 Hend Hw. eexists. split; [by eapply direct_tcp_run|].
  rewrite (direct_tcp_run request c pre n addr n' t Hp Ht Ha Hc) in E0. injection E0 as <-.
  unfold run_select in *. change (select copy_up copy_down ?x (c, t) Idle Idle) with (relay x (c, t)) in *.
  destruct (relay pre (c, t)) as [[[[c1 t1] k1] k2] e] eqn:E. simpl in *. subst e.
  destruct (relay_cut c t pre post c1 t1 k1 k2 Hic Hit He E Hw)
    as (c' & t' & k & -> & Hwc & Hvt & _ & down & held & Hd & Hwd & _).
  simpl. split_and!; [done..|]. by exists down, held.
Qed.

(** With DIRECT as outbound mode, a request that came in over SOCKS5 is
    refused, before anything is dialled: the network is untouched. *)
Theorem direct_refuses_socks self request c sched n :
  th_mode self = OutboundDIRECT -> proxy_protocol request <> TROJAN ->
  exists msg, dispatch (BC:=BC) (BO:=BO) (Q:=Q) (TS:=TS) (self : Handler) c request sched n =
    (n, Err (mkError Unsupported msg)).
Proof.
  intros Hm Hp. unfold dispatch, handle_direct_stream. rewrite Hm.
  destruct (proxy_protocol request); [by eexists|done|by eexists].
Qed.
End HandlerTheorems.

(** *** Through a remote proxy *)

Section ProxyTheorems.
Context {N C BC T TS TC BO U Ch S Q ClientConfig ServerName : Type}.
Context `{TokioCopyLawful}.
#[local] Abbreviation Out := (StandardTcpStream T TS TC).
Context `{Net N T U} `{TlsConnect ClientConfig ServerName T TC} `{Buffers Out BO}.
Context `{AsyncReadExt C} `{!ByteSource C} `{!AsyncWrite C} `{!AsyncWriteExt C} `{!ByteSink C} `{!ByteDuplex C}.
Context `{AsyncReadExt T} `{!ByteSource T} `{!AsyncWrite T} `{!AsyncWriteExt T} `{!ByteSink T} `{!ByteDuplex T}.
Context `{ByteDuplex TS} `{ByteDuplex TC}.
Context `{!AsyncReadExt Out} `{!AsyncWriteExt Out}.
Context `{AsyncReadExt BO} `{!AsyncWrite BO} `{!AsyncWriteExt BO} `{Resolver}.
#[local] Abbreviation Handler := (TcpHandler ClientConfig ServerName).
#[local] Abbreviation proxied := (handle_tcp_stream (N:=N) (C:=C) (BC:=BC) (T:=T) (TS:=TS)
  (TC:=TC) (BO:=BO) (U:=U) (Ch:=Ch) (S:=S) (Q:=Q)).

(** The stream to the remote proxy: the connection to the configured destination,
    inside TLS if the configuration asks for it. *)
Definition proxy_stream (self : Handler) (n n' : N) (out : Out) : Prop :=
  exists dest t, destination self = Some dest /\ tcp_connect dest n = (n', Ok t) /\
    match th_tls self with
    | None => out = Plain t
    | Some (cfg, name) => exists tc, tls_connect cfg name t = Ok tc /\ out = RustlsClient tc
    end.

(** The handler up to the handshake on that stream: it writes the header and
    relays, or it fails as writing the header failed. *)
Lemma proxied_run (self : Handler) request c sched n n' out :
  proxy_stream self n n' out -> th_protocol self = TROJAN -> length (th_secret self) = HEX_SIZE ->
  exists out1 e o, handshake request (th_secret self) out = (out1, e) /\
    proxied self request c sched n = (n', o) /\
    match e with
    | Ok _ => o = Ok
        match transport_protocol request with
        | TransportTCP => ProxyTcp (run_select copy_up copy_down sched c out1)
        | TransportUDP => ProxyUdp (run_select (pump_task (read BUF_SIZE) (write_packet request))
                                      (pump_back next_payload write_all) sched c (with_buffers out1))
        end
    | _ => same_failure e o
    end.
Proof.
  intros (dest & t & Hd & Hc & Ht) Hp Hs. unfold handle_tcp_stream, io_bind, io_lift, io_ret.
  rewrite Hd, Hc, Hp, Hs; simpl. destruct (handshake request (th_secret self) out) as [out1 e] eqn:E.
  assert (Hout : match th_tls self with
    | Some (cfg, name) => outcome_map RustlsClient (tls_connect cfg name t) = Ok out
    | None => Plain t = out end).
  { destruct (th_tls self) as [[cfg name]|]; [|done]. by destruct Ht as (tc & -> & ->). }
  exists out1, e. destruct (th_tls self) as [[cfg name]|]; [rewrite Hout|subst out]; rewrite E;
    (destruct e as [[]|e|p|]; [destruct (transport_protocol request)|..]; eexists; by split_and!).
Qed.

(** A header that was written: what the remote side has of it, and what a server
    with the same secret makes of it and of whatever follows. *)
Lemma written_header (out : Out) out1 request secret :
  both_inv out -> written out = [] -> handshake request secret out = (out1, Ok tt) ->
  both_inv out1 /\ view out1 = view out /\ written out1 = handshake_bytes request secret.
Proof.
  intros Hout Hw Eh.
  destruct (still_handshake request secret _ _ _ Hout Eh) as [Hi1 Hv1].
  destruct (emits_handshake request secret _ _ _ (proj2 Hout) Eh) as [Hi2 _].
  pose proof (emits_ok _ _ _ _ _ (emits_handshake request secret) (proj2 Hout) Eh) as Hwr.
  rewrite Hw, app_nil_l in Hwr. by split_and!.
Qed.

(** C4: the client end of a proxy chain.  For a TCP request to an IPv4 or IPv6
    address (a domain name does not survive the header, see
    [handshake_domain_no_roundtrip]), and a fresh stream to the remote proxy, plain
    or TLS, the handler writes to the remote proxy its Trojan header and behind it,
    under every interleaving, a prefix of the client's bytes, and the client gets a
    prefix of what the remote proxy sends; and a remote proxy with the same secret,
    reading those bytes in any chunks, accepts them as the same request and is left
    with exactly the client's bytes.  Otherwise writing the header failed, and that
    failure is returned. *)
Theorem proxy_chain {R} `{AsyncReadExt R} `{!ByteSource R}
    (self : Handler) request i c sched n n' (out : Out) :
  proxy_stream self n n' out -> both_inv out -> written out = [] ->
  th_protocol self = TROJAN -> length (th_secret self) = HEX_SIZE ->
  transport_protocol request = TransportTCP -> request_ok request ->
  ip (addr_port request) = IpAddr_ i -> both_inv c ->
  exists o, proxied self request c sched n = (n', o) /\
    ((exists s up, o = Ok (ProxyTcp s) /\ up `prefix_of` data (view c) /\
        written (ss_remote s) = handshake_bytes request (th_secret self) ++ up /\
        (exists down, down `prefix_of` data (view out) /\
                      written (ss_client s) = written c ++ down) /\
        forall r : R, src_inv r -> data (view r) = written (ss_remote s) ->
        exists r', view r' = mkSource up (fin (view r)) /\
          accept (th_secret self) r =
            (r', Ok (mkInboundRequest (atype request) (addr_port request) (command request)
                       (transport_protocol request) TROJAN))) \/
     (exists out1 e, handshake request (th_secret self) out = (out1, e) /\
                   same_failure e o)).
Proof.
  intros Hopen Hout Hw Hp Hs Htr Hreq Hi Hic.
  destruct (proxied_run self request c sched n n' out Hopen Hp Hs)
    as (t1 & e & o & Eh & Er & Ho). exists o. split; [done|]. rewrite Htr in Ho.
  destruct e as [[]|e|p|]; [left|right; by exists t1, (Err e)|right; by exists t1, (Panic p)
    |right; by exists t1, Pending].
  destruct (written_header out t1 _ _ Hout Hw Eh) as (Hi1 & Hv1 & Hwr).
  destruct (run_select_relayed sched c t1 Hic Hi1) as ((up & Hup & Hwup) & (down & Hdn & Hwdn) & _).
  rewrite Hwr in Hwup. rewrite Hv1 in Hdn.
  eexists _, up. split_and!; [done|done|exact Hwup|by exists down|].
  intros r Hr Hdata. rewrite Hwup in Hdata. by apply (accept_handshake request i).
Qed.

(** Without a usable secret the client end sends nothing: when the derived
    secret is not 56 bytes long (no password was configured), every request is
    refused with [InvalidInput] after connecting and before a byte is written. *)
Theorem proxy_needs_secret (self : Handler) request c sched n dest n' t :
  destination self = Some dest -> th_tls self = None -> th_protocol self = TROJAN ->
  length (th_secret self) <> HEX_SIZE -> tcp_connect dest n = (n', Ok t) ->
  proxied self request c sched n =
    (n', Err (mkError InvalidInput "Hex in trojan protocol is not 56 bytes")).
Proof.
  intros Hd Ht Hp Hs Hc. unfold handle_tcp_stream, io_bind, io_lift, io_ret.
  rewrite Hd, Hc, Ht, Hp. by destruct (Nat.eqb_spec (length (th_secret self)) HEX_SIZE).
Qed.
End ProxyTheorems.

Lemma succeeds_handshake {W} `{AsyncWriteExt W} `{!ByteSink W} `{!ReliableSink W} request secret :
  succeeds (handshake request secret : io W unit).
Proof.
  unfold handshake. do 4 (eapply succeeds_bind; [auto with emits|auto with emits|intros _]).
  eapply (succeeds_bind _ _ (handshake_addr (ip (addr_port request)))).
  { destruct (ip (addr_port request)) as [[]|]; simpl; auto with emits. }
  { destruct (ip (addr_port request)) as [[]|]; simpl; auto with emits. }
  intros _. do 3 (eapply succeeds_bind; [auto with emits|auto with emits|intros _]).
  auto with emits.
Qed.

Lemma handshake_vec_ok request secret :
  handshake_vec request secret = Ok (handshake_bytes request secret).
Proof.
  unfold handshake_vec.
  destruct (succeeds_handshake (W:=Cursor) request secret (Cursor_new 512) (Cursor_new_inv 512))
    as (c & [] & E).
  rewrite E; simpl. f_equal. exact (cursor_serialises _ _ _ _ _ (emits_handshake request secret) E).
Qed.

(** *** Through a remote gRPC proxy *)

Lemma hunk_bytes_app hs1 hs2 : hunk_bytes (hs1 ++ hs2) = hunk_bytes hs1 ++ hunk_bytes hs2.
Proof. unfold hunk_bytes. by rewrite fmap_app, join_app. Qed.

(** What awaiting the next hunk does to the hunks to come. *)
Lemma next_hunks {S} `{HunkSource S} `{!StreamExt S (Hunk + Status)} (s s' : S) o :
  hunks_inv s -> next s = (s', o) ->
  hunks_inv s' /\
  match o with
  | Ok (Some (inl h)) => hunks s = h :: hunks s'
  | Ok _ | Pending => hunks s' = [] /\ hunks s = []
  | _ => False
  end.
Proof.
  remember (hunk_wakes s) as k eqn:Hk. revert s Hk.
  induction k as [k IH] using lt_wf_ind. intros s -> Hs. rewrite next_eq.
  destruct (poll_next s) as [s1 p] eqn:E.
  destruct (poll_next_hunks _ _ _ Hs E) as (Hi & _ & _ & Hp).
  destruct p as [|[[h|st]|]|m]; [|intros [=<- <-]..];
    [|done|destruct Hp as (? & ? & _); done|destruct Hp as (? & ? & _); done|done].
  destruct Hp as [Hh Hw]. destruct (stream_wakes_task s1).
  - intros En. destruct (IH _ Hw s1 eq_refl Hi En) as [? Ho]. split; [done|].
    by rewrite Hh in Ho.
  - intros [=<- <-]. destruct Hw. split; [done|]. by rewrite Hh.
Qed.

Section GrpcProxyTheorems.
Context {N C BC T TS TC BO U G Ch S Q ClientConfig ServerName : Type}.
Context `{TokioCopy}.
Context `{AsyncReadExt C} `{!ByteSource C} `{!AsyncWrite C} `{!AsyncWriteExt C} `{!ByteSink C} `{!ByteDuplex C}.
Context `{SenderLawful Ch Hunk} `{HunkSource S} `{!StreamExt S (Hunk + Status)}.
Context `{GrpcClient N G Ch S} `{!AsyncReadExt (GrpcDataReaderStream S)} `{Resolver}.
#[local] Abbreviation Handler := (TcpHandler ClientConfig ServerName).
#[local] Abbreviation grpc_proxied := (handle_grpc_stream (N:=N) (C:=C) (BC:=BC) (T:=T) (TS:=TS)
  (TC:=TC) (BO:=BO) (U:=U) (G:=G) (Ch:=Ch) (S:=S) (Q:=Q)).

(** The upward direction: the hunks put carry the front of the client's bytes. *)
Definition hunked_up (c0 c : C) (ch0 ch : Ch) (k : place (list byte)) : Prop :=
  exists chunks rest, queued ch = queued ch0 ++ (mkHunk <$> chunks) /\
    data (view c0) = mjoin chunks ++ rest ++ data (view c) /\
    match k with Idle => rest = [] | Holding bs => rest = bs | Stuck => True end.

(** The downward direction: the client got the front of the hunks' bytes. *)
Definition hunked_down (s0 s : S) (c0 c : C) (k : place Hunk) : Prop :=
  exists out rest, written c = written c0 ++ out /\
    hunk_bytes (hunks s0) = out ++ rest ++ hunk_bytes (hunks s) /\
    match k with Idle => rest = [] | Holding h => rest = hunk_data h | Stuck => True end.

Definition grpc_inv (c0 : C) (ch0 : Ch) (s0 : S) (st : C * (Ch * S))
    (k1 : place (list byte)) (k2 : place Hunk) : Prop :=
  both_inv st.1 /\ hunks_inv st.2.2 /\
  hunked_up c0 st.1 ch0 st.2.1 k1 /\ hunked_down s0 st.2.2 c0 st.1 k2.

Lemma hunked_up_stuck c0 c ch0 ch k : hunked_up c0 c ch0 ch k -> hunked_up c0 c ch0 ch Stuck.
Proof. intros (cs & rest & ? & ? & _). by exists cs, rest. Qed.

Lemma hunked_down_stuck s0 s c0 c k : hunked_down s0 s c0 c k -> hunked_down s0 s c0 c Stuck.
Proof. intros (out & rest & ? & ? & _). by exists out, rest. Qed.

Lemma grpc_inv_stuck c0 ch0 s0 st k1 k2 : grpc_inv c0 ch0 s0 st k1 k2 -> grpc_inv c0 ch0 s0 st Stuck Stuck.
Proof.
  intros (? & ? & ? & ?). split_and!; eauto using hunked_up_stuck, hunked_down_stuck.
Qed.

Lemma grpc_up_step c0 ch0 s0 st k1 k2 st' k' r :
  grpc_inv c0 ch0 s0 st k1 k2 -> poll_task grpc_up st k1 = (st', k', r) ->
  match r with None => grpc_inv c0 ch0 s0 st' k' k2 | Some o => grpc_inv c0 ch0 s0 st' Stuck Stuck end.
Proof.
  destruct st as [c [ch s]]. intros (Hc & Hs & Hu & Hd); simpl in *.
  destruct k1 as [|bs|]; simpl; unfold io_bind, on_fst, on_snd, io_ret; simpl.
  - destruct (read 4096 c) as [c1 o] eqn:E. assert (Hn : 0 < 4096) by lia.
    destruct (read_view _ _ _ _ (proj1 Hc) Hn E) as (_ & _ & Ho).
    destruct (quiet_read 4096 Hn _ _ _ Hc E) as (Hc1 & Hw & _).
    destruct Hu as (cs & rest & Hq & Hdata & ->).
    assert (Hd' : hunked_down s0 s c0 c1 k2) by (unfold hunked_down; by rewrite Hw).
    assert (Hup : forall x, data (view c) = x ++ data (view c1) -> hunked_up c0 c1 ch0 ch Stuck).
    { intros x Hx. exists cs, x. by rewrite Hdata, Hx. }
    destruct o as [bs|e|p|]; [|..|done|]; intros [=<- <- <-].
    + split_and!; [done..| |done]. exists cs, bs. destruct Ho as (Ho & _). by rewrite Hdata, Ho.
    + apply (grpc_inv_stuck _ _ _ _ Stuck k2). destruct Ho as (Ho1 & _ & Ho2).
      split_and!; [done..| |done]. apply (Hup []). by rewrite Ho1, Ho2.
    + destruct Ho as (Ho1 & _ & Ho2). split_and!; [done..| |done]. apply (Hup []). by rewrite Ho1, Ho2.
  - unfold or_err, io_map_err. destruct (send (mkHunk bs) ch) as [ch1 o] eqn:E.
    destruct (send_queued _ _ _ _ E) as [Hp Hq]. destruct Hu as (cs & rest & Hq0 & Hdata & ->).
    assert (Hu' : hunked_up c0 c ch0 ch1 (if is_ok o then Idle else Stuck)).
    { destruct (is_ok o).
      - exists (cs ++ [bs]), []. rewrite Hq, Hq0, fmap_app, <- app_assoc, join_app. simpl.
        by rewrite app_nil_r, <- app_assoc.
      - exists cs, bs. by rewrite Hq. }
    destruct o as [[]|e|p|]; simpl in *; try done; intros [=<- <- <-]; by split_and!;
      eauto using hunked_down_stuck.
  - intros [=<- <- <-]. by split_and!.
Qed.

Lemma grpc_down_step c0 ch0 s0 st k1 k2 st' k' r :
  grpc_inv c0 ch0 s0 st k1 k2 -> poll_task grpc_down st k2 = (st', k', r) ->
  match r with None => grpc_inv c0 ch0 s0 st' k1 k' | Some o => grpc_inv c0 ch0 s0 st' Stuck Stuck end.
Proof.
  destruct st as [c [ch s]]. intros (Hc & Hs & Hu & Hd); simpl in *.
  destruct k2 as [|h|]; simpl; unfold io_bind, on_fst, on_snd, io_ret, io_err; simpl.
  - destruct (next s) as [s1 o] eqn:E. destruct (next_hunks _ _ _ Hs E) as (Hs1 & Ho).
    destruct Hd as (out & rest & Hw & Hb & ->).
    assert (Hdn : hunks s1 = [] /\ hunks s = [] -> hunked_down s0 s1 c0 c Stuck).
    { intros [H1' H2']. exists out, []. by rewrite Hb, H1', H2'. }
    destruct o as [[[h|st]|]|e|p|]; simpl; try done; intros [=<- <- <-];
      try (split_and!; eauto using hunked_up_stuck; done).
    split_and!; [done..|]. exists out, (hunk_data h). rewrite Hb, Ho. by split_and!.
  - destruct (write_all (hunk_data h) c) as [c1 o] eqn:E.
    destruct (still_write_all _ _ _ _ Hc E) as [Hi1 Hv].
    destruct (emits_write_all _ _ _ _ (proj2 Hc) E) as (Hi2 & Hp & _ & put & [tail Hput] & Hw' & Hok).
    destruct Hd as (out & rest & Hw & Hb & ->).
    assert (Hu' : hunked_up c0 c1 ch0 ch k1) by (unfold hunked_up; by rewrite Hv).
    assert (Hd' : hunked_down s0 s c0 c1 (if is_ok o then Idle else Stuck)).
    { exists (out ++ put), tail. rewrite Hw', Hw, Hb, Hput, <- !app_assoc. split_and!; [done..|].
      destruct (is_ok o); [|done]. specialize (Hok eq_refl). subst put.
      rewrite <- (app_nil_r (hunk_data h)) in Hput at 1. by apply app_inv_head in Hput. }
    assert (Hc1 : both_inv c1) by by split.
    destruct o as [[]|e|p|]; simpl in *; try done; intros [=<- <- <-];
      split_and!; simpl; eauto using hunked_up_stuck.
  - intros [=<- <- <-]. by split_and!.
Qed.

End GrpcProxyTheorems.

(** ** Witnesses *)

#[local] Existing Instance buffered_copy.
#[local] Existing Instance buffered_copy_lawful.

(** A network that records what is dialled.  Its TCP connections deliver the
    given bytes and take everything that is written. *)
Record DemoNet := mkDemoNet { dialled : list SocketAddr; to_deliver : source }.

#[local] Abbreviation Tcp := (Joined source Cursor).
#[local] Abbreviation Client := (Joined source Cursor).
#[local] Abbreviation OutTcp := (StandardTcpStream Tcp Tcp Tcp).

Definition demo_tcp (s : source) : Tcp := mkJoined s (Cursor_new 0).

#[export] Instance demo_net : Net DemoNet Tcp UdpScript := {
  tcp_connect := fun a n => (mkDemoNet (dialled n ++ [a]) (to_deliver n), Ok (demo_tcp (to_deliver n)));
  udp_bind := fun n => (n, Ok demo_udp)
}.

#[export] Instance demo_buffers {T} : Buffers T T := { with_buffers := fun t => t }.
#[export] Instance demo_tls_connect : TlsConnect unit unit Tcp Tcp := { tls_connect := fun _ _ t => Ok t }.
#[export] Instance demo_server_names : ServerNames unit := { server_name_try_from := fun _ => Some tt }.

#[export] Instance demo_grpc_client : GrpcClient DemoNet unit ChannelScript HunkScript := {
  grpc_connect := fun _ a n => (mkDemoNet (dialled n ++ [a]) (to_deliver n), Ok tt);
  mpsc_channel := fun _ => mkChannel [] None;
  tun_call := fun _ _ n => (n, Ok (mkScript [Some (mkHunk (data (to_deliver n))); None] Open))
}.

#[export] Instance demo_quic_client : QuicClient DemoNet unit Tcp := {
  quic_endpoint := fun n => (n, Ok tt);
  quic_connect := fun a _ n => (mkDemoNet (dialled n ++ [a]) (to_deliver n), Ok tt);
  open_bi := fun _ n => (n, Ok (demo_tcp (to_deliver n)))
}.

Fixpoint script_next (evs : list (option Hunk)) (e : hunk_end) :
    HunkScript * outcome (option (Hunk + Status)) :=
  match evs with
  | Some h :: evs' => (mkScript evs' e, Ok (Some (inl h)))
  | None :: evs' => script_next evs' e
  | [] => (mkScript [] e, match e with Closed => Ok None | Failed => Ok (Some (inr OtherStatus))
                                     | Open => Pending end)
  end.

#[export] Program Instance HunkScript_StreamExt : StreamExt HunkScript (Hunk + Status) := {
  next := fun s => script_next (script s) (script_end s)
}.
Next Obligation.
  intros [evs e]. simpl. unfold script_poll_next; simpl.
  destruct evs as [|[h|] evs]; [by destruct e|done|]. simpl.
  by destruct evs, e.
Qed.

#[export] Instance StdTcp_MeasuredRead : MeasuredRead source.
Proof.
  refine {| poll_measure := fun _ => 0 |}; [done|]. intros r b r' b' _ Hw. done.
Defined.

#[export] Program Instance Joined_MeasuredRead : MeasuredRead Tcp := { poll_measure := fun _ => 0 }.
Next Obligation. done. Qed.
Next Obligation. done. Qed.

#[export] Instance StdTcp_AsyncReadExt : AsyncReadExt (StandardTcpStream Tcp Tcp Tcp) :=
  measured_AsyncReadExt.
#[export] Instance StdTcp_AsyncWriteExt : AsyncWriteExt (StandardTcpStream Tcp Tcp Tcp) :=
  standard_AsyncWriteExt.

#[local] Existing Instance demo_resolver.

Definition demo_network : DemoNet := mkDemoNet [] (mkSource [x52; x53] Stalled).
Definition demo_client (bs : list byte) (e : ending) : Client := demo_tcp (mkSource bs e).

Lemma demo_tcp_inv s : both_inv (demo_tcp s).
Proof. split; [exact I|apply Cursor_new_inv]. Qed.

Definition demo_trojan_request : InboundRequest :=
  mkInboundRequest IPv4 (mkIpAddrPort (IpAddr_ (V4 16909060)) 443) Connect TransportTCP TROJAN.

Definition demo_handler (mode : OutboundMode) : TcpHandler unit unit :=
  mkTcpHandler mode TROJAN (Some demo_dest) None (derive_secret TROJAN (Some "hunter2"%string)).

Lemma handler_ipv4_destination_witness :
  exists handler : TcpHandler Verifier unit,
    destination handler = Some (mkSocketAddr (V4 (((12 * 256 + 34) * 256 + 56) * 256 + 78)) 443).
Proof.
  destruct (handler_ipv4_destination
    (mkOutbound OutboundTCP TROJAN (Some "12.34.56.78"%string) (Some 443%Z) None None)
    "12.34.56.78" 12 34 56 78 443) as (handler & _ & E & _);
    try (unfold u16_ok; lia); try reflexivity.
  exists handler. exact E.
Defined.

Lemma handler_bad_destination_witness :
  exists msg, TcpHandler_init
    (mkOutbound OutboundTCP TROJAN (Some "proxy.example.com"%string) (Some 443%Z) None None) None =
    (None : option (TcpHandler Verifier unit), Panic msg).
Proof.
  apply handler_bad_destination. split; [reflexivity|discriminate].
Defined.

#[local] Abbreviation demo_direct := (handle_direct_stream (N:=DemoNet) (C:=Client) (BC:=Client)
  (T:=Tcp) (TS:=Tcp) (TC:=Tcp) (BO:=OutTcp) (U:=UdpScript) (Ch:=ChannelScript) (S:=HunkScript) (Q:=Tcp)).

Definition demo_dialled : DemoNet :=
  mkDemoNet [mkSocketAddr (V4 16909060) 443] (mkSource [x52; x53] Stalled).

Lemma direct_tcp_relays_witness :
  exists s, demo_direct demo_trojan_request (demo_client [x47] Eof) [false; true; true; true]
      demo_network = (demo_dialled, Ok (DirectTcp s)).
Proof.
  destruct (direct_tcp_relays (BC:=Client) (TS:=Tcp) (TC:=Tcp) (BO:=OutTcp) (Ch:=ChannelScript)
    (S:=HunkScript) (Q:=Tcp) demo_trojan_request (demo_client [x47] Eof) [false; true; true; true]
    demo_network (mkSocketAddr (V4 16909060) 443) demo_dialled (demo_tcp (mkSource [x52; x53] Stalled)))
    as (s & E & _); try reflexivity; try apply demo_tcp_inv.
  exists s. exact E.
Defined.

Lemma direct_tcp_ends_witness :
  exists s, demo_direct demo_trojan_request (demo_client [x47] Eof) [false; true; true; true]
      demo_network = (demo_dialled, Ok (DirectTcp s)) /\ ss_end s <> Unfinished.
Proof.
  apply (direct_tcp_ends (BC:=Client) (TS:=Tcp) (TC:=Tcp) (BO:=OutTcp) (Ch:=ChannelScript)
    (S:=HunkScript) (Q:=Tcp) demo_trojan_request (demo_client [x47] Eof) [false; true; true; true]
    demo_network (mkSocketAddr (V4 16909060) 443) demo_dialled (demo_tcp (mkSource [x52; x53] Stalled)));
    try reflexivity; try apply demo_tcp_inv.
  simpl. lia.
Defined.

(** The client sends one byte and closes; both remote bytes are still to come when
    the byte has been passed on, and the polls that would fetch them never run. *)
Lemma direct_tcp_half_close_witness :
  exists s, demo_direct demo_trojan_request (demo_client [x47] Eof) [true; true; true; false; false]
      demo_network = (demo_dialled, Ok (DirectTcp s)) /\ ss_end s = First (Ok tt) /\
    view (ss_remote s) = mkSource [x52; x53] Stalled.
Proof.
  destruct (direct_tcp_half_close (BC:=Client) (TS:=Tcp) (TC:=Tcp) (BO:=OutTcp) (Ch:=ChannelScript)
    (S:=HunkScript) (Q:=Tcp) demo_trojan_request (demo_client [x47] Eof) [true; true] [false; false]
    demo_network (mkSocketAddr (V4 16909060) 443) demo_dialled (demo_tcp (mkSource [x52; x53] Stalled))
    (run_select copy_up copy_down [true; true] (demo_client [x47] Eof)
       (demo_tcp (mkSource [x52; x53] Stalled))))
    as (s & E & Hend & _ & Hv & _); try reflexivity; try apply demo_tcp_inv.
  exists s. split; [exact E|]. split; [exact Hend|]. rewrite Hv. reflexivity.
Defined.

Lemma direct_refuses_socks_witness :
  exists msg, dispatch (BC:=Client) (T:=Tcp) (TS:=Tcp) (TC:=Tcp) (BO:=OutTcp) (U:=UdpScript)
    (Ch:=ChannelScript) (S:=HunkScript) (Q:=Tcp) (demo_handler OutboundDIRECT)
    (demo_client [] Eof) demo_request [] demo_network =
    (demo_network, Err (mkError Unsupported msg)).
Proof.
  apply (direct_refuses_socks (BC:=Client) (T:=Tcp) (TS:=Tcp) (TC:=Tcp) (BO:=OutTcp) (U:=UdpScript)
    (Ch:=ChannelScript) (S:=HunkScript) (Q:=Tcp) (demo_handler OutboundDIRECT)
    demo_request (demo_client [] Eof) [] demo_network); [reflexivity|discriminate].
Defined.

Definition demo_proxy_dialled : DemoNet := mkDemoNet [demo_dest] (mkSource [x52; x53] Stalled).

Lemma proxy_chain_witness :
  exists o, handle_tcp_stream (BC:=Client) (T:=Tcp) (TS:=Tcp) (TC:=Tcp) (BO:=OutTcp) (U:=UdpScript) (Ch:=ChannelScript)
      (S:=HunkScript) (Q:=Tcp) (demo_handler OutboundTCP) demo_trojan_request
      (demo_client [x47] Eof) [true; true] demo_network = (demo_proxy_dialled, o).
Proof.
  destruct (proxy_chain (R:=Conn) (BC:=Client) (T:=Tcp) (TS:=Tcp) (TC:=Tcp) (BO:=OutTcp) (Ch:=ChannelScript)
    (S:=HunkScript) (Q:=Tcp) (demo_handler OutboundTCP) demo_trojan_request (V4 16909060)
    (demo_client [x47] Eof) [true; true] demo_network demo_proxy_dialled
    (Plain (demo_tcp (mkSource [x52; x53] Stalled)))) as (o & E & _);
    try reflexivity; try apply demo_tcp_inv.
  - by eexists _, _.
  - constructor; unfold u16_ok; simpl; unfold u32_ok; done || lia.
  - exists o. exact E.
Defined.

Lemma proxy_needs_secret_witness :
  handle_tcp_stream (BC:=Client) (T:=Tcp) (TS:=Tcp) (TC:=Tcp) (BO:=OutTcp) (U:=UdpScript) (Ch:=ChannelScript)
      (S:=HunkScript) (Q:=Tcp) (mkTcpHandler OutboundTCP TROJAN (Some demo_dest) None [] : TcpHandler unit unit)
      demo_trojan_request (demo_client [x47] Eof) [] demo_network =
    (demo_proxy_dialled, Err (mkError InvalidInput "Hex in trojan protocol is not 56 bytes")).
Proof.
  apply (proxy_needs_secret (BC:=Client) (T:=Tcp) (TS:=Tcp) (TC:=Tcp) (BO:=OutTcp) (U:=UdpScript) (Ch:=ChannelScript)
    (S:=HunkScript) (Q:=Tcp) (mkTcpHandler OutboundTCP TROJAN (Some demo_dest) None [])
    demo_trojan_request (demo_client [x47] Eof) [] demo_network demo_dest demo_proxy_dialled
    (demo_tcp (mkSource [x52; x53] Stalled))); try reflexivity. discriminate.
Defined.

Definition demo_header_hunk : Hunk :=
  mkHunk (handshake_bytes demo_trojan_request (derive_secret TROJAN (Some "hunter2"%string))).

