(* ===== verification/GrpcProxy.v ===== *)
(** * The gRPC proxy: src/proxy/grpc/{acceptor,handler,server}.rs

    The acceptor reads and authenticates the Trojan header from the hunk stream
    of a call, the handler dials the destination and relays between the hunk
    stream, the response channel and the destination, and [tun] is the service
    method that runs the two for one call. *)

From Stdlib Require Import ZArith Lia.
From Stdlib Require Import Strings.Byte.
From stdpp Require Import base list strings numbers relations.
From S2P Require Import Prelude AsyncIo Conn Cursor Relay Select Pumps Common.
From S2P Require Import Trojan Stream GrpcStream Packet Config TcpAcceptor TcpHandler.

#[local] Open Scope nat_scope.

(** ** acceptor.rs *)

Record GrpcAcceptor := mkGrpcAcceptor { ga_protocol : SupportedProtocols; ga_secret : list byte }.

(** [GrpcAcceptor::new] *)
Definition GrpcAcceptor_new `{Sha224} (inbound_config : InboundConfig) :
    io (option GrpcAcceptor) GrpcAcceptor :=
  let secret := derive_secret (in_protocol inbound_config) (in_secret inbound_config) in
  get_or_init (mkGrpcAcceptor (in_protocol inbound_config) secret).

Section Acceptor.
Context {S : Type} `{Stream S (Hunk + Status)} `{!AsyncReadExt (GrpcDataReaderStream S)}.

(** [GrpcAcceptor::accept_hunk]; the reader is returned with the request. *)
Definition accept_hunk (self : GrpcAcceptor) (request : S) :
    GrpcDataReaderStream S * outcome InboundRequest :=
  (match ga_protocol self with
   | TROJAN =>
       let? trojan_request := parse in
       if negb (validate trojan_request (ga_secret self))
       then io_err (mkError InvalidData "Incorrect trojan credentials")
       else io_ret (Request_into_request trojan_request)
   | _ => io_err (mkError Unsupported "Unsupported protocol")
   end) (from_reader request).
End Acceptor.

(** ** handler.rs *)

Definition BUFFER_SIZE : nat := 4096.

Record GrpcHandler := mkGrpcHandler { gh_protocol : SupportedProtocols }.

(** [GrpcHandler::new] *)
Definition GrpcHandler_new : io (option GrpcHandler) GrpcHandler :=
  get_or_init (mkGrpcHandler TROJAN).

Section Copies.
Context {R U Ch : Type} `{AsyncReadExt R} `{UdpSocket U} `{Sender Ch (Hunk + Status)}.

Definition remote_read_failed : Error := mkError BrokenPipe "Failed to read data from remote server".
Definition client_send_failed : Error := mkError BrokenPipe "Failed to send data to client".

(** [reader.read_buf] into an empty vector of capacity [BUFFER_SIZE] reads at
    most that much. *)
Definition read_buf : io R (list byte) := or_err remote_read_failed (read BUFFER_SIZE).

Definition send_reply (data : list byte) : io Ch unit :=
  or_err client_send_failed (send (inl (mkHunk data))).

(** [copy_server_reader_to_client_grpc_writer]: one iteration. *)
Definition server_to_grpc_body : io (R * Ch) (flow unit) :=
  let? buf := on_fst read_buf in
  on_snd (send_reply buf) ;;?
  io_ret Continue.

Definition copy_server_reader_to_client_grpc_writer (fuel : nat) : R * Ch -> (R * Ch) * exit unit :=
  loop fuel server_to_grpc_body.

(** The packet assembled in a vector: [put_u8], [put_u16] and [put_slice] append. *)
Definition reply_vec (request : InboundRequest) (payload : list byte) : list byte :=
  [Atype_as_u8 (atype request)] ++
  match ip (addr_port request) with
  | IpAddr_ (V4 addr) => octets (V4 addr)
  | IpAddr_ (V6 addr) => octets (V6 addr)
  | Domain domain => [as_u8 (Z.of_nat (length domain))] ++ domain
  end ++
  be_bytes 2 (port (addr_port request)) ++
  be_bytes 2 (as_u16 (Z.of_nat (length payload))) ++
  be_bytes 2 CRLF ++
  payload.

(** [udp_socket.recv] *)
Definition recv_reply : io U (list byte) := or_err remote_read_failed (recv BUFFER_SIZE).

(** [copy_udp_socket_to_client_grpc_writer]: one iteration. *)
Definition udp_to_grpc_body (request : InboundRequest) : io (U * Ch) (flow unit) :=
  let? payload := on_fst recv_reply in
  on_snd (send_reply (reply_vec request payload)) ;;?
  io_ret Continue.

Definition copy_udp_socket_to_client_grpc_writer (request : InboundRequest) (fuel : nat) :
    U * Ch -> (U * Ch) * exit unit :=
  loop fuel (udp_to_grpc_body request).
End Copies.

Section Handler.
Context {N T U S Ch : Type} `{Net N T U} `{AsyncReadExt T} `{!AsyncWrite T} `{!AsyncWriteExt T}.
Context `{TokioCopy}.
Context `{UdpSocket U} `{Resolver} `{Stream S (Hunk + Status)} `{Sender Ch (Hunk + Status)}.
#[local] Abbreviation G := (GrpcDataReaderStream S).
Context `{!AsyncReadExt G}.

Inductive hunk_handled :=
| HunkTcp (s : session (G * Ch) T)
| HunkUdp (s : session (G * Ch) U).

(** The directions of a TCP call: [tokio::io::copy] from the reader to the
    server, and the hunk copy from the server to the channel. *)
Definition hunk_up : task ((G * Ch) * T) (list byte) :=
  mkTask (on_fst (on_fst next_chunk)) (fun bs => on_snd (put_chunk bs)) (on_snd end_copy).
Definition hunk_down : task ((G * Ch) * T) (list byte) :=
  pump_back read_buf (fun bs => on_snd (send_reply bs)).

(** [GrpcHandler::handle_hunk] *)
Definition handle_hunk (self : GrpcHandler) (client_reader : G) (client_writer : Ch)
    (request : InboundRequest) (sched : list bool) : io N hunk_handled :=
  match gh_protocol self with
  | TROJAN =>
      match command request with
      | Connect =>
          let? ip_port := io_lift (IpAddrPort_into (addr_port request)) in
          let? stream := tcp_connect ip_port in
          io_ret (HunkTcp (run_select hunk_up hunk_down sched (client_reader, client_writer) stream))
      | Udp =>
          let? socket := udp_bind in
          io_ret (HunkUdp (run_select
            (pump_task (on_fst next_datagram) (fun x => send_to x.1 x.2 ;;? io_ret tt))
            (pump_back recv_reply (fun payload => on_snd (send_reply (reply_vec request payload))))
            sched (client_reader, client_writer) socket))
      | Bind => io_err (mkError Unsupported "Bind command is not supported in Trojan")
      end
  | _ => io_err (mkError Unsupported "GrpcHandler only supports Trojan for now")
  end.

(** ** server.rs *)

Definition CHANNEL_SIZE : nat := 16.

Record GrpcProxyService := mkGrpcProxyService { gs_acceptor : GrpcAcceptor; gs_handler : GrpcHandler }.

(** The task [GrpcProxyService::tun] spawns for a call; its result is logged and
    dropped.  The method itself returns the receiving end of the channel. *)
Definition tun_task (self : GrpcProxyService) (request : S) (tx : Ch) (sched : list bool) :
    io N hunk_handled :=
  let '(client_reader, o) := accept_hunk (gs_acceptor self) request in
  let? req := io_lift o in
  handle_hunk (gs_handler self) client_reader tx req sched.
End Handler.

(** ** The copies *)

Section CopyTheorems.
Context {R U Ch : Type} `{AsyncReadExt R} `{!ByteSource R} `{UdpSocket U} `{SenderLawful Ch (Hunk + Status)}.

Lemma appends_send_reply bs :
  appends (fun _ => True) queued (send_reply bs : io Ch unit) [inl (mkHunk bs)].
Proof.
  apply appends_map_err. intros c c' o _ E. destruct (send_queued _ _ _ _ E) as [Hp Hq].
  split_and!; [done..|]. destruct (is_ok o).
  - by exists [inl (mkHunk bs)].
  - exists []. rewrite app_nil_r. split_and!; [apply prefix_nil|done|done].
Qed.

(** A hunk that is not accepted leaves nothing behind. *)
Lemma send_reply_failed bs (ch ch' : Ch) o :
  send_reply bs ch = (ch', o) -> is_ok o = false -> queued ch' = queued ch.
Proof.
  unfold send_reply, or_err, io_map_err. destruct (send _ ch) as [c1 o1] eqn:E.
  destruct (send_queued _ _ _ _ E) as [_ Hq]. destruct o1; intros [=<- <-] Ho; simpl in *; done.
Qed.

Lemma reply_vec_packet request payload :
  request_ok request -> reply_vec request payload = packet_bytes (request_packet request payload).
Proof.
  intros [_ _ Ha _]. unfold reply_vec, packet_bytes, udp_header_bytes, request_packet.
  cbn [pk_addr pk_port pk_payload]. rewrite Ha, be_bytes_as_u16, <- !app_assoc.
  by destruct (ip (addr_port request)) as [[]|].
Qed.

(** UDP replies of a gRPC call: after any number of iterations the channel
    holds one hunk per datagram received, in order, each a whole packet with the
    address of the request; the loop leaves only with a failure of the socket or
    of the channel, and never puts a partial packet. *)
Theorem grpc_udp_replies_framed request n (u u' : U) (ch ch' : Ch) ex :
  request_ok request ->
  copy_udp_socket_to_client_grpc_writer request n (u, ch) = ((u', ch'), ex) ->
  exists payloads u1, pulls recv_reply u payloads u1 /\ length payloads <= n /\
    (queued ch' = queued ch ++
       ((fun p => inl (mkHunk (packet_bytes (request_packet request p)))) <$> payloads)) /\
    match ex with
    | Running => length payloads = n /\ u1 = u'
    | Exited o => is_ok o = false
    end.
Proof.
  intros Hr E. unfold copy_udp_socket_to_client_grpc_writer in E.
  destruct (pump_spec recv_reply (fun p => send_reply (reply_vec request p)) (fun _ => True) queued
    (fun p => [inl (mkHunk (reply_vec request p))]) (fun p => appends_send_reply _)
    _ _ _ _ _ _ I E) as [_ Hp].
  assert (Hj : forall ps, mjoin ((fun p => [inl (mkHunk (reply_vec request p))]) <$> ps) =
    (fun p => inl (mkHunk (packet_bytes (request_packet request p))) : Hunk + Status) <$> ps).
  { induction ps as [|p ps IH]; [done|]. simpl. rewrite reply_vec_packet by done. f_equal. exact IH. }
  destruct Hp as [ps u' ch' Hpl Hn Hq|ps u1 u' ch' o o' Hpl Hn Hs Hf Hq
    |ps p u' ch0 ch' out o o' Hpl Hn Hq0 Es Hf _ _].
  - exists ps, u'. rewrite Hj in Hq. split_and!; [done|lia|done|done|done].
  - exists ps, u1. rewrite Hj in Hq. split_and!; [done|lia|done|].
    by apply same_failure_not_ok in Hf as [_ ?].
  - destruct (pulls_app_inv _ _ _ _ _ Hpl) as (u1 & Hpl1 & _). rewrite Hj in Hq0.
    destruct (same_failure_not_ok _ _ Hf) as [Ho Ho'].
    exists ps, u1. split_and!; [done|lia| |done]. rewrite <- Hq0.
    by apply send_reply_failed in Es.
Qed.

Context (Hsend : forall i (c : Ch), exists c', send i c = (c', Ok tt)).

(** The remote server closing its side does not end
    [copy_server_reader_to_client_grpc_writer]: the empty read is not looked at,
    and while the client takes hunks the loop runs on and sends an empty hunk in
    every iteration. *)
Theorem grpc_server_eof_spins n (r : R) (ch : Ch) :
  src_inv r -> view r = mkSource [] Eof ->
  exists r' ch', copy_server_reader_to_client_grpc_writer n (r, ch) = ((r', ch'), Running) /\
    queued ch' = queued ch ++ replicate n (inl (mkHunk [])).
Proof.
  revert r ch. induction n as [|n IH]; intros r ch Hr Hv.
  { exists r, ch. by rewrite app_nil_r. }
  assert (Hn : 0 < BUFFER_SIZE) by (unfold BUFFER_SIZE; lia).
  destruct (read_at_eof r BUFFER_SIZE Hn Hr Hv) as (r1 & Er & Hr1 & Hv1).
  assert (Er' : read_buf r = (r1, Ok [])) by (unfold read_buf, or_err, io_map_err; by rewrite Er).
  destruct (Hsend (inl (mkHunk [])) ch) as (ch1 & Ec).
  assert (Ec' : send_reply [] ch = (ch1, Ok tt)) by (unfold send_reply, or_err, io_map_err; by rewrite Ec).
  destruct (send_queued _ _ _ _ Ec) as [_ Hq]. simpl in Hq.
  destruct (IH r1 ch1 Hr1 Hv1) as (r2 & ch2 & E & Hq2). exists r2, ch2.
  unfold copy_server_reader_to_client_grpc_writer in *.
  change server_to_grpc_body with (pump (S:=R) read_buf (send_reply (Ch:=Ch))) in *.
  rewrite (pump_step _ _ _ _ _ _ _ _ Er' Ec'). split; [done|].
  by rewrite Hq2, Hq, <- app_assoc.
Qed.
End CopyTheorems.

(** ** A call *)

Section CallTheorems.
Context {N T U S Ch : Type} `{Net N T U}.
Context `{TokioCopyLawful}.
Context `{AsyncReadExt T} `{!ByteSource T} `{!AsyncWrite T} `{!AsyncWriteExt T} `{!ByteSink T} `{!ByteDuplex T}.
Context `{UdpSocket U} `{Resolver} `{HunkSource S} `{SenderLawful Ch (Hunk + Status)}.
#[local] Abbreviation G := (GrpcDataReaderStream S).
Context `{!AsyncReadExt G}.

Lemma accept_hunk_header acceptor (s : S) hex sep1 cmd a p sep2 rest :
  ga_protocol acceptor = TROJAN -> grpc_ok (from_reader s) ->
  length hex = HEX_SIZE -> length sep1 = 2 -> length sep2 = 2 -> addr_ok a -> u16_ok p ->
  hunk_bytes (hunks s) = wire_header hex sep1 cmd a p sep2 ++ rest ->
  exists reader', grpc_ok reader' /\ grpc_bytes reader' = rest /\
    accept_hunk acceptor s =
      (reader', if decide (ga_secret acceptor = hex)
                then Ok (mkInboundRequest (atype_of a) (mkIpAddrPort a p) cmd (transport_of cmd) TROJAN)
                else Err (mkError InvalidData "Incorrect trojan credentials")).
Proof.
  intros Hp Hok Hh Hl1 Hl2 Ha Hport Hd. change (grpc_ok (from_reader s)) with (src_inv (from_reader s)) in Hok.
  change (hunk_bytes (hunks s)) with (data (view (from_reader s))) in Hd.
  destruct (reads_lawful _ _ _ _ (from_reader s) rest refines_parse
              (reads_parse _ _ _ _ _ _ Hh Hl1 Hl2 Ha Hport) Hok Hd) as (g & E & Hv & Hi).
  exists g. split_and!; [exact Hi|by injection Hv|].
  unfold accept_hunk. rewrite Hp. unfold io_bind. rewrite E.
  pose proof (validate_spec (mkRequest hex cmd (atype_of a) a p TROJAN) (ga_secret acceptor)) as Hval.
  simpl in Hval. destruct (validate _ _) eqn:Ev; simpl.
  - rewrite decide_True by tauto. unfold io_ret. by rewrite into_request_fields.
  - rewrite decide_False by (intros Hs; by apply Hval in Hs). done.
Qed.

Lemma accept_hunk_sound acceptor (s : S) g q :
  hunks_inv s -> accept_hunk acceptor s = (g, Ok q) ->
  length (ga_secret acceptor) = HEX_SIZE /\ ga_secret acceptor `prefix_of` hunk_bytes (hunks s).
Proof.
  intros Hi. unfold accept_hunk. destruct (ga_protocol acceptor); try done.
  intros (g1 & h & E1 & E2)%io_bind_ok_inv.
  destruct (validate h (ga_secret acceptor)) eqn:Hv; [|done]. apply validate_spec in Hv.
  change (hunks_inv s) with (feed_inv (from_reader s)) in Hi.
  destruct (parse_feed (from_reader s) g1 h Hi E1) as (_ & Hq & sep1 & sep2 & _ & _ & Hd).
  change (feed (from_reader s)) with (hunk_bytes (hunks s)) in Hd. rewrite Hd, Hv.
  split; [apply Hq|]. unfold wire_header. rewrite <- !app_assoc. by apply prefix_app_r.
Qed.

(** C3: authentication of the gRPC server: whatever hunks a caller sends, empty
    ones included, and however the stream ends, its task touches the network or
    succeeds only if the bytes of the hunks begin with the hexadecimal SHA-224
    of the configured password. *)
Theorem grpc_call_requires_password `{Sha224} inbound cell password acceptor handler
    (s : S) (tx : Ch) sched (n n' : N) o :
  in_protocol inbound = TROJAN -> in_secret inbound = Some password ->
  GrpcAcceptor_new inbound None = (cell, Ok acceptor) -> hunks_inv s ->
  tun_task (T:=T) (U:=U) (mkGrpcProxyService acceptor handler) s tx sched n = (n', o) ->
  (n' = n /\ is_ok o = false) \/
  hex_encode (digest (as_bytes password)) `prefix_of` hunk_bytes (hunks s).
Proof.
  intros Hp Hs Ea Hi. unfold tun_task; simpl.
  destruct (accept_hunk acceptor s) as [g o1] eqn:E. destruct o1 as [q|e|p|];
    [|by intros [=<- <-]; left..].
  intros _. right. apply accept_hunk_sound in E as [_ E]; [|done].
  unfold GrpcAcceptor_new, get_or_init in Ea. simplify_eq/=. by rewrite Hp, Hs in E.
Qed.

(** The gRPC server authenticates a call before anything is dialled: for a
    well-formed header in front of the hunks' bytes, cut into hunks in any way,
    the call is handled, with exactly the bytes behind the header left to relay,
    if the header carries the configured secret; with any other secret it ends
    with [InvalidData] and the network is untouched. *)
Theorem tun_authenticates self (s : S) (tx : Ch) sched (n : N) hex sep1 cmd a p sep2 rest :
  ga_protocol (gs_acceptor self) = TROJAN -> grpc_ok (from_reader s) ->
  length hex = HEX_SIZE -> length sep1 = 2 -> length sep2 = 2 -> addr_ok a -> u16_ok p ->
  hunk_bytes (hunks s) = wire_header hex sep1 cmd a p sep2 ++ rest ->
  exists reader', grpc_ok reader' /\ grpc_bytes reader' = rest /\
    tun_task (T:=T) (U:=U) self s tx sched n =
      if decide (ga_secret (gs_acceptor self) = hex)
      then handle_hunk (gs_handler self) reader' tx
             (mkInboundRequest (atype_of a) (mkIpAddrPort a p) cmd (transport_of cmd) TROJAN) sched n
      else (n, Err (mkError InvalidData "Incorrect trojan credentials")).
Proof.
  intros Hp Hok Hh Hl1 Hl2 Ha Hport Hd.
  destruct (accept_hunk_header _ _ _ _ _ _ _ _ _ Hp Hok Hh Hl1 Hl2 Ha Hport Hd) as (g & Hi & Hb & E).
  exists g. split_and!; [done..|]. unfold tun_task. rewrite E.
  unfold io_bind, io_lift. by case_decide.
Qed.

(** The downward direction: the channel got the front of the server's bytes. *)
Definition reply_hunks (t0 t : T) (ch0 ch : Ch) (k : place (list byte)) : Prop :=
  exists chunks rest, queued ch = queued ch0 ++ ((fun bs => inl (mkHunk bs)) <$> chunks) /\
    data (view t0) = mjoin chunks ++ rest ++ data (view t) /\
    match k with Idle => rest = [] | Holding bs => rest = bs | Stuck => True end.

Definition call_inv (g0 : G) (ch0 : Ch) (t0 : T) (st : (G * Ch) * T) (k1 k2 : place (list byte)) : Prop :=
  src_inv st.1.1 /\ both_inv st.2 /\ moved g0 st.1.1 t0 st.2 k1 /\ reply_hunks t0 st.2 ch0 st.1.2 k2.

Lemma reply_hunks_stuck t0 t ch0 ch k : reply_hunks t0 t ch0 ch k -> reply_hunks t0 t ch0 ch Stuck.
Proof. intros (cs & rest & ? & ? & _). by exists cs, rest. Qed.

Lemma call_inv_stuck g0 ch0 t0 st k1 k2 : call_inv g0 ch0 t0 st k1 k2 -> call_inv g0 ch0 t0 st Stuck Stuck.
Proof. intros (? & ? & ? & ?). split_and!; eauto using reply_hunks_stuck, moved_stuck. Qed.

Lemma call_up_step g0 ch0 t0 st k1 k2 st' k' r :
  call_inv g0 ch0 t0 st k1 k2 -> poll_task hunk_up st k1 = (st', k', r) ->
  match r with
  | None => call_inv g0 ch0 t0 st' k' k2
  | Some o => call_inv g0 ch0 t0 st' Stuck Stuck /\ is_panic o = false
  end.
Proof.
  destruct st as [[g ch] t]. intros (Hg & Ht & Hu & Hd); simpl in *.
  destruct k1 as [|bs|]; simpl; unfold on_fst, on_snd; simpl.
  - destruct (next_chunk g) as [g1 o] eqn:E.
    change (grpc_ok g) with (src_inv g) in Hg.
    pose proof (take_moved _ _ _ _ _ _ Hg E Hu) as Ho.
    destruct (next_chunk_view _ _ _ Hg E) as (Hg1 & _ & _).
    destruct o as [[bs|]|e|p|]; simpl; try done.
    + intros [=<- <- <-]. by split_and!.
    + destruct Ho as (Hm & _ & _). destruct (end_copy t) as [t1 o2] eqn:E2.
      destruct (flush_moved _ _ _ _ _ _ _ (proj2 Ht) E2 Hm) as (Hp & Hm2 & _).
      destruct (still_end_copy _ _ _ Ht E2) as [Ht1 Hv].
      destruct (emits_end_copy _ _ _ (proj2 Ht) E2) as [Ht2 _].
      assert (Hinv : call_inv g0 ch0 t0 ((g1, ch), t1) Stuck Stuck).
      { split_and!; [done..|by eapply moved_stuck|].
        apply (reply_hunks_stuck _ _ _ _ k2). unfold reply_hunks; simpl. by rewrite Hv. }
      destruct o2; simpl in Hp; try done; intros [=<- <- <-]; [done|done|].
      destruct Hinv as (? & ? & ? & ?). split_and!; [done..|]. unfold reply_hunks; simpl. by rewrite Hv.
    + intros [=<- <- <-]. split; [|done]. apply (call_inv_stuck _ _ _ _ Idle k2). by split_and!.
    + intros [=<- <- <-]. split_and!; [done..|by eapply moved_stuck|done].
  - destruct (put_chunk bs t) as [t1 o] eqn:E.
    destruct (put_moved _ _ _ _ _ _ _ (proj2 Ht) E Hu) as [Hp Hm].
    destruct (still_put_chunk _ _ _ _ Ht E) as [Ht1 Hv].
    destruct (emits_put_chunk _ _ _ _ (proj2 Ht) E) as [Ht2 _].
    assert (Hd1 : reply_hunks t0 t1 ch0 ch k2) by (unfold reply_hunks; by rewrite Hv).
    assert (Ht' : both_inv t1) by by split.
    destruct o as [[]|e|p|]; simpl in *; try done; intros [=<- <- <-]; [|split; [|done]|];
      split_and!; simpl; eauto using reply_hunks_stuck.
  - intros [=<- <- <-]. by split_and!.
Qed.

Lemma call_down_step g0 ch0 t0 st k1 k2 st' k' r :
  call_inv g0 ch0 t0 st k1 k2 -> poll_task hunk_down st k2 = (st', k', r) ->
  match r with
  | None => call_inv g0 ch0 t0 st' k1 k'
  | Some o => call_inv g0 ch0 t0 st' Stuck Stuck /\ is_panic o = false
  end.
Proof.
  destruct st as [[g ch] t]. intros (Hg & Ht & Hu & Hd); simpl in *.
  destruct k2 as [|bs|]; simpl.
  - unfold io_bind, on_snd, io_ret, read_buf, or_err, io_map_err; simpl.
    destruct (read BUFFER_SIZE t) as [t1 o] eqn:E.
    assert (Hn : 0 < BUFFER_SIZE) by (unfold BUFFER_SIZE; lia).
    destruct (read_view _ _ _ _ (proj1 Ht) Hn E) as (_ & _ & Ho).
    destruct (quiet_read _ Hn _ _ _ Ht E) as (Ht1 & Hw & _).
    assert (Hu1 : moved g0 g t0 t1 k1) by (unfold moved; by rewrite Hw).
    destruct Hd as (cs & rest & Hq & Hdata & ->).
    assert (Hrest : data (view t) = [] -> data (view t1) = [] -> reply_hunks t0 t1 ch0 ch Stuck).
    { intros E1 E2. exists cs, []. by rewrite Hdata, E1, E2. }
    destruct o as [bs|e|p|]; simpl; [|..|done|]; intros [=<- <- <-].
    + split_and!; [done..|]. exists cs, bs. destruct Ho as (Ho & _). by rewrite Hdata, Ho.
    + destruct Ho as (? & _ & ?). split; [|done].
      split_and!; simpl; eauto using moved_stuck.
    + destruct Ho as (? & _ & ?). split_and!; simpl; eauto.
  - unfold on_fst, on_snd; simpl. destruct (send_reply bs ch) as [ch1 o] eqn:E.
    destruct (appends_send_reply bs ch ch1 o I E) as (_ & Hp & _).
    destruct Hd as (cs & rest & Hq & Hdata & ->).
    assert (Hd1 : reply_hunks t0 t ch0 ch1 (if is_ok o then Idle else Stuck)).
    { destruct (is_ok o) eqn:Eo.
      - destruct (appends_send_reply bs ch ch1 o I E) as (_ & _ & out & _ & Hlog & Hok).
        rewrite (Hok Eo) in Hlog. exists (cs ++ [bs]), [].
        rewrite Hlog, Hq, fmap_app, join_app, <- app_assoc. simpl. by rewrite app_nil_r, <- app_assoc.
      - exists cs, bs. by rewrite (send_reply_failed _ _ _ _ E Eo). }
    destruct o as [[]|e|p|]; simpl in *; try done; intros [=<- <- <-]; [|split; [|done]|];
      split_and!; simpl; eauto using moved_stuck.
  - intros [=<- <- <-]. by split_and!.
Qed.

(** C23: a CONNECT call over gRPC: the server dials the address of the request,
    and under every interleaving the destination receives a prefix of the bytes
    of the call's hunks, and the response channel hunks that carry a prefix of
    the destination's bytes; nothing panics. *)
Theorem hunk_connect_relays self (g : G) (tx : Ch) request sched (n n' : N) addr t :
  gh_protocol self = TROJAN -> command request = Connect ->
  IpAddrPort_into (addr_port request) = Ok addr -> tcp_connect addr n = (n', Ok t) ->
  grpc_ok g -> both_inv t ->
  exists s up chunks, handle_hunk self g tx request sched n = (n', Ok (HunkTcp s)) /\
    up `prefix_of` grpc_bytes g /\ written (ss_remote s) = written t ++ up /\
    mjoin chunks `prefix_of` data (view t) /\
    queued (ss_client s).2 = queued tx ++ ((fun bs => inl (mkHunk bs)) <$> chunks) /\
    match ss_end s with Unfinished => True | First o | Second o => is_panic o = false end.
Proof.
  intros Hp Hc Ha Ht Hg Hit. unfold handle_hunk, io_bind, io_lift, io_ret.
  rewrite Hp, Hc, Ha, Ht. unfold run_select.
  destruct (select _ _ _ _ _ _) as [[[[[g' ch'] t'] k1] k2] e] eqn:E.
  assert (Hstart : call_inv g tx t ((g, tx), t) Idle Idle).
  { split_and!; [exact Hg|exact Hit|apply moved_start|].
    exists [], []. by rewrite app_nil_r. }
  pose proof (select_invariant hunk_up hunk_down (call_inv g tx t)
    (fun st _ _ o => call_inv g tx t st Stuck Stuck /\ is_panic o = false)
    (fun st _ _ o => call_inv g tx t st Stuck Stuck /\ is_panic o = false)
    (call_up_step g tx t) (call_down_step g tx t) _ _ _ _ _ _ _ _ Hstart E) as Hend.
  assert (Hfin : call_inv g tx t ((g', ch'), t') Stuck Stuck /\
    match e with Unfinished => True | First o | Second o => is_panic o = false end).
  { destruct e; [|exact Hend..]. split; [by eapply call_inv_stuck|done]. }
  destruct Hfin as [(_ & _ & (_ & up & r1 & Hu & Hw & _) & (cs & r2 & Hq & Hd & _)) He].
  simpl in *. eexists _, up, cs. split_and!; [done| |done| |done|done].
  - rewrite Hu. by apply prefix_app_r.
  - rewrite Hd. by apply prefix_app_r.
Qed.
End CallTheorems.

(** ** Witnesses *)

(** A response channel whose receiver takes everything. *)
Record ReplyChannel := mkReplies { replies : list (Hunk + Status) }.

#[export] Instance ReplyChannel_Sender : Sender ReplyChannel (Hunk + Status) := {
  send := fun h c => (mkReplies (replies c ++ [h]), Ok tt)
}.

#[export] Program Instance ReplyChannel_SenderLawful : SenderLawful ReplyChannel (Hunk + Status) := {
  queued := replies
}.
Next Obligation. intros h c c' o. simpl. by intros [=<- <-]. Qed.

Lemma replies_send (i : Hunk + Status) (c : ReplyChannel) : exists c', send i c = (c', Ok tt).
Proof. by exists (mkReplies (replies c ++ [i])). Qed.

#[local] Existing Instance demo_resolver.

#[local] Existing Instance buffered_copy.
#[local] Existing Instance buffered_copy_lawful.

#[local] Abbreviation Tcp := (Joined source Cursor).

Lemma grpc_udp_replies_framed_witness :
  exists payloads u1, pulls recv_reply demo_udp payloads u1 /\ length payloads <= 2.
Proof.
  destruct (grpc_udp_replies_framed (Ch:=ReplyChannel) demo_udp_request 2 demo_udp
    (copy_udp_socket_to_client_grpc_writer demo_udp_request 2 (demo_udp, mkReplies [])).1.1
    (mkReplies [])
    (copy_udp_socket_to_client_grpc_writer demo_udp_request 2 (demo_udp, mkReplies [])).1.2
    Running demo_udp_request_ok) as (ps & u1 & Hp & Hl & _).
  - vm_compute. reflexivity.
  - exists ps, u1. exact (conj Hp Hl).
Defined.

Lemma grpc_server_eof_spins_witness :
  exists r' ch', copy_server_reader_to_client_grpc_writer 100 (mkSource [] Eof, mkReplies []) =
    ((r', ch'), Running).
Proof.
  destruct (grpc_server_eof_spins (R:=source) (Ch:=ReplyChannel)
    replies_send
    100 (mkSource [] Eof) (mkReplies [])) as (r' & ch' & E & _).
  - exact I.
  - reflexivity.
  - exists r', ch'. exact E.
Defined.

Definition demo_service (secret : list byte) : GrpcProxyService :=
  mkGrpcProxyService (mkGrpcAcceptor TROJAN secret) (mkGrpcHandler TROJAN).

Definition demo_call : HunkScript := mkScript demo_hunks Open.

(** A call with another secret is refused. *)
Lemma tun_authenticates_witness :
  tun_task (T:=Tcp) (U:=UdpScript) (demo_service (replicate 56 x62)) demo_call (mkReplies []) []
    demo_network = (demo_network, Err (mkError InvalidData "Incorrect trojan credentials")).
Proof.
  destruct (tun_authenticates (T:=Tcp) (U:=UdpScript) (demo_service (replicate 56 x62)) demo_call
    (mkReplies []) [] demo_network demo_secret [x0d; x0a] Udp (Domain demo_domain) 53 [x0d; x0a] [x41])
    as (g & _ & _ & E).
  - reflexivity.
  - apply demo_grpc_ok.
  - apply demo_header_sizes.
  - reflexivity.
  - reflexivity.
  - apply demo_header_sizes.
  - apply demo_header_sizes.
  - vm_compute. reflexivity.
  - rewrite E. reflexivity.
Defined.

(** The hunks of a caller who knows the password, with an empty one in front of
    the end of the stream. *)
Definition demo_password_call : HunkScript :=
  mkScript [Some (mkHunk (hex_encode (digest (as_bytes "hunter2")) ++ [x0d; x0a])); Some (mkHunk [])]
    Closed.

Lemma grpc_call_requires_password_witness :
  ((tun_task (T:=Tcp) (U:=UdpScript) (mkGrpcProxyService (mkGrpcAcceptor TROJAN
      (derive_secret TROJAN (Some "hunter2"%string))) (mkGrpcHandler TROJAN))
      demo_password_call (mkReplies []) [] demo_network).1 = demo_network /\
   is_ok (tun_task (T:=Tcp) (U:=UdpScript) (mkGrpcProxyService (mkGrpcAcceptor TROJAN
      (derive_secret TROJAN (Some "hunter2"%string))) (mkGrpcHandler TROJAN))
      demo_password_call (mkReplies []) [] demo_network).2 = false) \/
  hex_encode (digest (as_bytes "hunter2")) `prefix_of` hunk_bytes (hunks demo_password_call).
Proof.
  refine (grpc_call_requires_password (T:=Tcp) (U:=UdpScript) (demo_inbound (Some "hunter2"%string) None)
    (Some (mkGrpcAcceptor TROJAN (derive_secret TROJAN (Some "hunter2"%string)))) "hunter2"
    (mkGrpcAcceptor TROJAN (derive_secret TROJAN (Some "hunter2"%string))) (mkGrpcHandler TROJAN)
    demo_password_call (mkReplies []) [] demo_network _ _ eq_refl eq_refl eq_refl I _).
  apply surjective_pairing.
Defined.

Lemma hunk_connect_relays_witness :
  exists s, handle_hunk (T:=Tcp) (U:=UdpScript) (mkGrpcHandler TROJAN) demo_grpc (mkReplies [])
      demo_trojan_request [true; true; false; false] demo_network = (demo_dialled, Ok (HunkTcp s)).
Proof.
  destruct (hunk_connect_relays (T:=Tcp) (U:=UdpScript) (mkGrpcHandler TROJAN) demo_grpc (mkReplies [])
    demo_trojan_request [true; true; false; false] demo_network demo_dialled
    (mkSocketAddr (V4 16909060) 443) (demo_tcp (mkSource [x52; x53] Stalled)))
    as (s & _ & _ & E & _); try reflexivity; [apply demo_grpc_ok|apply demo_tcp_inv|].
  exists s. exact E.
Defined.
