(* ===== verification/UdpRelays.v ===== *)
(** * UDP associations under [tokio::select!]

    The four paths on which UDP packets travel, with both directions running at
    once: the direct outbound and the two proxied ones of
    src/proxy/tcp/handler.rs, and the server side of a gRPC call of
    src/proxy/grpc/handler.rs.  Each is two pumps; the first part says what the
    computations of packet.rs take from and put to their resources, and the
    theorems put them together with [pumps_relay]: what is taken off a socket is
    what arrives there ([UdpReceives]), and what is taken is put ([delivered]). *)

From Stdlib Require Import ZArith Lia.
From Stdlib Require Import Strings.Byte Strings.String.
From stdpp Require Import base list strings numbers relations.
From S2P Require Import Prelude AsyncIo Conn Cursor Relay Select Pumps Common.
From S2P Require Import Trojan Stream GrpcStream Packet SocketAddrText Config TcpAcceptor.
From S2P Require Import TcpHandler GrpcProxy.

#[local] Open Scope nat_scope.

(** ** Takes *)

(** The items taken from a byte stream whose content is [encode items]: a
    prefix of them, and the rest is still in front of the stream. *)
Definition taken_items {R X} `{ByteSource R} (item : packet -> SocketAddr -> X)
    (ks : list packet) (ds : list SocketAddr) (xs : list X) (r : R) : Prop :=
  exists m, m <= length ks /\ xs = take m (zip_with item ks ds) /\
    data (view r) = packets_bytes (drop m ks).

(** The chunks taken from a byte stream [r0]. *)
Definition taken_chunks {R} `{ByteSource R} (n : nat) (r0 : R) (xs : list (list byte)) (r : R) : Prop :=
  data (view r0) = mjoin xs ++ data (view r) /\ Forall (fun x => length x <= n) xs.

Lemma taken_items_start {R X} `{ByteSource R} (item : packet -> SocketAddr -> X) ks ds (r : R) :
  data (view r) = packets_bytes ks -> taken_items item ks ds [] r.
Proof. intros Hd. exists 0. rewrite drop_0. split_and!; [lia|done|done]. Qed.

Lemma taken_chunks_start {R} `{ByteSource R} n (r : R) : taken_chunks n r [] r.
Proof. by split. Qed.

Section Sources.
Context {R : Type} `{AsyncReadExt R} `{!ByteSource R} `{Resolver}.

(** On a resource that is only read, [takes] with an empty log. *)
Definition no_log : R -> list unit := fun _ => [].

Lemma takes_read n (r0 : R) : 0 < n -> takes src_inv no_log (taken_chunks n r0) (once (taken_chunks n r0)) (read n).
Proof.
  intros Hn. apply takes_once. intros xs r r' o Hr [Hd Hl] E. destruct (read_view _ _ _ _ Hr Hn E) as (Hi & _ & Ho).
  split_and!; [done|done|by destruct o|]. intros x ->. destruct Ho as (Hx & Hlx & _). split.
  - by rewrite join_app, Hd, Hx; simpl; rewrite app_nil_r, <- app_assoc.
  - apply Forall_app. by split; [|constructor].
Qed.

(** A source that takes one packet at a time takes a sequence of packets. *)
Lemma takes_packets {X} (src : io R X) (src0 : io source X) item ks ds :
  refines src src0 ->
  (forall r k d rest, src_inv r -> packet_ok k -> resolves k d ->
     data (view r) = packet_bytes k ++ rest ->
     exists r', src r = (r', Ok (item k d)) /\ view r' = mkSource rest (fin (view r)) /\ src_inv r') ->
  (forall r, src_inv r -> data (view r) = [] ->
     exists r', src r = (r', short_read (fin (view r)))) ->
  Forall packet_ok ks -> Forall2 resolves ks ds ->
  takes src_inv no_log (taken_items item ks ds) (once (taken_items item ks ds)) src.
Proof.
  intros Href Hpk Hend Hks Hds. apply takes_once. intros xs r r' o Hr (m & Hm & -> & Hd) E.
  assert (Hi : src_inv r').
  { destruct (Href r Hr) as (r1 & E1 & _ & Hi). rewrite E in E1. by simplify_eq. }
  destruct (ks !! m) as [k|] eqn:Ek.
  - destruct (Forall2_lookup_l _ _ _ _ _ Hds Ek) as (d & Ed & Hkd).
    pose proof (Forall_lookup_1 _ _ _ _ Hks Ek) as Hk. rewrite (drop_S _ _ _ Ek) in Hd.
    destruct (Hpk r k d _ Hr Hk Hkd Hd) as (r1 & E1 & Hv & _).
    rewrite E1 in E. simplify_eq. split_and!; [done..|]. intros x [=<-].
    exists (S m). split_and!; [by apply lookup_lt_Some in Ek| |by rewrite Hv].
    symmetry. apply take_S_r. by rewrite lookup_zip_with, Ek, Ed.
  - apply lookup_ge_None in Ek. rewrite drop_ge in Hd by done.
    destruct (Hend r Hr Hd) as (r1 & E1). rewrite E1 in E. simplify_eq.
    split_and!; [done|done|by destruct (fin (view r))|]. intros x Hx.
    by destruct (fin (view r)).
Qed.

Lemma refines_next_payload : refines (next_payload : io R _) next_payload.
Proof.
  unfold next_payload. apply refines_bind; [apply refines_parse_udp|]. intros h.
  repeat (apply refines_bind; [|intros ?]); auto with refines.
Qed.

Lemma takes_next_datagram ks ds :
  Forall packet_ok ks -> Forall2 resolves ks ds ->
  takes src_inv no_log (taken_items (fun k d => (pk_payload k, d)) ks ds)
    (once (taken_items (fun k d => (pk_payload k, d)) ks ds)) next_datagram.
Proof.
  apply (takes_packets _ _ _ _ _ refines_next_datagram next_datagram_packet next_datagram_end).
Qed.

Lemma takes_next_payload ks ds :
  Forall packet_ok ks -> Forall2 resolves ks ds ->
  takes src_inv no_log (taken_items (fun k _ => pk_payload k) ks ds)
    (once (taken_items (fun k _ => pk_payload k) ks ds)) next_payload.
Proof.
  apply (takes_packets _ _ _ _ _ refines_next_payload next_payload_packet next_payload_end).
Qed.
End Sources.

(** The datagrams taken from a socket, seen through a buffer of [n] bytes: the
    first of those that were to arrive, and the others are still to arrive. *)
Definition received (n : nat) (ds : list (list byte * SocketAddr)) : list (list byte * SocketAddr) :=
  (fun d => (take n d.1, d.2)) <$> ds.

Definition taken_datagrams {U} `{UdpReceives U} (n : nat) (u0 : U)
    (xs : list (list byte * SocketAddr)) (u : U) : Prop :=
  exists ds, arriving u0 = ds ++ arriving u /\ xs = received n ds.
Definition taken_payloads {U} `{UdpReceives U} (n : nat) (u0 : U) (xs : list (list byte)) (u : U) : Prop :=
  exists ds, arriving u0 = ds ++ arriving u /\ xs = (received n ds).*1.

Definition always {S} : S -> Prop := fun _ => True.

Section Sockets.
Context {U : Type} `{UdpReceives U}.

Lemma taken_datagrams_start n (u : U) : taken_datagrams n u [] u.
Proof. by exists []. Qed.
Lemma taken_payloads_start n (u : U) : taken_payloads n u [] u.
Proof. by exists []. Qed.

Lemma takes_recv_from n (u0 : U) :
  takes always sent (taken_datagrams n u0) (taken_datagrams n u0) (recv_from n).
Proof.
  intros xs u u' o _ (ds & Hds & ->) E. destruct (recv_from_sent _ _ _ _ E) as (Hp & Hs & _).
  pose proof (recv_from_arriving _ _ _ _ E) as Ho. split_and!; [done..|].
  destruct o as [[bs a]|e|p|]; [|exists ds; by rewrite Ho..].
  destruct Ho as (whole & Hw & Hbs); simpl in *. exists (ds ++ [(whole, a)]).
  split; [by rewrite Hds, Hw, <- app_assoc|]. unfold received. by rewrite fmap_app, Hbs.
Qed.

Lemma takes_recv_reply (u0 : U) :
  takes always sent (taken_payloads BUFFER_SIZE u0) (taken_payloads BUFFER_SIZE u0) recv_reply.
Proof.
  intros xs u u' o _ (ds & Hds & ->). unfold recv_reply, or_err, io_map_err.
  destruct (recv BUFFER_SIZE u) as [u1 o1] eqn:E. destruct (recv_sent _ _ _ _ E) as (Hp & Hs & _).
  pose proof (recv_arriving _ _ _ _ E) as Ho.
  destruct o1 as [bs|e|p|]; intros [=<- <-]; split_and!; try done; [|exists ds; by rewrite Ho..].
  destruct Ho as (whole & a & Hw & Hbs). exists (ds ++ [(whole, a)]).
  split; [by rewrite Hds, Hw, <- app_assoc|]. unfold received. by rewrite !fmap_app, Hbs.
Qed.

(** Sending leaves what is to arrive alone. *)
Lemma puts_send_to {Y} (taken : list Y -> U -> Prop) :
  (forall ys u u', arriving u' = arriving u -> taken ys u -> taken ys u') ->
  puts always sent (fun x : list byte * SocketAddr => [x]) taken taken
    (fun x => send_to x.1 x.2 ;;? io_ret tt).
Proof.
  intros Ht x. split; [apply appends_send_to|]. intros ys u u' o _.
  unfold io_bind, io_ret. destruct (send_to x.1 x.2 u) as [u1 o1] eqn:E.
  pose proof (send_to_arriving _ _ _ _ _ E) as Ha.
  destruct o1; intros [= <- <-]; split; by apply Ht.
Qed.

Lemma taken_datagrams_arriving n (u0 : U) xs (u u' : U) :
  arriving u' = arriving u -> taken_datagrams n u0 xs u -> taken_datagrams n u0 xs u'.
Proof. intros Ha (ds & Hds & ->). exists ds. by rewrite Ha. Qed.
Lemma taken_payloads_arriving n (u0 : U) xs (u u' : U) :
  arriving u' = arriving u -> taken_payloads n u0 xs u -> taken_payloads n u0 xs u'.
Proof. intros Ha (ds & Hds & ->). exists ds. by rewrite Ha. Qed.
End Sockets.

(** A duplex stream is read without being written to. *)
Lemma takes_duplex {T X} `{AsyncReadExt T} `{!ByteSource T} `{!AsyncWrite T} `{!AsyncWriteExt T}
    `{!ByteSink T} `{!ByteDuplex T} (taken : list X -> T -> Prop) (src : io T X) :
  quiet src -> takes src_inv no_log taken (once taken) src ->
  takes both_inv written taken (once taken) src.
Proof.
  intros Hq Ht xs t t' o Hb Hxs E. destruct (Hq _ _ _ Hb E) as (? & ? & _).
  destruct (Ht _ _ _ _ (proj1 Hb) Hxs E) as (_ & _ & ? & ?). by split_and!.
Qed.

(** A resource next to the one that is read. *)
Lemma takes_on_snd {S T X L L'} (inv : T -> Prop) (invS : S -> Prop) (log : S -> list L)
    (log' : T -> list L') (taken : list X -> T -> Prop) (src : io T X) :
  takes inv log' taken (once taken) src ->
  takes (fun p => invS p.1 /\ inv p.2) (fun p => log p.1) (fun xs p => taken xs p.2)
    (once (fun xs p => taken xs p.2)) (on_snd src).
Proof.
  intros Ht xs [s t] p' o [Hs Hi] Hxs. unfold on_snd; simpl in *.
  destruct (src t) as [t1 o1] eqn:E. intros [=<- <-].
  destruct (Ht _ _ _ _ Hi Hxs E) as (? & _ & ? & Hx). split_and!; [done..|].
  destruct o1; [done|by exists (s, t)..].
Qed.

Lemma takes_on_fst {S T X L L'} (inv : S -> Prop) (invT : T -> Prop) (log : T -> list L)
    (log' : S -> list L') (taken : list X -> S -> Prop) (src : io S X) :
  takes inv log' taken (once taken) src ->
  takes (fun p => inv p.1 /\ invT p.2) (fun p => log p.2) (fun xs p => taken xs p.1)
    (once (fun xs p => taken xs p.1)) (on_fst src).
Proof.
  intros Ht xs [s t] p' o [Hs Hi] Hxs. unfold on_fst; simpl in *.
  destruct (src s) as [s1 o1] eqn:E. intros [=<- <-].
  destruct (Ht _ _ _ _ Hs Hxs E) as (? & _ & ? & Hx). split_and!; [done..|].
  destruct o1; [done|by exists (s, t)..].
Qed.

(** ** Puts *)

(** What is still to be taken from a duplex stream does not change when it is
    written to. *)
Lemma puts_duplex {T X Y} `{AsyncReadExt T} `{!ByteSource T} `{!AsyncWrite T} `{!AsyncWriteExt T}
    `{!ByteSink T} `{!ByteDuplex T} (enc : X -> list byte) (taken : list Y -> T -> Prop)
    (snk : X -> io T unit) :
  (forall ys t t', view t' = view t -> taken ys t -> taken ys t') ->
  (forall x, still (snk x)) -> (forall x, emits (snk x) (enc x)) ->
  puts both_inv written enc taken (once taken) snk.
Proof.
  intros Hview Hstill Hemit. apply puts_once; intros x.
  - intros t t' o Hb E. destruct (Hstill x _ _ _ Hb E) as [? _].
    destruct (Hemit x _ _ _ (proj2 Hb) E) as (? & ? & _ & ?). by split_and!.
  - intros ys t t' o Hb Ht E. eapply Hview; [|exact Ht]. by destruct (Hstill x _ _ _ Hb E).
Qed.

Lemma taken_items_view {R X} `{ByteSource R} (item : packet -> SocketAddr -> X) ks ds xs (r r' : R) :
  view r' = view r -> taken_items item ks ds xs r -> taken_items item ks ds xs r'.
Proof. intros Hv. unfold taken_items. by rewrite Hv. Qed.

Lemma taken_chunks_view {R} `{ByteSource R} n r0 xs (r r' : R) :
  view r' = view r -> taken_chunks n r0 xs r -> taken_chunks n r0 xs r'.
Proof. intros Hv. unfold taken_chunks. by rewrite Hv. Qed.

Lemma puts_on_fst {S T X Y L} (inv : S -> Prop) (invT : T -> Prop) (log : S -> list L)
    (enc : X -> list L) (taken : list Y -> T -> Prop) (snk : X -> io S unit) :
  (forall x, appends inv log (snk x) (enc x)) ->
  puts (fun p => inv p.1 /\ invT p.2) (fun p => log p.1) enc (fun ys p => taken ys p.2)
    (once (fun ys p => taken ys p.2)) (fun x => on_fst (snk x)).
Proof.
  intros Hsnk. apply puts_once; intros x.
  - intros [s t] p' o [Hs Hi]. unfold on_fst; simpl in *. destruct (snk x s) as [s1 o1] eqn:E.
    intros [=<- <-]. destruct (Hsnk x _ _ _ Hs E) as (? & ? & ?). by split_and!.
  - intros ys [s t] p' o [Hs Hi] Hy. unfold on_fst; simpl in *. destruct (snk x s).
    by intros [=<- <-].
Qed.

Lemma puts_on_snd {S T X Y L} (inv : T -> Prop) (invS : S -> Prop) (log : T -> list L)
    (enc : X -> list L) (taken : list Y -> S -> Prop) (snk : X -> io T unit) :
  (forall x, appends inv log (snk x) (enc x)) ->
  puts (fun p => invS p.1 /\ inv p.2) (fun p => log p.2) enc (fun ys p => taken ys p.1)
    (once (fun ys p => taken ys p.1)) (fun x => on_snd (snk x)).
Proof.
  intros Hsnk. apply puts_once; intros x.
  - intros [s t] p' o [Hs Hi]. unfold on_snd; simpl in *. destruct (snk x t) as [t1 o1] eqn:E.
    intros [=<- <-]. destruct (Hsnk x _ _ _ Hi E) as (? & ? & ?). by split_and!.
  - intros ys [s t] p' o [Hs Hi] Hy. unfold on_snd; simpl in *. destruct (snk x t).
    by intros [=<- <-].
Qed.

(** ** Reading and writing at once *)

Lemma quiet_next_datagram {T} `{AsyncReadExt T} `{!ByteSource T} `{!AsyncWrite T} `{!ByteSink T}
    `{!ByteDuplex T} `{Resolver} : quiet (next_datagram : io T _).
Proof.
  unfold next_datagram, parse_udp. repeat (apply quiet_bind; [|intros ?]);
    auto using quiet_address with refines; case_match; apply quiet_ret || apply (quiet_lift (Panic _)).
Qed.

Lemma still_write_reply {T} `{AsyncReadExt T} `{!ByteSource T} `{!AsyncWrite T} `{!AsyncWriteExt T}
    `{!ByteSink T} `{!ByteDuplex T} addr bs : still (write_reply addr bs : io T unit).
Proof.
  unfold write_reply. eapply still_bind; [apply emits_write_reply_addr| |].
  - destruct (ip addr) as [[a|a]|dm]; simpl; eapply still_bind; auto with emits.
    intros _. eapply still_bind; auto with emits.
  - intros _. do 4 (eapply still_bind; [auto with emits|auto with emits|intros _]).
    eapply still_bind; auto with emits.
Qed.

Lemma quiet_next_payload {T} `{AsyncReadExt T} `{!ByteSource T} `{!AsyncWrite T} `{!ByteSink T}
    `{!ByteDuplex T} `{Resolver} : quiet (next_payload : io T _).
Proof.
  unfold next_payload, parse_udp. repeat (apply quiet_bind; [|intros ?]);
    auto using quiet_address with refines.
Qed.

Lemma still_write_packet {T} `{AsyncReadExt T} `{!ByteSource T} `{!AsyncWrite T} `{!AsyncWriteExt T}
    `{!ByteSink T} `{!ByteDuplex T} request bs :
  request_ok request -> still (write_packet request bs : io T unit).
Proof.
  intros Hr. unfold write_packet. eapply still_bind; [by apply emits_write_packet_header| |].
  - destruct Hr as [_ _ Ha _]. unfold write_packet_header.
    eapply still_bind; [auto with emits|auto with emits|intros _].
    eapply (still_bind _ _ (wire_addr (ip (addr_port request)))).
    + destruct (ip (addr_port request)) as [[a|a]|dm]; auto with emits.
      apply (emits_bind _ _ [_]); auto with emits.
    + destruct (ip (addr_port request)) as [[a|a]|dm]; auto with emits.
      eapply still_bind; auto with emits.
    + intros _. do 2 (eapply still_bind; [auto with emits..|intros _]). auto with emits.
  - intros _. do 2 (eapply still_bind; [auto with emits..|intros _]). auto with emits.
Qed.

(** ** What the logs say *)

Lemma prefix_of_take {X} m (l : list X) : take m l `prefix_of` l.
Proof. exists (drop m l). by rewrite take_drop. Qed.

(** A prefix of the datagrams taken is the first datagrams. *)
Lemma prefix_datagrams {X} m (l out : list X) :
  out `prefix_of` mjoin ((fun x => [x]) <$> take m l) -> out = take (length out) l.
Proof.
  rewrite mjoin_singletons. intros Hout.
  destruct (transitivity Hout (prefix_of_take m l)) as [rest ->]. by rewrite take_app_length.
Qed.

Lemma zip_with_payloads `{Resolver} (ks : list packet) (ds : list SocketAddr) :
  Forall2 resolves ks ds -> zip_with (fun k _ => pk_payload k) ks ds = pk_payload <$> ks.
Proof. induction 1; [done|]. simpl. by f_equal. Qed.

(** A prefix of the payloads taken is a prefix of all payloads. *)
Lemma prefix_payloads m (payloads : list (list byte)) (out : list byte) :
  out `prefix_of` mjoin ((fun x => x) <$> take m payloads) -> out `prefix_of` mjoin payloads.
Proof.
  intros Hpre. etrans; [exact Hpre|]. rewrite list_fmap_id.
  rewrite <- (take_drop m payloads) at 2. rewrite join_app. by apply prefix_app_r.
Qed.

(** ** The direct outbound *)

Section DirectUdp.
Context {N C BC T TS TC BO U Ch S Q : Type}.
Context `{TokioCopy}.
Context `{Net N T U} `{Buffers C BC}.
Context `{AsyncReadExt BC} `{!ByteSource BC} `{!AsyncWrite BC} `{!AsyncWriteExt BC} `{!ByteSink BC} `{!ByteDuplex BC}.
Context `{AsyncReadExt C} `{!AsyncWrite C} `{!AsyncWriteExt C}.
Context `{AsyncReadExt T} `{!AsyncWrite T} `{!AsyncWriteExt T}.
Context `{UdpReceives U} `{Resolver}.
#[local] Abbreviation direct := (handle_direct_stream (N:=N) (C:=C) (BC:=BC) (T:=T) (TS:=TS)
  (TC:=TC) (BO:=BO) (U:=U) (Ch:=Ch) (S:=S) (Q:=Q)).

(** C9: the direct UDP path: when the client's stream is a sequence of packets,
    then under every interleaving of the two directions the datagrams sent are
    those of the first packets, whole, in order, each to its own destination.
    The datagrams taken off the socket are the first ones that arrive there, and
    the client gets exactly their packets, in order, with the address of the
    request and each payload as it came (cut to the buffer of 4096 bytes); none
    is missing, but that the last one taken may be cut off.  Nothing panics. *)
Theorem direct_udp_relays (ks : list packet) (ds : list SocketAddr) request c sched n n' u :
  Forall packet_ok ks -> Forall2 resolves ks ds ->
  proxy_protocol request = TROJAN -> transport_protocol request = TransportUDP ->
  udp_bind n = (n', Ok u) -> both_inv (with_buffers c) ->
  data (view (with_buffers c)) = packets_bytes ks ->
  exists s m replies out, direct request c sched n = (n', Ok (DirectUdp s)) /\
    sent (ss_remote s) = sent u ++ take m (zip (pk_payload <$> ks) ds) /\
    arriving u = replies ++ arriving (ss_remote s) /\
    written (ss_client s) = written (with_buffers c) ++ out /\
    delivered (fun d => packet_bytes (request_packet request (take BUF_SIZE d.1))) replies out /\
    calm (ss_end s).
Proof.
  intros Hks Hds Hp Ht Hbind Hb Hdata. unfold handle_direct_stream.
  rewrite Hp, Ht. unfold io_bind at 1. rewrite Hbind. unfold io_ret at 1.
  set (addr := addr_port request). set (b := with_buffers c) in *.
  destruct (pumps_relay next_datagram (fun x => send_to x.1 x.2 ;;? io_ret tt) (recv_from BUF_SIZE)
    (fun x => write_reply addr x.1) both_inv written (taken_items (fun k d => (pk_payload k, d)) ks ds)
    (once (taken_items (fun k d => (pk_payload k, d)) ks ds))
    (fun x => packet_bytes (request_packet request x.1)) always sent (taken_datagrams BUF_SIZE u)
    (taken_datagrams BUF_SIZE u) (fun x => [x])) with (sched := sched) (a := b) (b := u)
    as (xs & ys & up & down & (b1 & m & _ & -> & _) & (replies & Harr & ->) & Hup & Hpup & Hdn & Hpdn & _ & _ & He).
  - apply takes_duplex; [apply quiet_next_datagram|by apply takes_next_datagram].
  - apply puts_send_to. intros ys u1 u2. apply taken_datagrams_arriving.
  - apply takes_recv_from.
  - apply puts_duplex; [by intros ??? ?; apply taken_items_view|intros x; apply still_write_reply|].
    intros x. apply emits_write_reply.
  - apply once_intro.
  - done.
  - done.
  - done.
  - by apply taken_items_start.
  - apply taken_datagrams_start.
  - apply delivered_prefix, prefix_datagrams in Hpup. rewrite <- zip_with_fmap_l in Hpup.
    eexists _, (length up), replies, down. split_and!; [done| |done|done| |exact He].
    + by rewrite Hup, Hpup at 1.
    + unfold received in Hpdn. by rewrite delivered_fmap in Hpdn.
Qed.
End DirectUdp.

(** ** Through a remote proxy *)

(** [BufReader] and [BufWriter] keep the bytes of the stream they wrap: what is
    still to be read and what was written are those of the stream. *)
Class BuffersLawful (T BT : Type) `{ByteDuplex T} `{ByteDuplex BT} `{!Buffers T BT} := {
  with_buffers_view (t : T) : both_inv t ->
    both_inv (with_buffers t : BT) /\ view (with_buffers t : BT) = view t /\
    written (with_buffers t : BT) = written t
}.

Section ProxiedUdp.
Context {N C BC T TS TC BO U Ch S Q ClientConfig ServerName : Type}.
Context `{TokioCopyLawful}.
#[local] Abbreviation Out := (StandardTcpStream T TS TC).
Context `{Net N T U} `{TlsConnect ClientConfig ServerName T TC}.
Context `{AsyncReadExt C} `{!ByteSource C} `{!AsyncWrite C} `{!AsyncWriteExt C} `{!ByteSink C} `{!ByteDuplex C}.
Context `{AsyncReadExt T} `{!ByteSource T} `{!AsyncWrite T} `{!AsyncWriteExt T} `{!ByteSink T} `{!ByteDuplex T}.
Context `{ByteDuplex TS} `{ByteDuplex TC}.
Context `{!AsyncReadExt Out} `{!AsyncWriteExt Out}.
Context `{AsyncReadExt BO} `{!ByteSource BO} `{!AsyncWrite BO} `{!AsyncWriteExt BO} `{!ByteSink BO} `{!ByteDuplex BO}.
Context `{!Buffers Out BO} `{!BuffersLawful Out BO} `{Resolver}.
#[local] Abbreviation Handler := (TcpHandler ClientConfig ServerName).
#[local] Abbreviation proxied := (handle_tcp_stream (N:=N) (C:=C) (BC:=BC) (T:=T) (TS:=TS)
  (TC:=TC) (BO:=BO) (U:=U) (Ch:=Ch) (S:=S) (Q:=Q)).

(** The two loops of the client end: all chunks that were read, as packets, go up;
    payloads come down. *)
Lemma tunnel_relay request sched (c : C) (b : BO) ks ds :
  request_ok request -> Forall packet_ok ks -> Forall2 resolves ks ds ->
  both_inv c -> both_inv b -> data (view b) = packets_bytes ks ->
  let s := run_select (pump_task (read BUF_SIZE) (write_packet request))
             (pump_back next_payload write_all) sched c b in
  exists chunks up down, mjoin chunks `prefix_of` data (view c) /\
    Forall (fun c => length c <= BUF_SIZE) chunks /\
    written (ss_remote s) = written b ++ up /\
    delivered (fun c => packet_bytes (request_packet request c)) chunks up /\
    written (ss_client s) = written c ++ down /\ down `prefix_of` mjoin (pk_payload <$> ks) /\
    calm (ss_end s).
Proof.
  intros Hreq Hks Hds Hic Hib Hdata.
  destruct (pumps_relay (read BUF_SIZE) (write_packet request) next_payload write_all
    both_inv written (taken_chunks BUF_SIZE c) (once (taken_chunks BUF_SIZE c)) (fun x => x)
    both_inv written (taken_items (fun k _ => pk_payload k) ks ds)
    (once (taken_items (fun k _ => pk_payload k) ks ds))
    (fun p => packet_bytes (request_packet request p))) with (sched := sched) (a := c) (b := b)
    as (xs & ys & up & down & (c1 & Hx & Hl) & (b1 & m & _ & -> & _) & Hup & Hdup & Hdn & Hpdn & _ & _ & He).
  - apply takes_duplex; [apply quiet_read, BUF_SIZE_pos|apply takes_read, BUF_SIZE_pos].
  - apply puts_duplex; [by intros ??? ?; apply taken_items_view|intros x; by apply still_write_packet|].
    intros x. by apply emits_write_packet.
  - apply takes_duplex; [apply quiet_next_payload|by apply takes_next_payload].
  - apply puts_duplex; [by intros ??? ?; apply taken_chunks_view|apply still_write_all|apply emits_write_all].
  - apply once_intro.
  - apply once_intro.
  - done.
  - done.
  - apply taken_chunks_start.
  - by apply taken_items_start.
  - apply delivered_prefix in Hpdn. rewrite (zip_with_payloads _ _ Hds) in Hpdn.
    exists xs, up, down. split_and!; [|done..| |done]; [|by eapply prefix_payloads].
    rewrite Hx. by apply prefix_app_r.
Qed.

(** C13: a UDP tunnel over TCP, both ends, for a request to an IPv4 or IPv6 address
    (not a domain name) and a fresh stream to the remote proxy, plain or TLS, on
    which the remote answers with packets.  The handler writes its Trojan header and behind it, under every interleaving, the packets of chunks of the
    client's bytes: all the chunks it read, the last packet perhaps cut off; the
    client gets a prefix of the payloads of the packets the remote sends; nothing
    panics.  A remote proxy with the same secret, reading these bytes in any
    pieces, accepts the request, and its forwarding loop then sends the chunks as
    datagrams to the address of the request, in order, one datagram a chunk, and
    leaves with what ended the stream: every chunk but at most the last is sent,
    unless the socket refuses one.  Otherwise writing the header failed, and that
    failure is returned. *)
Theorem proxy_udp_tunnel {R V} `{AsyncReadExt R} `{!ByteSource R} `{UdpLawful V}
    (self : Handler) request i c sched n n' (out : Out) ks ds :
  proxy_stream self n n' out -> both_inv out -> written out = [] ->
  th_protocol self = TROJAN -> length (th_secret self) = HEX_SIZE ->
  transport_protocol request = TransportUDP -> request_ok request ->
  ip (addr_port request) = IpAddr_ i -> both_inv c ->
  Forall packet_ok ks -> Forall2 resolves ks ds -> data (view out) = packets_bytes ks ->
  exists o, proxied self request c sched n = (n', o) /\
    ((exists s chunks up down, o = Ok (ProxyUdp s) /\
        mjoin chunks `prefix_of` data (view c) /\
        written (ss_remote s) = handshake_bytes request (th_secret self) ++ up /\
        delivered (fun c => packet_bytes (request_packet request c)) chunks up /\
        written (ss_client s) = written c ++ down /\ down `prefix_of` mjoin (pk_payload <$> ks) /\
        calm (ss_end s) /\
        forall (r : R) (v : V), src_inv r -> data (view r) = written (ss_remote s) ->
        let datagrams := (fun c => (c, mkSocketAddr i (port (addr_port request)))) <$> chunks in
        exists r1 k r2 v2 e,
          accept (th_secret self) r =
            (r1, Ok (mkInboundRequest (atype request) (addr_port request) (command request)
                       TransportUDP TROJAN)) /\
          pred (length chunks) <= k <= length chunks /\
          copy_client_reader_to_udp_socket (Datatypes.S k) (r1, v) = ((r2, v2), Exited e) /\
          ((sent v2 = sent v ++ take k datagrams /\ e = short_read (fin (view r))) \/
           socket_refused (take k datagrams) v v2 e)) \/
     (exists t1 e, handshake request (th_secret self) out = (t1, e) /\ same_failure e o)).
Proof.
  intros Hopen Hit Hw Hp Hs Htr Hreq Hi Hic Hks Hds Hdata.
  destruct (proxied_run (BC:=BC) (BO:=BO) (Ch:=Ch) (S:=S) (Q:=Q) self request c sched n n' out Hopen Hp Hs)
    as (t1 & e & o & Eh & Er & Ho). exists o. split; [done|]. rewrite Htr in Ho.
  destruct e as [[]|e|p|]; [left|right; by exists t1, (Err e)|right; by exists t1, (Panic p)
    |right; by exists t1, Pending].
  destruct (written_header out t1 _ _ Hit Hw Eh) as (Hi1 & Hv1 & Hwr).
  destruct (with_buffers_view t1 Hi1) as (Hib & Hvb & Hwb).
  destruct (tunnel_relay request sched c (with_buffers t1 : BO) ks ds Hreq Hks Hds Hic Hib)
    as (chunks & up & down & Hchunks & Hlen & Hup & Hdup & Hdn & Hpdn & He); [by rewrite Hvb, Hv1|].
  rewrite Hwb, Hwr in Hup. eexists _, chunks, up, down. split_and!; [done..|].
  intros r v Hr Hdr datagrams. rewrite Hup in Hdr.
  destruct (accept_handshake request i _ r up Hreq Hi Hs Hr Hdr) as (r1 & Hv & Ea).
  assert (Hi1r : src_inv r1).
  { destruct (refines_accept (th_secret self) r Hr) as (r1' & Ea' & _ & Hi'). rewrite Ea in Ea'.
    by injection Ea' as <- _. }
  assert (Hres : IpAddrPort_into (addr_port request) = Ok (mkSocketAddr i (port (addr_port request)))).
  { unfold IpAddrPort_into. by rewrite Hi. }
  destruct (forward_cut request chunks r1 v _ Hreq Hlen Hres Hi1r)
    as (k & r2 & v2 & e & Hk & Hmax & El & Ho2).
  { rewrite Hv; simpl. unfold packets_bytes. rewrite <- list_fmap_compose. by apply delivered_prefix. }
  exists r1, k, r2, v2, e. split_and!; [by rewrite <- Htr|..|done|done|].
  - apply Hmax; [lia|]. rewrite Hv; simpl. unfold packets_bytes. rewrite <- list_fmap_compose.
    exact (proj1 Hdup).
  - unfold datagrams. rewrite <- !fmap_take. by rewrite Hv in Ho2.
Qed.
End ProxiedUdp.

(** ** Through a remote gRPC proxy *)

Section GrpcProxiedUdp.
Context {N C BC T TS TC BO U G Ch S Q ClientConfig ServerName : Type}.
Context `{TokioCopy}.
Context `{AsyncReadExt C} `{!ByteSource C} `{!AsyncWrite C} `{!AsyncWriteExt C} `{!ByteSink C} `{!ByteDuplex C}.
Context `{SenderLawful Ch Hunk} `{HunkSource S} `{!StreamExt S (Hunk + Status)}.
Context `{GrpcClient N G Ch S} `{!AsyncReadExt (GrpcDataReaderStream S)} `{Resolver}.
#[local] Abbreviation Handler := (TcpHandler ClientConfig ServerName).
#[local] Abbreviation grpc_proxied := (handle_grpc_stream (N:=N) (C:=C) (BC:=BC) (T:=T) (TS:=TS)
  (TC:=TC) (BO:=BO) (U:=U) (G:=G) (Ch:=Ch) (S:=S) (Q:=Q)).

(** C15: the client end of a UDP tunnel over gRPC: once the remote answered the call,
    the first hunk of the channel is the Trojan header, and behind it come, under
    every interleaving, the two hunks of each packet of the client's chunks, a
    header and a payload, the payload of the last perhaps missing; the client gets
    a prefix of the payloads of the packets in the remote's hunks; nothing
    panics. *)
Theorem grpc_proxy_udp (self : Handler) request c sched n dest n1 g ch1 n2 s0 ks ds :
  destination self = Some dest -> command request = Udp -> request_ok request ->
  grpc_connect (match th_tls self with None => false | Some _ => true end) dest n = (n1, Ok g) ->
  send (mkHunk (handshake_bytes request (th_secret self))) (mpsc_channel 16) = (ch1, Ok tt) ->
  tun_call g ch1 n1 = (n2, Ok s0) -> both_inv c -> grpc_ok (from_reader s0) ->
  Forall packet_ok ks -> Forall2 resolves ks ds -> hunk_bytes (hunks s0) = packets_bytes ks ->
  exists s chunks up down, grpc_proxied self request c sched n = (n2, Ok (ProxyGrpcUdp s)) /\
    queued (ss_remote s).1 =
      queued (mpsc_channel 16) ++ [mkHunk (handshake_bytes request (th_secret self))] ++ up /\
    up `prefix_of` mjoin (packet_hunks request <$> chunks) /\
    mjoin chunks `prefix_of` data (view c) /\
    written (ss_client s) = written c ++ down /\ down `prefix_of` mjoin (pk_payload <$> ks) /\
    calm (ss_end s).
Proof.
  intros Hd Hc Hreq Hg Hsend Ht Hic Hs0 Hks Hds Hdata.
  unfold handle_grpc_stream, or_err, io_map_err, io_bind, io_lift, io_ret.
  rewrite Hd, Hg, handshake_vec_ok, Hsend, Ht, Hc.
  destruct (pumps_relay (read BUF_SIZE) (fun bs => on_fst (send_packet request bs))
    (on_snd next_payload) write_all
    both_inv written (taken_chunks BUF_SIZE c) (once (taken_chunks BUF_SIZE c)) (fun x => x)
    (fun p : Ch * GrpcDataReaderStream S => always p.1 /\ src_inv p.2) (fun p => queued p.1)
    (fun xs p => taken_items (fun k _ => pk_payload k) ks ds xs p.2)
    (once (fun xs p => taken_items (fun k _ => pk_payload k) ks ds xs p.2)) (packet_hunks request))
    with (sched := sched) (a := c) (b := (ch1, from_reader s0))
    as (xs & ys & up & down & (c1 & Hx & _) & (b1 & m & _ & -> & _) & Hup & Hpup%delivered_prefix & Hdn
      & Hpdn%delivered_prefix & _ & _ & He).
  - apply takes_duplex; [apply quiet_read, BUF_SIZE_pos|apply takes_read, BUF_SIZE_pos].
  - apply puts_on_fst. intros x. by apply appends_send_packet.
  - eapply takes_on_snd. by apply takes_next_payload.
  - apply puts_duplex; [by intros ??? ?; apply taken_chunks_view|apply still_write_all|apply emits_write_all].
  - apply once_intro.
  - apply once_intro.
  - done.
  - by split.
  - apply taken_chunks_start.
  - by apply taken_items_start.
  - rewrite (zip_with_payloads _ _ Hds) in Hpdn. destruct (send_queued _ _ _ _ Hsend) as [_ Hq].
    simpl in Hq, Hup. eexists _, xs, up, down. split_and!; [done| |done| |done| |done].
    + by rewrite Hup, Hq, <- app_assoc.
    + rewrite Hx. by apply prefix_app_r.
    + by eapply prefix_payloads.
Qed.
End GrpcProxiedUdp.

(** ** The server side of a gRPC call *)

Section GrpcServedUdp.
Context {N T U S Ch : Type} `{Net N T U} `{TokioCopy}.
Context `{AsyncReadExt T} `{!AsyncWrite T} `{!AsyncWriteExt T}.
Context `{UdpReceives U} `{Resolver} `{HunkSource S} `{SenderLawful Ch (Hunk + Status)}.
#[local] Abbreviation G := (GrpcDataReaderStream S).
Context `{!AsyncReadExt G}.

(** C16: a UDP call over gRPC: the datagrams sent are those of the first packets in
    the call's hunks, whole and in order, each to its own destination.  The
    datagrams taken off the socket are the first ones that arrive there, and the
    response channel gets one hunk for each of them, in order: a whole packet with
    the address of the request and the payload as it came (cut to the buffer);
    none is missing, but perhaps the hunk of the last one taken.  Under every
    interleaving, and nothing panics. *)
Theorem hunk_udp_relays self (g : G) (tx : Ch) request sched (n n' : N) u ks ds :
  gh_protocol self = TROJAN -> command request = Udp -> request_ok request ->
  udp_bind n = (n', Ok u) -> grpc_ok g -> grpc_bytes g = packets_bytes ks ->
  Forall packet_ok ks -> Forall2 resolves ks ds ->
  exists s m replies k, handle_hunk (T:=T) self g tx request sched n = (n', Ok (HunkUdp s)) /\
    sent (ss_remote s) = sent u ++ take m (zip (pk_payload <$> ks) ds) /\
    arriving u = replies ++ arriving (ss_remote s) /\
    pred (length replies) <= k <= length replies /\
    queued (ss_client s).2 = queued tx ++ ((fun d => inl (mkHunk (packet_bytes
        (request_packet request (take BUFFER_SIZE d.1))))) <$> take k replies) /\
    calm (ss_end s).
Proof.
  intros Hp Hc Hreq Hu Hg Hdata Hks Hds. unfold handle_hunk, io_bind, io_ret. rewrite Hp, Hc, Hu.
  destruct (pumps_relay (on_fst next_datagram) (fun x => send_to x.1 x.2 ;;? io_ret tt) recv_reply
    (fun payload => on_snd (send_reply (reply_vec request payload)))
    (fun p : G * Ch => src_inv p.1 /\ always p.2) (fun p => queued p.2)
    (fun xs p => taken_items (fun k d => (pk_payload k, d)) ks ds xs p.1)
    (once (fun xs p => taken_items (fun k d => (pk_payload k, d)) ks ds xs p.1))
    (fun p => [inl (mkHunk (reply_vec request p))]) always sent (taken_payloads BUFFER_SIZE u)
    (taken_payloads BUFFER_SIZE u) (fun x => [x])) with (sched := sched) (a := (g, tx)) (b := u)
    as (xs & ys & up & down & (b1 & m & _ & -> & _) & (replies & Harr & ->) & Hup & Hpup & Hdn & Hpdn & _ & _ & He).
  - eapply takes_on_fst. by apply takes_next_datagram.
  - apply puts_send_to. intros ys u1 u2. apply taken_payloads_arriving.
  - apply takes_recv_reply.
  - apply puts_on_snd. intros x. apply appends_send_reply.
  - apply once_intro.
  - done.
  - by split.
  - done.
  - by apply taken_items_start.
  - apply taken_payloads_start.
  - apply delivered_prefix, prefix_datagrams in Hpup. rewrite <- zip_with_fmap_l in Hpup. simpl in Hdn.
    unfold received in Hpdn. rewrite !delivered_fmap in Hpdn.
    apply delivered_singles in Hpdn as (k & Hk & Hk').
    eexists _, (length up), replies, k. split_and!; [done| |done|lia|lia| |done].
    + by rewrite Hup, Hpup at 1.
    + etrans; [exact Hdn|]. rewrite Hk'. f_equal. apply list_fmap_ext. intros ? p _.
      simpl. by rewrite reply_vec_packet.
Qed.
End GrpcServedUdp.

(** ** Witnesses *)

#[local] Existing Instance demo_resolver.
#[local] Existing Instance buffered_copy.
#[local] Existing Instance buffered_copy_lawful.

#[local] Abbreviation Tcp := (Joined source Cursor).
#[local] Abbreviation Client := (Joined source Cursor).
#[local] Abbreviation OutTcp := (StandardTcpStream Tcp Tcp Tcp).

#[export] Instance demo_buffers_lawful : BuffersLawful OutTcp OutTcp.
Proof. constructor. intros t Ht. by split_and!. Qed.

Lemma direct_udp_relays_witness :
  exists s, handle_direct_stream (N:=DemoNet) (C:=Client) (BC:=Client)
      (T:=Tcp) (TS:=Tcp) (TC:=Tcp) (BO:=OutTcp) (U:=UdpScript) (Ch:=ChannelScript) (S:=HunkScript) (Q:=Tcp)
      demo_udp_request (demo_client (packets_bytes demo_packets) Eof)
      [true; true; false; true; false; true; true] demo_network = (demo_network, Ok (DirectUdp s)).
Proof.
  destruct (direct_udp_relays (TS:=Tcp) (TC:=Tcp) (BO:=OutTcp) (Ch:=ChannelScript) (S:=HunkScript) (Q:=Tcp)
    demo_packets [demo_dest; demo_dest]
    demo_udp_request (demo_client (packets_bytes demo_packets) Eof)
    [true; true; false; true; false; true; true] demo_network demo_network demo_udp
    demo_packets_ok demo_packets_resolve)
    as (s & m & replies & out & E & _); try reflexivity; try apply demo_tcp_inv.
  exists s. exact E.
Defined.

(** A request for an IP address, and a network that answers with packets. *)
Definition demo_ip_udp_request : InboundRequest :=
  mkInboundRequest IPv4 (mkIpAddrPort (IpAddr_ (V4 16909060)) 53) Udp TransportUDP TROJAN.

Lemma demo_ip_udp_request_ok : request_ok demo_ip_udp_request.
Proof. constructor; unfold u16_ok; simpl; unfold u32_ok; done || lia. Qed.

Definition demo_packet_network : DemoNet := mkDemoNet [] (mkSource (packets_bytes demo_packets) Stalled).
Definition demo_packet_dialled : DemoNet :=
  mkDemoNet [demo_dest] (mkSource (packets_bytes demo_packets) Stalled).

Lemma proxy_udp_tunnel_witness :
  exists o, handle_tcp_stream (BC:=Client) (T:=Tcp) (TS:=Tcp) (TC:=Tcp) (BO:=OutTcp) (U:=UdpScript)
      (Ch:=ChannelScript) (S:=HunkScript) (Q:=Tcp) (demo_handler OutboundTCP) demo_ip_udp_request
      (demo_client [x47; x48] Eof) [true; false; true; false; true] demo_packet_network =
    (demo_packet_dialled, o).
Proof.
  destruct (proxy_udp_tunnel (R:=Conn) (V:=UdpScript) (BC:=Client) (T:=Tcp) (TS:=Tcp) (TC:=Tcp) (BO:=OutTcp) (U:=UdpScript)
    (Ch:=ChannelScript) (S:=HunkScript) (Q:=Tcp) (demo_handler OutboundTCP) demo_ip_udp_request (V4 16909060)
    (demo_client [x47; x48] Eof) [true; false; true; false; true] demo_packet_network
    demo_packet_dialled (Plain (demo_tcp (mkSource (packets_bytes demo_packets) Stalled)))
    demo_packets [demo_dest; demo_dest]) as (o & E & _);
    try reflexivity; try apply demo_tcp_inv.
  - by eexists _, _.
  - exact demo_ip_udp_request_ok.
  - exact demo_packets_ok.
  - exact demo_packets_resolve.
  - exists o. exact E.
Defined.

Lemma demo_packet_hunks_ok : grpc_ok (from_reader
  (mkScript [Some (mkHunk (packets_bytes demo_packets)); None] Open)).
Proof. split_and!; [exact I|reflexivity|]. constructor; [done|constructor]. Qed.

Lemma grpc_proxy_udp_witness :
  exists s, handle_grpc_stream (BC:=Client) (T:=Tcp) (TS:=Tcp) (TC:=Tcp) (BO:=OutTcp) (U:=UdpScript) (Q:=Tcp)
      (demo_handler OutboundGRPC) demo_ip_udp_request (demo_client [x47; x48] Eof)
      [true; false; true; false; true] demo_packet_network = (demo_packet_dialled, Ok (ProxyGrpcUdp s)).
Proof.
  destruct (grpc_proxy_udp (BC:=Client) (T:=Tcp) (TS:=Tcp) (TC:=Tcp) (BO:=OutTcp) (U:=UdpScript) (Q:=Tcp)
    (demo_handler OutboundGRPC) demo_ip_udp_request (demo_client [x47; x48] Eof)
    [true; false; true; false; true] demo_packet_network demo_dest demo_packet_dialled tt
    (mkChannel [mkHunk (handshake_bytes demo_ip_udp_request (derive_secret TROJAN (Some "hunter2"%string)))] None)
    demo_packet_dialled (mkScript [Some (mkHunk (packets_bytes demo_packets)); None] Open)
    demo_packets [demo_dest; demo_dest]) as (s & _ & _ & _ & E & _);
    try reflexivity; try apply demo_tcp_inv.
  - exact demo_ip_udp_request_ok.
  - exact demo_packet_hunks_ok.
  - exact demo_packets_ok.
  - exact demo_packets_resolve.
  - exists s. exact E.
Defined.

Lemma hunk_udp_relays_witness :
  exists s, handle_hunk (T:=Tcp) (U:=UdpScript) (mkGrpcHandler TROJAN)
      (from_reader (mkScript [Some (mkHunk (packets_bytes demo_packets)); None] Open)) (mkReplies [])
      demo_udp_request [true; true; false; false; true] demo_network = (demo_network, Ok (HunkUdp s)).
Proof.
  destruct (hunk_udp_relays (T:=Tcp) (U:=UdpScript) (mkGrpcHandler TROJAN)
    (from_reader (mkScript [Some (mkHunk (packets_bytes demo_packets)); None] Open)) (mkReplies [])
    demo_udp_request [true; true; false; false; true] demo_network demo_network demo_udp
    demo_packets [demo_dest; demo_dest]) as (s & m & replies & k & E & _); try reflexivity.
  - exact demo_udp_request_ok.
  - exact demo_packet_hunks_ok.
  - exact demo_packets_ok.
  - exact demo_packets_resolve.
  - exists s. exact E.
Defined.
