(* ===== verification/QuicRelays.v ===== *)
(** * The QUIC outbound: [handle_quic_stream] of src/proxy/tcp/handler.rs

    The only path whose two directions are spawned as tasks of their own: when
    one of them ends, the [select!] and the handler return, and the other goes
    on.  The theorems say what both have done after any schedule, and that under
    a schedule that polls both often enough they run to the end, a half-closed
    client included. *)

From Stdlib Require Import Lia.
From Stdlib Require Import Strings.Byte Strings.String.
From stdpp Require Import base list strings numbers relations.
From S2P Require Import Prelude AsyncIo Conn Cursor Relay Select Pumps Common.
From S2P Require Import Trojan Stream GrpcStream Packet SocketAddrText Config TcpAcceptor.
From S2P Require Import TcpHandler.

#[local] Open Scope nat_scope.

(** ** Two spawned copies *)

Section Spawned.
Context {C S : Type} `{TokioCopyLawful}.
Context `{AsyncReadExt C} `{!ByteSource C} `{!AsyncWrite C} `{!AsyncWriteExt C} `{!ByteSink C} `{!ByteDuplex C}.
Context `{AsyncReadExt S} `{!ByteSource S} `{!AsyncWrite S} `{!AsyncWriteExt S} `{!ByteSink S} `{!ByteDuplex S}.

Lemma relay_inv_stuck_up (c0 : C) (s0 : S) st k1 k2 :
  relay_inv c0 s0 st k1 k2 -> relay_inv c0 s0 st Stuck k2.
Proof. intros (? & ? & ? & ?). split_and!; eauto using moved_stuck. Qed.

Lemma relay_inv_stuck_down (c0 : C) (s0 : S) st k1 k2 :
  relay_inv c0 s0 st k1 k2 -> relay_inv c0 s0 st k1 Stuck.
Proof. intros (? & ? & ? & ?). split_and!; eauto using moved_stuck. Qed.

(** One direction ending leaves the other where it is. *)
Lemma relay_up_ends (c0 : C) (s0 : S) st k1 k2 st' k' r :
  relay_inv c0 s0 st k1 k2 -> poll_task copy_up st k1 = (st', k', r) ->
  relay_inv c0 s0 st' (match r with None => k' | Some _ => Stuck end) k2.
Proof.
  destruct st as [c s], st' as [c' s']. intros (Hc & Hs & Hu & Hd) E. simpl in *.
  destruct (copy_step _ _ _ _ _ _ _ _ _ Hc Hs Hu E) as ((? & ? & Hw & _ & Hv) & Hr).
  pose proof (moved_frame s0 s s' c0 c c' k2 Hv Hw Hd) as Hd'.
  destruct r; [destruct Hr|]; by split_and!.
Qed.

Lemma relay_down_ends (c0 : C) (s0 : S) st k1 k2 st' k' r :
  relay_inv c0 s0 st k1 k2 -> poll_task copy_down st k2 = (st', k', r) ->
  relay_inv c0 s0 st' k1 (match r with None => k' | Some _ => Stuck end).
Proof.
  destruct st as [c s], st' as [c' s']. intros (Hc & Hs & Hu & Hd) E%copy_down_swap. simpl in *.
  destruct (copy_step _ _ _ _ _ _ _ _ _ Hs Hc Hd E) as ((? & ? & Hw & _ & Hv) & Hr).
  pose proof (moved_frame c0 c c' s0 s s' k1 Hv Hw Hu) as Hu'.
  destruct r; [destruct Hr|]; by split_and!.
Qed.

(** Safety under every schedule. *)
Lemma spawned_inv (c0 : C) (s0 : S) sched st k1 k2 e :
  relay_inv c0 s0 st k1 k2 ->
  relay_inv c0 s0 (run_spawned copy_up copy_down sched st k1 k2 e).1 Stuck Stuck.
Proof.
  revert st k1 k2 e. induction sched as [|[] sched IH]; intros st k1 k2 e Hi; simpl.
  - by eapply relay_inv_stuck_up, relay_inv_stuck_down.
  - destruct (poll_task copy_up st k1) as [[st' k'] r] eqn:E.
    pose proof (relay_up_ends _ _ _ _ _ _ _ _ Hi E) as Hi'. destruct r; by apply IH.
  - destruct (poll_task copy_down st k2) as [[st' k'] r] eqn:E.
    pose proof (relay_down_ends _ _ _ _ _ _ _ _ Hi E) as Hi'. destruct r; by apply IH.
Qed.
End Spawned.

(** ** Completion *)

(** A step of a copy to a reliable sink makes progress, or ends the copy well. *)
Lemma copy_progress {A B} `{TokioCopyLawful}
    `{AsyncReadExt A} `{!ByteSource A} `{!AsyncWrite A} `{!AsyncWriteExt A} `{!ByteSink A} `{!ByteDuplex A}
    `{AsyncReadExt B} `{!ByteSource B} `{!AsyncWrite B} `{!AsyncWriteExt B} `{!ByteSink B} `{!ByteDuplex B}
    `{!ReliableSink B} (a a' : A) (b b' : B) k k' r :
  both_inv a -> both_inv b -> fin (view a) = Eof -> k <> Stuck ->
  poll_task copy_up (a, b) k = ((a', b'), k', r) ->
  match r with
  | None => k' <> Stuck /\ up_work a' k' < up_work a k
  | Some o => o = Ok tt
  end.
Proof.
  intros Ha Hb He Hk E. destruct r as [o|]; [|by eapply up_progress].
  destruct k as [|bs|]; [| |done]; simpl in E; unfold on_fst, on_snd in E; simpl in E.
  - destruct (next_chunk a) as [a1 o1] eqn:E1.
    destruct (next_chunk_view _ _ _ (proj1 Ha) E1) as (_ & _ & Ho).
    destruct o1 as [[bs|]|e|p|]; simpl in E; try done; [|destruct Ho as (_ & _ & ?); congruence].
    destruct (succeeds_end_copy b (proj2 Hb)) as (b1 & [] & Ef). rewrite Ef in E. by simplify_eq/=.
  - destruct (succeeds_put_chunk bs b (proj2 Hb)) as (b1 & [] & Ew). by rewrite Ew in E.
Qed.

(** A direction that is still running with work left, or that has delivered and
    flushed everything. *)
Definition direction {A B} `{ByteSource A} `{ByteSink B} (a0 a : A) (b0 b : B)
    (k : place (list byte)) (polls : nat) : Prop :=
  (k <> Stuck /\ up_work a k < polls) \/ (k = Stuck /\ left_with a0 b0 b (Ok tt)).

Section Completion.
Context {C S : Type} `{TokioCopyLawful}.
Context `{AsyncReadExt C} `{!ByteSource C} `{!AsyncWrite C} `{!AsyncWriteExt C} `{!ByteSink C} `{!ByteDuplex C} `{!ReliableSink C}.
Context `{AsyncReadExt S} `{!ByteSource S} `{!AsyncWrite S} `{!AsyncWriteExt S} `{!ByteSink S} `{!ByteDuplex S} `{!ReliableSink S}.

(** The number of polls of a direction in a schedule. *)
Definition polls (b : bool) (sched : list bool) : nat := length (filter (fun x => x = b) sched).

(** A poll of one direction: it goes on with less work, or is through; the other
    direction stays as it was. *)
Lemma direction_step {A B} 
    `{AsyncReadExt A} `{!ByteSource A} `{!AsyncWrite A} `{!AsyncWriteExt A} `{!ByteSink A} `{!ByteDuplex A}
    `{AsyncReadExt B} `{!ByteSource B} `{!AsyncWrite B} `{!AsyncWriteExt B} `{!ByteSink B} `{!ByteDuplex B}
    `{!ReliableSink B} (a0 a a' : A) (b0 b b' : B) k k2 k' r n n2 :
  both_inv a -> both_inv b -> moved a0 a b0 b k -> fin (view a0) = Eof ->
  direction a0 a b0 b k (Datatypes.S n) -> direction b0 b a0 a k2 n2 ->
  poll_task copy_up (a, b) k = ((a', b'), k', r) ->
  direction a0 a' b0 b' (match r with None => k' | Some _ => Stuck end) n /\
  direction b0 b' a0 a' k2 n2.
Proof.
  intros Ha Hb Hm He Hd1 Hd2 E.
  destruct (copy_step _ _ _ _ _ _ _ _ _ Ha Hb Hm E) as ((_ & _ & Hw & Hf & Hv) & Hr).
  split.
  - destruct Hd1 as [[Hk Hl]|[-> Hl]].
    + assert (He' : fin (view a) = Eof) by (destruct Hm; congruence).
      pose proof (copy_progress _ _ _ _ _ _ _ Ha Hb He' Hk E) as Hp. destruct r as [o|].
      * subst o. right. by destruct Hr.
      * left. destruct Hp. split; [done|lia].
    + simpl in E. simplify_eq. by right.
  - destruct Hd2 as [[Hk Hl]|[-> Hl]]; [left|right]; (split; [done|]).
    + unfold up_work in *. by rewrite Hv.
    + destruct Hl as (? & ? & ?). split_and!; [done|by rewrite Hw|by rewrite Hw, Hf].
Qed.

Lemma spawned_completes (c0 : C) (s0 : S) sched st k1 k2 e :
  relay_inv c0 s0 st k1 k2 -> fin (view c0) = Eof -> fin (view s0) = Eof ->
  direction c0 st.1 s0 st.2 k1 (polls true sched) ->
  direction s0 st.2 c0 st.1 k2 (polls false sched) ->
  let st' := (run_spawned copy_up copy_down sched st k1 k2 e).1 in
  left_with c0 s0 st'.2 (Ok tt) /\ left_with s0 c0 st'.1 (Ok tt).
Proof.
  intros Hi Hc Hs. revert st k1 k2 e Hi.
  induction sched as [|b sched IH]; intros [c s] k1 k2 e Hi Hd1 Hd2; simpl.
  { unfold polls in *; simpl in *.
    destruct Hd1 as [[_ ?]|[_ ?]], Hd2 as [[_ ?]|[_ ?]]; (lia || done). }
  pose proof Hi as (Hic & His & Hu & Hd); simpl in *. unfold polls in *. destruct b.
  - rewrite filter_cons_True in Hd1 by done. rewrite filter_cons_False in Hd2 by done.
    destruct (poll_task copy_up (c, s) k1) as [[[c' s'] k'] r] eqn:E.
    destruct (direction_step _ _ _ _ _ _ _ _ _ _ _ _ Hic His Hu Hc Hd1 Hd2 E) as [Hd1' Hd2'].
    pose proof (relay_up_ends _ _ _ _ _ _ _ _ Hi E) as Hi'. destruct r; by apply IH.
  - rewrite filter_cons_False in Hd1 by done. rewrite filter_cons_True in Hd2 by done.
    destruct (poll_task copy_down (c, s) k2) as [[[c' s'] k'] r] eqn:E.
    destruct (direction_step _ _ _ _ _ _ _ _ _ _ _ _ His Hic Hd Hs Hd2 Hd1 (copy_down_swap _ _ _ _ _ _ _ E))
      as [Hd2' Hd1'].
    pose proof (relay_down_ends _ _ _ _ _ _ _ _ Hi E) as Hi'. destruct r; by apply IH.
Qed.
End Completion.

(** ** The handler *)

Section QuicTheorems.
Context {N C BC T TS TC BO U Ch S QC Q ClientConfig ServerName : Type}.
Context `{TokioCopyLawful}.
Context `{AsyncReadExt C} `{!ByteSource C} `{!AsyncWrite C} `{!AsyncWriteExt C} `{!ByteSink C} `{!ByteDuplex C}.
Context `{AsyncReadExt Q} `{!ByteSource Q} `{!AsyncWrite Q} `{!AsyncWriteExt Q} `{!ByteSink Q} `{!ByteDuplex Q}.
Context `{QuicClient N QC Q}.
#[local] Abbreviation Handler := (TcpHandler ClientConfig ServerName).
#[local] Abbreviation quic_proxied := (handle_quic_stream (N:=N) (C:=C) (BC:=BC) (T:=T) (TS:=TS)
  (TC:=TC) (BO:=BO) (U:=U) (Ch:=Ch) (S:=S) (QC:=QC) (Q:=Q)).

(** The dialling part: a fixed address and name, whatever the configuration. *)
Definition quic_opens (n n' : N) (q : Q) : Prop :=
  exists n1 n2 conn, quic_endpoint n = (n1, Ok tt) /\
    quic_connect quic_remote "example.com" n1 = (n2, Ok conn) /\ open_bi conn n2 = (n', Ok q).

Lemma quic_run (self : Handler) request c sched n n' q :
  quic_opens n n' q ->
  exists q1 e o, handshake request (th_secret self) q = (q1, e) /\
    quic_proxied self request c sched n = (n', o) /\
    match e with
    | Ok _ => let st := run_spawned copy_up copy_down sched (c, q1) Idle Idle Unfinished in
              o = Ok (ProxyQuic (mkSession st.1.1 st.1.2 st.2))
    | _ => same_failure e o
    end.
Proof.
  intros (n1 & n2 & conn & E1 & E2 & E3). unfold handle_quic_stream, unwrap, io_bind, io_lift, io_ret.
  rewrite E1, E2, E3. destruct (handshake request (th_secret self) q) as [q1 e] eqn:E.
  exists q1, e. destruct e as [[]|e|p|]; [|eexists; by split_and!..].
  eexists. split_and!; [done| |done].
  by destruct (run_spawned copy_up copy_down sched (c, q1) Idle Idle Unfinished) as [[c' q'] e'].
Qed.

(** A header written to a fresh stream. *)
Lemma quic_header (q q1 : Q) request secret :
  both_inv q -> written q = [] -> handshake request secret q = (q1, Ok tt) ->
  both_inv q1 /\ view q1 = view q /\ written q1 = handshake_bytes request secret.
Proof.
  intros Hq Hw Eh. destruct (still_handshake request secret _ _ _ Hq Eh) as [Hi1 Hv1].
  destruct (emits_handshake request secret _ _ _ (proj2 Hq) Eh) as [Hi2 _].
  pose proof (emits_ok _ _ _ _ _ (emits_handshake request secret) (proj2 Hq) Eh) as Hwr.
  rewrite Hw, app_nil_l in Hwr. by split_and!.
Qed.

(** C17: the client end of a proxy chain over QUIC, for a request to an IPv4 or IPv6
    address (a domain name does not survive the header, see
    [handshake_domain_no_roundtrip]): under every schedule of the two spawned
    copies, after one of them has ended too, the remote has the Trojan header and a
    prefix of the client's bytes, and the client a prefix of the remote's bytes; a
    server with the same secret, reading those bytes in any chunks, accepts exactly
    that request and is left with the client's bytes.  Otherwise writing the header
    failed, and that failure is returned. *)
Theorem quic_proxy_chain {R} `{AsyncReadExt R} `{!ByteSource R}
    (self : Handler) request i c sched n n' q :
  quic_opens n n' q -> both_inv c -> both_inv q -> written q = [] ->
  request_ok request -> ip (addr_port request) = IpAddr_ i -> length (th_secret self) = HEX_SIZE ->
  exists o, quic_proxied self request c sched n = (n', o) /\
    ((exists s up down, o = Ok (ProxyQuic s) /\ up `prefix_of` data (view c) /\
        written (ss_remote s) = handshake_bytes request (th_secret self) ++ up /\
        down `prefix_of` data (view q) /\ written (ss_client s) = written c ++ down /\
        forall r : R, src_inv r -> data (view r) = written (ss_remote s) ->
        exists r', view r' = mkSource up (fin (view r)) /\
          accept (th_secret self) r =
            (r', Ok (mkInboundRequest (atype request) (addr_port request) (command request)
                       (transport_protocol request) TROJAN))) \/
     (exists q1 e, handshake request (th_secret self) q = (q1, e) /\ same_failure e o)).
Proof.
  intros Hopen Hc Hq Hw Hreq Hi Hs.
  destruct (quic_run self request c sched n n' q Hopen) as (q1 & e & o & Eh & Er & Ho).
  exists o. split; [done|]. destruct e as [[]|e|p|];
    [left|right; by exists q1, (Err e)|right; by exists q1, (Panic p)|right; by exists q1, Pending].
  destruct (quic_header q q1 _ _ Hq Hw Eh) as (Hq1 & Hv1 & Hw1). cbv zeta in Ho.
  pose proof (spawned_inv c q1 sched (c, q1) Idle Idle Unfinished (relay_inv_start _ _ Hc Hq1)) as Hinv.
  destruct (run_spawned copy_up copy_down sched (c, q1) Idle Idle Unfinished) as [[c' q'] e'].
  destruct Hinv as (_ & _ & (_ & up & r1 & Hu & Hwu & _) & (_ & down & r2 & Hd & Hwd & _)). simpl in *.
  rewrite Hv1 in Hd. rewrite Hw1 in Hwu. eexists _, up, down. split_and!; [done| |done| |done|].
  - rewrite Hu. by apply prefix_app_r.
  - rewrite Hd. by apply prefix_app_r.
  - intros r Hr Hdata. simpl in Hdata. rewrite Hwu in Hdata. by apply (accept_handshake request i).
Qed.

(** C18: over QUIC a half-closed connection is served to the end: when both sides
    have closed their sending sides and accept what is written to them, every
    schedule that polls each direction more than twice per byte delivers and
    flushes everything in both directions, in whatever order the two end. *)
Theorem quic_relay_completes `{!ReliableSink C} `{!ReliableSink Q}
    (self : Handler) request c sched n n' q :
  quic_opens n n' q -> both_inv c -> both_inv q -> written q = [] ->
  fin (view c) = Eof -> fin (view q) = Eof ->
  2 * length (data (view c)) < polls true sched -> 2 * length (data (view q)) < polls false sched ->
  exists s, quic_proxied self request c sched n = (n', Ok (ProxyQuic s)) /\
    written (ss_remote s) = handshake_bytes request (th_secret self) ++ data (view c) /\
    flushed (ss_remote s) = written (ss_remote s) /\
    written (ss_client s) = written c ++ data (view q) /\
    flushed (ss_client s) = written (ss_client s).
Proof.
  intros Hopen Hc Hq Hw Hec Heq Hlc Hlq.
  destruct (quic_run self request c sched n n' q Hopen) as (q1 & e & o & Eh & Er & Ho).
  destruct (succeeds_handshake request (th_secret self) q (proj2 Hq)) as (q2 & [] & Es).
  rewrite Es in Eh. simplify_eq. cbv zeta iota in Ho.
  destruct (quic_header q q1 _ _ Hq Hw Es) as (Hq1 & Hv1 & Hw1).
  rewrite <- Hv1 in Heq, Hlq.
  destruct (spawned_completes c q1 sched (c, q1) Idle Idle Unfinished (relay_inv_start _ _ Hc Hq1) Hec Heq)
    as [(_ & Hu1 & Hu2) (_ & Hd1 & Hd2)].
  - left. split; [done|]. unfold up_work; simpl. lia.
  - left. split; [done|]. unfold up_work; simpl. lia.
  - rewrite Ho in Er. eexists. split; [exact Er|]. simpl. rewrite Hw1 in Hu1. rewrite Hv1 in Hd1.
    by split_and!.
Qed.
End QuicTheorems.

(** ** Witnesses *)

#[local] Existing Instance buffered_copy.
#[local] Existing Instance buffered_copy_lawful.

#[local] Abbreviation Tcp := (Joined source Cursor).
#[local] Abbreviation Client := (Joined source Cursor).

(** A network whose peers send two bytes and close. *)
Definition demo_closing_network : DemoNet := mkDemoNet [] (mkSource [x52; x53] Eof).
Definition demo_closing_dialled : DemoNet := mkDemoNet [quic_remote] (mkSource [x52; x53] Eof).

Lemma demo_quic_opens :
  quic_opens demo_closing_network demo_closing_dialled (demo_tcp (mkSource [x52; x53] Eof)).
Proof. eexists _, _, tt. by split_and!. Qed.

Lemma quic_proxy_chain_witness :
  exists o, handle_quic_stream (N:=DemoNet) (QC:=unit) (Q:=Tcp) (C:=Client) (BC:=Client) (T:=Tcp) (TS:=Tcp) (TC:=Tcp) (BO:=Tcp) (U:=UdpScript)
      (Ch:=ChannelScript) (S:=HunkScript) (demo_handler OutboundQUIC) demo_trojan_request
      (demo_client [x47] Eof) [true; false; true] demo_closing_network = (demo_closing_dialled, o).
Proof.
  destruct (quic_proxy_chain (N:=DemoNet) (QC:=unit) (Q:=Tcp) (R:=Conn) (BC:=Client) (T:=Tcp) (TS:=Tcp) (TC:=Tcp) (BO:=Tcp) (U:=UdpScript)
    (Ch:=ChannelScript) (S:=HunkScript) (demo_handler OutboundQUIC) demo_trojan_request (V4 16909060)
    (demo_client [x47] Eof) [true; false; true] demo_closing_network demo_closing_dialled
    (demo_tcp (mkSource [x52; x53] Eof)) demo_quic_opens) as (o & E & _);
    try reflexivity; try apply demo_tcp_inv.
  - constructor; unfold u16_ok; simpl; unfold u32_ok; done || lia.
  - exists o. exact E.
Defined.

Lemma quic_relay_completes_witness :
  exists s, handle_quic_stream (N:=DemoNet) (QC:=unit) (Q:=Tcp) (C:=Client) (BC:=Client) (T:=Tcp) (TS:=Tcp) (TC:=Tcp) (BO:=Tcp) (U:=UdpScript)
      (Ch:=ChannelScript) (S:=HunkScript) (demo_handler OutboundQUIC) demo_trojan_request
      (demo_client [x47] Eof) [true; true; true; false; false; false; false; false] demo_closing_network =
    (demo_closing_dialled, Ok (ProxyQuic s)).
Proof.
  destruct (quic_relay_completes (N:=DemoNet) (QC:=unit) (Q:=Tcp) (BC:=Client) (T:=Tcp) (TS:=Tcp) (TC:=Tcp) (BO:=Tcp) (U:=UdpScript)
    (Ch:=ChannelScript) (S:=HunkScript) (demo_handler OutboundQUIC) demo_trojan_request
    (demo_client [x47] Eof) [true; true; true; false; false; false; false; false]
    demo_closing_network demo_closing_dialled
    (demo_tcp (mkSource [x52; x53] Eof)) demo_quic_opens) as (s & E & _);
    try reflexivity; try apply demo_tcp_inv; try (vm_compute; lia).
  exists s. exact E.
Defined.
