(* ===== verification/Server.v ===== *)
(** * The servers: src/proxy/tcp/server.rs and src/proxy/quic/server.rs

    The TCP server as a transition system: the accept loop spawns one task per
    connection, and the tasks run at any time.  The QUIC server's task for one
    connection. *)

From Stdlib Require Import ZArith Lia.
From Stdlib Require Import Strings.Byte.
From stdpp Require Import base list strings numbers relations.
From S2P Require Import Prelude AsyncIo Conn Cursor Relay Select Pumps Common.
From S2P Require Import Trojan Socks5 Stream GrpcStream Packet Config TcpAcceptor.
From S2P Require Import TcpHandler.

#[local] Open Scope nat_scope.

(** ** tcp/server.rs *)

(** [TcpListener::bind] and [TcpListener::accept]. *)
Class Listener (N L T : Type) := {
  listener_bind : SocketAddr -> io N L;
  listener_accept : L -> io N (T * SocketAddr);
}.

(** How far a spawned task got: it ended, crashed or is waiting for ever while
    accepting; it ended, crashed or is waiting for ever in the handler, or is
    relaying. *)
Inductive task_result (H : Type) :=
| AcceptFailed (e : Error)
| AcceptCrashed (p : string)
| AcceptWaiting
| Served (h : H)
| Relaying (h : H)
| HandleFailed (e : Error)
| HandleCrashed (p : string)
| HandleWaiting.
Arguments AcceptFailed {H} e.
Arguments AcceptCrashed {H} p.
Arguments AcceptWaiting {H}.
Arguments Served {H} h.
Arguments Relaying {H} h.
Arguments HandleFailed {H} e.
Arguments HandleCrashed {H} p.
Arguments HandleWaiting {H}.

Section TcpServer.
Context {File ServerConfig ClientConfig RootCertStore ServerName : Type}.
Context `{TokioCopy}.
Context {N L T TS TC BC BO U G Ch S QC Q : Type}.
#[local] Abbreviation Std := (StandardTcpStream T TS TC).
Context `{FileSystem File} `{Rustls File ServerConfig ClientConfig RootCertStore} `{Sha224}.
Context `{ServerNames ServerName} `{Listener N L T} `{Resolver}.
Context `{TlsAccept ServerConfig T TS} `{!Net N T U} `{!TlsConnect ClientConfig ServerName T TC}.
Context `{!Buffers Std BC} `{!Buffers Std BO}.
Context `{AsyncReadExt Std} `{!AsyncWrite Std} `{!AsyncWriteExt Std}.
Context `{AsyncReadExt BC} `{!AsyncWrite BC} `{!AsyncWriteExt BC}.
Context `{AsyncReadExt T} `{!AsyncWrite T} `{!AsyncWriteExt T}.
Context `{AsyncReadExt BO} `{!AsyncWrite BO} `{!AsyncWriteExt BO}.
Context `{AsyncReadExt Q} `{!AsyncWrite Q} `{!AsyncWriteExt Q}.
Context `{UdpSocket U} `{Sender Ch Hunk} `{StreamExt S (Hunk + Status)}.
Context `{!AsyncReadExt (GrpcDataReaderStream S)}.
Context `{GrpcClient N G Ch S} `{QuicClient N QC Q}.
#[local] Abbreviation Acceptor := (TcpAcceptor ServerConfig).
#[local] Abbreviation Handler := (TcpHandler ClientConfig ServerName).
#[local] Abbreviation Handled := (handled (C:=Std) (BC:=BC) (T:=T) (TS:=TS) (TC:=TC) (BO:=BO)
  (U:=U) (Ch:=Ch) (S:=S) (Q:=Q)).

(** [async move { .. }]: the task of one connection. *)
Definition serve_connection (acceptor : Acceptor) (handler : Handler) (socket : T)
    (sched : list bool) (n : N) : N * task_result Handled :=
  match tcp_accept acceptor socket with
  | (Some inbound_stream, Ok request) =>
      match dispatch handler inbound_stream request sched n with
      | (n', Ok h) =>
          (n', match handled_result h with
               | None => Relaying h
               | Some (Panic p) => HandleCrashed p
               | Some _ => Served h
               end)
      | (n', Err e) => (n', HandleFailed e)
      | (n', Panic p) => (n', HandleCrashed p)
      | (n', Pending) => (n', HandleWaiting)
      end
  | (_, Err e) => (n, AcceptFailed e)
  | (_, Panic p) => (n, AcceptCrashed p)
  | _ => (n, AcceptWaiting)
  end.

(** The server: the network, the tasks (a socket and, once the task has run, its
    result), and [Some o] once [start] has returned. *)
Record server := mkServer {
  sv_net : N;
  sv_tasks : list (T * option (task_result Handled));
  sv_returned : option (outcome unit);
}.

(** The part of [start] in front of the loop, with the two cells. *)
Definition start_setup (inbound_config : InboundConfig) (outbound_config : OutboundConfig)
    (n : N) : N * outcome (L * Acceptor * Handler) :=
  match to_socket_addrs (as_bytes (in_address inbound_config)) (in_port inbound_config) with
  | inr _ => (n, Panic "called `Result::unwrap()` on an `Err` value")
  | inl [] => (n, Panic "called `Option::unwrap()` on a `None` value")
  | inl (address :: _) =>
      match listener_bind address n with
      | (n', Ok listener) =>
          match TcpAcceptor_init inbound_config None, TcpHandler_init outbound_config None with
          | (_, Ok acceptor), (_, Ok handler) => (n', Ok (listener, acceptor, handler))
          | (_, Panic p), _ => (n', Panic p)
          | _, (_, Panic p) => (n', Panic p)
          | _, _ => (n', Pending)
          end
      | (n', Err e) => (n', Err e)
      | (n', Panic p) => (n', Panic p)
      | (n', Pending) => (n', Pending)
      end
  end.

(** The loop and the tasks. *)
Inductive server_step (listener : L) (acceptor : Acceptor) (handler : Handler) :
    server -> server -> Prop :=
| step_accept n n' tasks socket addr :
    listener_accept listener n = (n', Ok (socket, addr)) ->
    server_step listener acceptor handler (mkServer n tasks None)
      (mkServer n' (tasks ++ [(socket, None)]) None)
| step_accept_fails n n' tasks e :
    listener_accept listener n = (n', Err e) ->
    server_step listener acceptor handler (mkServer n tasks None)
      (mkServer n' tasks (Some (Err e)))
| step_task n n' before socket after sched r returned :
    serve_connection acceptor handler socket sched n = (n', r) ->
    server_step listener acceptor handler
      (mkServer n (before ++ (socket, None) :: after) returned)
      (mkServer n' (before ++ (socket, Some r) :: after) returned).

Definition server_reachable listener acceptor handler (n : N) : server -> Prop :=
  rtc (server_step listener acceptor handler) (mkServer n [] None).
End TcpServer.

(** ** quic/server.rs *)

Section QuicServer.
Context {N T U Q : Type} `{!Net N T U} `{Resolver}.
Context `{TokioCopy}.
Context `{AsyncReadExt T} `{!AsyncWrite T} `{!AsyncWriteExt T}.
Context `{AsyncReadExt Q} `{!AsyncWrite Q} `{!AsyncWriteExt Q}.

(** The task of one connection, from the bidirectional stream on. *)
Definition quic_serve (client : Q) (sched : list bool) : io N (session Q T) :=
  let '(client', parsed) := unwrap parse client in
  let? request := io_lift parsed in
  let? addr_port := io_lift (IpAddrPort_into (addr_port (Request_into_request request))) in
  let? outbound_connection := unwrap (tcp_connect addr_port) in
  io_ret (run_select copy_up copy_down sched client' outbound_connection).
End QuicServer.

(** ** The TCP server *)

Section TcpServerTheorems.
Context {File ServerConfig ClientConfig RootCertStore ServerName : Type}.
Context `{TokioCopy}.
Context {N L T TS TC BC BO U G Ch S QC Q : Type}.
#[local] Abbreviation Std := (StandardTcpStream T TS TC).
Context `{FileSystem File} `{Rustls File ServerConfig ClientConfig RootCertStore} `{Sha224Lawful}.
Context `{Listener N L T} `{Resolver}.
Context `{TlsAccept ServerConfig T TS} `{!Net N T U} `{!TlsConnect ClientConfig ServerName T TC}.
Context `{!Buffers Std BC} `{!Buffers Std BO}.
Context `{AsyncReadExt T} `{!ByteSource T} `{!AsyncWrite T} `{!AsyncWriteExt T} `{!ByteSink T} `{!ByteDuplex T}.
Context `{ByteDuplex TS} `{ByteDuplex TC}.
Context `{!AsyncReadExt Std} `{!AsyncWriteExt Std}.
Context `{AsyncReadExt BC} `{!AsyncWrite BC} `{!AsyncWriteExt BC}.
Context `{AsyncReadExt BO} `{!AsyncWrite BO} `{!AsyncWriteExt BO}.
Context `{AsyncReadExt Q} `{!AsyncWrite Q} `{!AsyncWriteExt Q}.
Context `{UdpSocket U} `{Sender Ch Hunk} `{StreamExt S (Hunk + Status)}.
Context `{!AsyncReadExt (GrpcDataReaderStream S)}.
Context `{GrpcClient N G Ch S} `{QuicClient N QC Q}.
#[local] Abbreviation Acceptor := (TcpAcceptor ServerConfig).
#[local] Abbreviation Handler := (TcpHandler ClientConfig ServerName).
#[local] Abbreviation reachable := (server_reachable (N:=N) (L:=L) (T:=T) (TS:=TS) (TC:=TC)
  (BC:=BC) (BO:=BO) (U:=U) (Ch:=Ch) (S:=S) (Q:=Q)).

(** The connection [t] proved knowledge of [password] on its application stream. *)
Definition authenticated (acceptor : Acceptor) (password : string) (t : T) : Prop :=
  exists s : Std, spoken_on acceptor t s /\
    hex_encode (digest (as_bytes password)) `prefix_of` data (view s).

(** A task that got as far as the handler, whatever happened to it there. *)
Definition reached_handler {X} (r : task_result X) : Prop :=
  match r with AcceptFailed _ | AcceptCrashed _ | AcceptWaiting => False | _ => True end.

Lemma serve_connection_accepted acceptor handler t sched n n' r :
  serve_connection (N:=N) (BC:=BC) (BO:=BO) (U:=U) (Ch:=Ch) (S:=S) (Q:=Q)
    (acceptor : Acceptor) (handler : Handler) t sched n = (n', r) ->
  reached_handler r -> exists (s : Std) q, tcp_accept acceptor t = (Some s, Ok q).
Proof.
  unfold serve_connection. destruct (tcp_accept acceptor t) as [[s|] [q|e|p|]];
    intros E Hr; simplify_eq; try done. eauto.
Qed.

(** Rule induction over the server's steps. *)
Lemma reachable_invariant listener acceptor handler n (I : server -> Prop) :
  I (mkServer n [] None) ->
  (forall sv sv', I sv -> server_step listener acceptor handler sv sv' -> I sv') ->
  forall sv, reachable listener acceptor handler n sv -> I sv.
Proof. intros Hinit Hstep. apply rtc_ind_r; eauto. Qed.

(** Every task that ran satisfies what every run of its connection satisfies. *)
Lemma reachable_tasks listener acceptor handler n (P : T -> task_result _ -> Prop) :
  (forall t sched n n' r, serve_connection acceptor handler t sched n = (n', r) -> P t r) ->
  forall sv, reachable listener acceptor handler n sv ->
  Forall (fun tr => match tr.2 with Some r => P tr.1 r | None => True end) (sv_tasks sv).
Proof.
  intros HP. apply reachable_invariant; [constructor|].
  intros sv sv' HI Hstep. destruct Hstep; simpl in *.
  - apply Forall_app. by split; [|constructor].
  - done.
  - apply Forall_app in HI as [Hb Ha]. apply Forall_cons in Ha as [_ Ha].
    apply Forall_app; split; [done|]. constructor; [|done]. simpl. by eapply HP.
Qed.

(** What a Trojan acceptor that holds the digest of [password] accepts. *)
Lemma accepted_authenticated password (acceptor : Acceptor) t (s : Std) q :
  ta_protocol acceptor = TROJAN -> ta_secret acceptor = derive_secret TROJAN (Some password) ->
  (forall t s, spoken_on acceptor t s -> src_inv s) ->
  tcp_accept acceptor t = (Some s, Ok q) -> authenticated acceptor password t.
Proof.
  intros Hpr Hsec Hinv Ea.
  destruct (tcp_accept_trojan acceptor t (Some s) q Hpr Ea) as (s0 & s1 & Hon & _ & Eacc).
  destruct (accept_sound _ _ _ _ (Hinv _ _ Hon) Eacc) as (_ & Hpre & _).
  exists s0. split; [done|]. by rewrite Hsec in Hpre.
Qed.

(** With such an acceptor, every task that got as far as the handler belongs to an
    authenticated connection. *)
Lemma reachable_authenticated password (acceptor : Acceptor) (handler : Handler) listener n sv t r :
  ta_protocol acceptor = TROJAN -> ta_secret acceptor = derive_secret TROJAN (Some password) ->
  (forall t s, spoken_on acceptor t s -> src_inv s) ->
  reachable listener acceptor handler n sv ->
  (t, Some r) ∈ sv_tasks sv -> reached_handler r -> authenticated acceptor password t.
Proof.
  intros Hpr Hsec Hinv Hreach Hin Hr.
  pose proof (reachable_tasks listener acceptor handler n
    (fun t r => reached_handler r -> authenticated acceptor password t)) as Htasks.
  specialize (fun HP => Htasks HP sv Hreach). rewrite Forall_forall in Htasks.
  refine (Htasks _ _ Hin Hr). clear -Hinv Hpr Hsec. intros t sched n n' r E Hr.
  destruct (serve_connection_accepted _ _ _ _ _ _ _ E Hr) as (s & q & Ea).
  by eapply accepted_authenticated.
Qed.

(** The server relays nobody without the password: in every reachable state
    of a TCP server configured for Trojan, whatever connections arrive and
    however their tasks are scheduled, every task that got as far as the outbound
    handler belongs to a connection that began with the hexadecimal SHA-224 of the
    password. *)
Theorem server_authenticates inbound cell password (acceptor : Acceptor) (handler : Handler)
    listener n sv t r :
  in_protocol inbound = TROJAN -> in_secret inbound = Some password ->
  TcpAcceptor_init inbound None = (cell, Ok acceptor) ->
  (forall t s, spoken_on acceptor t s -> src_inv s) ->
  reachable listener acceptor handler n sv ->
  (t, Some r) ∈ sv_tasks sv -> reached_handler r -> authenticated acceptor password t.
Proof.
  intros Hp Hs E. destruct (TcpAcceptor_init_inv _ _ _ E) as (_ & _ & Hpr & Hsec & _).
  rewrite Hp, Hs in *. by apply reachable_authenticated.
Qed.

(** C35: no connection can stop the server: in every reachable state the server
    has returned only if accepting a socket failed, and then with that error;
    tasks that fail, panic or wait for ever leave it running.  One failed
    [accept] on the listening socket, on the other hand, does stop it. *)
Theorem server_stops_only_on_accept listener (acceptor : Acceptor) (handler : Handler) n sv :
  reachable listener acceptor handler n sv ->
  match sv_returned sv with
  | None => forall n' e, listener_accept listener (sv_net sv) = (n', Err e) ->
      exists sv', server_step listener acceptor handler sv sv' /\ sv_returned sv' = Some (Err e)
  | Some o => exists n0 n1 e, listener_accept listener n0 = (n1, Err e) /\ o = Err e
  end.
Proof.
  intros Hr. assert (HI : forall o, sv_returned sv = Some o ->
    exists n0 n1 e, listener_accept listener n0 = (n1, Err e) /\ o = Err e).
  { revert sv Hr. apply (reachable_invariant _ _ _ _ (fun sv => forall o, sv_returned sv = Some o ->
      exists n0 n1 e, listener_accept listener n0 = (n1, Err e) /\ o = Err e)); [done|].
    intros sv sv' HI Hstep o Ho. destruct Hstep; simpl in *; [done| |by apply HI].
    simplify_eq. eauto. }
  destruct sv as [n1 tasks [o|]]; simpl in *; [by apply HI|].
  intros n' e E. eexists. split; [by econstructor|done].
Qed.
End TcpServerTheorems.

(** ** The QUIC server *)

Section QuicTheorems.
Context {N T U Q : Type} `{!Net N T U} `{Resolver}.
Context `{TokioCopyLawful}.
Context `{AsyncReadExt T} `{!ByteSource T} `{!AsyncWrite T} `{!AsyncWriteExt T} `{!ByteSink T} `{!ByteDuplex T}.
Context `{AsyncReadExt Q} `{!ByteSource Q} `{!AsyncWrite Q} `{!AsyncWriteExt Q} `{!ByteSink Q} `{!ByteDuplex Q}.

(** C36: the QUIC server asks for no password: a connection with a well-formed
    header is served whatever 56 bytes stand in the place of the secret, and
    whatever the command (a UDP association is dialled as TCP): the address of
    the header is dialled and relayed to, with the bytes behind the header as
    the client's. *)
Theorem quic_serves_anyone (c : Q) sched (n n' : N) hex sep1 cmd a p sep2 rest addr t :
  both_inv c -> both_inv t ->
  length hex = HEX_SIZE -> length sep1 = 2 -> length sep2 = 2 -> addr_ok a -> u16_ok p ->
  data (view c) = wire_header hex sep1 cmd a p sep2 ++ rest ->
  IpAddrPort_into (mkIpAddrPort a p) = Ok addr -> tcp_connect addr n = (n', Ok t) ->
  exists c' s, view c' = mkSource rest (fin (view c)) /\ written c' = written c /\
    quic_serve c sched n = (n', Ok s) /\ relayed c' t s.
Proof.
  intros Hc Ht Hh Hl1 Hl2 Ha Hp Hd Haddr Hconn.
  destruct (reads_lawful _ _ _ _ c rest refines_parse
              (reads_parse _ _ _ _ _ _ Hh Hl1 Hl2 Ha Hp) (proj1 Hc) Hd) as (c' & E & Hv & Hi).
  destruct (quiet_parse _ _ _ Hc E) as (Hc' & Hw & _).
  exists c'. eexists. split_and!; [done|done| |by apply run_select_relayed].
  unfold quic_serve, unwrap, io_bind, io_lift, io_ret. rewrite E, into_request_fields. simpl.
  by rewrite Haddr, Hconn.
Qed.
End QuicTheorems.

(** ** Witnesses *)

#[local] Existing Instance demo_resolver.

#[local] Existing Instance buffered_copy.
#[local] Existing Instance buffered_copy_lawful.

#[local] Abbreviation Tcp := (Joined source Cursor).
#[local] Abbreviation OutTcp := (StandardTcpStream Tcp Tcp Tcp).

#[export] Instance demo_tls_accept_tcp : TlsAccept unit Tcp Tcp := { tls_accept := fun _ t => Ok t }.
#[export] Instance demo_tls_connect_tcp : TlsConnect Verifier unit Tcp Tcp := {
  tls_connect := fun _ _ t => Ok t
}.

(** A client that knows the password and asks for a connection. *)
Definition demo_socket : Tcp :=
  demo_tcp (mkSource (handshake_bytes demo_request (derive_secret TROJAN (Some "hunter2"%string)) ++ [x47]) Eof).

(** A listener at which that client connects ([true]) or accepting fails. *)
#[export] Instance demo_listener : Listener DemoNet bool Tcp := {
  listener_bind := fun _ n => (n, Ok true);
  listener_accept := fun l n =>
    (n, if l then Ok (demo_socket, demo_dest) else Err (mkError OtherKind "Too many open files"))
}.

Definition demo_out_handler : TcpHandler Verifier unit :=
  mkTcpHandler OutboundDIRECT TROJAN None None [].

#[local] Abbreviation demo_reachable := (server_reachable (N:=DemoNet) (L:=bool) (T:=Tcp) (TS:=Tcp)
  (TC:=Tcp) (BC:=OutTcp) (BO:=OutTcp) (U:=UdpScript) (Ch:=ChannelScript) (S:=HunkScript) (Q:=Tcp)).

Definition demo_task := serve_connection (N:=DemoNet) (T:=Tcp) (TS:=Tcp) (TC:=Tcp) (BC:=OutTcp)
  (BO:=OutTcp) (U:=UdpScript) (Ch:=ChannelScript) (S:=HunkScript) (Q:=Tcp)
  (demo_acceptor None (Some "hunter2"%string)) demo_out_handler demo_socket [true; true; true] demo_network.

Definition demo_server := mkServer demo_task.1 [(demo_socket, Some demo_task.2)] None.

Lemma demo_server_reachable :
  demo_reachable true (demo_acceptor None (Some "hunter2"%string)) demo_out_handler demo_network demo_server.
Proof.
  eapply rtc_l; [eapply step_accept; reflexivity|]. eapply rtc_l; [|apply rtc_refl].
  apply (step_task _ _ _ _ _ [] demo_socket [] [true; true; true]). apply surjective_pairing.
Qed.

Lemma demo_spoken_tcp t s :
  spoken_on (TC:=Tcp) (demo_acceptor None (Some "hunter2"%string)) t s -> src_inv s.
Proof. intros ->. exact I. Qed.

Lemma server_authenticates_witness :
  authenticated (TS:=Tcp) (TC:=Tcp) (demo_acceptor None (Some "hunter2"%string)) "hunter2" demo_socket.
Proof.
  refine (server_authenticates (BC:=OutTcp) (BO:=OutTcp) (Q:=Tcp)
    (demo_inbound (Some "hunter2"%string) None) _ "hunter2"
    (demo_acceptor None (Some "hunter2"%string)) demo_out_handler true demo_network demo_server
    demo_socket demo_task.2 eq_refl eq_refl eq_refl demo_spoken_tcp demo_server_reachable _ _).
  - left.
  - vm_compute. exact I.
Defined.

Lemma server_stops_only_on_accept_witness :
  exists sv', server_step (N:=DemoNet) (T:=Tcp) (TS:=Tcp) (TC:=Tcp) (BC:=OutTcp) (BO:=OutTcp)
      (U:=UdpScript) (Ch:=ChannelScript) (S:=HunkScript) (Q:=Tcp)
      false (demo_acceptor None (Some "hunter2"%string)) demo_out_handler
      (mkServer demo_network [] None) sv' /\
    sv_returned sv' = Some (Err (mkError OtherKind "Too many open files")).
Proof.
  refine (server_stops_only_on_accept (BC:=OutTcp) (BO:=OutTcp) (Q:=Tcp) false
    (demo_acceptor None (Some "hunter2"%string)) demo_out_handler demo_network
    (mkServer demo_network [] None) _ demo_network _ _).
  - apply rtc_refl.
  - reflexivity.
Defined.

Lemma quic_serves_anyone_witness :
  exists s, quic_serve (T:=Tcp) (Q:=Tcp)
      (demo_tcp (mkSource (wire_header (replicate 56 x21) [x0d; x0a] Connect (IpAddr_ (V4 16909060)) 443
         [x0d; x0a] ++ [x47]) Eof)) [true; true; true] demo_network = (demo_dialled, Ok s).
Proof.
  destruct (quic_serves_anyone (T:=Tcp) (Q:=Tcp)
      (demo_tcp (mkSource (wire_header (replicate 56 x21) [x0d; x0a] Connect (IpAddr_ (V4 16909060)) 443
         [x0d; x0a] ++ [x47]) Eof)) [true; true; true] demo_network demo_dialled
      (replicate 56 x21) [x0d; x0a] Connect (IpAddr_ (V4 16909060)) 443 [x0d; x0a] [x47]
      (mkSocketAddr (V4 16909060) 443) (demo_tcp (mkSource [x52; x53] Stalled)))
    as (c' & s & _ & _ & E & _); try reflexivity; try apply demo_tcp_inv.
  - unfold addr_ok, u32_ok. lia.
  - unfold u16_ok. lia.
  - exists s. exact E.
Defined.
