(* ===== verification/Interleaving.v ===== *)
(** * Tasks that interleave step by step

    In Server.v a task of the TCP server runs in one step of the system.  Here the
    same server takes the task of a connection apart: accepting, dialling, and
    every single poll of the two directions of its relay are steps of their own,
    and the steps of all tasks and of the accept loop interleave freely.  The two
    show the same states ([interleaving_refines]).  The last part says what the
    relays of all connections carry in every state of a server with a password
    and direct connections ([server_relays_prefixes]). *)

From Stdlib Require Import ZArith Lia.
From Stdlib Require Import Strings.Byte.
From stdpp Require Import base list strings numbers relations.
From S2P Require Import Prelude AsyncIo Conn Cursor Relay Select Pumps Common.
From S2P Require Import Trojan Socks5 Stream GrpcStream Packet Config TcpAcceptor.
From S2P Require Import TcpHandler Server.

#[local] Open Scope nat_scope.

(** ** A relay, poll by poll *)

(** The state of two directions: the two ends, where each direction is, and how
    the [select!] ended if it did. *)
Record relaying (A B X Y : Type) := mkRelaying {
  rl_ends : A * B;
  rl_up : place X;
  rl_down : place Y;
  rl_end : select_end;
}.
Arguments mkRelaying {A B X Y} _ _ _ _.
Arguments rl_ends {A B X Y} _.
Arguments rl_up {A B X Y} _.
Arguments rl_down {A B X Y} _.
Arguments rl_end {A B X Y} _.

Section Polls.
Context {A B X Y : Type} (up : task (A * B) X) (down : task (A * B) Y).

(** A poll of a [select!]: once it has ended, both directions are gone. *)
Definition select_poll (b : bool) (r : relaying A B X Y) : relaying A B X Y :=
  match rl_end r with
  | Unfinished =>
      if b then
        match poll_task up (rl_ends r) (rl_up r) with
        | (ab, k, Some o) => mkRelaying ab k (rl_down r) (First o)
        | (ab, k, None) => mkRelaying ab k (rl_down r) Unfinished
        end
      else
        match poll_task down (rl_ends r) (rl_down r) with
        | (ab, k, Some o) => mkRelaying ab (rl_up r) k (Second o)
        | (ab, k, None) => mkRelaying ab (rl_up r) k Unfinished
        end
  | _ => r
  end.

(** A poll of two spawned tasks: one that has ended is stuck, the other goes on. *)
Definition spawned_poll (b : bool) (r : relaying A B X Y) : relaying A B X Y :=
  if b then
    match poll_task up (rl_ends r) (rl_up r) with
    | (ab, _, Some o) =>
        mkRelaying ab Stuck (rl_down r) (match rl_end r with Unfinished => First o | _ => rl_end r end)
    | (ab, k, None) => mkRelaying ab k (rl_down r) (rl_end r)
    end
  else
    match poll_task down (rl_ends r) (rl_down r) with
    | (ab, _, Some o) =>
        mkRelaying ab (rl_up r) Stuck (match rl_end r with Unfinished => Second o | _ => rl_end r end)
    | (ab, k, None) => mkRelaying ab (rl_up r) k (rl_end r)
    end.

(** Polling by a schedule. *)
Definition polled (poll : bool -> relaying A B X Y -> relaying A B X Y) (sched : list bool)
    (r : relaying A B X Y) : relaying A B X Y :=
  fold_left (fun r b => poll b r) sched r.

Definition idle (a : A) (b : B) : relaying A B X Y := mkRelaying (a, b) Idle Idle Unfinished.

Definition relaying_session (r : relaying A B X Y) : session A B :=
  mkSession (rl_ends r).1 (rl_ends r).2 (rl_end r).

Lemma polled_cons poll b sched r : polled poll (b :: sched) r = polled poll sched (poll b r).
Proof. done. Qed.

Lemma polled_snoc poll b sched r : polled poll (sched ++ [b]) r = poll b (polled poll sched r).
Proof. unfold polled. by rewrite fold_left_app. Qed.

Lemma select_poll_ended sched r : rl_end r <> Unfinished -> polled select_poll sched r = r.
Proof.
  intros Hr. induction sched as [|b sched IH]; [done|]. rewrite polled_cons.
  replace (select_poll b r) with r; [done|]. unfold select_poll. by destruct (rl_end r).
Qed.

Lemma select_polled sched ab k1 k2 ab' k1' k2' e :
  select up down sched ab k1 k2 = (ab', k1', k2', e) ->
  polled select_poll sched (mkRelaying ab k1 k2 Unfinished) = mkRelaying ab' k1' k2' e.
Proof.
  revert ab k1 k2. induction sched as [|[] sched IH]; intros ab k1 k2 E; simpl in E;
    [by simplify_eq|..]; rewrite polled_cons; unfold select_poll at 2; simpl.
  - destruct (poll_task up ab k1) as [[ab1 k] [o|]]; [|by apply IH].
    simplify_eq. by apply select_poll_ended.
  - destruct (poll_task down ab k2) as [[ab1 k] [o|]]; [|by apply IH].
    simplify_eq. by apply select_poll_ended.
Qed.

Lemma run_select_polled sched a b :
  run_select up down sched a b = relaying_session (polled select_poll sched (idle a b)).
Proof.
  unfold run_select. destruct (select _ _ _ _ _ _) as [[[[a' b'] k1] k2] e] eqn:E.
  unfold idle. by rewrite (select_polled _ _ _ _ _ _ _ _ E).
Qed.

Lemma run_spawned_polled sched ab k1 k2 e :
  run_spawned up down sched ab k1 k2 e =
    (rl_ends (polled spawned_poll sched (mkRelaying ab k1 k2 e)),
     rl_end (polled spawned_poll sched (mkRelaying ab k1 k2 e))).
Proof.
  revert ab k1 k2 e. induction sched as [|[] sched IH]; intros ab k1 k2 e; [done|..];
    rewrite !polled_cons; cbn [run_spawned]; unfold spawned_poll at 2 4; simpl.
  - destruct (poll_task up ab k1) as [[ab1 k] [o|]]; apply IH.
  - destruct (poll_task down ab k2) as [[ab1 k] [o|]]; apply IH.
Qed.
End Polls.

(** ** The tasks of the TCP server *)

Section Tasks.
Context {File ServerConfig ClientConfig RootCertStore ServerName : Type}.
Context `{TokioCopy}.
Context {N L T TS TC BC BO U G Ch S QC Q : Type}.
#[local] Abbreviation Std := (StandardTcpStream T TS TC).
Context `{FileSystem File} `{Rustls File ServerConfig ClientConfig RootCertStore} `{Sha224}.
Context `{ServerNames ServerName} `{Listener N L T} `{Resolver}.
Context `{TlsAccept ServerConfig T TS} `{!Net N T U} `{!TlsConnect ClientConfig ServerName T TC}.
Context `{!Buffers Std BC} `{!Buffers Std BO}.
Context `{AsyncReadExt Std} `{!AsyncWrite Std} `{!AsyncWriteExt Std}.
Context `{AsyncReadExt BC} `{!AsyncWrite BC} `{!AsyncWriteExt BC}.
Context `{AsyncReadExt T} `{!AsyncWrite T} `{!AsyncWriteExt T}.
Context `{AsyncReadExt BO} `{!AsyncWrite BO} `{!AsyncWriteExt BO}.
Context `{AsyncReadExt Q} `{!AsyncWrite Q} `{!AsyncWriteExt Q}.
Context `{UdpSocket U} `{Sender Ch Hunk} `{StreamExt S (Hunk + Status)}.
Context `{!AsyncReadExt (GrpcDataReaderStream S)}.
Context `{GrpcClient N G Ch S} `{QuicClient N QC Q}.
#[local] Abbreviation Acceptor := (TcpAcceptor ServerConfig).
#[local] Abbreviation Handler := (TcpHandler ClientConfig ServerName).
#[local] Abbreviation Handled := (handled (C:=Std) (BC:=BC) (T:=T) (TS:=TS) (TC:=TC) (BO:=BO)
  (U:=U) (Ch:=Ch) (S:=S) (Q:=Q)).
#[local] Abbreviation bytes := (list byte).
#[local] Abbreviation datagram := (list byte * SocketAddr)%type.

(** A relay in progress, by the path the handler took. *)
Inductive relay :=
| RDirectTcp (r : relaying Std T bytes bytes)
| RDirectUdp (r : relaying BC U datagram datagram)
| RProxyTcp (r : relaying Std Std bytes bytes)
| RProxyUdp (r : relaying Std BO bytes bytes)
| RProxyQuic (r : relaying Std Q bytes bytes)
| RProxyGrpc (r : relaying Std (Ch * S) bytes Hunk)
| RProxyGrpcUdp (r : relaying Std (Ch * GrpcDataReaderStream S) bytes bytes).

(** The relay a handler has just opened. *)
Definition relay_open (h : Handled) : relay :=
  match h with
  | DirectTcp s => RDirectTcp (idle (ss_client s) (ss_remote s))
  | DirectUdp s => RDirectUdp (idle (ss_client s) (ss_remote s))
  | ProxyTcp s => RProxyTcp (idle (ss_client s) (ss_remote s))
  | ProxyUdp s => RProxyUdp (idle (ss_client s) (ss_remote s))
  | ProxyQuic s => RProxyQuic (idle (ss_client s) (ss_remote s))
  | ProxyGrpc s => RProxyGrpc (idle (ss_client s) (ss_remote s))
  | ProxyGrpcUdp s => RProxyGrpcUdp (idle (ss_client s) (ss_remote s))
  end.

(** One poll of one direction. *)
Definition relay_poll (request : InboundRequest) (b : bool) (r : relay) : relay :=
  match r with
  | RDirectTcp r => RDirectTcp (select_poll copy_up copy_down b r)
  | RDirectUdp r => RDirectUdp (select_poll
      (pump_task next_datagram (fun x => send_to x.1 x.2 ;;? io_ret tt))
      (pump_back (recv_from BUF_SIZE) (fun x => write_reply (addr_port request) x.1)) b r)
  | RProxyTcp r => RProxyTcp (select_poll copy_up copy_down b r)
  | RProxyUdp r => RProxyUdp (select_poll
      (pump_task (read BUF_SIZE) (write_packet request)) (pump_back next_payload write_all) b r)
  | RProxyQuic r => RProxyQuic (spawned_poll copy_up copy_down b r)
  | RProxyGrpc r => RProxyGrpc (select_poll grpc_up grpc_down b r)
  | RProxyGrpcUdp r => RProxyGrpcUdp (select_poll
      (pump_task (read BUF_SIZE) (fun bs => on_fst (send_packet request bs)))
      (pump_back (on_snd next_payload) write_all) b r)
  end.

Definition relay_polls (request : InboundRequest) (sched : list bool) (r : relay) : relay :=
  fold_left (fun r b => relay_poll request b r) sched r.

(** What has become of the relay. *)
Definition relay_handled (r : relay) : Handled :=
  match r with
  | RDirectTcp r => DirectTcp (relaying_session r)
  | RDirectUdp r => DirectUdp (relaying_session r)
  | RProxyTcp r => ProxyTcp (relaying_session r)
  | RProxyUdp r => ProxyUdp (relaying_session r)
  | RProxyQuic r => ProxyQuic (relaying_session r)
  | RProxyGrpc r => ProxyGrpc (relaying_session r)
  | RProxyGrpcUdp r => ProxyGrpcUdp (relaying_session r)
  end.

Lemma relay_polls_snoc request sched b r :
  relay_polls request (sched ++ [b]) r = relay_poll request b (relay_polls request sched r).
Proof. unfold relay_polls. by rewrite fold_left_app. Qed.

(** Polling a relay is polling its two directions. *)
Lemma relay_polls_path {A B X Y} request (path : relaying A B X Y -> relay) poll sched r :
  (forall b r, relay_poll request b (path r) = path (poll b r)) ->
  relay_polls request sched (path r) = path (polled poll sched r).
Proof.
  intros Hp. revert r. induction sched as [|b sched IH]; intros r; [done|].
  rewrite polled_cons, <- IH, <- Hp. done.
Qed.

(** The relay a handler opens on the empty schedule, polled by [sched], is what
    the handler makes of [sched]; what it does to the network it does before. *)
Definition resumes (request : InboundRequest) (m : list bool -> io N Handled) : Prop :=
  forall sched n, m sched n =
    match m [] n with
    | (n', Ok h) => (n', Ok (relay_handled (relay_polls request sched (relay_open h))))
    | r => r
    end.

Lemma resumes_bind {A} request (m : io N A) (k : A -> list bool -> io N Handled) :
  (forall a, resumes request (k a)) -> resumes request (fun sched => io_bind m (fun a => k a sched)).
Proof. intros Hk sched n. unfold io_bind. destruct (m n) as [n1 [a| | |]]; try done. apply Hk. Qed.

Lemma resumes_fails request (o : outcome Handled) :
  is_ok o = false -> resumes request (fun _ => io_lift o).
Proof. intros Ho sched n. unfold io_lift. by destruct o. Qed.

(** A path whose relay is a [select!]. *)
Lemma resumes_select {A B X Y} request (path : relaying A B X Y -> relay) (result : session A B -> Handled)
    (up : task (A * B) X) (down : task (A * B) Y) a b :
  (forall b r, relay_poll request b (path r) = path (select_poll up down b r)) ->
  (forall r, relay_handled (path r) = result (relaying_session r)) ->
  (forall s, relay_open (result s) = path (idle (ss_client s) (ss_remote s))) ->
  resumes request (fun sched => io_ret (result (run_select up down sched a b))).
Proof.
  intros Hpoll Hres Hopen sched n. unfold io_ret.
  rewrite Hopen, (relay_polls_path request path _ _ _ Hpoll), Hres. by rewrite run_select_polled.
Qed.

(** The paths of the handler. *)
Lemma resumes_direct request (s : Std) : resumes request (handle_direct_stream request s).
Proof.
  unfold handle_direct_stream. destruct (proxy_protocol request); [by apply (resumes_fails _ (Err _))| |by apply (resumes_fails _ (Err _))].
  destruct (transport_protocol request).
  - apply resumes_bind. intros addr. apply resumes_bind. intros out.
    by apply (resumes_select request RDirectTcp DirectTcp).
  - apply resumes_bind. intros socket. by apply (resumes_select request RDirectUdp DirectUdp).
Qed.

Lemma resumes_tcp (self : Handler) request (s : Std) : resumes request (handle_tcp_stream self request s).
Proof.
  unfold handle_tcp_stream. apply resumes_bind. intros connection. apply resumes_bind. intros out.
  destruct (th_protocol self); [by apply (resumes_fails _ (Err _))| |by apply (resumes_fails _ (Err _))].
  apply resumes_bind. intros _. destruct (handshake request (th_secret self) out) as [out' o].
  apply resumes_bind. intros _. destruct (transport_protocol request).
  - by apply (resumes_select request RProxyTcp ProxyTcp).
  - by apply (resumes_select request RProxyUdp ProxyUdp).
Qed.

Lemma resumes_grpc (self : Handler) request (s : Std) : resumes request (handle_grpc_stream self request s).
Proof.
  unfold handle_grpc_stream. destruct (destination self); [|by apply (resumes_fails _ (Err _))].
  apply resumes_bind. intros connection. apply resumes_bind. intros header.
  destruct (send (mkHunk header) _) as [tx o]. apply resumes_bind. intros _.
  apply resumes_bind. intros reader. destruct (command request).
  - by apply (resumes_select request RProxyGrpc ProxyGrpc).
  - by apply (resumes_fails _ (Err _)).
  - by apply (resumes_select request RProxyGrpcUdp ProxyGrpcUdp).
Qed.

Lemma resumes_quic (self : Handler) request (s : Std) : resumes request (handle_quic_stream self request s).
Proof.
  unfold handle_quic_stream. apply resumes_bind. intros _. apply resumes_bind. intros connection.
  apply resumes_bind. intros bi. destruct (handshake request (th_secret self) bi) as [bi' o].
  apply resumes_bind. intros _ sched n. unfold io_ret. cbn [run_spawned].
  cbn [relay_open ss_client ss_remote].
  rewrite (relay_polls_path request RProxyQuic (spawned_poll copy_up copy_down)) by done.
  rewrite run_spawned_polled. cbn [relay_handled]. unfold relaying_session, idle.
  by destruct (rl_ends _).
Qed.

Lemma resumes_dispatch (self : Handler) request (s : Std) : resumes request (dispatch self s request).
Proof.
  unfold dispatch. destruct (th_mode self);
    auto using resumes_direct, resumes_tcp, resumes_grpc, resumes_quic.
Qed.

(** ** The server, step by step *)

(** What a handler's relay is to whoever looks at the task. *)
Definition relay_result (h : Handled) : task_result Handled :=
  match handled_result h with
  | None => Relaying h
  | Some (Panic p) => HandleCrashed p
  | Some _ => Served h
  end.

(** Where a task is: it has not got through [accept]; it has, and its handler has
    not made its connections yet; it relays, or its relay is over; it stopped
    before it came to a relay. *)
Inductive phase :=
| Accepting
| Dialling (s : Std) (request : InboundRequest)
| Relayed (request : InboundRequest) (r : relay)
| Stopped (result : task_result Handled).

Definition after_accept (accepted : option Std * outcome InboundRequest) : phase :=
  match accepted with
  | (Some s, Ok request) => Dialling s request
  | (_, Err e) => Stopped (AcceptFailed e)
  | (_, Panic p) => Stopped (AcceptCrashed p)
  | _ => Stopped AcceptWaiting
  end.

Definition after_dial (request : InboundRequest) (o : outcome Handled) : phase :=
  match o with
  | Ok h => Relayed request (relay_open h)
  | Err e => Stopped (HandleFailed e)
  | Panic p => Stopped (HandleCrashed p)
  | Pending => Stopped HandleWaiting
  end.

Record fine_server := mkFine {
  fs_net : N;
  fs_tasks : list (T * phase);
  fs_returned : option (outcome unit);
}.

Inductive fine_step (listener : L) (acceptor : Acceptor) (handler : Handler) :
    fine_server -> fine_server -> Prop :=
| fine_listen n n' tasks socket addr :
    listener_accept listener n = (n', Ok (socket, addr)) ->
    fine_step listener acceptor handler (mkFine n tasks None)
      (mkFine n' (tasks ++ [(socket, Accepting)]) None)
| fine_listen_fails n n' tasks e :
    listener_accept listener n = (n', Err e) ->
    fine_step listener acceptor handler (mkFine n tasks None) (mkFine n' tasks (Some (Err e)))
| fine_accept n tasks returned i socket :
    tasks !! i = Some (socket, Accepting) ->
    fine_step listener acceptor handler (mkFine n tasks returned)
      (mkFine n (<[i := (socket, after_accept (tcp_accept acceptor socket))]> tasks) returned)
| fine_dial n n' tasks returned i socket s request o :
    tasks !! i = Some (socket, Dialling s request) ->
    dispatch handler s request [] n = (n', o) ->
    fine_step listener acceptor handler (mkFine n tasks returned)
      (mkFine n' (<[i := (socket, after_dial request o)]> tasks) returned)
| fine_poll n tasks returned i socket request r b :
    tasks !! i = Some (socket, Relayed request r) ->
    fine_step listener acceptor handler (mkFine n tasks returned)
      (mkFine n (<[i := (socket, Relayed request (relay_poll request b r))]> tasks) returned).

Definition fine_reachable listener acceptor handler (n : N) : fine_server -> Prop :=
  rtc (fine_step listener acceptor handler) (mkFine n [] None).

(** What of the fine server the server of Server.v shows. *)
Definition observe_phase (p : phase) : option (task_result Handled) :=
  match p with
  | Accepting | Dialling _ _ => None
  | Relayed _ r => Some (relay_result (relay_handled r))
  | Stopped result => Some result
  end.

Definition observe (fs : fine_server) : server (N:=N) (T:=T) (TS:=TS) (TC:=TC) (BC:=BC) (BO:=BO)
    (U:=U) (Ch:=Ch) (S:=S) (Q:=Q) :=
  mkServer (fs_net fs) (prod_map id observe_phase <$> fs_tasks fs) (fs_returned fs).

(** *** Runs with their history

    The server of Server.v, with every finished task remembered by the network it
    ran on and its schedule; since what a task does to the network does not depend
    on the schedule, the schedule of a task can be exchanged afterwards. *)

Context (listener : L) (acceptor : Acceptor) (handler : Handler).
#[local] Abbreviation run := (serve_connection (N:=N) (BC:=BC) (BO:=BO) (U:=U) (Ch:=Ch) (S:=S) (Q:=Q)
  acceptor handler).

Record hist := mkHist {
  hi_net : N;
  hi_tasks : list (T * option (N * list bool));
  hi_returned : option (outcome unit);
}.

Inductive hist_step : hist -> hist -> Prop :=
| hist_listen n n' tasks socket addr :
    listener_accept listener n = (n', Ok (socket, addr)) ->
    hist_step (mkHist n tasks None) (mkHist n' (tasks ++ [(socket, None)]) None)
| hist_listen_fails n n' tasks e :
    listener_accept listener n = (n', Err e) ->
    hist_step (mkHist n tasks None) (mkHist n' tasks (Some (Err e)))
| hist_run n tasks returned i socket sched :
    tasks !! i = Some (socket, None) ->
    hist_step (mkHist n tasks returned)
      (mkHist (run socket sched n).1 (<[i := (socket, Some (n, sched))]> tasks) returned).

Definition hist_reachable (n : N) : hist -> Prop := rtc hist_step (mkHist n [] None).

Definition replay (tr : T * option (N * list bool)) : T * option (task_result Handled) :=
  (tr.1, (fun ns => (run tr.1 ns.2 ns.1).2) <$> tr.2).

Definition forget (h : hist) : server := mkServer (hi_net h) (replay <$> hi_tasks h) (hi_returned h).

Lemma serve_connection_net t sched n : (run t sched n).1 = (run t [] n).1.
Proof.
  unfold serve_connection. destruct (tcp_accept acceptor t) as [[s|] [q|e|p|]]; try done.
  rewrite resumes_dispatch. destruct (dispatch handler s q [] n) as [n1 [h| | |]]; done.
Qed.

Lemma hist_reachable_forget n h :
  hist_reachable n h -> server_reachable listener acceptor handler n (forget h).
Proof.
  intros Hr. pattern h. revert h Hr. apply rtc_ind_r; [apply rtc_refl|].
  intros h h' _ Hstep IH. eapply rtc_r; [exact IH|].
  destruct Hstep as [m m' tasks socket addr E|m m' tasks e E|m tasks returned i socket sched E];
    unfold forget; simpl.
  - rewrite fmap_app. by eapply step_accept.
  - by eapply step_accept_fails.
  - assert (Hi : i < length tasks) by (by apply lookup_lt_Some in E).
    rewrite insert_take_drop by done. rewrite <- (take_drop_middle tasks i _ E) at 1.
    rewrite !fmap_app, !fmap_cons. unfold replay at 2 5; simpl.
    eapply step_task with (sched := sched). apply surjective_pairing.
Qed.

Lemma hist_reschedule n h i t n0 sched sched' :
  hist_reachable n h -> hi_tasks h !! i = Some (t, Some (n0, sched)) ->
  hist_reachable n (mkHist (hi_net h) (<[i := (t, Some (n0, sched'))]> (hi_tasks h)) (hi_returned h)).
Proof.
  intros Hr. revert i t n0 sched sched'. pattern h. revert h Hr. apply rtc_ind_r; [done|].
  intros h h' Hpre Hstep IH i t n0 sched sched' Hi.
  destruct Hstep as [m m' tasks socket addr E|m m' tasks e E|m tasks returned j socket sched1 E]; simpl in *.
  - apply lookup_app_Some in Hi as [Hi|[_ Hi]].
    + rewrite insert_app_l by (by apply lookup_lt_Some in Hi).
      eapply rtc_r; [by eapply IH|]. by eapply hist_listen.
    + apply list_lookup_singleton_Some in Hi as [_ ?]. simplify_eq.
  - eapply rtc_r; [by eapply IH|]. by eapply hist_listen_fails.
  - destruct (decide (i = j)) as [->|Hne].
    + assert (Hj : j < length tasks) by (by apply lookup_lt_Some in E).
      rewrite list_lookup_insert_eq in Hi by done. simplify_eq.
      rewrite list_insert_insert_eq.
      assert (Hn : (run t sched n0).1 = (run t sched' n0).1)
        by (by rewrite (serve_connection_net t sched), (serve_connection_net t sched')).
      rewrite Hn. eapply rtc_r; [exact Hpre|]. by apply hist_run.
    + rewrite list_lookup_insert_ne in Hi by done.
      rewrite list_insert_insert_ne by done.
      eapply rtc_r; [by eapply IH|]. apply hist_run. by rewrite list_lookup_insert_ne.
Qed.

(** *** The refinement *)

(** A task of the fine server and the same task with its history. *)
Definition tracks (p : T * phase) (h : T * option (N * list bool)) : Prop :=
  p.1 = h.1 /\
  match p.2, h.2 with
  | Accepting, None => True
  | Dialling s request, None => tcp_accept acceptor p.1 = (Some s, Ok request)
  | Relayed request r, Some (n0, sched) => exists s n1 h0,
      tcp_accept acceptor p.1 = (Some s, Ok request) /\
      dispatch handler s request [] n0 = (n1, Ok h0) /\
      r = relay_polls request sched (relay_open h0)
  | Stopped result, Some (n0, sched) => (run p.1 sched n0).2 = result
  | _, _ => False
  end.

Lemma run_accepted t sched n s request :
  tcp_accept acceptor t = (Some s, Ok request) ->
  run t sched n =
    match dispatch handler s request [] n with
    | (n', Ok h) => (n', relay_result (relay_handled (relay_polls request sched (relay_open h))))
    | (n', Err e) => (n', HandleFailed e)
    | (n', Panic p) => (n', HandleCrashed p)
    | (n', Pending) => (n', HandleWaiting)
    end.
Proof.
  intros E. unfold serve_connection. rewrite E, resumes_dispatch.
  by destruct (dispatch handler s request [] n) as [n1 [h| | |]].
Qed.

Lemma tracks_observe p h : tracks p h -> prod_map id observe_phase p = replay h.
Proof.
  destruct p as [t ph], h as [t' [[n0 sched]|]]; unfold tracks, replay; simpl; intros [<- Hp];
    destruct ph as [|s q|q r|res]; try done; simpl in *.
  - destruct Hp as (s & n1 & h0 & Ea & Ed & ->). by rewrite (run_accepted _ _ _ _ _ Ea), Ed.
  - by rewrite Hp.
Qed.

(** What [accept] leaves of a task, seen with the history it then has. *)
Lemma tracks_after_accept t n (tasks : list (T * option (N * list bool))) i :
  tasks !! i = Some (t, None) ->
  tracks (t, after_accept (tcp_accept acceptor t)) (t, None) \/
  ((run t [] n).1 = n /\ tracks (t, after_accept (tcp_accept acceptor t)) (t, Some (n, []))).
Proof.
  intros _. unfold tracks, serve_connection; simpl.
  destruct (tcp_accept acceptor t) as [[s|] [q|e|p|]]; simpl; (by left) || (by right).
Qed.

Lemma tracks_after_dial t n n' s request o :
  tcp_accept acceptor t = (Some s, Ok request) -> dispatch handler s request [] n = (n', o) ->
  (run t [] n).1 = n' /\ tracks (t, after_dial request o) (t, Some (n, [])).
Proof.
  intros Ea Ed. unfold tracks. rewrite (run_accepted _ _ _ _ _ Ea), Ed.
  destruct o; simpl; split_and!; try done; [|by rewrite (run_accepted _ _ _ _ _ Ea), Ed..].
  exists s, n', a. by split_and!.
Qed.

Lemma fine_tracked n fs :
  fine_reachable listener acceptor handler n fs ->
  exists h, hist_reachable n h /\ hi_net h = fs_net fs /\ hi_returned h = fs_returned fs /\
    Forall2 tracks (fs_tasks fs) (hi_tasks h).
Proof.
  intros Hr. pattern fs. revert fs Hr. apply rtc_ind_r; [exists (mkHist n [] None); by split_and!; [apply rtc_refl|..]|].
  intros fs fs' _ Hstep ([m hs ret] & Hreach & Hn & Hret & Ht).
  destruct Hstep as [k k' tasks socket addr E|k k' tasks e E|k tasks returned i socket Hi
    |k k' tasks returned i socket s request o Hi Ed|k tasks returned i socket request r b Hi];
    simpl in *; subst.
  - eexists. split; [eapply rtc_r; [exact Hreach|by eapply hist_listen]|].
    split_and!; [done..|]. apply Forall2_app; [done|]. by repeat constructor.
  - eexists. split; [eapply rtc_r; [exact Hreach|by eapply hist_listen_fails]|]. done.
  - destruct (Forall2_lookup_l _ _ _ _ _ Ht Hi) as ([t' h'] & Hh & [Heq Hp]); simpl in *; subst t'.
    destruct h'; [done|].
    destruct (tracks_after_accept socket k hs i Hh) as [Htr|[Hnet Htr]].
    + eexists. split; [exact Hreach|]. split_and!; [done..|]. simpl.
      rewrite <- (list_insert_id _ _ _ Hh). by apply Forall2_insert.
    + eexists. split; [eapply rtc_r; [exact Hreach|]; by eapply (hist_run _ _ _ i _ [])|].
      rewrite Hnet. split_and!; [done..|]. by apply Forall2_insert.
  - destruct (Forall2_lookup_l _ _ _ _ _ Ht Hi) as ([t' h'] & Hh & [Heq Hp]); simpl in *; subst t'.
    destruct h'; [done|]. destruct (tracks_after_dial _ _ _ _ _ _ Hp Ed) as [Hnet Htr].
    eexists. split; [eapply rtc_r; [exact Hreach|]; by eapply (hist_run _ _ _ i _ [])|].
    rewrite Hnet. split_and!; [done..|]. by apply Forall2_insert.
  - destruct (Forall2_lookup_l _ _ _ _ _ Ht Hi) as ([t' h'] & Hh & [Heq Hp]); simpl in *; subst t'.
    destruct h' as [[n0 sched]|]; [|done]. destruct Hp as (s & n1 & h0 & Ea & Ed & ->).
    eexists. split; [by eapply (hist_reschedule _ _ _ _ _ _ (sched ++ [b]))|].
    split_and!; [done..|]. simpl. apply Forall2_insert; [done|]. split; [done|].
    exists s, n1, h0. split_and!; [done..|]. by rewrite relay_polls_snoc.
Qed.

Lemma fine_refines n fs :
  fine_reachable listener acceptor handler n fs ->
  server_reachable listener acceptor handler n (observe fs).
Proof.
  intros Hr. destruct (fine_tracked n fs Hr) as (h & Hh & Hn & Hret & Ht).
  replace (observe fs) with (forget h); [by apply hist_reachable_forget|].
  unfold observe, forget. rewrite Hn, Hret. f_equal. clear -Ht.
  induction Ht as [|p h1 ps hs Hp _ IH]; [done|].
  rewrite !fmap_cons, (tracks_observe _ _ Hp). by f_equal.
Qed.

(** A task that has got through [accept], whatever happened to it since. *)
Definition past_accept (p : phase) : Prop :=
  match p with
  | Accepting => False
  | Stopped (AcceptFailed _) | Stopped (AcceptCrashed _) | Stopped AcceptWaiting => False
  | _ => True
  end.

Lemma fine_past_accept n fs t p :
  fine_reachable listener acceptor handler n fs -> (t, p) ∈ fs_tasks fs -> past_accept p ->
  exists (s : Std) request, tcp_accept acceptor t = (Some s, Ok request).
Proof.
  intros Hr Hin Hp. destruct (fine_tracked n fs Hr) as (h & _ & _ & _ & Ht).
  apply list_elem_of_lookup in Hin as [i Hi].
  destruct (Forall2_lookup_l _ _ _ _ _ Ht Hi) as ([t' h'] & _ & [Heq Htr]); simpl in *; subst t'.
  destruct p as [|s q|q r|res], h' as [[n0 sched]|]; try done; [eauto| |].
  - destruct Htr as (s & n1 & h0 & Ea & _). eauto.
  - unfold serve_connection in Htr. destruct (tcp_accept acceptor t) as [[s|] [q|e|m|]];
      simpl in Htr; subst res; try done. eauto.
Qed.

(** *** Its converse *)

(** A task that is not about to dial. *)
Definition settled (p : T * phase) : Prop :=
  match p.2 with Dialling _ _ => False | _ => True end.

Lemma fine_polls n tasks returned i socket request r sched :
  tasks !! i = Some (socket, Relayed request r) ->
  rtc (fine_step listener acceptor handler) (mkFine n tasks returned)
    (mkFine n (<[i := (socket, Relayed request (relay_polls request sched r))]> tasks) returned).
Proof.
  intros Hi. induction sched as [|b sched IH] using rev_ind.
  { unfold relay_polls; simpl. rewrite list_insert_id by done. apply rtc_refl. }
  eapply rtc_r; [exact IH|]. rewrite relay_polls_snoc.
  assert (Hlen : i < length tasks) by (by apply lookup_lt_Some in Hi).
  pose proof (fine_poll listener acceptor handler n _ returned i socket request _ b
    (list_lookup_insert_eq tasks i (socket, Relayed request (relay_polls request sched r)) Hlen)) as Hstep.
  by rewrite list_insert_insert_eq in Hstep.
Qed.

Lemma fine_task n n' tasks returned i socket sched result :
  tasks !! i = Some (socket, Accepting) -> run socket sched n = (n', result) ->
  exists ph, observe_phase ph = Some result /\ settled (socket, ph) /\
    rtc (fine_step listener acceptor handler) (mkFine n tasks returned)
      (mkFine n' (<[i := (socket, ph)]> tasks) returned).
Proof.
  intros Hi E. pose proof (fine_accept listener acceptor handler n tasks returned i socket Hi) as Hstep.
  assert (Hlen : i < length tasks) by (by apply lookup_lt_Some in Hi).
  destruct (tcp_accept acceptor socket) as [os oq] eqn:Ea. simpl in Hstep.
  destruct os as [s|], oq as [request|e|p|]; simpl in Hstep;
    try (unfold serve_connection in E; rewrite Ea in E; injection E as <- <-;
         eexists; split_and!; [| |by apply rtc_once]; done).
  rewrite (run_accepted _ _ _ _ _ Ea) in E.
  destruct (dispatch handler s request [] n) as [n1 o] eqn:Ed.
  pose proof (fine_dial listener acceptor handler n n1 _ returned i socket s request o
    (list_lookup_insert_eq _ _ _ Hlen) Ed) as Hdial. rewrite list_insert_insert_eq in Hdial.
  destruct o as [h|e|p|]; injection E as <- <-; simpl in Hdial;
    try (eexists; split_and!; [| |by eapply rtc_l, rtc_once]; done).
  exists (Relayed request (relay_polls request sched (relay_open h))). split_and!; [done..|].
  eapply rtc_l; [exact Hstep|]. eapply rtc_l; [exact Hdial|].
  etrans; [apply (fine_polls _ _ _ i socket request (relay_open h) sched);
    by rewrite list_lookup_insert_eq|].
  rewrite list_insert_insert_eq. apply rtc_refl.
Qed.

Lemma fine_complete n sv :
  server_reachable listener acceptor handler n sv ->
  exists fs, fine_reachable listener acceptor handler n fs /\ observe fs = sv /\
    Forall settled (fs_tasks fs).
Proof.
  intros Hr. pattern sv. revert sv Hr.
  apply rtc_ind_r; [exists (mkFine n [] None); by split_and!; [apply rtc_refl|..]|].
  intros sv sv' _ Hstep ([m fts fr] & Hreach & Hobs & Hset). unfold observe in Hobs; simpl in *.
  destruct Hstep as [k k' tasks socket addr E|k k' tasks e E|k k' before socket after sched r ret E];
    simplify_eq/=.
  - exists (mkFine k' (fts ++ [(socket, Accepting)]) None). split_and!.
    + eapply rtc_r; [exact Hreach|by eapply fine_listen].
    + unfold observe; simpl. by rewrite fmap_app.
    + apply Forall_app. by split; [|repeat constructor].
  - exists (mkFine k' fts (Some (Err e))). split_and!; [|done|done].
    eapply rtc_r; [exact Hreach|by eapply fine_listen_fails].
  - match goal with Hm : _ <$> fts = _ |- _ => rename Hm into Htasks end.
    apply fmap_app_inv in Htasks as (l1 & l2 & -> & Ht & ->).
    symmetry in Ht; apply fmap_cons_inv in Ht as ([t ph] & l3 & Ht & -> & ->).
    simpl in Ht. injection Ht as <- Hph. apply Forall_app in Hset as [Hs1 [Hs2 Hs3]%Forall_cons].
    assert (ph = Accepting) as -> by (by destruct ph).
    destruct (fine_task k k' (l1 ++ (socket, Accepting) :: l3) ret (length l1) socket sched r)
      as (ph & Hph' & Hs & Hsteps); [by apply list_lookup_middle|done|].
    assert (Hins : <[length l1 := (socket, ph)]> (l1 ++ (socket, Accepting) :: l3) =
                   l1 ++ (socket, ph) :: l3).
    { rewrite <- (Nat.add_0_r (length l1)). by rewrite insert_app_r. }
    rewrite Hins in Hsteps. eexists. split; [unfold fine_reachable in *; by etrans|]. split.
    + unfold observe; simpl. rewrite fmap_app, fmap_cons. simpl. by rewrite Hph'.
    + simpl. apply Forall_app; split; [done|]. by constructor.
Qed.

(** Interleaving the tasks step by step changes nothing: the states the TCP
    server of Server.v reaches, in which every task runs in one step, are exactly
    what can be observed of the states reached when accepting a connection,
    dialling for it and every poll of either direction of every relay are steps
    of their own that interleave in any order. *)
Theorem interleaving_refines n sv :
  server_reachable listener acceptor handler n sv <->
  exists fs, fine_reachable listener acceptor handler n fs /\ observe fs = sv.
Proof.
  split.
  - intros Hr. destruct (fine_complete n sv Hr) as (fs & ? & ? & _). eauto.
  - intros (fs & Hr & <-). by apply fine_refines.
Qed.
End Tasks.

(** ** What the relays of a server carry *)

Section DirectServer.
Context {File ServerConfig ClientConfig RootCertStore ServerName : Type}.
Context `{TokioCopyLawful}.
Context {N L T TS TC BC BO U G Ch S QC Q : Type}.
#[local] Abbreviation Std := (StandardTcpStream T TS TC).
Context `{FileSystem File} `{Rustls File ServerConfig ClientConfig RootCertStore} `{Sha224Lawful}.
Context `{Listener N L T} `{Resolver}.
Context `{TlsAccept ServerConfig T TS} `{!Net N T U} `{!TlsConnect ClientConfig ServerName T TC}.
Context `{!Buffers Std BC} `{!Buffers Std BO}.
Context `{AsyncReadExt T} `{!ByteSource T} `{!AsyncWrite T} `{!AsyncWriteExt T} `{!ByteSink T} `{!ByteDuplex T}.
Context `{ByteDuplex TS} `{ByteDuplex TC}.
Context `{!AsyncReadExt Std} `{!AsyncWriteExt Std}.
Context `{AsyncReadExt BC} `{!AsyncWrite BC} `{!AsyncWriteExt BC}.
Context `{AsyncReadExt BO} `{!AsyncWrite BO} `{!AsyncWriteExt BO}.
Context `{AsyncReadExt Q} `{!AsyncWrite Q} `{!AsyncWriteExt Q}.
Context `{UdpSocket U} `{Sender Ch Hunk} `{StreamExt S (Hunk + Status)}.
Context `{!AsyncReadExt (GrpcDataReaderStream S)}.
Context `{GrpcClient N G Ch S} `{QuicClient N QC Q}.
#[local] Abbreviation Acceptor := (TcpAcceptor ServerConfig).
#[local] Abbreviation Handler := (TcpHandler ClientConfig ServerName).
#[local] Abbreviation reachable := (fine_reachable (N:=N) (L:=L) (T:=T) (TS:=TS) (TC:=TC)
  (BC:=BC) (BO:=BO) (U:=U) (Ch:=Ch) (S:=S) (Q:=Q)).

(** What a direct handler opens for a Trojan CONNECT or BIND. *)
Lemma dispatch_direct_tcp (handler : Handler) (s : Std) request sched n n' h :
  th_mode handler = OutboundDIRECT -> proxy_protocol request = TROJAN ->
  transport_protocol request = TransportTCP ->
  dispatch (BC:=BC) (BO:=BO) (Ch:=Ch) (S:=S) (Q:=Q) handler s request sched n = (n', Ok h) ->
  exists addr (d : T), IpAddrPort_into (addr_port request) = Ok addr /\
    tcp_connect addr n = (n', Ok d) /\ h = DirectTcp (run_select copy_up copy_down sched s d).
Proof.
  intros Hm Hp Ht. unfold dispatch, handle_direct_stream. rewrite Hm, Hp, Ht. intros E.
  apply io_bind_ok_inv in E as (n1 & addr & Ea & E). unfold io_lift in Ea. injection Ea as <- Ea.
  apply io_bind_ok_inv in E as (n2 & d & Ed & E). injection E as <- <-.
  exists addr, d. split_and!; [done| |done]. unfold or_err, io_map_err in Ed.
  destruct (tcp_connect addr n) as [n3 [d0|e|p|]]; by simplify_eq.
Qed.

(** C11: what every relay of a TCP server carries, at every moment of every
    interleaving.  Let the server be configured for Trojan with a password and for
    direct connections, and let accepts, dials and single polls of the relays of
    all its connections interleave in any order.  Whenever a connection is being
    relayed for a request over TCP, its application stream (inside TLS if TLS is in
    use) began with the hexadecimal SHA-224 of the password and with exactly that
    request; the other end was dialled at the address of the request; and so far
    the other end has got a prefix of exactly the bytes behind the request, and the
    client a prefix of what the other end sent, each of them all of it if the
    relay ended at the end of that stream. *)
Theorem server_relays_prefixes inbound cell password (acceptor : Acceptor) (handler : Handler)
    listener n fs t request r :
  in_protocol inbound = TROJAN -> in_secret inbound = Some password ->
  TcpAcceptor_init inbound None = (cell, Ok acceptor) -> th_mode handler = OutboundDIRECT ->
  (forall s : Std, spoken_on acceptor t s -> both_inv s) ->
  (forall addr m m' (d : T), tcp_connect addr m = (m', Ok d) -> both_inv d) ->
  reachable listener acceptor handler n fs ->
  (t, Relayed request r) ∈ fs_tasks fs -> transport_protocol request = TransportTCP ->
  exists (s s' : Std) sep1 sep2 rest addr m m' (d : T) q,
    spoken_on acceptor t s /\
    data (view s) = wire_header (hex_encode (digest (as_bytes password))) sep1 (command request)
      (ip (addr_port request)) (port (addr_port request)) sep2 ++ rest /\
    IpAddrPort_into (addr_port request) = Ok addr /\ tcp_connect addr m = (m', Ok d) /\
    r = RDirectTcp q /\ view s' = mkSource rest (fin (view s)) /\ written s' = written s /\
    relayed s' d (relaying_session q).
Proof.
  intros Hp Hs Ei Hm Hon Hnet Hr Hin Htr.
  destruct (TcpAcceptor_init_inv _ _ _ Ei) as (_ & _ & Hpr & Hsec & _). rewrite Hp, Hs in *.
  destruct (fine_tracked _ _ _ _ _ Hr) as (h & _ & _ & _ & Ht).
  apply list_elem_of_lookup in Hin as [i Hi].
  destruct (Forall2_lookup_l _ _ _ _ _ Ht Hi) as ([t' [[n0 sched]|]] & _ & [Heq Htrk]); [|done].
  simpl in Heq, Htrk; subst t'. destruct Htrk as (s1 & n1 & h0 & Ea & Ed & ->).
  destruct (tcp_accept_trojan acceptor t (Some s1) request Hpr Ea) as (s & s2 & Hsp & [= <-] & Eacc).
  pose proof (Hon _ Hsp) as Hsi.
  destruct (accept_wire _ _ _ _ (proj1 Hsi) Eacc) as (Hf & Hpp & sep1 & sep2 & Hd).
  destruct (quiet_accept _ _ _ _ Hsi Eacc) as (Hs1 & Hw1 & _).
  destruct (dispatch_direct_tcp handler s1 request [] n0 n1 h0 Hm Hpp Htr Ed) as (addr & d & Haddr & Hc & ->).
  exists s, s1, sep1, sep2, (data (view s1)), addr, n0, n1, d,
    (polled (select_poll copy_up copy_down) sched (idle s1 d)).
  split_and!; [done|by rewrite Hd, Hsec|done|done| | |done|].
  - cbn [relay_open]. by rewrite (relay_polls_path request RDirectTcp (select_poll copy_up copy_down)).
  - rewrite <- Hf. by destruct (view s1).
  - rewrite <- run_select_polled. apply run_select_relayed; [done|]. by eapply Hnet.
Qed.
End DirectServer.

(** ** Witness *)

#[local] Existing Instance demo_resolver.
#[local] Existing Instance buffered_copy.
#[local] Existing Instance buffered_copy_lawful.

#[local] Abbreviation Tcp := (Joined source Cursor).
#[local] Abbreviation OutTcp := (StandardTcpStream Tcp Tcp Tcp).

(** The client of [demo_socket] past [accept], and its relay after two polls. *)
Definition demo_past : OutTcp := Plain (demo_tcp (mkSource [x47] Eof)).
Definition demo_opened := handle_direct_stream (N:=DemoNet) (C:=OutTcp) (BC:=OutTcp) (T:=Tcp) (TS:=Tcp)
  (TC:=Tcp) (BO:=OutTcp) (U:=UdpScript) (Ch:=ChannelScript) (S:=HunkScript) (Q:=Tcp)
  demo_trojan_request demo_past [] demo_network.
Definition demo_relay := match demo_opened.2 with
  | Ok h => relay_polls demo_trojan_request [true; false] (relay_open h)
  | _ => RProxyTcp (idle demo_past demo_past)
  end.

#[local] Abbreviation demo_fine_reachable := (fine_reachable (N:=DemoNet) (L:=bool) (T:=Tcp) (TS:=Tcp)
  (TC:=Tcp) (BC:=OutTcp) (BO:=OutTcp) (U:=UdpScript) (Ch:=ChannelScript) (S:=HunkScript) (Q:=Tcp)).

Definition demo_fine_server :=
  mkFine demo_opened.1 [(demo_socket, Relayed demo_trojan_request demo_relay)] None.

Lemma demo_relaying :
  demo_fine_reachable true (demo_acceptor None (Some "hunter2"%string)) demo_out_handler demo_network
    demo_fine_server.
Proof.
  eapply rtc_l; [eapply fine_listen; reflexivity|].
  eapply rtc_l; [apply (fine_accept _ _ _ _ _ _ 0 demo_socket); reflexivity|].
  eapply rtc_l.
  { apply (fine_dial _ _ _ demo_network demo_opened.1 _ _ 0 demo_socket demo_past demo_trojan_request
      demo_opened.2); vm_compute; reflexivity. }
  eapply rtc_l; [eapply (fine_poll _ _ _ _ _ _ 0 demo_socket demo_trojan_request _ true); reflexivity|].
  eapply rtc_l; [eapply (fine_poll _ _ _ _ _ _ 0 demo_socket demo_trojan_request _ false); reflexivity|].
  apply rtc_refl.
Qed.

Lemma server_relays_prefixes_witness :
  exists q (d : Tcp) up, demo_relay = RDirectTcp q /\ written (rl_ends q).2 = written d ++ up /\
    tcp_connect (mkSocketAddr (V4 16909060) 443) demo_network = (demo_dialled, Ok d).
Proof.
  destruct (server_relays_prefixes (TS:=Tcp) (TC:=Tcp) (BC:=OutTcp) (BO:=OutTcp) (U:=UdpScript)
    (Ch:=ChannelScript) (S:=HunkScript) (Q:=Tcp) (demo_inbound (Some "hunter2"%string) None) _ "hunter2"
    (demo_acceptor None (Some "hunter2"%string)) demo_out_handler true demo_network demo_fine_server
    demo_socket demo_trojan_request demo_relay eq_refl eq_refl eq_refl eq_refl)
    as (s & s' & sep1 & sep2 & rest & addr & m & m' & d & q & _ & _ & Ha & Hc & Er & _ & _ & (up & _ & Hw) & _).
  - intros s ->. apply demo_tcp_inv.
  - intros addr m m' d [= _ <-]. apply demo_tcp_inv.
  - exact demo_relaying.
  - left.
  - reflexivity.
  - exists q, (demo_tcp (to_deliver demo_network)), up. split; [exact Er|].
    split; [|reflexivity]. injection Hc as _ <-. exact Hw.
Defined.
