(* ===== verification/Chain.v ===== *)
(** * The whole chain: a SOCKS5 client, a local proxy, a remote proxy

    The set-up the program is made for: a client speaks SOCKS5 to a local
    instance, which reaches the destination through a remote instance over the
    Trojan protocol.  The tasks the two TCP servers run for such a connection
    ([serve_connection], Server.v) are composed here, from the client's first
    byte to the destination. *)

From Stdlib Require Import ZArith Lia.
From Stdlib Require Import Strings.Byte Strings.String.
From stdpp Require Import base list strings numbers relations.
From S2P Require Import Prelude AsyncIo Conn Cursor Relay Select Pumps Common.
From S2P Require Import Trojan Socks5 Stream GrpcStream Packet Config TcpAcceptor.
From S2P Require Import TcpHandler Server Interleaving.

#[local] Open Scope nat_scope.

#[export] Program Instance Standard_ReliableSink {T TS TC}
    `{ReliableSink T} `{ReliableSink TS} `{ReliableSink TC} :
  ReliableSink (StandardTcpStream T TS TC) := {}.
Next Obligation.
  intros. match goal with Hw : sink_inv ?w, Hne : ?bs <> [] |- _ =>
    destruct w as [s|s|s]; destruct (poll_write_succeeds bs s Hw Hne) as (s' & k & E) end;
    simpl; unfold standard_poll_write; rewrite E; by eexists _, k.
Qed.
Next Obligation.
  intros. match goal with Hw : sink_inv ?w |- _ =>
    destruct w as [s|s|s]; destruct (poll_flush_succeeds s Hw) as (s' & E) end;
    simpl; unfold standard_poll_flush; rewrite E; by eexists.
Qed.

(** ** A SOCKS5 accept that succeeds *)

Section SocksAccepts.
Context {T : Type} `{AsyncReadExt T} `{!ByteSource T}.
Context `{!AsyncWrite T} `{!AsyncWriteExt T} `{!ByteSink T} `{!ByteDuplex T} `{!ReliableSink T}.

(** A reliable stream refuses no reply. *)
Lemma reliable_writes {A} (t' : T) (o : outcome A) : ~ write_failed t' o.
Proof.
  intros (t0 & e & Ht0 & [[bs E]|E] & Hf).
  - destruct (succeeds_write_all bs t0 Ht0) as (t2 & a & E2). rewrite E in E2. by simplify_eq.
  - destruct (succeeds_flush t0 Ht0) as (t2 & a & E2). rewrite E in E2. by simplify_eq.
Qed.

(** The dialogue with a client whose hello is what the first read yields and who
    asks for an IP destination: it succeeds, and leaves the client's payload. *)
Lemma socks_accept_ip port (t t1 : T) hello cmd rsv i p rest :
  both_inv t -> read 32 t = (t1, Ok hello) -> addr_ok (IpAddr_ i) -> u16_ok p ->
  data (view t1) = socks_wire cmd rsv (IpAddr_ i) p ++ rest ->
  exists t', socks_accept port t =
      (t', Ok (mkInboundRequest (atype_of (IpAddr_ i)) (mkIpAddrPort (IpAddr_ i) p) cmd
                 (transport_of cmd) SOCKS)) /\
    both_inv t' /\ view t' = mkSource rest (fin (view t)) /\
    written t' = written t ++ hello_reply ++ ack_reply port.
Proof.
  intros Ht Er Ha Hp Hd.
  destruct (socks_accept_run port t t1 hello cmd rsv i p rest Ht Er Ha Hp Hd)
    as (t' & o & out & E & Hi & Hw & _ & [(-> & -> & _ & Hv)|Hfail]); [by eauto|].
  exfalso. by apply (reliable_writes t' o).
Qed.
End SocksAccepts.

(** ** The two tasks *)

Section Chain.
Context {ServerConfig ClientConfig ServerName : Type} `{Sha224Lawful} `{Resolver} `{TokioCopyLawful}.
Context {N T TS TC BC BO U G Ch S QC Q : Type}.
#[local] Abbreviation Std := (StandardTcpStream T TS TC).
Context `{TlsAccept ServerConfig T TS} `{!Net N T U} `{!TlsConnect ClientConfig ServerName T TC}.
Context `{!Buffers Std BC} `{!Buffers Std BO}.
Context `{AsyncReadExt T} `{!ByteSource T} `{!AsyncWrite T} `{!AsyncWriteExt T} `{!ByteSink T} `{!ByteDuplex T}.
Context `{ByteDuplex TS} `{ByteDuplex TC} `{!ReliableSink T} `{!ReliableSink TS} `{!ReliableSink TC}.
Context `{!AsyncReadExt Std} `{!AsyncWriteExt Std}.
Context `{AsyncReadExt BC} `{!AsyncWrite BC} `{!AsyncWriteExt BC}.
Context `{AsyncReadExt BO} `{!AsyncWrite BO} `{!AsyncWriteExt BO}.
Context `{AsyncReadExt Q} `{!AsyncWrite Q} `{!AsyncWriteExt Q}.
Context `{UdpSocket U} `{Sender Ch Hunk} `{StreamExt S (Hunk + Status)}.
Context `{!AsyncReadExt (GrpcDataReaderStream S)}.
Context `{GrpcClient N G Ch S} `{QuicClient N QC Q}.
#[local] Abbreviation Acceptor := (TcpAcceptor ServerConfig).
#[local] Abbreviation Handler := (TcpHandler ClientConfig ServerName).
#[local] Abbreviation serve := (serve_connection (N:=N) (T:=T) (TS:=TS) (TC:=TC) (BC:=BC) (BO:=BO) (U:=U)
  (Ch:=Ch) (S:=S) (Q:=Q)).
#[local] Abbreviation result := (relay_result (T:=T) (TS:=TS) (TC:=TC) (BC:=BC) (BO:=BO) (U:=U)
  (Ch:=Ch) (S:=S) (Q:=Q)).

(** The local instance: SOCKS5 in, a Trojan proxy out. *)
Record local_instance (acceptor : Acceptor) (handler : Handler) (password : string) : Prop := {
  li_protocol : ta_protocol acceptor = SOCKS;
  li_mode : th_mode handler = OutboundTCP;
  li_out_protocol : th_protocol handler = TROJAN;
  li_secret : th_secret handler = derive_secret TROJAN (Some password);
}.

(** The remote instance: Trojan in, direct connections out. *)
Record remote_instance (acceptor : Acceptor) (handler : Handler) (password : string) : Prop := {
  ri_protocol : ta_protocol acceptor = TROJAN;
  ri_secret : ta_secret acceptor = derive_secret TROJAN (Some password);
  ri_mode : th_mode handler = OutboundDIRECT;
}.

(** With or without TLS, the protocol's [accept] runs on the application stream. *)
Lemma tcp_accept_spoken (acceptor : Acceptor) t (s : Std) :
  spoken_on acceptor t s ->
  tcp_accept acceptor t =
    match ta_protocol acceptor with
    | SOCKS => escalate (socks_accept (ta_port acceptor)) s
    | TROJAN => escalate (accept (ta_secret acceptor)) s
    | DIRECT => (None, Err (mkError ConnectionReset "Failed to accept inbound stream, unsupported protocol"))
    end.
Proof.
  unfold spoken_on, tcp_accept, over_tls. destruct (tls_acceptor acceptor) as [cfg|].
  - intros (ts & -> & ->). by destruct (ta_protocol acceptor).
  - intros ->. by destruct (ta_protocol acceptor).
Qed.

Lemma serve_accepted (acceptor : Acceptor) (handler : Handler) t (s : Std) request sched n n' h :
  tcp_accept acceptor t = (Some s, Ok request) ->
  dispatch handler s request sched n = (n', Ok h) ->
  serve acceptor handler t sched n = (n', result h).
Proof. intros Ea Ed. unfold serve_connection. by rewrite Ea, Ed. Qed.

(** The local task: the client gets the two replies and what comes back, the
    remote proxy the header and what the client sends. *)
Lemma local_task acceptor handler password (c : T) (s s1 : Std) hello cmd rsv i p rest sched n n' (out : Std) :
  local_instance acceptor handler password ->
  spoken_on acceptor c s -> both_inv s -> read 32 s = (s1, Ok hello) ->
  addr_ok (IpAddr_ i) -> u16_ok p -> transport_of cmd = TransportTCP ->
  data (view s1) = socks_wire cmd rsv (IpAddr_ i) p ++ rest ->
  proxy_stream handler n n' out -> both_inv out -> written out = [] ->
  exists l : session Std Std, serve acceptor handler c sched n = (n', result (ProxyTcp l)) /\
    (exists down, down `prefix_of` data (view out) /\
       written (ss_client l) = written s ++ hello_reply ++ ack_reply (ta_port acceptor) ++ down) /\
    exists up, up `prefix_of` rest /\
      written (ss_remote l) =
        handshake_bytes (mkInboundRequest (atype_of (IpAddr_ i)) (mkIpAddrPort (IpAddr_ i) p) cmd
                           TransportTCP SOCKS) (derive_secret TROJAN (Some password)) ++ up.
Proof.
  intros [Hpr Hm Hop Hsec] Hsp Hs Er Ha Hp Hcmd Hd Hopen Hout Hw.
  destruct (socks_accept_ip (ta_port acceptor) s s1 hello cmd rsv i p rest Hs Er Ha Hp Hd)
    as (c' & Eacc & Hc' & Hv' & Hw'). rewrite Hcmd in Eacc.
  assert (Hlen : length (th_secret handler) = HEX_SIZE) by (rewrite Hsec; apply length_derive_secret).
  set (request := mkInboundRequest _ _ _ _ _) in Eacc.
  destruct (proxied_run (N:=N) (BC:=BC) (BO:=BO) (U:=U) (Ch:=Ch) (S:=S) (Q:=Q) handler request c' sched n n' out
    Hopen Hop Hlen) as (t1 & e & o & Eh & Ed & Ho).
  destruct (succeeds_handshake request (th_secret handler) out (proj2 Hout)) as (t2 & [] & Eh2).
  rewrite Eh in Eh2. injection Eh2 as <- ->. simpl in Ho. subst o.
  destruct (written_header out t1 _ _ Hout Hw Eh) as (Hi1 & Hv1 & Hwr).
  destruct (run_select_relayed sched c' t1 Hc' Hi1) as ((up & Hup & Hwup) & (down & Hdn & Hwdn) & _).
  rewrite Hv' in Hup. rewrite Hv1 in Hdn. rewrite Hwr in Hwup.
  eexists. split; [apply serve_accepted with (s := c') (request := request)|split].
  - rewrite (tcp_accept_spoken _ _ _ Hsp), Hpr. unfold escalate. by rewrite Eacc.
  - unfold dispatch. by rewrite Hm.
  - exists down. split; [done|]. rewrite Hwdn, Hw'. by rewrite <- !app_assoc.
  - exists up. split; [done|]. by rewrite Hwup, Hsec.
Qed.

(** The remote task, on what the local one sent. *)
Lemma remote_task acceptor handler password request i (r : T) (s : Std) rest sched n n' d :
  remote_instance acceptor handler password ->
  request_ok request -> ip (addr_port request) = IpAddr_ i -> transport_protocol request = TransportTCP ->
  spoken_on acceptor r s -> both_inv s ->
  data (view s) = handshake_bytes request (derive_secret TROJAN (Some password)) ++ rest ->
  tcp_connect (mkSocketAddr i (port (addr_port request))) n = (n', Ok d) -> both_inv d ->
  exists l : session Std T, serve acceptor handler r sched n = (n', result (DirectTcp l)) /\
    (exists up, up `prefix_of` rest /\ written (ss_remote l) = written d ++ up) /\
    exists down, down `prefix_of` data (view d) /\ written (ss_client l) = written s ++ down.
Proof.
  intros [Hpr Hsec Hm] Hreq Hi Htr Hsp Hs Hd Hconn Hdi.
  destruct (accept_handshake request i (derive_secret TROJAN (Some password)) s rest
    Hreq Hi (length_derive_secret password) (proj1 Hs) Hd) as (r' & Hv & Eacc).
  destruct (quiet_accept _ _ _ _ Hs Eacc) as (Hr' & Hw' & _).
  set (q := mkInboundRequest _ _ _ _ _) in Eacc.
  assert (Haddr : IpAddrPort_into (addr_port q) = Ok (mkSocketAddr i (port (addr_port request)))).
  { unfold q, IpAddrPort_into; simpl. by rewrite Hi. }
  pose proof (direct_tcp_run (N:=N) (BC:=BC) (TS:=TS) (TC:=TC) (BO:=BO) (Ch:=Ch) (S:=S) (Q:=Q)
    q r' sched n _ n' d eq_refl Htr Haddr Hconn) as Ed.
  destruct (run_select_relayed sched r' d Hr' Hdi) as (Hup & Hdn & _).
  rewrite Hv in Hup. rewrite Hw' in Hdn.
  eexists. split; [apply serve_accepted with (s := r') (request := q)|by split].
  - rewrite (tcp_accept_spoken _ _ _ Hsp), Hpr, Hsec. unfold escalate. by rewrite Eacc.
  - unfold dispatch. by rewrite Hm.
Qed.

(** C6: the whole chain, for a SOCKS5 client whose hello is what the first read
    yields and whose request, CONNECT or BIND, names an IPv4 or IPv6 address (a
    domain name is misread, see [socks_parse_domain_misread]), over streams that
    take what is written to them; each of the three hops is plain or TLS as the
    instances are configured.  The local instance serves it under every schedule:
    the client gets the two replies and then a prefix of what comes back from the
    remote proxy.  When the remote instance, configured with the same password,
    reads what the local one has sent, in whatever chunks and under whatever
    schedule of its own, it dials exactly the address and port the client asked for
    and sends there a prefix of exactly the bytes the client sent behind its
    request, no header, no reply and nothing else, and sends back a prefix of what
    it gets from there. *)
Theorem socks_chain acceptor handler password remote_acceptor remote_handler
    (c : T) (s s1 : Std) hello cmd rsv i p rest sched n n' (out : Std) :
  local_instance acceptor handler password ->
  remote_instance remote_acceptor remote_handler password ->
  spoken_on acceptor c s -> both_inv s -> read 32 s = (s1, Ok hello) ->
  addr_ok (IpAddr_ i) -> u16_ok p -> transport_of cmd = TransportTCP ->
  data (view s1) = socks_wire cmd rsv (IpAddr_ i) p ++ rest ->
  proxy_stream handler n n' out -> both_inv out -> written out = [] ->
  exists l : session Std Std, serve acceptor handler c sched n = (n', result (ProxyTcp l)) /\
    (exists down, down `prefix_of` data (view out) /\
       written (ss_client l) = written s ++ hello_reply ++ ack_reply (ta_port acceptor) ++ down) /\
    forall (r : T) (rs : Std) sched2 m m' d,
      spoken_on remote_acceptor r rs -> both_inv rs -> data (view rs) = written (ss_remote l) ->
      tcp_connect (mkSocketAddr i p) m = (m', Ok d) -> both_inv d -> written d = [] ->
      exists l2 : session Std T,
        serve remote_acceptor remote_handler r sched2 m = (m', result (DirectTcp l2)) /\
        written (ss_remote l2) `prefix_of` rest /\
        exists down, down `prefix_of` data (view d) /\ written (ss_client l2) = written rs ++ down.
Proof.
  intros Hl Hr Hsp Hs Er Ha Hp Hcmd Hd Hopen Hout Hw.
  destruct (local_task _ _ _ _ _ _ _ _ _ _ _ _ sched _ _ _ Hl Hsp Hs Er Ha Hp Hcmd Hd Hopen Hout Hw)
    as (l & E & Hdown & up & Hup & Hwr).
  exists l. split_and!; [done|done|]. intros r rs sched2 m m' d Hrsp Hri Hrd Hconn2 Hdi Hwd.
  rewrite Hwr in Hrd.
  destruct (remote_task _ _ _ (mkInboundRequest (atype_of (IpAddr_ i)) (mkIpAddrPort (IpAddr_ i) p)
    cmd TransportTCP SOCKS) i r rs up sched2 m m' d Hr ltac:(by constructor) eq_refl eq_refl Hrsp Hri Hrd
    Hconn2 Hdi) as (l2 & E2 & (up2 & Hup2 & Hwr2) & Hback).
  exists l2. split_and!; [done| |done]. rewrite Hwr2, Hwd. simpl. by etrans.
Qed.
End Chain.

(** ** Witness *)

#[local] Existing Instance demo_resolver.
#[local] Existing Instance buffered_copy.
#[local] Existing Instance buffered_copy_lawful.

#[local] Abbreviation Tcp := (Joined source Cursor).
#[local] Abbreviation OutTcp := (StandardTcpStream Tcp Tcp Tcp).

(** A hello that offers 30 methods, as long as the first read. *)
Definition demo_hello_bytes : list byte := [x05; x1e] ++ replicate 30 x00.

Definition demo_socks_client : Tcp :=
  demo_tcp (mkSource (demo_hello_bytes ++
    socks_wire Connect x00 (IpAddr_ (V4 16909060)) 443 ++ [x47; x45; x54]) Eof).

Definition demo_local_acceptor : TcpAcceptor unit := mkTcpAcceptor None 1080 SOCKS [].
Definition demo_local_handler : TcpHandler Verifier unit :=
  mkTcpHandler OutboundTCP TROJAN (Some demo_dest) None (derive_secret TROJAN (Some "hunter2"%string)).

#[local] Abbreviation demo_serve := (serve_connection (N:=DemoNet) (T:=Tcp) (TS:=Tcp) (TC:=Tcp)
  (BC:=OutTcp) (BO:=OutTcp) (U:=UdpScript) (Ch:=ChannelScript) (S:=HunkScript) (Q:=Tcp)).
#[local] Abbreviation demo_result := (relay_result (BC:=OutTcp) (BO:=OutTcp) (U:=UdpScript)
  (Ch:=ChannelScript) (S:=HunkScript) (Q:=Tcp)).

Lemma socks_chain_witness :
  exists (s : session OutTcp OutTcp) (s2 : session OutTcp Tcp),
    (demo_serve demo_local_acceptor demo_local_handler demo_socks_client [true; true]
       demo_network).2 = demo_result (ProxyTcp s) /\
    demo_serve (demo_acceptor None (Some "hunter2"%string)) demo_out_handler
      (demo_tcp (mkSource (written (ss_remote s)) Eof)) [true; true; false] demo_network =
      (demo_dialled, demo_result (DirectTcp s2)) /\
    written (ss_remote s2) `prefix_of` [x47; x45; x54].
Proof.
  destruct (socks_chain (TS:=Tcp) (TC:=Tcp) (BC:=OutTcp) (BO:=OutTcp) (U:=UdpScript) (Ch:=ChannelScript)
    (S:=HunkScript) (Q:=Tcp) demo_local_acceptor demo_local_handler "hunter2"
    (demo_acceptor None (Some "hunter2"%string)) demo_out_handler
    demo_socks_client (Plain demo_socks_client)
    (Plain (demo_tcp (mkSource (socks_wire Connect x00 (IpAddr_ (V4 16909060)) 443 ++ [x47; x45; x54]) Eof)))
    demo_hello_bytes Connect x00 (V4 16909060) 443 [x47; x45; x54] [true; true]
    demo_network (mkDemoNet [demo_dest] (mkSource [x52; x53] Stalled))
    (Plain (demo_tcp (mkSource [x52; x53] Stalled)))) as (s & E & _ & Hremote);
    try (constructor; reflexivity); try apply demo_tcp_inv; try reflexivity.
  - unfold addr_ok, u32_ok. lia.
  - unfold u16_ok. lia.
  - by eexists _, _.
  - destruct (Hremote (demo_tcp (mkSource (written (ss_remote s)) Eof))
      (Plain (demo_tcp (mkSource (written (ss_remote s)) Eof))) [true; true; false]
      demo_network demo_dialled (demo_tcp (mkSource [x52; x53] Stalled))) as (s2 & E2 & Hpre & _);
      try apply demo_tcp_inv; try reflexivity.
    exists s, s2. split; [by rewrite E|]. split; [exact E2|exact Hpre].
Defined.
