(* ===== verification/Startup.v ===== *)
(** * From the configuration file to the servers: src/main.rs, and the [start]
    functions of src/proxy/grpc/server.rs and src/proxy/quic/server.rs

    [main] reads the configuration and starts the server its mode names.  The
    TCP server's [start] is in Server.v; here are the other two: the gRPC server
    up to the calls it serves, the QUIC server with the tasks of its connections,
    both as transition systems.  tonic's server and quinn's endpoint are classes. *)

From Stdlib Require Import ZArith Lia.
From Stdlib Require Import Strings.Byte Strings.String.
From stdpp Require Import base list strings numbers relations.
From S2P Require Import Prelude AsyncIo Conn Cursor Relay Select Pumps Common.
From S2P Require Import Trojan Socks5 Stream GrpcStream Packet Config TcpAcceptor.
From S2P Require Import TcpHandler GrpcProxy Server Interleaving.

#[local] Open Scope nat_scope.

(** [Option::unwrap] *)
Definition unwrap_option {A} (o : option A) : outcome A :=
  match o with
  | Some a => Ok a
  | None => Panic "called `Option::unwrap()` on a `None` value"
  end.

(** [(address, port).to_socket_addrs().unwrap().next()] *)
Definition first_address `{Resolver} (inbound_config : InboundConfig) : outcome (option SocketAddr) :=
  match to_socket_addrs (as_bytes (in_address inbound_config)) (in_port inbound_config) with
  | inl addrs => Ok (head addrs)
  | inr _ => Panic "called `Result::unwrap()` on an `Err` value"
  end.

(** ** grpc/server.rs *)

(** [tokio::fs::read] *)
Class FsRead := { fs_read : string -> list byte + Error }.

(** [tokio::sync::mpsc::channel]; tonic reads the other end for the response. *)
Class Mpsc (Ch Rx : Type) := { channel : nat -> Ch * Rx }.

(** tonic's server: an identity from a certificate and a key, a builder, the
    builder with TLS, and serving a service at an address until it ends. *)
Class TonicServer (N Srv Identity : Type) := {
  from_pem : list byte -> list byte -> Identity;
  builder : Srv;
  tls_config : Identity -> Srv -> Srv + Error;
  serve : Srv -> GrpcProxyService -> SocketAddr -> io N unit;
}.

(** The documented behaviour of the builder: the identity it serves under. *)
Class TonicLawful (N Srv Identity : Type) `{TonicServer N Srv Identity} := {
  secured : Srv -> option Identity;
  secured_builder : secured builder = None;
  secured_tls id srv srv' : tls_config id srv = inl srv' -> secured srv' = Some id;
}.

Section GrpcStart.
Context {N Srv Identity : Type} `{TonicServer N Srv Identity} `{FsRead} `{Resolver} `{Sha224}.

Definition grpc_address (inbound_config : InboundConfig) : outcome SocketAddr :=
  match first_address inbound_config with
  | Ok (Some addr) => Ok addr
  | Ok None => Err (mkError AddrNotAvailable "incorrect address in configuration")
  | Err e => Err e
  | Panic p => Panic p
  | Pending => Pending
  end.

Definition fs_read_outcome (path : string) : outcome (list byte) :=
  match fs_read path with inl bs => Ok bs | inr e => Err e end.

Definition grpc_identity (inbound_config : InboundConfig) : io N (option Identity) :=
  match in_tls inbound_config with
  | Some cfg =>
      let? cert := io_lift (fs_read_outcome (cert_path cfg)) in
      let? key := io_lift (fs_read_outcome (key_path cfg)) in
      io_ret (Some (from_pem cert key))
  | None => io_ret None
  end.

Definition grpc_builder (identity : option Identity) : io N Srv :=
  match identity with
  | Some cfg =>
      match tls_config cfg builder with
      | inl server => io_ret server
      | inr _ => io_panic "Failed to build GRPC server"
      end
  | None => io_ret builder
  end.

(** [start] *)
Definition grpc_start (inbound_config : InboundConfig) (_outbound_config : OutboundConfig) : io N unit :=
  let? address := io_lift (grpc_address inbound_config) in
  let? identity := grpc_identity inbound_config in
  let? server := grpc_builder identity in
  let? acceptor := io_lift (GrpcAcceptor_new inbound_config None).2 in
  let? handler := io_lift (GrpcHandler_new None).2 in
  io_map_err (fun _ => mkError Interrupted "Failed to start grpc server: ")
    (serve server (mkGrpcProxyService acceptor handler) address).
End GrpcStart.

Section GrpcCalls.
Context {N T U S Ch Rx : Type} `{Net N T U} `{AsyncReadExt T} `{!AsyncWrite T} `{!AsyncWriteExt T}.
Context `{TokioCopy}.
Context `{UdpSocket U} `{Resolver} `{Stream S (Hunk + Status)} `{Sender Ch (Hunk + Status)} `{Mpsc Ch Rx}.
Context `{!AsyncReadExt (GrpcDataReaderStream S)}.
#[local] Abbreviation Handled := (hunk_handled (T:=T) (U:=U) (S:=S) (Ch:=Ch)).

(** [GrpcProxyService::tun]: the response, and the task it spawns. *)
Definition tun (self : GrpcProxyService) (request : S) : Rx * (list bool -> io N Handled) :=
  let '(tx, rx) := channel CHANNEL_SIZE in (rx, tun_task self request tx).

(** [GrpcProxyService::tun_multi] *)
Definition tun_multi : outcome unit := Panic "not yet implemented".

(** The served calls: the network, and the calls with the result of their task
    once it has run. *)
Record grpc_server := mkGrpcServer {
  gv_net : N;
  gv_calls : list (S * option (outcome Handled));
}.

Inductive grpc_step (self : GrpcProxyService) : grpc_server -> grpc_server -> Prop :=
| grpc_call n calls request :
    grpc_step self (mkGrpcServer n calls) (mkGrpcServer n (calls ++ [(request, None)]))
| grpc_task n n' before request after sched o :
    (tun self request).2 sched n = (n', o) ->
    grpc_step self (mkGrpcServer n (before ++ (request, None) :: after))
      (mkGrpcServer n' (before ++ (request, Some o) :: after)).

Definition grpc_reachable (self : GrpcProxyService) (n : N) : grpc_server -> Prop :=
  rtc (grpc_step self) (mkGrpcServer n []).
End GrpcCalls.

(** ** quic/server.rs *)

(** quinn's server side: the endpoint, its incoming connections, the handshake
    of one, and the bidirectional streams of an established connection. *)
Class QuinnServer (ServerConfig N L C B Q : Type) := {
  endpoint_server : ServerConfig -> SocketAddr -> io N L;
  incoming_next : L -> io N (option C);
  conn_await : C -> io N B;
  bi_streams_next : B -> io N (option (Q + Error));
}.

Section QuicStart.
Context {File ServerConfig ClientConfig RootCertStore N L C B Q T U : Type}.
Context `{FileSystem File} `{Rustls File ServerConfig ClientConfig RootCertStore} `{Resolver}.
Context `{QuinnServer ServerConfig N L C B Q} `{!Net N T U} `{TokioCopy}.
Context `{AsyncReadExt T} `{!AsyncWrite T} `{!AsyncWriteExt T}.
Context `{AsyncReadExt Q} `{!AsyncWrite Q} `{!AsyncWriteExt Q}.

(** [start], in front of the accept loop. *)
Definition quic_start_setup (inbound_config : InboundConfig) (_outbound_config : OutboundConfig) : io N L :=
  let? addr := io_lift (first_address inbound_config) in
  let? address := io_lift (unwrap_option addr) in
  let? tls := io_lift (unwrap_option (in_tls inbound_config)) in
  let? crypto := io_lift (make_server_config tls) in
  let? server_crypto := io_lift (unwrap_option crypto) in
  unwrap (endpoint_server server_crypto address).

(** The task of one connection: [None] when it returns before a stream. *)
Definition quic_connection (conn : C) (sched : list bool) : io N (option (session Q T)) := fun n =>
  match conn_await conn n with
  | (n', Ok bi_streams) =>
      (let? stream := bi_streams_next bi_streams in
       match stream with
       | Some (inl client) => let? s := quic_serve client sched in io_ret (Some s)
       | Some (inr _) => io_panic "called `Result::unwrap()` on an `Err` value"
       | None => io_ret None
       end) n'
  | (n', Err _) => (n', Ok None)
  | (n', Panic p) => (n', Panic p)
  | (n', Pending) => (n', Pending)
  end.

(** The server: the network, the connections with the result of their task once
    it has run, and [Some o] once [start] has returned. *)
Record quic_server := mkQuicServer {
  qv_net : N;
  qv_tasks : list (C * option (outcome (option (session Q T))));
  qv_returned : option (outcome unit);
}.

Inductive quic_step (socket : L) : quic_server -> quic_server -> Prop :=
| quic_incoming n n' tasks conn :
    incoming_next socket n = (n', Ok (Some conn)) ->
    quic_step socket (mkQuicServer n tasks None) (mkQuicServer n' (tasks ++ [(conn, None)]) None)
| quic_closed n n' tasks :
    incoming_next socket n = (n', Ok None) ->
    quic_step socket (mkQuicServer n tasks None) (mkQuicServer n' tasks (Some (Ok tt)))
| quic_task n n' before conn after sched o returned :
    quic_connection conn sched n = (n', o) ->
    quic_step socket (mkQuicServer n (before ++ (conn, None) :: after) returned)
      (mkQuicServer n' (before ++ (conn, Some o) :: after) returned).

Definition quic_reachable (socket : L) (n : N) : quic_server -> Prop :=
  rtc (quic_step socket) (mkQuicServer n [] None).
End QuicStart.

(** ** main.rs *)

Section Main.
Context {File ServerConfig ClientConfig RootCertStore ServerName : Type}.
Context {N L T U TS TC Srv Identity SL C B Q : Type}.
Context `{FileSystem File} `{ConfigReader File} `{Rustls File ServerConfig ClientConfig RootCertStore}.
Context `{Sha224} `{ServerNames ServerName} `{Listener N L T} `{Resolver}.
Context `{TonicServer N Srv Identity} `{FsRead} `{QuinnServer ServerConfig N SL C B Q}.

(** [CONFIG_PATH]: the argument of [--config] if there is one. *)
Definition CONFIG_PATH (config : option string) : string := default "./config/config.json"%string config.

Definition CONFIG (arg : option string) : outcome (InboundConfig * OutboundConfig) :=
  match read_config (CONFIG_PATH arg) with
  | Ok config => Ok (inbound config, outbound config)
  | Err _ => Panic "Error parsing the config file"
  | Panic p => Panic p
  | Pending => Pending
  end.

(** Where [main] is once the [start] it calls has reached its accept loop; the
    gRPC server's loop is inside tonic, and its [start] returns when that does. *)
Inductive started :=
| TcpLoop (listener : L) (acceptor : TcpAcceptor ServerConfig) (handler : TcpHandler ClientConfig ServerName)
| GrpcReturned
| QuicLoop (socket : SL).

Definition main (arg : option string) : io N started :=
  let? config := io_lift (CONFIG arg) in
  match in_mode config.1 with
  | InboundTCP =>
      let? running := start_setup config.1 config.2 in
      io_ret (TcpLoop running.1.1 running.1.2 running.2)
  | InboundGRPC => grpc_start config.1 config.2 ;;? io_ret GrpcReturned
  | InboundQUIC => let? socket := quic_start_setup config.1 config.2 in io_ret (QuicLoop socket)
  end.
End Main.

(** ** The gRPC server *)

Section GrpcStartTheorems.
Context {N Srv Identity : Type} `{TonicLawful N Srv Identity} `{FsRead} `{Resolver} `{Sha224}.

Lemma grpc_identity_inv inbound (n n' : N) o :
  grpc_identity inbound n = (n', o) ->
  n' = n /\ forall identity, o = Ok identity ->
  match in_tls inbound with
  | Some tls => exists cert key, fs_read (cert_path tls) = inl cert /\
      fs_read (key_path tls) = inl key /\ identity = Some (from_pem cert key)
  | None => identity = None
  end.
Proof.
  unfold grpc_identity, io_bind, io_lift, io_ret, fs_read_outcome.
  destruct (in_tls inbound) as [tls|]; [|intros [= <- <-]; split; [done|by intros ? [= <-]]].
  destruct (fs_read (cert_path tls)) as [cert|e]; [|intros [= <- <-]; by split].
  destruct (fs_read (key_path tls)) as [key|e]; [|intros [= <- <-]; by split].
  intros [= <- <-]. split; [done|]. intros ? [= <-]. eauto.
Qed.

Lemma grpc_builder_inv identity (n n' : N) o :
  grpc_builder identity n = (n', o) ->
  n' = n /\ forall srv : Srv, o = Ok srv -> secured srv = identity.
Proof.
  unfold grpc_builder. destruct identity as [id|].
  - destruct (tls_config id builder) as [srv|e] eqn:E; intros [= <- <-]; (split; [done|]).
    + intros ? [= <-]. by eapply secured_tls.
    + done.
  - intros [= <- <-]. split; [done|]. intros ? [= <-]. apply secured_builder.
Qed.

Lemma grpc_start_inv inbound outbound (n n' : N) o :
  grpc_start inbound outbound n = (n', o) ->
  (n' = n /\ is_ok o = false) \/
  exists srv address addrs o',
    serve srv (mkGrpcProxyService
                 (mkGrpcAcceptor (in_protocol inbound)
                    (derive_secret (in_protocol inbound) (in_secret inbound)))
                 (mkGrpcHandler TROJAN)) address n = (n', o') /\
    is_ok o = is_ok o' /\
    to_socket_addrs (as_bytes (in_address inbound)) (in_port inbound) = inl (address :: addrs) /\
    match in_tls inbound with
    | Some tls => exists cert key, fs_read (cert_path tls) = inl cert /\
        fs_read (key_path tls) = inl key /\ secured srv = Some (from_pem cert key)
    | None => secured srv = None
    end.
Proof.
  unfold grpc_start, io_bind at 1, io_lift at 1, grpc_address, first_address.
  destruct (to_socket_addrs _ _) as [[|address addrs]|e]; simpl; [by intros [= <- <-]; left| |by intros [= <- <-]; left].
  unfold io_bind at 1. destruct (grpc_identity inbound n) as [n1 o1] eqn:E1.
  destruct (grpc_identity_inv _ _ _ _ E1) as [-> Hid].
  destruct o1 as [identity|e|p|]; [|by intros [= <- <-]; left..].
  unfold io_bind at 1. destruct (grpc_builder identity n) as [n2 o2] eqn:E2.
  destruct (grpc_builder_inv _ _ _ _ E2) as [-> Hsec].
  destruct o2 as [srv|e|p|]; [|by intros [= <- <-]; left..].
  unfold io_bind, io_lift, io_map_err; simpl.
  destruct (serve srv _ address n) as [n3 o3] eqn:E3. intros Eo. right.
  exists srv, address, addrs, o3. rewrite (Hsec _ eq_refl). specialize (Hid _ eq_refl).
  destruct o3; simplify_eq; split_and!; done.
Qed.
(** C22: the gRPC server fails closed: [start] either ends in an error or a panic
    before it has touched the network, or it serves, at the first address of the
    configuration, a service that checks the configured secret, and, if TLS is
    configured, under the identity made of the two files it names; unlike the TCP
    server's it is never served in clear instead. *)
Theorem grpc_start_fails_closed inbound outbound (n n' : N) o :
  grpc_start inbound outbound n = (n', o) ->
  (n' = n /\ is_ok o = false) \/
  exists srv address addrs o',
    serve srv (mkGrpcProxyService
                 (mkGrpcAcceptor (in_protocol inbound)
                    (derive_secret (in_protocol inbound) (in_secret inbound)))
                 (mkGrpcHandler TROJAN)) address n = (n', o') /\
    is_ok o = is_ok o' /\
    to_socket_addrs (as_bytes (in_address inbound)) (in_port inbound) = inl (address :: addrs) /\
    match in_tls inbound with
    | Some tls => exists cert key, fs_read (cert_path tls) = inl cert /\
        fs_read (key_path tls) = inl key /\ secured srv = Some (from_pem cert key)
    | None => secured srv = None
    end.
Proof. apply grpc_start_inv. Qed.
End GrpcStartTheorems.

Section GrpcServerTheorems.
Context {N T U S Ch Rx : Type} `{Net N T U} `{AsyncReadExt T} `{!AsyncWrite T} `{!AsyncWriteExt T}.
Context `{TokioCopy}.
Context `{UdpSocket U} `{Resolver} `{HunkSource S} `{Sender Ch (Hunk + Status)} `{Mpsc Ch Rx}.
Context `{!AsyncReadExt (GrpcDataReaderStream S)}.
#[local] Abbreviation reachable := (grpc_reachable (N:=N) (T:=T) (U:=U) (Ch:=Ch) (Rx:=Rx)).

(** The call [s] carries the 56 bytes of the secret in front of its bytes. *)
Definition call_authenticated (self : GrpcProxyService) (s : S) : Prop :=
  length (ga_secret (gs_acceptor self)) = HEX_SIZE /\
  ga_secret (gs_acceptor self) `prefix_of` hunk_bytes (hunks s).

Lemma tun_task_unauthenticated self (s : S) tx sched (n n' : N) o :
  hunks_inv s -> tun_task (Ch:=Ch) (T:=T) (U:=U) self s tx sched n = (n', o) ->
  (n' = n /\ is_ok o = false) \/ call_authenticated self s.
Proof.
  intros Hi. unfold tun_task. destruct (accept_hunk _ s) as [g o1] eqn:E.
  destruct o1 as [q|e|p|]; [|by intros [=<- <-]; left..].
  intros _. right. by apply accept_hunk_sound in E.
Qed.

Lemma grpc_reachable_calls self (n : N) sv :
  reachable self n sv -> Forall (fun c => hunks_inv c.1) (gv_calls sv) ->
  Forall (fun c => forall h, c.2 = Some (Ok h) -> call_authenticated self c.1) (gv_calls sv) /\
  (gv_net sv = n \/ Exists (fun c => c.2 <> None /\ call_authenticated self c.1) (gv_calls sv)).
Proof.
  intros Hr. pattern sv. revert sv Hr. apply rtc_ind_r; [split; [constructor|by left]|].
  intros sv sv' _ Hstep IH. destruct Hstep as [m calls request|m m' before request after sched o E];
    simpl in *; rewrite !Forall_app.
  - intros [Hb Hr]. destruct (IH Hb) as [Hok Hnet]. split.
    + split; [done|]. by constructor.
    + rewrite Exists_app. by destruct Hnet; [left|right; left].
  - intros [Hb [Hs Ha]%Forall_cons]. simpl in Hs. rewrite !Forall_app in IH.
    destruct IH as [[Hokb Hoka] Hnet]; [by split; [|constructor]|].
    apply Forall_cons in Hoka as [_ Hoka]. unfold tun in E. destruct (channel _) as [tx rx].
    destruct (tun_task_unauthenticated _ _ _ _ _ _ _ Hs E) as [[-> Ho]|Hauth].
    + split; [split; [done|constructor; [|done]]|].
      * intros h [= ->]. done.
      * destruct Hnet as [->|Hex]; [by left|right]. rewrite Exists_app in *. destruct Hex as [|Hex]; [by left|].
        apply Exists_cons in Hex as [[? _]|Hex]; [done|]. right. by apply Exists_cons; right.
    + split; [split; [done|by constructor]|]. right. rewrite Exists_app. right.
      by apply Exists_cons; left.
Qed.
(** C21: the gRPC server serves nobody without the password: in every reachable
    state, whatever calls have arrived and however their tasks were scheduled,
    every task that succeeded belongs to a call whose bytes begin with the
    secret; and as long as no task of such a call has run, the network is as it
    was when the server started. *)
Theorem grpc_server_authenticates self (n : N) sv :
  reachable self n sv -> Forall (fun c => hunks_inv c.1) (gv_calls sv) ->
  Forall (fun c => forall h, c.2 = Some (Ok h) -> call_authenticated self c.1) (gv_calls sv) /\
  (gv_net sv = n \/ Exists (fun c => c.2 <> None /\ call_authenticated self c.1) (gv_calls sv)).
Proof. apply grpc_reachable_calls. Qed.
End GrpcServerTheorems.

(** ** The QUIC server *)

Section QuicStartTheorems.
Context {File ServerConfig ClientConfig RootCertStore N L C B Q T U : Type}.
Context `{FileSystem File} `{Rustls File ServerConfig ClientConfig RootCertStore} `{Resolver}.
Context `{QuinnServer ServerConfig N L C B Q} `{!Net N T U} `{TokioCopy}.
Context `{AsyncReadExt T} `{!AsyncWrite T} `{!AsyncWriteExt T}.
Context `{AsyncReadExt Q} `{!AsyncWrite Q} `{!AsyncWriteExt Q}.

(** The QUIC server never starts without TLS: unless TLS is configured and its
    files load, [start] panics with the network untouched. *)
Theorem quic_start_requires_tls inbound outbound (n n' : N) o :
  quic_start_setup inbound outbound n = (n', o) ->
  (n' = n /\ is_panic o = true) \/
  exists tls cfg address addrs o',
    in_tls inbound = Some tls /\ make_server_config tls = Ok (Some cfg) /\
    to_socket_addrs (as_bytes (in_address inbound)) (in_port inbound) = inl (address :: addrs) /\
    endpoint_server cfg address n = (n', o') /\ is_ok o = is_ok o'.
Proof.
  unfold quic_start_setup, io_bind, io_lift, first_address, unwrap_option.
  destruct (to_socket_addrs _ _) as [[|address addrs]|e]; simpl; [by intros [= <- <-]; left| |by intros [= <- <-]; left].
  destruct (in_tls inbound) as [tls|]; [|by intros [= <- <-]; left].
  destruct (make_server_config tls) as [[cfg|]|e|p|] eqn:E.
  - unfold unwrap. destruct (endpoint_server cfg address n) as [n1 o1] eqn:E1. intros Eo. right.
    exists tls, cfg, address, addrs, o1. destruct o1; simplify_eq; done.
  - by intros [= <- <-]; left.
  - unfold make_server_config in E. repeat case_match; done.
  - by intros [= <- <-]; left.
  - unfold make_server_config in E. repeat case_match; done.
Qed.

(** No connection can stop the QUIC server, and nothing but the closing of
    its endpoint does: in every reachable state it is still accepting, and takes
    the next connection that arrives, or it has returned [Ok], after the endpoint
    had no more; connections whose handshake fails and tasks that panic leave it
    running. *)
Theorem quic_server_outlives_tasks socket (n : N) sv :
  quic_reachable (C:=C) (B:=B) (Q:=Q) (T:=T) socket n sv ->
  match qv_returned sv with
  | None => forall n' conn, incoming_next socket (qv_net sv) = (n', Ok (Some conn)) ->
      quic_step (B:=B) (Q:=Q) (T:=T) socket sv
        (mkQuicServer n' (qv_tasks sv ++ [(conn, None)]) None)
  | Some o => o = Ok tt /\ exists n0 n1, incoming_next (C:=C) socket n0 = (n1, Ok None)
  end.
Proof.
  intros Hr. assert (HI : forall o, qv_returned sv = Some o ->
    o = Ok tt /\ exists n0 n1, incoming_next (C:=C) socket n0 = (n1, Ok None)).
  { pattern sv. revert sv Hr. apply rtc_ind_r; [done|].
    intros sv sv' _ Hstep IH o Ho. destruct Hstep; simpl in *; [done|simplify_eq; eauto|by apply IH]. }
  destruct sv as [m tasks [o|]]; simpl in *; [by apply HI|]. intros n' conn E. by constructor.
Qed.
End QuicStartTheorems.

Section TlsPolicy.
Context {File ServerConfig ClientConfig RootCertStore N Srv Identity L C B Q : Type}.
Context `{FileSystem File} `{Rustls File ServerConfig ClientConfig RootCertStore} `{Resolver} `{Sha224}.
Context `{TonicServer N Srv Identity} `{FsRead} `{QuinnServer ServerConfig N L C B Q}.

(** C40: one configuration, three servers, three policies: with TLS configured and
    a certificate file that cannot be opened, the gRPC server ends with the
    error of the file, the QUIC server panics, both with the network untouched,
    and the TCP server goes on without TLS. *)
Theorem missing_certificate_policy inbound outbound tls address addrs e e' (n : N) :
  in_tls inbound = Some tls ->
  to_socket_addrs (as_bytes (in_address inbound)) (in_port inbound) = inl (address :: addrs) ->
  open_file (cert_path tls) = inr e -> fs_read (cert_path tls) = inr e' ->
  (exists acceptor, TcpAcceptor_init inbound None = (Some acceptor, Ok acceptor) /\
     tls_acceptor acceptor = None) /\
  grpc_start inbound outbound n = (n, Err e') /\
  quic_start_setup inbound outbound n =
    (n, Panic "called `Option::unwrap()` on a `None` value").
Proof.
  intros Ht Ha Ho Hf.
  assert (Hm : make_server_config tls = Ok None) by (unfold make_server_config, load_certs; by rewrite Ho).
  split_and!.
  - eexists. unfold TcpAcceptor_init, io_bind, io_lift. rewrite Ht, Hm. by split.
  - unfold grpc_start, io_bind, io_lift, grpc_address, first_address. rewrite Ha; simpl.
    unfold grpc_identity, io_bind, io_lift, fs_read_outcome. by rewrite Ht, Hf.
  - unfold quic_start_setup, io_bind, io_lift, first_address. rewrite Ha; simpl.
    by rewrite Ht; simpl; rewrite Hm.
Qed.
End TlsPolicy.

(** ** The whole program *)

Section TcpProgram.
Context {File ServerConfig ClientConfig RootCertStore ServerName : Type}.
Context `{FileSystem File} `{ConfigReader File} `{Rustls File ServerConfig ClientConfig RootCertStore}.
Context `{Sha224Lawful} `{ServerNames ServerName} `{Resolver} `{TokioCopy}.
Context {N L T TS TC BC BO U G Ch S QC Q : Type} {Srv Identity SL C B SQ : Type}.
#[local] Abbreviation Std := (StandardTcpStream T TS TC).
Context `{Listener N L T} `{TonicServer N Srv Identity} `{FsRead} `{QuinnServer ServerConfig N SL C B SQ}.
Context `{TlsAccept ServerConfig T TS} `{!Net N T U} `{!TlsConnect ClientConfig ServerName T TC}.
Context `{!Buffers Std BC} `{!Buffers Std BO}.
Context `{AsyncReadExt T} `{!ByteSource T} `{!AsyncWrite T} `{!AsyncWriteExt T} `{!ByteSink T} `{!ByteDuplex T}.
Context `{ByteDuplex TS} `{ByteDuplex TC}.
Context `{!AsyncReadExt Std} `{!AsyncWriteExt Std}.
Context `{AsyncReadExt BC} `{!AsyncWrite BC} `{!AsyncWriteExt BC}.
Context `{AsyncReadExt BO} `{!AsyncWrite BO} `{!AsyncWriteExt BO}.
Context `{AsyncReadExt Q} `{!AsyncWrite Q} `{!AsyncWriteExt Q}.
Context `{UdpSocket U} `{Sender Ch Hunk} `{StreamExt S (Hunk + Status)}.
Context `{!AsyncReadExt (GrpcDataReaderStream S)}.
Context `{GrpcClient N G Ch S} `{QuicClient N QC Q}.
#[local] Abbreviation main := (main (N:=N) (L:=L) (T:=T) (Srv:=Srv) (Identity:=Identity) (SL:=SL)
  (C:=C) (B:=B) (Q:=SQ)).

Lemma main_tcp_inv arg (n n' : N) listener acceptor handler :
  main arg n = (n', Ok (TcpLoop listener acceptor handler)) ->
  exists config, read_config (CONFIG_PATH arg) = Ok config /\ in_mode (inbound config) = InboundTCP /\
    TcpAcceptor_init (inbound config) None = (Some acceptor, Ok acceptor) /\
    exists address addrs,
      to_socket_addrs (as_bytes (in_address (inbound config))) (in_port (inbound config)) =
        inl (address :: addrs) /\
      listener_bind address n = (n', Ok listener).
Proof.
  unfold main, io_bind at 1, io_lift at 1, CONFIG.
  destruct (read_config _) as [config| | |]; try done. simpl.
  destruct (in_mode (inbound config)) eqn:Em; intros E; [|by apply io_bind_ok_inv in E as (? & ? & _ & [=])..].
  apply io_bind_ok_inv in E as (n1 & [[l a] h] & E & [= <- <- <- <-]). exists config. split_and!; [done..| |].
  all: unfold start_setup in E; destruct (to_socket_addrs _ _) as [[|address addrs]|e]; try done;
    destruct (listener_bind address n) as [n2 [l2|e|p|]] eqn:El; try done;
    destruct (TcpAcceptor_init _ _) as [ca oa] eqn:Ea; destruct (TcpHandler_init _ _) as [ch oh];
    destruct oa, oh; simplify_eq; try done.
  - by destruct (TcpAcceptor_init_inv _ _ _ Ea) as [-> _].
  - eauto.
Qed.

(** C2: from the configuration file to the relays of the TCP server: if the file
    names the TCP mode, the Trojan protocol and a password, then once [main] is in
    its accept loop, and in every state the server reaches from there, the steps of
    all its tasks interleaved in any order, every connection that got past [accept]
    began, inside TLS if it is in use, with the hexadecimal SHA-224 of that
    password: nothing is dialled and nothing relayed for anybody else. *)
Theorem main_tcp_requires_password arg config password (n n' : N) listener acceptor handler fs t p :
  read_config (CONFIG_PATH arg) = Ok config ->
  in_protocol (inbound config) = TROJAN -> in_secret (inbound config) = Some password ->
  main arg n = (n', Ok (TcpLoop listener acceptor handler)) ->
  (forall t (s : Std), spoken_on acceptor t s -> src_inv s) ->
  fine_reachable (TS:=TS) (TC:=TC) (BC:=BC) (BO:=BO) (U:=U) (Ch:=Ch) (S:=S) (Q:=Q)
    listener acceptor handler n' fs ->
  (t, p) ∈ fs_tasks fs -> past_accept p ->
  authenticated (TS:=TS) (TC:=TC) acceptor password t.
Proof.
  intros Hc Hp Hs E Hinv Hr Hin Hpast. destruct (main_tcp_inv _ _ _ _ _ _ E) as (config' & Hc' & _ & Ea & _).
  rewrite Hc in Hc'. injection Hc' as <-. destruct (TcpAcceptor_init_inv _ _ _ Ea) as (_ & _ & Hpr & Hsec & _).
  rewrite Hp in Hpr, Hsec. rewrite Hs in Hsec.
  destruct (fine_past_accept _ _ _ _ _ _ _ Hr Hin Hpast) as (s & q & Eacc).
  by eapply accepted_authenticated.
Qed.
End TcpProgram.

Section GrpcProgram.
Context {File ServerConfig ClientConfig RootCertStore ServerName : Type}.
Context `{FileSystem File} `{ConfigReader File} `{Rustls File ServerConfig ClientConfig RootCertStore}.
Context `{Sha224} `{ServerNames ServerName} `{Resolver} `{TokioCopy}.
Context {N L T U S Ch Rx Srv Identity SL C B SQ : Type}.
Context `{Listener N L T} `{TonicLawful N Srv Identity} `{FsRead} `{QuinnServer ServerConfig N SL C B SQ}.
Context `{!Net N T U} `{AsyncReadExt T} `{!AsyncWrite T} `{!AsyncWriteExt T}.
Context `{UdpSocket U} `{HunkSource S} `{Sender Ch (Hunk + Status)} `{Mpsc Ch Rx}.
Context `{!AsyncReadExt (GrpcDataReaderStream S)}.
#[local] Abbreviation main := (main (ServerName:=ServerName) (N:=N) (L:=L) (T:=T) (Srv:=Srv) (Identity:=Identity)
  (SL:=SL) (C:=C) (B:=B) (Q:=SQ)).

Lemma main_grpc arg config (n : N) :
  read_config (CONFIG_PATH arg) = Ok config -> in_mode (inbound config) = InboundGRPC ->
  main arg n = (grpc_start (inbound config) (outbound config) ;;? io_ret GrpcReturned) n.
Proof.
  intros Hc Hm. unfold main, io_bind at 1, io_lift at 1, CONFIG. rewrite Hc; simpl. by rewrite Hm.
Qed.

(** C12: from the configuration file to the calls of the gRPC server: if the file
    names the gRPC mode, the Trojan protocol and a password, then [main] fails
    with the network untouched, or it serves one service (over TLS if TLS is
    configured), and in every state that service reaches, every call whose task
    succeeded began with the hexadecimal SHA-224 of that password. *)
Theorem main_grpc_requires_password arg config password (n n' : N) o :
  read_config (CONFIG_PATH arg) = Ok config -> in_mode (inbound config) = InboundGRPC ->
  in_protocol (inbound config) = TROJAN -> in_secret (inbound config) = Some password ->
  main arg n = (n', o) ->
  (n' = n /\ is_ok o = false) \/
  exists srv self address o', serve srv self address n = (n', o') /\
    (in_tls (inbound config) <> None -> secured srv <> None) /\
    forall m sv, grpc_reachable (T:=T) (U:=U) (Ch:=Ch) (Rx:=Rx) (S:=S) self m sv ->
      Forall (fun c => hunks_inv c.1) (gv_calls sv) ->
      Forall (fun c => forall h, c.2 = Some (Ok h) ->
        hex_encode (digest (as_bytes password)) `prefix_of` hunk_bytes (hunks c.1)) (gv_calls sv).
Proof.
  intros Hc Hm Hp Hs. rewrite (main_grpc _ _ _ Hc Hm). unfold io_bind.
  destruct (grpc_start _ _ n) as [n1 o1] eqn:E. intros Eo.
  destruct (grpc_start_inv _ _ _ _ _ E) as [[-> Ho]|(srv & address & addrs & o' & Es & _ & _ & Ht)].
  - left. destruct o1; try discriminate Ho; injection Eo as <- <-; by split.
  - right. assert (n1 = n') as -> by (destruct o1 as [[]| | |]; by injection Eo).
    eexists srv, _, address, o'. split; [exact Es|]. split.
    + intros Htls. destruct (in_tls (inbound config)) as [tls|]; [|done].
      by destruct Ht as (cert & key & _ & _ & ->).
    + intros m sv Hr Hi. destruct (grpc_reachable_calls _ _ _ Hr Hi) as [Hok _].
      eapply Forall_impl; [exact Hok|]. simpl. intros c Hauth h Eh. rewrite Hp, Hs in Hauth.
      apply (Hauth h Eh).
Qed.
End GrpcProgram.

Section QuicProgram.
Context {File ServerConfig ClientConfig RootCertStore ServerName : Type}.
Context `{FileSystem File} `{ConfigReader File} `{Rustls File ServerConfig ClientConfig RootCertStore}.
Context `{Sha224} `{ServerNames ServerName} `{Resolver}.
Context {N L T Srv Identity SL C B SQ : Type}.
Context `{Listener N L T} `{TonicServer N Srv Identity} `{FsRead} `{QuinnServer ServerConfig N SL C B SQ}.
#[local] Abbreviation main := (main (ServerName:=ServerName) (N:=N) (L:=L) (T:=T) (Srv:=Srv) (Identity:=Identity)
  (SL:=SL) (C:=C) (B:=B) (Q:=SQ)).

(** Two inbound configurations that differ in the protocol and the secret only. *)
Definition same_but_secret (i1 i2 : InboundConfig) : Prop :=
  in_mode i1 = in_mode i2 /\ in_address i1 = in_address i2 /\ in_port i1 = in_port i2 /\
  in_tls i1 = in_tls i2.

(** In QUIC mode the password and the protocol of the configuration have no
    effect, nor has anything of the outbound section: [main] does the same on two
    configuration files that differ in those only; what it hands to the accept
    loop is the endpoint alone. *)
Theorem main_quic_ignores_secret arg1 arg2 config1 config2 (n : N) :
  read_config (CONFIG_PATH arg1) = Ok config1 -> read_config (CONFIG_PATH arg2) = Ok config2 ->
  in_mode (inbound config1) = InboundQUIC -> same_but_secret (inbound config1) (inbound config2) ->
  main arg1 n = main arg2 n.
Proof.
  intros Hc1 Hc2 Hm (Hmode & Ha & Hp & Ht). unfold main, io_bind, io_lift, CONFIG. rewrite Hc1, Hc2; simpl.
  rewrite <- Hmode, Hm. unfold quic_start_setup, io_bind, io_lift, first_address.
  by rewrite Ha, Hp, Ht.
Qed.
End QuicProgram.

(** ** Witnesses *)

(** A host that resolves every name to its loopback address. *)
#[local] Instance loopback_resolver : Resolver := {
  to_socket_addrs := fun _ p => inl [mkSocketAddr (V4 2130706433) p]
}.

#[local] Existing Instance buffered_copy.

#[local] Abbreviation Tcp := (Joined source Cursor).
#[local] Abbreviation OutTcp := (StandardTcpStream Tcp Tcp Tcp).

(** Configuration files, by their names. *)
Definition demo_inbound_of (mode : InboundMode) (secret : option string)
    (tls : option InboundTlsConfig) : InboundConfig :=
  mkInbound mode TROJAN "localhost" 8081 secret tls.

Definition demo_outbound : OutboundConfig := mkOutbound OutboundDIRECT TROJAN None None None None.

Definition demo_tls : InboundTlsConfig := mkInboundTls "cert" "key".

#[export] Instance demo_config_reader : ConfigReader string := {
  serde_from_reader := fun path =>
    if decide (path = "tcp.json"%string)
    then inl (mkConfig (demo_inbound_of InboundTCP (Some "hunter2"%string) None) demo_outbound)
    else if decide (path = "grpc.json"%string)
    then inl (mkConfig (demo_inbound_of InboundGRPC (Some "hunter2"%string) (Some demo_tls)) demo_outbound)
    else if decide (path = "quic.json"%string)
    then inl (mkConfig (demo_inbound_of InboundQUIC (Some "hunter2"%string) (Some demo_tls)) demo_outbound)
    else if decide (path = "open.json"%string)
    then inl (mkConfig (demo_inbound_of InboundQUIC None (Some demo_tls)) demo_outbound)
    else inr (mkError InvalidData "expected value")
}.

#[export] Instance demo_fs_read : FsRead := {
  fs_read := fun path =>
    match open_file path with inl file => inl (as_bytes file) | inr e => inr e end
}.

(** A tonic server that serves for ever once it has bound its address. *)
#[export] Instance demo_tonic : TonicServer DemoNet (option (list byte)) (list byte) := {
  from_pem := fun cert key => cert ++ key;
  builder := None;
  tls_config := fun id _ => inl (Some id);
  serve := fun _ _ a n => (mkDemoNet (dialled n ++ [a]) (to_deliver n), Pending)
}.

#[export] Program Instance demo_tonic_lawful : TonicLawful DemoNet (option (list byte)) (list byte) := {
  secured := fun srv => srv
}.
Next Obligation. done. Qed.
Next Obligation. intros id srv srv' [= <-]. done. Qed.

(** A QUIC endpoint with one peer, whose handshake succeeds. *)
#[export] Instance demo_quinn : QuinnServer unit DemoNet bool Tcp Tcp Tcp := {
  endpoint_server := fun _ a n => (mkDemoNet (dialled n ++ [a]) (to_deliver n), Ok true);
  incoming_next := fun l n => (n, Ok (if l then Some demo_socket else None));
  conn_await := fun c n => (n, Ok c);
  bi_streams_next := fun b n => (n, Ok (Some (inl b)))
}.

#[export] Instance demo_mpsc : Mpsc ReplyChannel unit := { channel := fun _ => (mkReplies [], tt) }.

Definition demo_grpc_inbound : InboundConfig :=
  demo_inbound_of InboundGRPC (Some "hunter2"%string) (Some demo_tls).

Lemma grpc_start_fails_closed_witness :
  exists cert key, fs_read (cert_path demo_tls) = inl cert /\ fs_read (key_path demo_tls) = inl key.
Proof.
  destruct (grpc_start_fails_closed demo_grpc_inbound demo_outbound demo_network _ _
    (surjective_pairing _)) as [[Hn _]|(srv & a & addrs & o' & _ & _ & _ & cert & key & Hc & Hk & _)].
  - vm_compute in Hn. discriminate Hn.
  - exists cert, key. exact (conj Hc Hk).
Defined.

#[local] Abbreviation DemoCalls := (grpc_reachable (N:=DemoNet) (T:=Tcp) (U:=UdpScript)
  (S:=HunkScript) (Ch:=ReplyChannel) (Rx:=unit)).

Definition demo_guarded : GrpcProxyService :=
  demo_service (derive_secret TROJAN (Some "hunter2"%string)).

(** A call without the password has arrived and been refused. *)
Definition demo_refused := (tun (N:=DemoNet) (T:=Tcp) (U:=UdpScript) (Ch:=ReplyChannel) (Rx:=unit)
  demo_guarded demo_call).2 [] demo_network.

Definition demo_calls := mkGrpcServer demo_refused.1 [(demo_call, Some demo_refused.2)].

Lemma demo_calls_reachable : DemoCalls demo_guarded demo_network demo_calls.
Proof.
  eapply rtc_l; [apply (grpc_call demo_guarded demo_network [] demo_call)|].
  eapply rtc_l; [|apply rtc_refl].
  apply (grpc_task _ _ _ [] demo_call [] []). apply surjective_pairing.
Qed.

Lemma demo_calls_inv : Forall (fun c => hunks_inv c.1) (gv_calls demo_calls).
Proof. repeat constructor. Qed.

Lemma grpc_server_authenticates_witness :
  gv_net demo_calls = demo_network \/
  Exists (fun c => c.2 <> None /\ call_authenticated demo_guarded c.1) (gv_calls demo_calls).
Proof.
  exact (proj2 (grpc_server_authenticates (Rx:=unit) demo_guarded demo_network demo_calls
    demo_calls_reachable demo_calls_inv)).
Defined.

Definition demo_quic_inbound (tls : option InboundTlsConfig) : InboundConfig :=
  demo_inbound_of InboundQUIC (Some "hunter2"%string) tls.

Lemma quic_start_requires_tls_witness :
  is_panic (quic_start_setup (demo_quic_inbound None) demo_outbound demo_network).2 = true.
Proof.
  destruct (quic_start_requires_tls (demo_quic_inbound None) demo_outbound demo_network _ _
    (surjective_pairing _)) as [[_ Hp]|(tls & _ & _ & _ & _ & Ht & _)].
  - exact Hp.
  - discriminate Ht.
Defined.

Lemma quic_server_outlives_tasks_witness :
  quic_step (Q:=Tcp) (T:=Tcp) true (mkQuicServer demo_network [] None)
    (mkQuicServer demo_network [(demo_socket, None)] None).
Proof.
  refine (quic_server_outlives_tasks (Q:=Tcp) (T:=Tcp) true demo_network
    (mkQuicServer demo_network [] None) (rtc_refl _ _) demo_network demo_socket _).
  reflexivity.
Defined.

Lemma missing_certificate_policy_witness :
  quic_start_setup (demo_quic_inbound (Some (mkInboundTls "missing" "key"))) demo_outbound demo_network =
    (demo_network, Panic "called `Option::unwrap()` on a `None` value").
Proof.
  refine (proj2 (proj2 (missing_certificate_policy
    (demo_quic_inbound (Some (mkInboundTls "missing" "key"))) demo_outbound
    (mkInboundTls "missing" "key") (mkSocketAddr (V4 2130706433) 8081) []
    (mkError OtherKind "No such file or directory") (mkError OtherKind "No such file or directory")
    demo_network _ _ _ _))); reflexivity.
Defined.

#[local] Abbreviation demo_main := (main (ServerName:=unit) (T:=Tcp) (Srv:=option (list byte))
  (Identity:=list byte) (C:=Tcp) (B:=Tcp) (Q:=Tcp)).

#[local] Abbreviation demo_fine_step := (fine_step (N:=DemoNet) (T:=Tcp) (TS:=Tcp) (TC:=Tcp)
  (BC:=OutTcp) (BO:=OutTcp) (U:=UdpScript) (Ch:=ChannelScript) (S:=HunkScript) (Q:=Tcp) true
  (demo_acceptor None (Some "hunter2"%string)) demo_out_handler).

Definition demo_accepted := after_accept (T:=Tcp) (TS:=Tcp) (TC:=Tcp) (BC:=OutTcp)
  (BO:=OutTcp) (U:=UdpScript) (Ch:=ChannelScript) (S:=HunkScript) (Q:=Tcp)
  (tcp_accept (demo_acceptor None (Some "hunter2"%string)) demo_socket).

(** A client has connected and been accepted, and another one has connected. *)
Definition demo_fine := mkFine (N:=DemoNet) demo_network
  [(demo_socket, demo_accepted); (demo_socket, Accepting)] None.

Lemma demo_fine_reachable : rtc demo_fine_step (mkFine demo_network [] None) demo_fine.
Proof.
  eapply rtc_l; [eapply fine_listen; reflexivity|].
  eapply rtc_l; [eapply fine_listen; reflexivity|].
  eapply rtc_l; [apply (fine_accept _ _ _ _ _ _ 0 demo_socket); reflexivity|]. apply rtc_refl.
Qed.

Lemma main_tcp_requires_password_witness :
  authenticated (TS:=Tcp) (TC:=Tcp) (demo_acceptor None (Some "hunter2"%string)) "hunter2" demo_socket.
Proof.
  refine (main_tcp_requires_password (BC:=OutTcp) (BO:=OutTcp) (Q:=Tcp) (Srv:=option (list byte))
    (Identity:=list byte) (C:=Tcp) (B:=Tcp) (SQ:=Tcp) (Some "tcp.json"%string)
    (mkConfig (demo_inbound_of InboundTCP (Some "hunter2"%string) None) demo_outbound) "hunter2"
    demo_network demo_network true (demo_acceptor None (Some "hunter2"%string)) demo_out_handler
    demo_fine demo_socket demo_accepted eq_refl eq_refl eq_refl _ demo_spoken_tcp
    demo_fine_reachable _ _).
  - vm_compute. reflexivity.
  - left.
  - vm_compute. exact I.
Defined.

Lemma demo_grpc_config :
  read_config (CONFIG_PATH (Some "grpc.json"%string)) = Ok (mkConfig demo_grpc_inbound demo_outbound).
Proof. reflexivity. Qed.

Lemma main_grpc_requires_password_witness :
  exists srv : option (list byte), secured srv <> None.
Proof.
  destruct (main_grpc_requires_password (T:=Tcp) (U:=UdpScript) (S:=HunkScript) (Ch:=ReplyChannel)
    (Rx:=unit) (Srv:=option (list byte)) (ServerName:=unit) (C:=Tcp) (B:=Tcp) (SQ:=Tcp)
    (Some "grpc.json"%string) (mkConfig demo_grpc_inbound demo_outbound) "hunter2" demo_network _ _
    demo_grpc_config eq_refl eq_refl eq_refl (surjective_pairing _))
    as [[Hn _]|(srv & self & a & o' & _ & Hsec & _)].
  - vm_compute in Hn. discriminate Hn.
  - exists srv. apply Hsec. discriminate.
Defined.

Lemma main_quic_ignores_secret_witness :
  demo_main (Some "quic.json"%string) demo_network = demo_main (Some "open.json"%string) demo_network.
Proof.
  refine (main_quic_ignores_secret (ServerName:=unit) (T:=Tcp) (Srv:=option (list byte))
    (Identity:=list byte) (C:=Tcp) (B:=Tcp) (SQ:=Tcp)
    (Some "quic.json"%string) (Some "open.json"%string)
    (mkConfig (demo_quic_inbound (Some demo_tls)) demo_outbound)
    (mkConfig (demo_inbound_of InboundQUIC None (Some demo_tls)) demo_outbound)
    demo_network eq_refl eq_refl eq_refl _).
  split_and!; reflexivity.
Defined.
